(** * Incremental conversion-and-captioning pipeline

    A shallow embedding of [reference/markdown_rewriter.py] and
    [reference/converter_runner.py], with the properties of the caption
    rewriter and of the conversion runner stated over it.

    Python strings are sequences of Unicode code points; they are modelled
    as lists of [N].  Loops over string indices are written as recursion
    over the remaining suffix together with the absolute index. *)

From Stdlib Require Import String Ascii.
From Stdlib Require Import NArith ZArith List Bool Arith Lia Permutation.
Import ListNotations.

(* ===================================================================== *)
(** * Python string primitives *)
(* ===================================================================== *)

Module Py.

Definition char := N.
Definition str := list char.

(** ASCII literals: one code point per character of the literal. *)
Definition lit (s : string) : str := map N_of_ascii (list_ascii_of_string s).

Definition LF : char := 10%N.
Definition CR : char := 13%N.
Definition SPACE : char := 32%N.
Definition BACKSLASH : char := 92%N.
Definition LBRACKET : char := 91%N.
Definition RBRACKET : char := 93%N.
Definition LPAREN : char := 40%N.
Definition RPAREN : char := 41%N.
Definition LANGLE : char := 60%N.
Definition RANGLE : char := 62%N.
Definition BANG : char := 33%N.
Definition SLASH : char := 47%N.
Definition DOT : char := 46%N.

Definition str_eq_dec : forall a b : str, {a = b} + {a <> b} :=
  list_eq_dec N.eq_dec.

Definition str_eqb (a b : str) : bool :=
  if str_eq_dec a b then true else false.

(** [bool(s)]: a string is truthy when it is not empty. *)
Definition truthy (s : str) : bool :=
  match s with [] => false | _ => true end.

(** [a or b] on strings. *)
Definition or_else (a b : str) : str := if truthy a then a else b.

(** [c.isspace()] for one code point: the code points whose bidirectional
    class is WS, B or S, or whose category is Zs. *)
Definition isspace (c : char) : bool :=
  ((9 <=? c) && (c <=? 13) || (28 <=? c) && (c <=? 32)
   || (c =? 133) || (c =? 160) || (c =? 5760)
   || (8192 <=? c) && (c <=? 8202)
   || (c =? 8232) || (c =? 8233) || (c =? 8239) || (c =? 8287)
   || (c =? 12288))%N.

(** Line boundaries of [str.splitlines]. *)
Definition islinebreak (c : char) : bool :=
  ((10 <=? c) && (c <=? 13) || (28 <=? c) && (c <=? 30)
   || (c =? 133) || (c =? 8232) || (c =? 8233))%N.

Fixpoint lstrip (s : str) : str :=
  match s with
  | [] => []
  | c :: rest => if isspace c then lstrip rest else s
  end.

Definition rstrip (s : str) : str := rev (lstrip (rev s)).

Definition strip (s : str) : str := lstrip (rstrip s).

(** A string is blank when stripping leaves nothing: [not s.strip()]. *)
Definition blank (s : str) : bool := negb (truthy (strip s)).

Fixpoint startswith (pat s : str) : bool :=
  match pat, s with
  | [], _ => true
  | _ :: _, [] => false
  | p :: pat', c :: s' => N.eqb p c && startswith pat' s'
  end.

Definition endswith (pat s : str) : bool := startswith (rev pat) (rev s).

(** [text[a:b]] for [0 <= a], [0 <= b]. *)
Definition slice (a b : nat) (s : str) : str := firstn (b - a) (skipn a s).

(** [text.find(pat, i)], searched on the suffix [text[i:]]. *)
Fixpoint find_at (pat s : str) (i : nat) : option nat :=
  if startswith pat s then Some i
  else match s with
       | [] => None
       | _ :: s' => find_at pat s' (S i)
       end.

Definition str_find (pat text : str) (start : nat) : option nat :=
  if start <=? length text then find_at pat (skipn start text) start else None.

(** [sep.join(parts)] *)
Fixpoint join (sep : str) (parts : list str) : str :=
  match parts with
  | [] => []
  | [p] => p
  | p :: ps => p ++ sep ++ join sep ps
  end.

(** [text.splitlines()]: [cur] is the line being read. *)
Fixpoint splitlines_from (cur : str) (s : str) : list str :=
  match s with
  | [] => match cur with [] => [] | _ => [cur] end
  | c :: rest =>
      if islinebreak c then
        cur :: splitlines_from []
                 (if N.eqb c CR
                  then match rest with
                       | c' :: rest' => if N.eqb c' LF then rest' else rest
                       | [] => rest
                       end
                  else rest)
      else splitlines_from (cur ++ [c]) rest
  end.

Definition splitlines (s : str) : list str := splitlines_from [] s.

(** Decimal digits of a natural number, as [str(n)] and [f"{n}"] give. *)
Fixpoint digits_fuel (fuel n : nat) (acc : str) : str :=
  match fuel with
  | O => acc
  | S fuel' =>
      let acc' := N.of_nat (48 + n mod 10) :: acc in
      if n <? 10 then acc' else digits_fuel fuel' (n / 10) acc'
  end.

Definition str_of_nat (n : nat) : str := digits_fuel (S n) n [].

Definition str_of_Z (z : Z) : str :=
  if (z <? 0)%Z then 45%N :: str_of_nat (Z.to_nat (- z)) else str_of_nat (Z.to_nat z).

(** [f"{n:03d}"]: zero padded to at least three digits. *)
Definition pad3 (n : nat) : str :=
  let d := str_of_nat n in
  repeat 48%N (3 - length d) ++ d.

(** ** Pure POSIX paths

    A path is kept as its string.  [path_name] and [path_stem] follow
    [PurePosixPath.name] and [PurePosixPath.stem]. *)

Definition Path := str.

(** [s.split(sep)] for a one-character separator. *)
Fixpoint split_on (sep : char) (cur : str) (s : str) : list str :=
  match s with
  | [] => [cur]
  | c :: rest =>
      if N.eqb c sep then cur :: split_on sep [] rest
      else split_on sep (cur ++ [c]) rest
  end.

(** The components of a path: empty components and [.] are dropped. *)
Definition path_components (s : str) : list str :=
  filter (fun p => negb (str_eqb p [] || str_eqb p [DOT])) (split_on SLASH [] s).

Definition path_name (s : str) : str := last (path_components s) [].

(** [name.rfind(".")] *)
Fixpoint rfind_from (c : char) (s : str) (i : nat) (found : option nat) : option nat :=
  match s with
  | [] => found
  | x :: rest => rfind_from c rest (S i) (if N.eqb x c then Some i else found)
  end.

Definition path_stem (s : str) : str :=
  let name := path_name s in
  match rfind_from DOT name 0 None with
  | Some i => if (0 <? i) && (i <? length name - 1) then firstn i name else name
  | None => name
  end.

(** [PurePosixPath.suffix] *)
Definition path_suffix (s : str) : str :=
  let name := path_name s in
  match rfind_from DOT name 0 None with
  | Some i => if (0 <? i) && (i <? length name - 1) then skipn i name else []
  | None => []
  end.

Definition is_absolute (s : str) : bool := startswith [SLASH] s.

(** [str(PurePosixPath(s))]: repeated and trailing slashes and [.]
    components go away; exactly two leading slashes are kept. *)
Definition path_root (s : str) : str :=
  match s with
  | a :: b :: c :: _ =>
      if N.eqb a SLASH then
        if N.eqb b SLASH then (if N.eqb c SLASH then [SLASH] else [SLASH; SLASH])
        else [SLASH]
      else []
  | [a; b] =>
      if N.eqb a SLASH then (if N.eqb b SLASH then [SLASH; SLASH] else [SLASH]) else []
  | [a] => if N.eqb a SLASH then [SLASH] else []
  | [] => []
  end.

Definition path_of_str (s : str) : Path :=
  match path_root s ++ join [SLASH] (path_components s) with
  | [] => [DOT]
  | p => p
  end.

(** ** Dictionaries

    A [dict] keeps its keys in insertion order; assigning to a key that is
    present keeps its place. *)

Definition dict (V : Type) := list (str * V).

Fixpoint dict_get {V : Type} (d : dict V) (k : str) : option V :=
  match d with
  | [] => None
  | (k', v) :: d' => if str_eqb k' k then Some v else dict_get d' k
  end.

Fixpoint dict_set {V : Type} (d : dict V) (k : str) (v : V) : dict V :=
  match d with
  | [] => [(k, v)]
  | (k', v') :: d' =>
      if str_eqb k' k then (k', v) :: d' else (k', v') :: dict_set d' k v
  end.

Definition dict_keys {V : Type} (d : dict V) : list str := map fst d.

(** ** Calls that may raise *)

(** A call returns a value or raises; [str(exc)] is the message. *)
Inductive Result (A : Type) :=
| Ok (a : A)
| Raise (msg : str).

Arguments Ok {A} a.
Arguments Raise {A} msg.

(** The first exception of a sequence of calls, each of which returns
    ([None]) or raises. *)
Fixpoint first_raised (calls : list (option str)) : option str :=
  match calls with
  | [] => None
  | Some msg :: _ => Some msg
  | None :: rest => first_raised rest
  end.

(** The number a string of decimal digits stands for. *)
Definition digit_value (acc : nat) (d : char) : nat := 10 * acc + (N.to_nat d - 48).

Definition value_of (s : str) : nat := fold_left digit_value s 0.

End Py.

Import Py.

(* ===================================================================== *)
(** * reference/markdown_rewriter.py *)
(* ===================================================================== *)

Module Rewriter.

Definition CAPTION_START_MARKER : str := lit "<!---MEDIA CAPTION STARTS --->".
Definition CAPTION_END_MARKER : str := lit "<!---MEDIA CAPTION ENDS --->".

(** The fallback caption of last resort, the five code points of
    U+005B U+C774 U+BBF8 U+C9C0 U+005D. *)
Definition PLACEHOLDER : str := [91; 51060; 48120; 51648; 93]%N.

Record _ImageTag := {
  start : nat;
  end_ : nat;
  alt_text : str;
  destination : str
}.

(** ** The scanner *)

(** The loop of [_find_closing_bracket]: [s] is [text[i:]]. *)
Fixpoint closing_bracket_at (s : str) (i : nat) : option nat :=
  match s with
  | [] => None
  | c :: rest =>
      if N.eqb c BACKSLASH then
        match rest with
        | [] => None
        | _ :: rest' => closing_bracket_at rest' (i + 2)
        end
      else if N.eqb c RBRACKET then Some i
      else closing_bracket_at rest (i + 1)
  end.

(** [None] stands for the result [-1]. *)
Definition _find_closing_bracket (text : str) (start : nat) : option nat :=
  closing_bracket_at (skipn start text) start.

(** The loop of [_find_matching_paren]: [s] is [text[i:]]. *)
Fixpoint matching_paren_at (s : str) (i : nat) (depth : nat) : option nat :=
  match s with
  | [] => None
  | c :: rest =>
      if N.eqb c BACKSLASH then
        match rest with
        | [] => None
        | _ :: rest' => matching_paren_at rest' (i + 2) depth
        end
      else if N.eqb c LPAREN then matching_paren_at rest (i + 1) (depth + 1)
      else if N.eqb c RPAREN then
        if (depth - 1 =? 0)%nat then Some i
        else matching_paren_at rest (i + 1) (depth - 1)
      else matching_paren_at rest (i + 1) depth
  end.

Definition _find_matching_paren (text : str) (start : nat) : option nat :=
  matching_paren_at (skipn start text) start 1.

(** The [for char in cleaned] loop of [_extract_destination]. *)
Fixpoint read_destination (escape : bool) (s : str) : str :=
  match s with
  | [] => []
  | c :: rest =>
      if escape then c :: read_destination false rest
      else if N.eqb c BACKSLASH then read_destination true rest
      else if isspace c then []
      else c :: read_destination false rest
  end.

Definition _extract_destination (raw : str) : str :=
  let cleaned := strip raw in
  if negb (truthy cleaned) then []
  else
    match (if startswith [LANGLE] cleaned then str_find [RANGLE] cleaned 0 else None) with
    | Some closing => slice 1 closing cleaned
    | None => read_destination false cleaned
    end.

(** The [while idx < length] loop of [_find_image_tags].  Every turn moves
    [idx] forward, so [fuel] bounds the number of turns; [None] is a loop
    cut short by the bound. *)
Fixpoint find_image_tags_from (fuel : nat) (text : str) (idx : nat)
  : option (list _ImageTag) :=
  match fuel with
  | O => None
  | S fuel' =>
      if idx <? length text then
        match str_find [BANG; LBRACKET] text idx with
        | None => Some []
        | Some start =>
            let alt_start := start + 2 in
            match _find_closing_bracket text alt_start with
            | None => Some []
            | Some alt_end =>
                if (length text <=? alt_end + 1)
                   || negb (N.eqb (nth (alt_end + 1) text 0%N) LPAREN)
                then find_image_tags_from fuel' text (alt_end + 1)
                else
                  let dest_start := alt_end + 2 in
                  match _find_matching_paren text dest_start with
                  | None => find_image_tags_from fuel' text (alt_end + 1)
                  | Some dest_end =>
                      let raw_destination := slice dest_start dest_end text in
                      let tag := {| start := start;
                                    end_ := dest_end + 1;
                                    alt_text := slice alt_start alt_end text;
                                    destination := _extract_destination raw_destination |} in
                      option_map (cons tag)
                        (find_image_tags_from fuel' text (dest_end + 1))
                  end
            end
        end
      else Some []
  end.

Definition _find_image_tags (text : str) : list _ImageTag :=
  match find_image_tags_from (S (length text)) text 0 with
  | Some tags => tags
  | None => []
  end.

Definition _normalize_markdown (text : str) : str :=
  let lines := splitlines text in
  let normalized := join [LF] (map rstrip lines) in
  match lines with
  | [] => normalized
  | _ => normalized ++ [LF]
  end.

(** ** The surroundings of one rewrite pass

    What the pass reads from outside the module: the standard library's
    [unquote] and [sha1], the file system as seen from the directory of the
    markdown file, the environment, the key check of the captioning
    collaborator and the vision service. *)

Inductive CacheFile :=
| NoFile                      (* media_captions.json is absent *)
| Unreadable                  (* present; reading or parsing it raises *)
| NotAnObject                 (* present; valid JSON that is not an object *)
| Stored (d : dict str).      (* present; its string-to-string entries *)

Record Env := {
  unquote : str -> str;
  root_join_resolve : str -> Path;       (* (root_dir / cleaned).resolve() *)
  under_root : Path -> bool;             (* relative_to(root_dir.resolve()) *)
  exists_error : Path -> option str;     (* p.exists() raises OSError: its message *)
  path_exists : Path -> bool;            (* what p.exists() returns otherwise *)
  rglob_error : str -> option str;       (* root_dir.rglob(name) raises ValueError *)
  rglob : str -> list Path;              (* what it yields otherwise, in order *)
  is_file : Path -> bool;
  resolve_posix : Path -> option str;    (* p.resolve().as_posix(); None: OSError *)
  read_bytes : Path -> option (list N);  (* None: OSError *)
  sha1_hexdigest : list N -> str;
  environ_vision_model : option str;     (* MSDR_GEMINI_VISION_MODEL *)
  api_key_present : bool;                (* ensure_api_key("gemini") returns *)
  service_captions : list Path -> dict str;  (* caption_images: path -> text *)
  unlink_succeeds : bool;
  write_succeeds : bool
}.

(** What [_resolve_image_path] returns, when it returns. *)
Definition _resolve_image_path (E : Env) (raw_path : str) : option Path :=
  let cleaned := unquote E (strip raw_path) in
  if negb (truthy cleaned) then None
  else
    let cleaned :=
      if startswith [LANGLE] cleaned && endswith [RANGLE] cleaned
      then removelast (tl cleaned) else cleaned in
    let candidate := root_join_resolve E cleaned in
    if under_root E candidate && path_exists E candidate then Some candidate
    else
      let direct := path_of_str cleaned in
      if is_absolute direct && path_exists E direct then Some direct
      else List.find (is_file E) (rglob E (path_name cleaned)).

(** The exception that leaves [_resolve_image_path], when one does: the
    one of the first of its tests of the file system that raises.  A test
    that is not reached raises nothing. *)
Definition resolve_error (E : Env) (raw_path : str) : option str :=
  let cleaned := unquote E (strip raw_path) in
  if negb (truthy cleaned) then None
  else
    let cleaned :=
      if startswith [LANGLE] cleaned && endswith [RANGLE] cleaned
      then removelast (tl cleaned) else cleaned in
    let candidate := root_join_resolve E cleaned in
    match (if under_root E candidate then exists_error E candidate else None) with
    | Some msg => Some msg
    | None =>
        if under_root E candidate && path_exists E candidate then None
        else
          let direct := path_of_str cleaned in
          match (if is_absolute direct then exists_error E direct else None) with
          | Some msg => Some msg
          | None =>
              if is_absolute direct && path_exists E direct then None
              else rglob_error E (path_name cleaned)
          end
    end.

Definition _make_target_key (E : Env) (resolved : option Path) (raw_path : str) : str :=
  match resolved with
  | Some p => match resolve_posix E p with
              | Some s => s
              | None => p
              end
  | None => raw_path
  end.

(** ** Entries and buckets *)

Record Entry := {
  span : nat * nat;
  alt : str;
  raw_path : str;
  resolved : option Path;
  fallback : str
}.

(** An entry after the grouping loop gave it its ["asset_id"]. *)
Record Placed := {
  entry : Entry;
  asset_id : str
}.

Record Bucket := {
  id : str;
  b_resolved : option Path;
  b_raw_path : str;
  alts : list str
}.

(** A bucket after the captioning loop gave it its ["caption"]. *)
Record Captioned := {
  bucket : Bucket;
  caption : str
}.

Record MediaAsset := {
  ma_id : str;
  source_file : str;
  ma_caption : str
}.

Definition make_entry (E : Env) (tag : _ImageTag) : Entry :=
  let alt := strip (alt_text tag) in
  let resolved := _resolve_image_path E (destination tag) in
  let fallback :=
    or_else (or_else alt (path_stem (unquote E (destination tag)))) PLACEHOLDER in
  {| span := (start tag, end_ tag);
     alt := alt;
     raw_path := destination tag;
     resolved := resolved;
     fallback := or_else fallback PLACEHOLDER |}.

Definition asset_name (source_hash : str) (n : nat) : str :=
  source_hash ++ lit "_img_" ++ pad3 n.

Definition with_alt (b : Bucket) (a : str) : Bucket :=
  {| id := id b; b_resolved := b_resolved b; b_raw_path := b_raw_path b;
     alts := alts b ++ [a] |}.

(** [bucket["alts"].append(a)] on the bucket that [targets[i]] and the
    [lookup] entry both refer to. *)
Fixpoint append_alt (targets : list Bucket) (i : nat) (a : str) : list Bucket :=
  match targets, i with
  | [], _ => []
  | b :: rest, O => with_alt b a :: rest
  | b :: rest, S i' => b :: append_alt rest i' a
  end.

(** The grouping loop.  [lookup] maps a target key to the place of its
    bucket in [targets]: the dictionary and the list share the bucket. *)
Fixpoint group_entries (E : Env) (source_hash : str) (entries : list Entry)
    (targets : list Bucket) (lookup : dict nat) : list Placed * list Bucket :=
  match entries with
  | [] => ([], targets)
  | e :: rest =>
      let key := _make_target_key E (resolved e) (raw_path e) in
      let '(i, targets1, lookup1) :=
        match dict_get lookup key with
        | Some i => (i, targets, lookup)
        | None =>
            let b := {| id := asset_name source_hash (length targets);
                        b_resolved := resolved e;
                        b_raw_path := raw_path e;
                        alts := [] |} in
            (length targets, targets ++ [b], dict_set lookup key (length targets))
        end in
      let targets2 := append_alt targets1 i (alt e) in
      let bid := match nth_error targets2 i with
                 | Some b => id b
                 | None => []
                 end in
      let '(placed, final) := group_entries E source_hash rest targets2 lookup1 in
      ({| entry := e; asset_id := bid |} :: placed, final)
  end.

(** ** Captions *)

Inductive Event :=
| Warning (msg : str)
| CaptionRequest (paths : list Path)     (* one call of the vision service *)
| CacheUnlink
| CacheWrite (content : dict str).       (* one call of _save_caption_cache *)

Definition MSG_KEY_MISSING : str :=
  lit "API key missing; skipping image caption generation".
Definition MSG_READ_FAILED : str := lit "Failed to read caption cache; ignoring".
Definition MSG_CLEAR_FAILED : str := lit "Failed to clear caption cache".
Definition MSG_WRITE_FAILED : str := lit "Failed to write caption cache".
Definition MSG_NOT_FOUND : str := lit "Image referenced in markdown not found".

Definition DEFAULT_VISION_MODEL : str := lit "gemini-2.5-flash-lite".

Definition is_existing (E : Env) (t : Bucket) : bool :=
  match b_resolved t with
  | Some p => path_exists E p
  | None => false
  end.

Definition bucket_path (t : Bucket) : Path :=
  match b_resolved t with Some p => p | None => [] end.

Definition _load_caption_cache (f : CacheFile) : dict str * list Event :=
  match f with
  | Stored d => (d, [])
  | Unreadable => ([], [Warning MSG_READ_FAILED])
  | _ => ([], [])
  end.

Definition cache_file_exists (f : CacheFile) : bool :=
  match f with NoFile => false | _ => true end.

Definition model_key (E : Env) (vision_model : option str) : str :=
  let configured := match vision_model with Some m => m | None => [] end in
  strip (if truthy configured then configured
         else match environ_vision_model E with
              | Some m => m
              | None => DEFAULT_VISION_MODEL
              end).

Definition cache_key (E : Env) (vision_model : option str) (blob : list N) : str :=
  model_key E vision_model ++ lit "::" ++ sha1_hexdigest E blob.

(** The state of the first loop of the cached mode. *)
Record Pending := {
  captions : dict str;                    (* asset id -> caption *)
  to_request : list Path;
  request_lookup : dict (str * str)       (* path -> (asset id, cache key) *)
}.

Fixpoint consult_cache (E : Env) (vision_model : option str) (cache : dict str)
    (existing : list Bucket) (acc : Pending) : Pending :=
  match existing with
  | [] => acc
  | t :: rest =>
      let path := bucket_path t in
      match read_bytes E path with
      | None => consult_cache E vision_model cache rest acc
      | Some blob =>
          let key := cache_key E vision_model blob in
          let hit := match dict_get cache key with
                     | Some cached => truthy (strip cached)
                     | None => false
                     end in
          if hit then
            consult_cache E vision_model cache rest
              {| captions := dict_set (captions acc) (id t)
                               (strip (match dict_get cache key with
                                       | Some cached => cached
                                       | None => []
                                       end));
                 to_request := to_request acc;
                 request_lookup := request_lookup acc |}
          else
            consult_cache E vision_model cache rest
              {| captions := captions acc;
                 to_request := to_request acc ++ [path];
                 request_lookup := dict_set (request_lookup acc) path (id t, key) |}
      end
  end.

(** The [for p, text in raw.items()] loop of the cached mode. *)
Fixpoint merge_captions (raw : dict str) (request_lookup : dict (str * str))
    (captions cache : dict str) (changed : bool) : dict str * dict str * bool :=
  match raw with
  | [] => (captions, cache, changed)
  | (p, text) :: rest =>
      match dict_get request_lookup p with
      | None => merge_captions rest request_lookup captions cache changed
      | Some (asset_id, key) =>
          if negb (truthy text) then
            merge_captions rest request_lookup captions cache changed
          else
            let cleaned := strip text in
            if negb (truthy cleaned) then
              merge_captions rest request_lookup captions cache changed
            else
              let captions' := dict_set captions asset_id cleaned in
              match dict_get cache key with
              | Some old =>
                  if str_eqb old cleaned
                  then merge_captions rest request_lookup captions' cache changed
                  else merge_captions rest request_lookup captions'
                         (dict_set cache key cleaned) true
              | None =>
                  merge_captions rest request_lookup captions'
                    (dict_set cache key cleaned) true
              end
      end
  end.

(** The dictionary comprehension that ends the uncached mode. *)
Fixpoint uncached_captions (raw : dict str) (existing : list Bucket) (acc : dict str)
  : dict str :=
  match existing with
  | [] => acc
  | t :: rest =>
      match dict_get raw (bucket_path t) with
      | Some text =>
          if truthy text
          then uncached_captions raw rest (dict_set acc (id t) (strip text))
          else uncached_captions raw rest acc
      | None => uncached_captions raw rest acc
      end
  end.

Record LookupResult := {
  lr_captions : dict str;
  lr_events : list Event;
  lr_cache_file : CacheFile
}.

Definition _save_caption_cache (E : Env) (f : CacheFile) (cache : dict str)
  : list Event * CacheFile :=
  if write_succeeds E then ([CacheWrite cache], Stored cache)
  else ([CacheWrite cache; Warning MSG_WRITE_FAILED], f).

(** Loading the cache and, when asked to, clearing it: the cache in
    memory, the file afterwards, and what happened. *)
Definition open_cache (E : Env) (clear_cache : bool) (file : CacheFile)
  : dict str * CacheFile * list Event :=
  let '(cache, ev0) := _load_caption_cache file in
  if clear_cache && cache_file_exists file then
    if unlink_succeeds E then ([], NoFile, ev0 ++ [CacheUnlink])
    else (cache, file, ev0 ++ [CacheUnlink; Warning MSG_CLEAR_FAILED])
  else (cache, file, ev0).

Definition _generate_caption_lookup (E : Env) (targets : list Bucket)
    (vision_model : option str) (disable_cache clear_cache : bool)
    (file : CacheFile) : LookupResult :=
  let existing := filter (is_existing E) targets in
  match existing with
  | [] => {| lr_captions := []; lr_events := []; lr_cache_file := file |}
  | _ =>
      if disable_cache then
        if negb (api_key_present E) then
          {| lr_captions := []; lr_events := [Warning MSG_KEY_MISSING];
             lr_cache_file := file |}
        else
          let requests := map bucket_path existing in
          let raw := service_captions E requests in
          {| lr_captions := uncached_captions raw existing [];
             lr_events := [CaptionRequest requests];
             lr_cache_file := file |}
      else
        let '(cache, file1, ev1) := open_cache E clear_cache file in
        let pending :=
          consult_cache E vision_model cache existing
            {| captions := []; to_request := []; request_lookup := [] |} in
        let '(requests, ev2) :=
          match to_request pending with
          | [] => ([], [])
          | _ => if api_key_present E then (to_request pending, [])
                 else ([], [Warning MSG_KEY_MISSING])
          end in
        match requests with
        | [] => {| lr_captions := captions pending; lr_events := ev1 ++ ev2;
                   lr_cache_file := file1 |}
        | _ =>
            let raw := service_captions E requests in
            let '(captions', cache', changed) :=
              merge_captions raw (request_lookup pending) (captions pending) cache false in
            let '(ev3, file2) :=
              if changed then _save_caption_cache E file1 cache' else ([], file1) in
            {| lr_captions := captions';
               lr_events := ev1 ++ ev2 ++ [CaptionRequest requests] ++ ev3;
               lr_cache_file := file2 |}
        end
  end.

Fixpoint first_alt (alts : list str) : option str :=
  match alts with
  | [] => None
  | a :: rest => if truthy (strip a) then Some (strip a) else first_alt rest
  end.

Definition _fallback_caption (E : Env) (b : Bucket) : str :=
  match first_alt (alts b) with
  | Some a => a
  | None =>
      match b_resolved b with
      | Some p => path_stem p
      | None =>
          if truthy (b_raw_path b) then
            let name := path_stem (unquote E (b_raw_path b)) in
            if truthy name then name else b_raw_path b
          else PLACEHOLDER
      end
  end.

Definition caption_bucket (E : Env) (caption_lookup : dict str) (b : Bucket) : Captioned :=
  let caption :=
    or_else (match dict_get caption_lookup (id b) with Some c => c | None => [] end)
            (_fallback_caption E b) in
  {| bucket := b;
     caption := if truthy (strip caption) then caption else PLACEHOLDER |}.

Fixpoint caption_by_asset_of (targets : list Captioned) (acc : dict str) : dict str :=
  match targets with
  | [] => acc
  | t :: rest => caption_by_asset_of rest (dict_set acc (id (bucket t)) (caption t))
  end.

(** What goes between the markers at the place of entry [e]. *)
Definition caption_core (caption_by_asset : dict str) (e : Placed) : str :=
  let replacement :=
    match dict_get caption_by_asset (asset_id e) with
    | Some c => c
    | None => fallback (entry e)
    end in
  let replacement :=
    if truthy (strip replacement) then replacement else fallback (entry e) in
  if truthy replacement then strip replacement else fallback (entry e).

Definition wrap_caption (caption_by_asset : dict str) (e : Placed) : str :=
  CAPTION_START_MARKER ++ [SPACE] ++ caption_core caption_by_asset e
  ++ [SPACE] ++ CAPTION_END_MARKER.

(** The substitution loop: the parts appended from [cursor] on. *)
Fixpoint substitute (raw_text : str) (cursor : nat) (entries : list Placed)
    (caption_by_asset : dict str) : list str :=
  match entries with
  | [] => [skipn cursor raw_text]
  | e :: rest =>
      slice cursor (fst (span (entry e))) raw_text
      :: wrap_caption caption_by_asset e
      :: substitute raw_text (snd (span (entry e))) rest caption_by_asset
  end.

Definition media_asset_of (E : Env) (t : Captioned) : MediaAsset :=
  {| ma_id := id (bucket t);
     source_file := match b_resolved (bucket t) with
                    | Some p => p
                    | None => path_of_str (unquote E (b_raw_path (bucket t)))
                    end;
     ma_caption := caption t |}.

Record RewriteResult := {
  written : str;                   (* what target_path.write_text received *)
  media_assets : list MediaAsset;  (* the return value *)
  events : list Event;
  cache_file : CacheFile           (* media_captions.json afterwards *)
}.

Definition unresolved_warnings (entries : list Entry) : list Event :=
  flat_map (fun e => match resolved e with
                     | None => if truthy (raw_path e) then [Warning MSG_NOT_FOUND] else []
                     | Some _ => []
                     end) entries.

(** The entries of a document, one per image tag. *)
Definition document_entries (E : Env) (raw_text : str) : list Entry :=
  map (make_entry E) (_find_image_tags raw_text).

(** The outcome of the grouping loop: the entries with their asset ids,
    and [targets]. *)
Definition document_groups (E : Env) (raw_text source_hash : str)
  : list Placed * list Bucket :=
  group_entries E source_hash (document_entries E raw_text) [] [].

(** [targets] once every bucket has its caption. *)
Definition document_captions (E : Env) (raw_text source_hash : str)
    (vision_model : option str) (disable_cache clear_cache : bool)
    (file : CacheFile) : list Captioned :=
  let targets := snd (document_groups E raw_text source_hash) in
  let looked := _generate_caption_lookup E targets vision_model
                  disable_cache clear_cache file in
  map (caption_bucket E (lr_captions looked)) targets.

(** The text handed to [_normalize_markdown]. *)
Definition processed_text (E : Env) (raw_text source_hash : str)
    (vision_model : option str) (disable_cache clear_cache : bool)
    (file : CacheFile) : str :=
  let placed := fst (document_groups E raw_text source_hash) in
  let captioned := document_captions E raw_text source_hash vision_model
                     disable_cache clear_cache file in
  concat (substitute raw_text 0 placed (caption_by_asset_of captioned [])).

(** The exception that leaves the pass, when one does.  It is raised in
    the loop that builds the entries, by the first tag whose destination
    cannot be resolved without one; nothing has been written by then, and
    the caption cache has not been opened. *)
Definition rewrite_error (E : Env) (raw_text : str) : option str :=
  first_raised (map (fun tag => resolve_error E (destination tag))
                    (_find_image_tags raw_text)).

(** What the pass writes and returns, when it returns. *)
Definition rewrite_markdown_with_captions (E : Env) (raw_text : str)
    (source_hash : str) (vision_model : option str)
    (disable_cache clear_cache : bool) (file : CacheFile) : RewriteResult :=
  match _find_image_tags raw_text with
  | [] => {| written := _normalize_markdown raw_text; media_assets := [];
             events := []; cache_file := file |}
  | _ =>
      let targets := snd (document_groups E raw_text source_hash) in
      let looked := _generate_caption_lookup E targets vision_model
                      disable_cache clear_cache file in
      let captioned := document_captions E raw_text source_hash vision_model
                         disable_cache clear_cache file in
      {| written := _normalize_markdown
                      (processed_text E raw_text source_hash vision_model
                         disable_cache clear_cache file);
         media_assets := map (media_asset_of E) captioned;
         events := unresolved_warnings (document_entries E raw_text)
                   ++ lr_events looked;
         cache_file := lr_cache_file looked |}
  end.

(** A call of [rewrite_markdown_with_captions]. *)
Definition rewrite_outcome (E : Env) (raw_text : str)
    (source_hash : str) (vision_model : option str)
    (disable_cache clear_cache : bool) (file : CacheFile) : Result RewriteResult :=
  match rewrite_error E raw_text with
  | Some msg => Raise msg
  | None => Ok (rewrite_markdown_with_captions E raw_text source_hash vision_model
                  disable_cache clear_cache file)
  end.

End Rewriter.
(* ===================================================================== *)
(** * The image tags of a text, as the specification words them *)
(* ===================================================================== *)

Module ScanSpec.

Import Rewriter.

(** An alt span: escapes are pairs, and no [\]] stands unescaped. *)
Inductive alt_span : str -> Prop :=
| alt_nil : alt_span []
| alt_escape c s : alt_span s -> alt_span (BACKSLASH :: c :: s)
| alt_char c s :
    c <> BACKSLASH -> c <> RBRACKET -> alt_span s -> alt_span (c :: s).

(** A destination span: escapes are pairs and the unescaped parentheses
    match, at any depth. *)
Inductive balanced : str -> Prop :=
| bal_nil : balanced []
| bal_escape c s : balanced s -> balanced (BACKSLASH :: c :: s)
| bal_char c s :
    c <> BACKSLASH -> c <> LPAREN -> c <> RPAREN ->
    balanced s -> balanced (c :: s)
| bal_group a b :
    balanced a -> balanced b -> balanced (LPAREN :: a ++ RPAREN :: b).

(** No unescaped [\]] ends an alt span that starts here. *)
Definition unterminated (s : str) : Prop :=
  forall a rest, alt_span a -> s <> a ++ RBRACKET :: rest.

(** No parenthesis closes a destination span that starts here. *)
Definition unclosed (s : str) : Prop :=
  forall b rest, balanced b -> s <> b ++ RPAREN :: rest.

Definition occurs_at (pat text : str) (i : nat) : Prop :=
  exists pre post, text = pre ++ pat ++ post /\ length pre = i.

(** The first occurrence of [pat] at or after [idx] is at [start]. *)
Definition first_at (pat text : str) (idx start : nat) : Prop :=
  idx <= start /\ occurs_at pat text start /\
  forall j, idx <= j -> j < start -> ~ occurs_at pat text j.

(** Reading a destination up to the first unescaped whitespace; a
    backslash makes the next character part of the destination. *)
Inductive reads_to_space : str -> str -> Prop :=
| rs_end : reads_to_space [] []
| rs_space c rest : isspace c = true -> reads_to_space (c :: rest) []
| rs_lone : reads_to_space [BACKSLASH] []
| rs_escape c rest out :
    reads_to_space rest out -> reads_to_space (BACKSLASH :: c :: rest) (c :: out)
| rs_char c rest out :
    c <> BACKSLASH -> isspace c = false ->
    reads_to_space rest out -> reads_to_space (c :: rest) (c :: out).

(** The destination of a span: what stands between [<] and the first [>],
    and without such brackets what is read up to a whitespace. *)
Inductive spec_destination (raw : str) : str -> Prop :=
| sd_angle d tail :
    strip raw = LANGLE :: d ++ RANGLE :: tail -> ~ In RANGLE d ->
    spec_destination raw d
| sd_plain out :
    (forall d tail, strip raw <> LANGLE :: d ++ RANGLE :: tail) ->
    reads_to_space (strip raw) out ->
    spec_destination raw out.

(** [recognizes text idx tags]: scanning [text] from [idx] on finds
    exactly [tags]. *)
Inductive recognizes (text : str) : nat -> list _ImageTag -> Prop :=
| rec_done idx :
    (forall j, idx <= j -> ~ occurs_at [BANG; LBRACKET] text j) ->
    recognizes text idx []
| rec_unterminated idx start :
    first_at [BANG; LBRACKET] text idx start ->
    unterminated (skipn (start + 2) text) ->
    recognizes text idx []
| rec_not_image idx start a rest tags :
    first_at [BANG; LBRACKET] text idx start ->
    skipn (start + 2) text = a ++ RBRACKET :: rest ->
    alt_span a ->
    (forall rest', rest <> LPAREN :: rest') ->
    recognizes text (start + 2 + length a + 1) tags ->
    recognizes text idx tags
| rec_unbalanced idx start a rest tags :
    first_at [BANG; LBRACKET] text idx start ->
    skipn (start + 2) text = a ++ RBRACKET :: LPAREN :: rest ->
    alt_span a ->
    unclosed rest ->
    recognizes text (start + 2 + length a + 1) tags ->
    recognizes text idx tags
| rec_tag idx start a dest rest d tags :
    first_at [BANG; LBRACKET] text idx start ->
    skipn (start + 2) text = a ++ RBRACKET :: LPAREN :: dest ++ RPAREN :: rest ->
    alt_span a ->
    balanced dest ->
    spec_destination dest d ->
    recognizes text (start + 2 + length a + 2 + length dest + 1) tags ->
    recognizes text idx
      ({| start := start;
          end_ := start + 2 + length a + 2 + length dest + 1;
          alt_text := a;
          destination := d |} :: tags).

(** [closes k b]: [b] is balanced up to [k] closing parentheses that
    match nothing in it. *)
Fixpoint closes (k : nat) (b : str) : Prop :=
  match k with
  | O => balanced b
  | S k' => exists b1 b2, b = b1 ++ RPAREN :: b2 /\ balanced b1 /\ closes k' b2
  end.

(** The spans of the tags follow one another inside the text, from
    [from] on. *)
Fixpoint spans_in_order (text : str) (from : nat) (tags : list _ImageTag) : Prop :=
  match tags with
  | [] => True
  | t :: rest =>
      from <= start t /\ start t < end_ t /\ end_ t <= length text
      /\ spans_in_order text (end_ t) rest
  end.

(** The text of a tag's span. *)
Definition span_text (text : str) (t : _ImageTag) : str :=
  slice (start t) (end_ t) text.

(** [splice text cursor tags mids]: [text] from [cursor] on, with the span
    of each tag replaced by the string of [mids] in its place; what lies
    between and around the spans is kept. *)
Fixpoint splice (text : str) (cursor : nat) (tags : list _ImageTag) (mids : list str)
  : str :=
  match tags, mids with
  | t :: tags', m :: mids' =>
      slice cursor (start t) text ++ m ++ splice text (end_ t) tags' mids'
  | _, _ => skipn cursor text
  end.

(** A caption between the two markers. *)
Definition wrapped (core : str) : str :=
  CAPTION_START_MARKER ++ [SPACE] ++ core ++ [SPACE] ++ CAPTION_END_MARKER.

(** The text ends with a line feed, and with one only. *)
Definition ends_with_one_newline (s : str) : bool :=
  match rev s with
  | c :: rest =>
      N.eqb c LF && match rest with
                    | c' :: _ => negb (N.eqb c' LF)
                    | [] => true
                    end
  | [] => false
  end.

End ScanSpec.
(* ===================================================================== *)
(** * Targets, captions and the cache, as the specification words them *)
(* ===================================================================== *)

Module CaptionSpec.

Import Rewriter.

(** The target an entry refers to, and the target a bucket stands for. *)
Definition entry_key (E : Env) (e : Entry) : str :=
  _make_target_key E (resolved e) (raw_path e).

Definition bucket_key (E : Env) (b : Bucket) : str :=
  _make_target_key E (b_resolved b) (b_raw_path b).


(** The alt texts of the entries that refer to target [k], in order. *)
Definition alts_for (E : Env) (k : str) (entries : list Entry) : list str :=
  map alt (filter (fun e => str_eqb (entry_key E e) k) entries).

(** The grouping state is coherent: [lookup] sends the key of the bucket
    at place [i] to [i] and nothing else anywhere, and the bucket at place
    [i] carries the [i]-th asset name. *)
Definition coherent (E : Env) (source_hash : str) (targets : list Bucket)
    (lookup : dict nat) : Prop :=
  (forall i b, nth_error targets i = Some b ->
     dict_get lookup (bucket_key E b) = Some i /\ id b = asset_name source_hash i)
  /\ (forall k i, dict_get lookup k = Some i ->
        exists b, nth_error targets i = Some b /\ bucket_key E b = k).

(** The image at [p] has to be asked for: its bytes can be read and the
    cache holds no caption for them that survives stripping. *)
Definition cache_miss (E : Env) (vision_model : option str) (cache : dict str)
    (p : Path) : bool :=
  match read_bytes E p with
  | None => false
  | Some blob =>
      match dict_get cache (cache_key E vision_model blob) with
      | Some cached => negb (truthy (strip cached))
      | None => true
      end
  end.

(** The paths of the caption requests among the events. *)
Fixpoint requested (evs : list Event) : list (list Path) :=
  match evs with
  | [] => []
  | CaptionRequest ps :: rest => ps :: requested rest
  | _ :: rest => requested rest
  end.

(** The contents handed to [_save_caption_cache] among the events. *)
Fixpoint cache_writes (evs : list Event) : list (dict str) :=
  match evs with
  | [] => []
  | CacheWrite d :: rest => d :: cache_writes rest
  | _ :: rest => cache_writes rest
  end.

(** Every caption held by the dictionary is what stripping leaves of
    itself. *)
Definition all_stripped (d : dict str) : Prop :=
  forall k v, In (k, v) d -> strip v = v.

(** The fallback chain as the specification words it: the first alt text
    that is not blank, else the stem of the resolved file, else the
    placeholder. *)
Definition claimed_fallback (b : Bucket) : str :=
  match first_alt (alts b) with
  | Some a => a
  | None =>
      match b_resolved b with
      | Some p => if truthy (path_stem p) then path_stem p else PLACEHOLDER
      | None => PLACEHOLDER
      end
  end.

(** The caption of a bucket that got none from the captioning pass. *)
Definition fallback_chain (E : Env) (b : Bucket) : str :=
  if truthy (strip (_fallback_caption E b)) then _fallback_caption E b else PLACEHOLDER.

(** What the request table says of a path: its bytes were read, the key is
    theirs, and the cache had nothing usable under it. *)
Definition lookup_sound (E : Env) (vm : option str) (cache : dict str)
    (table : dict (str * str)) : Prop :=
  forall p aid key, dict_get table p = Some (aid, key) ->
    exists blob, read_bytes E p = Some blob /\ key = cache_key E vm blob
                 /\ cache_miss E vm cache p = true.

(** The steps of one pass of the cached mode over [targets]. *)
Definition loaded_cache (E : Env) (clear_cache : bool) (file : CacheFile) : dict str :=
  fst (fst (open_cache E clear_cache file)).

Definition opened_file (E : Env) (clear_cache : bool) (file : CacheFile) : CacheFile :=
  snd (fst (open_cache E clear_cache file)).

Definition pass_pending (E : Env) (targets : list Bucket) (vision_model : option str)
    (clear_cache : bool) (file : CacheFile) : Pending :=
  consult_cache E vision_model (loaded_cache E clear_cache file)
    (filter (is_existing E) targets)
    {| captions := []; to_request := []; request_lookup := [] |}.

(** The paths the pass asks the vision service for. *)
Definition pass_requests (E : Env) (targets : list Bucket) (vision_model : option str)
    (clear_cache : bool) (file : CacheFile) : list Path :=
  if api_key_present E
  then to_request (pass_pending E targets vision_model clear_cache file)
  else [].

Definition pass_merged (E : Env) (targets : list Bucket) (vision_model : option str)
    (clear_cache : bool) (file : CacheFile) : dict str * dict str * bool :=
  let pending := pass_pending E targets vision_model clear_cache file in
  merge_captions
    (service_captions E (pass_requests E targets vision_model clear_cache file))
    (request_lookup pending) (captions pending)
    (loaded_cache E clear_cache file) false.

(** One turn of the merging loop, on the captions, the cache and
    [changed]. *)
Definition merge_step (table : dict (str * str))
    (st : dict str * dict str * bool) (item : str * str) : dict str * dict str * bool :=
  let '(caps, cache, changed) := st in
  let '(p, text) := item in
  match dict_get table p with
  | None => st
  | Some (aid, key) =>
      if truthy (strip text) then
        if match dict_get cache key with
           | Some old => str_eqb old (strip text)
           | None => false
           end
        then (dict_set caps aid (strip text), cache, changed)
        else (dict_set caps aid (strip text), dict_set cache key (strip text), true)
      else st
  end.

(** The cache holds nothing usable under [key]. *)
Definition unusable (cache : dict str) (key : str) : Prop :=
  match dict_get cache key with
  | Some v => blank v = true
  | None => True
  end.

(** [changed] tells whether the cache left what was loaded: while it is
    false the cache is the loaded one, and once it is true some key that
    had nothing usable holds a caption. *)
Definition tracks (cache0 : dict str) (st : dict str * dict str * bool) : Prop :=
  let '(caps, cache, changed) := st in
  (changed = false -> cache = cache0)
  /\ (changed = true ->
       exists key v, unusable cache0 key /\ dict_get cache key = Some v /\ blank v = false).

(** The cache of the state holds a caption that is not blank under
    [key]. *)
Definition holds_caption (key : str) (st : dict str * dict str * bool) : Prop :=
  exists v, dict_get (snd (fst st)) key = Some v /\ blank v = false.

(** Two buckets stand for the same target under the same id. *)
Definition same_target (b b0 : Bucket) : Prop :=
  id b = id b0 /\ b_resolved b = b_resolved b0 /\ b_raw_path b = b_raw_path b0.

(** What the loop leaves: every entry placed, the state coherent, and every
    bucket holding the alt texts of the entries of its target. *)
Definition grouped (E : Env) (source_hash : str) (entries : list Entry) (targets : list Bucket)
    (placed : list Placed) (final : list Bucket) : Prop :=
  map entry placed = entries
  /\ (exists lookup', coherent E source_hash final lookup')
  /\ length targets <= length final
  /\ (forall i b, nth_error final i = Some b ->
        alts b = match nth_error targets i with
                 | Some b0 => alts b0
                 | None => []
                 end ++ alts_for E (bucket_key E b) entries)
  /\ (forall i b0, nth_error targets i = Some b0 ->
        exists b, nth_error final i = Some b /\ same_target b b0)
  /\ Forall (fun p => exists i b, nth_error final i = Some b
                                  /\ id b = asset_id p
                                  /\ bucket_key E b = entry_key E (entry p)) placed
  /\ (forall i b, nth_error final i = Some b -> length targets <= i ->
        exists e, In e entries /\ b_resolved b = resolved e /\ b_raw_path b = raw_path e).

(** ** Targets, told without the key of the code *)





(** The names of a list in the order in which they first appear, those of
    [seen] left out. *)
Fixpoint first_seen (seen : list str) (names : list str) : list str :=
  match names with
  | [] => []
  | x :: rest =>
      if existsb (str_eqb x) seen then first_seen seen rest
      else x :: first_seen (x :: seen) rest
  end.

(** The caption the cache has for the image of a bucket: the file of the
    bucket exists, its bytes can be read, and the loaded cache holds under
    their key a caption that is not blank. *)
Definition cached_caption (E : Env) (vision_model : option str) (cache : dict str)
    (b : Bucket) : option str :=
  if is_existing E b then
    match read_bytes E (bucket_path b) with
    | Some blob =>
        match dict_get cache (cache_key E vision_model blob) with
        | Some cached => if blank cached then None else Some (strip cached)
        | None => None
        end
    | None => None
    end
  else None.

(** The paths one pass of the cached mode has to ask for, whether or not
    it can. *)
Definition cache_misses (E : Env) (vision_model : option str) (cache : dict str)
    (targets : list Bucket) : list Path :=
  map bucket_path
      (filter (fun t => cache_miss E vision_model cache (bucket_path t))
              (filter (is_existing E) targets)).

End CaptionSpec.
(* ===================================================================== *)
(** * A small document directory, for worked runs *)
(* ===================================================================== *)

Module Demo.

Import Rewriter.

(** Any function of the bytes can stand for the digest. *)
Definition demo_digest (blob : list N) : str := map (fun b => (b + 97)%N) blob.

Definition A_PNG : Path := lit "/doc/a.png".
Definition B_PNG : Path := lit "/doc/b.png".

(** A directory [/doc] with two images, [a.png] (one byte, 1) and [b.png]
    (one byte, 2).  Destinations without [%] are what [unquote] leaves
    them; every path is its own canonical form. *)
Definition demo_env (key_present : bool) (answers : list Path -> dict str) : Env :=
  {| unquote := fun s => s;
     root_join_resolve := fun s => lit "/doc/" ++ s;
     under_root := fun _ => true;
     exists_error := fun _ => None;
     path_exists := fun p => str_eqb p A_PNG || str_eqb p B_PNG;
     rglob_error := fun _ => None;
     rglob := fun _ => [];
     is_file := fun _ => false;
     resolve_posix := fun p => Some p;
     read_bytes := fun p => if str_eqb p A_PNG then Some [1%N]
                            else if str_eqb p B_PNG then Some [2%N]
                            else None;
     sha1_hexdigest := demo_digest;
     environ_vision_model := None;
     api_key_present := key_present;
     service_captions := answers;
     unlink_succeeds := true;
     write_succeeds := true |}.

(** A vision service that answers nothing, and one that describes
    [a.png]. *)
Definition silent (_ : list Path) : dict str := [].

Definition describes_a (ps : list Path) : dict str :=
  if existsb (str_eqb A_PNG) ps then [(A_PNG, lit "a cat")] else [].

(** Three tags: two of [a.png], the second with an alt text, and one of an
    image that is not there. *)
Definition THREE_TAGS : str :=
  lit "![](a.png) and ![  again ](a.png) and ![](missing.png)".

(** One tag of each of the two images. *)
Definition TWO_IMAGES : str := lit "![](a.png) ![](b.png)".

Definition MODEL : str := lit "gemini-2.5-flash-lite".

Definition KEY_OF_A : str := MODEL ++ lit "::" ++ demo_digest [1%N].

(** Tags of [a.png], of [b.png] and of an image that is not there. *)
Definition MIXED_TAGS : str := lit "![](a.png) ![](b.png) ![](missing.png)".

(** A text with every kind of candidate: an escaped bracket in the alt
    text, a destination in angle brackets with a title, nested
    parentheses, and three candidates that are no tags. *)
Definition SCAN_SAMPLE : str :=
  lit "x ![a" ++ [BACKSLASH] ++ lit "]b](<p q.png> t) ![c](d(e)f) ![g](h ![i]j ![k](l".

(** An environment where nothing exists. *)
Definition empty_env : Env :=
  {| unquote := fun s => s;
     root_join_resolve := fun s => lit "/doc/" ++ s;
     under_root := fun _ => true;
     exists_error := fun _ => None;
     path_exists := fun _ => false;
     rglob_error := fun _ => None;
     rglob := fun _ => [];
     is_file := fun _ => false;
     resolve_posix := fun p => Some p;
     read_bytes := fun _ => None;
     sha1_hexdigest := demo_digest;
     environ_vision_model := None;
     api_key_present := false;
     service_captions := silent;
     unlink_succeeds := true;
     write_succeeds := true |}.

(** A directory [/doc] whose one image is named [a%41.png].  [unquote]
    is given on the two destinations of [PERCENT_TAGS]: it decodes [%25] to
    [%] in the first and [%41] to [A] in the second.  An absolute
    destination joined to the directory is itself. *)
Definition PERCENT_PNG : Path := lit "/doc/a%41.png".

Definition percent_env : Env :=
  {| unquote := fun s => if str_eqb s (lit "a%2541.png") then lit "a%41.png"
                         else if str_eqb s (lit "/doc/a%41.png") then lit "/doc/aA.png"
                         else s;
     root_join_resolve := fun s => if startswith [SLASH] s then s else lit "/doc/" ++ s;
     under_root := startswith (lit "/doc/");
     exists_error := fun _ => None;
     path_exists := fun p => str_eqb p PERCENT_PNG;
     rglob_error := fun _ => None;
     rglob := fun name => if str_eqb name (lit "a%41.png") then [PERCENT_PNG] else [];
     is_file := fun p => str_eqb p PERCENT_PNG;
     resolve_posix := fun p => Some p;
     read_bytes := fun p => if str_eqb p PERCENT_PNG then Some [1%N] else None;
     sha1_hexdigest := demo_digest;
     environ_vision_model := None;
     api_key_present := false;
     service_captions := silent;
     unlink_succeeds := true;
     write_succeeds := true |}.

(** The image by its encoded name, and a destination that reads like the
    path of the image but decodes to [/doc/aA.png], which is not there. *)
Definition PERCENT_TAGS : str := lit "![](a%2541.png) ![other](/doc/a%41.png)".

End Demo.
(* ===================================================================== *)
(** * reference/converter_runner.py *)
(* ===================================================================== *)

Module Runner.

Import Rewriter.

Definition DEFAULT_CONVERSION_ATTEMPTS : Z := 3.

Definition RETRY_ELIGIBLE_EXTENSIONS : list str :=
  [lit ".hwp"; lit ".hwpx"; lit ".doc"; lit ".docx"; lit ".ppt"; lit ".pptx";
   lit ".xls"; lit ".xlsx"; lit ".jpg"; lit ".jpeg"; lit ".png"].

Definition PDF_EXTENSION : str := lit ".pdf".

Definition retry_eligible (ext : str) : bool :=
  existsb (str_eqb ext) RETRY_ELIGIBLE_EXTENSIONS.

(** ** Values, records, results *)

(** A [float]: not a number, an infinity, or the finite value
    [mantissa * 2 ** exponent] with its sign. *)
Inductive PyFloatVal :=
| FloatNan
| FloatInf (negative : bool)
| FloatFinite (negative : bool) (mantissa : N) (exponent : Z).

(** What a configuration dictionary may hold under a key. *)
Inductive PyVal :=
| PyNone
| PyInt (z : Z)
| PyBool (b : bool)
| PyFloat (f : PyFloatVal)
| PyStr (s : str)
| PyOther.            (* a list, a dictionary: [int] raises TypeError *)

Inductive MetaVal :=
| MetaStr (s : str)
| MetaAssets (assets : list MediaAsset).

Record ChunkRecord := {
  chunk_id : str;
  source_path : Path;
  markdown_path : Path;
  metadata : dict MetaVal
}.

Record CorpusManifest := {
  chunks : list ChunkRecord;
  output_dir : Path;
  uploads_dir : Path;
  needs_embedding_refresh : bool
}.

Record ConversionConfig := {
  input_dir : Path;
  cfg_output_dir : Path;
  extra_options : dict PyVal;
  enable_chunking : bool;
  vision_model : option str;
  disable_caption_cache : bool;
  clear_caption_cache : bool
}.

Record PreparedSource := {
  ps_source_path : Path;
  ps_markdown_path : Path;
  ps_media_assets : list MediaAsset;
  ps_source_rel : Path;
  ps_source_hash : str
}.

(** ** The collaborators *)

Inductive ConvOutcome :=
| ConvDone (produced : Path)                 (* (True, path of the PDF) *)
| ConvFailed (msg : str) (partial : bool).   (* (False, message); [partial]: a
                                               file was left at the target *)

(** A line of CHUNKS.jsonl. *)
Inductive PriorRecord :=
| NotADict
| Rec (r_id r_source_path r_source_rel r_source_hash : option str)
      (r_media_assets : list MediaAsset).

Inductive JsonlFile :=
| JsonlAbsent
| JsonlUnreadable
| JsonlRecords (records : list PriorRecord).

Record Ext := {
  rglob_sorted : Path -> list Path;          (* sorted(input_dir.rglob("*")) *)
  ext_is_file : Path -> bool;
  relative_to : Path -> Path -> option Path; (* None: ValueError *)
  path_parts : Path -> list str;
  suffix_lower : Path -> str;                (* path.suffix.lower() *)
  resolve : Path -> Path;
  relpath_hash : Path -> Path -> str;        (* app.utils.hash.relpath_hash *)
  int_of_text : str -> option Z;             (* int(s) of a string; None: ValueError *)
  converter : Path -> nat -> ConvOutcome;    (* source, number of the attempt *)
  extractor : option (Path -> Result (list str)); (* None: not installed; the
                                                names of the *.md files a run leaves
                                                in its output folder, sorted *)
  read_text : Path -> str;
  rewriter_env : Path -> Env;                (* the surroundings of a markdown file *)
  chunk_markdown : PreparedSource -> Result (list (str * str * dict MetaVal));
  cpu_count : option nat;
  completion : list nat;                     (* the order in which futures complete *)
  chunks_jsonl : JsonlFile
}.

(** ** The world: modification times, the caption cache, what was done *)

Inductive Action :=
| Copied (src dst : Path)          (* shutil.copy2 *)
| Converted (source : Path) (attempt : nat)
| Unlinked (p : Path)
| RemovedTree (dir : Path)         (* shutil.rmtree *)
| Extracted (pdf : Path)
| Wrote (p : Path)                 (* write_text *)
| Chunked (markdown : Path)        (* chunk_markdown called *)
| Warned (msg : str).

Record World := {
  mtime : Path -> option Z;        (* None: no such file *)
  now : Z;
  caption_cache : CacheFile;
  done : list Action               (* latest first *)
}.

Definition exists_ (w : World) (p : Path) : bool :=
  match mtime w p with Some _ => true | None => false end.

Definition set_mtime (w : World) (p : Path) (t : option Z) : Path -> option Z :=
  fun q => if str_eqb q p then t else mtime w q.

Definition record (w : World) (a : Action) : World :=
  {| mtime := mtime w; now := now w; caption_cache := caption_cache w;
     done := a :: done w |}.

(** Writing a file stamps it with the time of the write. *)
Definition touch (w : World) (p : Path) : World :=
  {| mtime := set_mtime w p (Some (now w)); now := (now w + 1)%Z;
     caption_cache := caption_cache w; done := done w |}.

(** [shutil.copy2(src, dst)]: the copy keeps the time of [src]. *)
Definition copy2 (w : World) (src dst : Path) : World :=
  record {| mtime := set_mtime w dst (mtime w src); now := now w;
            caption_cache := caption_cache w; done := done w |}
         (Copied src dst).

Definition unlink (w : World) (p : Path) : World :=
  record {| mtime := set_mtime w p None; now := now w;
            caption_cache := caption_cache w; done := done w |}
         (Unlinked p).

(** The path is the directory or lies below it. *)
Definition under (dir q : Path) : bool :=
  str_eqb q dir || startswith (dir ++ [SLASH]) q.

(** [shutil.rmtree(dir, ignore_errors=True)] *)
Definition rmtree (w : World) (dir : Path) : World :=
  record {| mtime := fun q => if under dir q then None else mtime w q; now := now w;
            caption_cache := caption_cache w; done := done w |}
         (RemovedTree dir).

(** [dir.mkdir(parents=True, exist_ok=True)], for a directory the run
    tests the presence of. *)
Definition mkdir (w : World) (dir : Path) : World :=
  if exists_ w dir then w else touch w dir.

Definition with_cache (w : World) (f : CacheFile) : World :=
  {| mtime := mtime w; now := now w; caption_cache := f; done := done w |}.

Definition pjoin (dir name : str) : Path := dir ++ [SLASH] ++ name.

Definition converted_dir (c : ConversionConfig) : Path := pjoin (cfg_output_dir c) (lit "converted").
Definition markdown_dir (c : ConversionConfig) : Path := pjoin (cfg_output_dir c) (lit "markdown").
Definition originals_dir (c : ConversionConfig) : Path := pjoin (cfg_output_dir c) (lit "originals").
Definition chunks_dir (c : ConversionConfig) : Path := pjoin (cfg_output_dir c) (lit "chunk_markdown").
Definition texts_dir (c : ConversionConfig) : Path := pjoin (cfg_output_dir c) (lit "CHUNKS_TEXTS").

Definition NOT_FOUND : str := lit "FileNotFoundError".

(** [a.stat().st_mtime < b] and the like compare times of files that are
    there. *)
Definition older (a b : Z) : bool := (a <? b)%Z.

(** ** Freshness *)

Fixpoint chunks_fresh (w : World) (markdown_time : Z) (existing_chunks : list ChunkRecord)
  : bool :=
  match existing_chunks with
  | [] => true
  | chunk :: rest =>
      match mtime w (markdown_path chunk) with
      | None => false
      | Some t => if older t markdown_time then false
                  else chunks_fresh w markdown_time rest
      end
  end.

Definition _should_skip_reprocessing (w : World) (copied pdf_path markdown_path : Path)
    (existing_chunks : list ChunkRecord) : bool :=
  match existing_chunks with
  | [] => false
  | _ =>
      match mtime w copied with
      | None => false
      | Some source_mtime =>
          match mtime w pdf_path with
          | None => false
          | Some pdf_mtime =>
              if older pdf_mtime source_mtime then false
              else
                match mtime w markdown_path with
                | None => false
                | Some markdown_mtime =>
                    if older markdown_mtime pdf_mtime then false
                    else chunks_fresh w markdown_mtime existing_chunks
                end
          end
      end
  end.

Definition _artifacts_up_to_date (w : World) (source pdf_path markdown_path : Path) : bool :=
  match mtime w source with
  | None => false
  | Some source_mtime =>
      match mtime w pdf_path with
      | None => false
      | Some pdf_mtime =>
          if older pdf_mtime source_mtime then false
          else match mtime w markdown_path with
               | None => false
               | Some markdown_mtime => negb (older markdown_mtime pdf_mtime)
               end
      end
  end.

Definition _chunks_match_hash (existing_chunks : list ChunkRecord) (source_hash : str) : bool :=
  forallb (fun chunk => startswith (lit "chnk_" ++ source_hash ++ lit "_") (chunk_id chunk))
          existing_chunks.

Fixpoint _remove_chunk_artifacts (w : World) (c : ConversionConfig)
    (chunks : list ChunkRecord) : World :=
  match chunks with
  | [] => w
  | chunk :: rest =>
      let w1 := unlink w (markdown_path chunk) in
      let w2 := unlink w1 (pjoin (texts_dir c) (chunk_id chunk ++ lit ".md")) in
      _remove_chunk_artifacts w2 c rest
  end.

(** ** Discovery *)

Definition hidden (parts : list str) : bool :=
  existsb (startswith [DOT]) parts.

Definition eligible (X : Ext) (root path : Path) : bool :=
  ext_is_file X path
  && negb (hidden (match relative_to X path root with
                   | Some rel => path_parts X rel
                   | None => path_parts X path
                   end))
  && (retry_eligible (suffix_lower X path) || str_eqb (suffix_lower X path) PDF_EXTENSION).

Definition _iter_source_files (X : Ext) (root : Path) : list Path :=
  filter (eligible X root) (rglob_sorted X root).

Fixpoint dedupe (X : Ext) (paths : list Path) (seen : list Path) : list Path :=
  match paths with
  | [] => []
  | path :: rest =>
      let key := resolve X path in
      if existsb (str_eqb key) seen then dedupe X rest seen
      else path :: dedupe X rest (key :: seen)
  end.

Definition _deduplicate_paths (X : Ext) (paths : list Path) : list Path :=
  dedupe X paths [].

Definition _compute_source_rel (X : Ext) (source input_root : Path) : Path :=
  match relative_to X source input_root with
  | Some relative => relative
  | None => path_name source
  end.

Definition _copy_original (X : Ext) (w : World) (source originals : Path)
    (source_hash : str) : Result Path * World :=
  let target := pjoin originals (source_hash ++ suffix_lower X source) in
  match mtime w source with
  | None => (Raise NOT_FOUND, w)
  | Some source_mtime =>
      match mtime w target with
      | None => (Ok target, copy2 w source target)
      | Some target_mtime =>
          if older target_mtime source_mtime
          then (Ok target, copy2 w source target)
          else (Ok target, w)
      end
  end.

(** ** Conversion *)

(** What [int(value)] does. *)
Inductive IntOutcome :=
| IntValue (z : Z)
| IntRefused          (* TypeError or ValueError: the caller catches them *)
| IntOverflow.        (* OverflowError: nobody catches it *)

(** [int(f)] of a float cuts the fraction off, towards zero. *)
Definition float_int (f : PyFloatVal) : IntOutcome :=
  match f with
  | FloatNan => IntRefused
  | FloatInf _ => IntOverflow
  | FloatFinite negative mantissa exponent =>
      let magnitude := Z.shiftl (Z.of_N mantissa) exponent in
      IntValue (if negative then - magnitude else magnitude)%Z
  end.

Definition py_int (X : Ext) (v : PyVal) : IntOutcome :=
  match v with
  | PyNone => IntRefused          (* not reached: None is tested before *)
  | PyInt z => IntValue z
  | PyBool b => IntValue (if b then 1 else 0)%Z
  | PyFloat f => float_int f
  | PyStr s => match int_of_text X s with
               | Some z => IntValue z
               | None => IntRefused
               end
  | PyOther => IntRefused
  end.

Definition MSG_OVERFLOW : str := lit "cannot convert float infinity to integer".

Definition MSG_INVALID_ATTEMPTS : str :=
  lit "Ignoring invalid max_conversion_attempts; falling back to the default".

(** [options.get("max_conversion_attempts")] *)
Definition configured_value (options : dict PyVal) : PyVal :=
  match dict_get options (lit "max_conversion_attempts") with
  | Some v => v
  | None => PyNone
  end.

(** [int(attempts) if attempts is not None else DEFAULT_CONVERSION_ATTEMPTS]
    inside its [try]: the number, and the warning of the handler when it
    ran. *)
Definition coerced_attempts (X : Ext) (options : dict PyVal) : Result (Z * list Action) :=
  match configured_value options with
  | PyNone => Ok (DEFAULT_CONVERSION_ATTEMPTS, [])
  | v => match py_int X v with
         | IntValue z => Ok (z, [])
         | IntRefused => Ok (DEFAULT_CONVERSION_ATTEMPTS, [Warned MSG_INVALID_ATTEMPTS])
         | IntOverflow => Raise MSG_OVERFLOW
         end
  end.

(** The number of attempts the loop is allowed. *)
Definition attempt_ceiling (X : Ext) (options : dict PyVal) (ext : str)
  : Result (Z * list Action) :=
  match coerced_attempts X options with
  | Raise msg => Raise msg
  | Ok (attempts, warned) =>
      let attempts := Z.max 1 attempts in
      let attempts :=
        if negb (retry_eligible ext) && (1 <? attempts)%Z then 1%Z else attempts in
      Ok (attempts, warned)
  end.

Definition exhausted_message (source : Path) (attempts : Z) (last_error : option str) : str :=
  lit "Failed to convert " ++ source ++ lit " to PDF after " ++ str_of_Z attempts
  ++ [SPACE] ++ (if (attempts =? 1)%Z then lit "attempt" else lit "attempts")
  ++ lit ": "
  ++ match last_error with
     | Some e => or_else e (lit "unknown error")
     | None => lit "unknown error"
     end.

(** The world after a failed attempt: what the converter left at the
    target, the warning, and the removal of what was left. *)
Definition after_failure (w : World) (pdf_path : Path) (msg : str) (partial : bool)
  : World :=
  let w2 := if partial then touch w pdf_path else w in
  let w3 := record w2 (Warned msg) in
  if exists_ w3 pdf_path then unlink w3 pdf_path else w3.

(** The world after a successful attempt: the converter wrote [produced],
    which is copied to the target when it is another path. *)
Definition after_success (w : World) (pdf_path produced : Path) : World :=
  let w2 := touch w produced in
  if str_eqb produced pdf_path then w2 else copy2 w2 produced pdf_path.

(** The [for attempt in range(1, attempts + 1)] loop: [remaining] turns are
    left, the next one is number [attempt].  [Raise] is the loop running
    out; the last failure message comes with it. *)
Fixpoint conversion_loop (X : Ext) (remaining : nat) (attempt : nat) (w : World)
    (source pdf_path : Path) (last_error : option str)
  : Result Path * World * option str :=
  match remaining with
  | O => (Raise [], w, last_error)
  | S remaining' =>
      let w1 := record w (Converted source attempt) in
      match converter X source attempt with
      | ConvDone produced => (Ok pdf_path, after_success w1 pdf_path produced, last_error)
      | ConvFailed msg partial =>
          conversion_loop X remaining' (S attempt) (after_failure w1 pdf_path msg partial)
            source pdf_path (Some msg)
      end
  end.

Definition MSG_NO_CONVERTER : str :=
  lit "FileConverter not available to convert non-PDF source".

Definition _convert_to_pdf (X : Ext) (w : World) (source converted : Path)
    (converter_given : bool) (options : dict PyVal) (source_hash : str)
  : Result Path * World :=
  let ext := suffix_lower X source in
  let pdf_path := pjoin converted (source_hash ++ lit ".pdf") in
  if str_eqb ext PDF_EXTENSION then
    match mtime w source with
    | None => (Raise NOT_FOUND, w)
    | Some source_mtime =>
        match mtime w pdf_path with
        | None => (Ok pdf_path, copy2 w source pdf_path)
        | Some pdf_mtime =>
            if older pdf_mtime source_mtime
            then (Ok pdf_path, copy2 w source pdf_path)
            else (Ok pdf_path, w)
        end
    end
  else if exists_ w pdf_path then (Ok pdf_path, w)
  else if negb converter_given then (Raise MSG_NO_CONVERTER, w)
  else
    match attempt_ceiling X options ext with
    | Raise msg => (Raise msg, w)
    | Ok (attempts, warned) =>
        let w0 := fold_left record warned w in
        match conversion_loop X (Z.to_nat attempts) 1 w0 source pdf_path None with
        | (Ok p, w', _) => (Ok p, w')
        | (Raise _, w', last_error) =>
            (Raise (exhausted_message source attempts last_error), w')
        end
    end.

(** ** Extraction and captions *)

Definition MSG_NO_EXTRACTOR : str :=
  lit "opendataloader_pdf not installed; unable to extract markdown. Install the dependency and rerun.".

Definition no_markdown_message (pdf_path : Path) : str :=
  lit "Markdown extraction produced no files for " ++ pdf_path.

(** The scratch folder of the extraction of a document: [<stem>_opendata]
    beside the markdown file. *)
Definition scratch_dir (c : ConversionConfig) (source_hash : str) : Path :=
  pjoin (markdown_dir c)
        (path_stem (pjoin (markdown_dir c) (source_hash ++ lit ".md")) ++ lit "_opendata").

(** The scratch folder emptied and made anew. *)
Definition fresh_scratch (w : World) (tmp_output : Path) : World :=
  mkdir (if exists_ w tmp_output then rmtree w tmp_output else w) tmp_output.

(** The markdown files a run of the extractor left are there, each
    stamped with the time it was written.  What else the run leaves in its
    output folder is not followed. *)
Definition extracted (w : World) (tmp_output : Path) (names : list str) : World :=
  fold_left touch (map (pjoin tmp_output) names) w.

Definition _render_markdown_and_assets (X : Ext) (w : World) (pdf_path : Path)
    (c : ConversionConfig) (source_hash : str)
  : Result (Path * list MediaAsset) * World :=
  let target_path := pjoin (markdown_dir c) (source_hash ++ lit ".md") in
  match extractor X with
  | None => (Raise MSG_NO_EXTRACTOR, w)
  | Some run =>
      let tmp_output := scratch_dir c source_hash in
      let w1 := record (fresh_scratch w tmp_output) (Extracted pdf_path) in
      match run pdf_path with
      | Raise msg => (Raise msg, w1)
      | Ok names =>
          let w2 := extracted w1 tmp_output names in
          match map (pjoin tmp_output) names with
          | [] => (Raise (no_markdown_message pdf_path), w2)
          | first :: _ =>
              match rewrite_outcome (rewriter_env X first)
                      (read_text X first) source_hash (vision_model c)
                      (disable_caption_cache c) (clear_caption_cache c)
                      (caption_cache w2) with
              | Raise msg => (Raise msg, w2)
              | Ok r =>
                  let w3 := with_cache (record (touch w2 target_path) (Wrote target_path))
                              (cache_file r) in
                  (Ok (target_path, media_assets r), w3)
              end
          end
      end
  end.

Definition _prepare_source_file (X : Ext) (w : World) (c : ConversionConfig)
    (copied source_rel : Path) (source_hash : str)
  : Result PreparedSource * World :=
  match _convert_to_pdf X w copied (converted_dir c) true (extra_options c) source_hash with
  | (Raise msg, w1) => (Raise msg, w1)
  | (Ok pdf_path, w1) =>
      match _render_markdown_and_assets X w1 pdf_path c source_hash with
      | (Raise msg, w2) => (Raise msg, w2)
      | (Ok (markdown_master, assets), w2) =>
          (Ok {| ps_source_path := copied;
                 ps_markdown_path := markdown_master;
                 ps_media_assets := assets;
                 ps_source_rel := source_rel;
                 ps_source_hash := source_hash |}, w2)
      end
  end.

(** ** Chunking *)

(** [metadata.setdefault(key, value)] *)
Definition setdefault (m : dict MetaVal) (key : str) (v : MetaVal) : dict MetaVal :=
  match dict_get m key with
  | Some _ => m
  | None => dict_set m key v
  end.

Fixpoint write_chunks (w : World) (c : ConversionConfig) (prepared : PreparedSource)
    (produced : list (str * str * dict MetaVal)) : list ChunkRecord * World :=
  match produced with
  | [] => ([], w)
  | (chunk_suffix, chunk_text, meta) :: rest =>
      let meta1 := setdefault meta (lit "source_rel") (MetaStr (ps_source_rel prepared)) in
      let meta2 := setdefault meta1 (lit "source_hash") (MetaStr (ps_source_hash prepared)) in
      let cid := lit "chnk_" ++ chunk_suffix in
      let chunk_path := pjoin (chunks_dir c) (cid ++ lit ".md") in
      let w1 := record (touch w chunk_path) (Wrote chunk_path) in
      let '(records, w2) := write_chunks w1 c prepared rest in
      ({| chunk_id := cid; source_path := ps_source_path prepared;
          markdown_path := chunk_path; metadata := meta2 |} :: records, w2)
  end.

Definition no_chunks_message (markdown : Path) : str :=
  lit "Chunking produced no output for " ++ markdown.

Definition _chunk_prepared_source (X : Ext) (w : World) (c : ConversionConfig)
    (prepared : PreparedSource) : Result (list ChunkRecord) * World :=
  let w1 := record w (Chunked (ps_markdown_path prepared)) in
  match chunk_markdown X prepared with
  | Raise msg => (Raise msg, w1)
  | Ok produced =>
      let '(records, w2) := write_chunks w1 c prepared produced in
      match records with
      | [] => (Raise (no_chunks_message (ps_markdown_path prepared)), w2)
      | _ => (Ok records, w2)
      end
  end.

(** ** Prior chunks *)

Definition text_of (o : option str) : str := match o with Some s => s | None => [] end.

Fixpoint load_records (X : Ext) (w : World) (c : ConversionConfig)
    (records : list PriorRecord) (chunk_map : dict (list ChunkRecord))
  : dict (list ChunkRecord) :=
  match records with
  | [] => chunk_map
  | NotADict :: rest => load_records X w c rest chunk_map
  | Rec r_id r_source_path r_source_rel r_source_hash assets :: rest =>
      let source_rel := if truthy (text_of r_source_rel)
                        then Some (path_of_str (text_of r_source_rel)) else None in
      let source_hash :=
        if truthy (text_of r_source_hash) then text_of r_source_hash
        else match source_rel with
             | Some rel => relpath_hash X (input_dir c) rel
             | None => []
             end in
      if negb (truthy (text_of r_id)) || negb (truthy (text_of r_source_path))
         || negb (truthy source_hash)
      then load_records X w c rest chunk_map
      else
        let cid := text_of r_id in
        let source := path_of_str (text_of r_source_path) in
        let main := pjoin (chunks_dir c) (cid ++ lit ".md") in
        let alt_path := pjoin (texts_dir c) (cid ++ lit ".md") in
        let found := if exists_ w main then Some main
                     else if exists_ w alt_path then Some alt_path
                     else None in
        match found with
        | None => load_records X w c rest chunk_map
        | Some chunk_path =>
            let rel := match source_rel with
                       | Some rel => rel
                       | None => path_of_str (path_name source)
                       end in
            let chunk_record :=
              {| chunk_id := cid; source_path := source; markdown_path := chunk_path;
                 metadata := [(lit "media_assets", MetaAssets assets);
                              (lit "source_rel", MetaStr rel);
                              (lit "source_hash", MetaStr source_hash)] |} in
            let before := match dict_get chunk_map source_hash with
                          | Some l => l
                          | None => []
                          end in
            load_records X w c rest (dict_set chunk_map source_hash (before ++ [chunk_record]))
        end
  end.

Definition _load_existing_chunk_map (X : Ext) (w : World) (c : ConversionConfig)
  : dict (list ChunkRecord) :=
  match chunks_jsonl X with
  | JsonlAbsent => []
  | JsonlUnreadable => []
  | JsonlRecords records => load_records X w c records []
  end.

(** ** The pipeline *)

(** The variables of [run_conversion_pipeline] that its loops update. *)
Record Run := {
  world : World;
  run_chunks : list ChunkRecord;
  errors : list str;
  seen_chunk_ids : list str;
  prepared_lookup : list (str * PreparedSource);
  existing_chunk_map : dict (list ChunkRecord)
}.

Definition with_world (r : Run) (w : World) : Run :=
  {| world := w; run_chunks := run_chunks r; errors := errors r;
     seen_chunk_ids := seen_chunk_ids r; prepared_lookup := prepared_lookup r;
     existing_chunk_map := existing_chunk_map r |}.

(** Keeping the prior chunks that are still there and not yet seen. *)
Fixpoint keep_existing (w : World) (existing : list ChunkRecord)
    (chunks : list ChunkRecord) (seen : list str) : list ChunkRecord * list str :=
  match existing with
  | [] => (chunks, seen)
  | chunk :: rest =>
      if exists_ w (markdown_path chunk) && negb (existsb (str_eqb (chunk_id chunk)) seen)
      then keep_existing w rest (chunks ++ [chunk]) (seen ++ [chunk_id chunk])
      else keep_existing w rest chunks seen
  end.

Definition process_failure (src : Path) (exc : str) : str :=
  lit "Failed to process " ++ src ++ lit ": " ++ exc.

Definition chunk_failure (markdown : Path) (exc : str) : str :=
  lit "Failed to chunk " ++ markdown ++ lit ": " ++ exc.

(** One turn of the [for src in uploads] loop.  [Raise]: an exception that
    no handler of the loop catches. *)
Definition prepare_one (X : Ext) (c : ConversionConfig) (r : Run) (src : Path)
  : Result Run :=
  let source_rel := _compute_source_rel X src (input_dir c) in
  let source_hash := relpath_hash X (input_dir c) source_rel in
  match _copy_original X (world r) src (originals_dir c) source_hash with
  | (Raise msg, _) => Raise msg
  | (Ok copied, w1) =>
      let key := source_hash in
      let existing_chunks :=
        if enable_chunking c
        then match dict_get (existing_chunk_map r) key with
             | Some l => l
             | None => []
             end
        else [] in
      let '(existing_chunks, w2) :=
        match existing_chunks with
        | [] => (existing_chunks, w1)
        | _ => if _chunks_match_hash existing_chunks source_hash
               then (existing_chunks, w1)
               else ([], _remove_chunk_artifacts w1 c existing_chunks)
        end in
      let pdf_path := pjoin (converted_dir c) (source_hash ++ lit ".pdf") in
      let markdown := pjoin (markdown_dir c) (source_hash ++ lit ".md") in
      if enable_chunking c
         && _should_skip_reprocessing w2 copied pdf_path markdown existing_chunks
      then
        let '(chunks', seen') :=
          keep_existing w2 existing_chunks (run_chunks r) (seen_chunk_ids r) in
        Ok {| world := w2; run_chunks := chunks'; errors := errors r;
              seen_chunk_ids := seen';
              prepared_lookup := prepared_lookup r;
              existing_chunk_map := dict_set (existing_chunk_map r) key [] |}
      else if negb (enable_chunking c)
              && _artifacts_up_to_date w2 copied pdf_path markdown
      then Ok (with_world r w2)
      else
        match _prepare_source_file X w2 c copied source_rel source_hash with
        | (Ok prepared, w3) =>
            Ok {| world := w3; run_chunks := run_chunks r; errors := errors r;
                  seen_chunk_ids := seen_chunk_ids r;
                  prepared_lookup :=
                    if enable_chunking c
                    then prepared_lookup r ++ [(key, prepared)]
                    else prepared_lookup r;
                  existing_chunk_map := existing_chunk_map r |}
        | (Raise exc, w3) =>
            Ok {| world := w3; run_chunks := run_chunks r;
                  errors := errors r ++ [process_failure src exc];
                  seen_chunk_ids := seen_chunk_ids r;
                  prepared_lookup := prepared_lookup r;
                  existing_chunk_map := existing_chunk_map r |}
        end
  end.

(** The [for src in uploads] loop, with the world it ends in. *)
Fixpoint prepare_all (X : Ext) (c : ConversionConfig) (r : Run) (uploads : list Path)
  : Result Run * World :=
  match uploads with
  | [] => (Ok r, world r)
  | src :: rest =>
      match prepare_one X c r src with
      | Raise msg => (Raise msg, world r)
      | Ok r' => prepare_all X c r' rest
      end
  end.

(** One unit of the chunking stage, and what the coordinator does with its
    outcome. *)
Definition chunk_one (X : Ext) (c : ConversionConfig) (r : Run)
    (unit : str * PreparedSource) : Run :=
  let '(key, prepared) := unit in
  match _chunk_prepared_source X (world r) c prepared with
  | (Ok chunk_records, w1) =>
      {| world := w1; run_chunks := run_chunks r ++ chunk_records;
         errors := errors r;
         seen_chunk_ids := seen_chunk_ids r ++ map chunk_id chunk_records;
         prepared_lookup := prepared_lookup r;
         existing_chunk_map := dict_set (existing_chunk_map r) key [] |}
  | (Raise exc, w1) =>
      {| world := w1; run_chunks := run_chunks r;
         errors := errors r ++ [chunk_failure (ps_markdown_path prepared) exc];
         seen_chunk_ids := seen_chunk_ids r;
         prepared_lookup := prepared_lookup r;
         existing_chunk_map := existing_chunk_map r |}
  end.

Definition chunk_all (X : Ext) (c : ConversionConfig) (r : Run)
    (units : list (str * PreparedSource)) : Run :=
  fold_left (chunk_one X c) units r.

(** [as_completed]: the futures come back in the order the choices pick
    them from the ones still running. *)
Fixpoint as_completed {A : Type} (fuel : nat) (choices : list nat) (pending : list A)
  : list A :=
  match fuel, pending with
  | S fuel', x :: _ =>
      let i := hd 0 choices mod length pending in
      nth i pending x
      :: as_completed fuel' (tl choices) (firstn i pending ++ skipn (S i) pending)
  | _, _ => []
  end.

Definition max_workers (X : Ext) (n_prepared : nat) : nat :=
  Nat.min (Nat.max 1 (match cpu_count X with Some n => n | None => 1 end)) n_prepared.

(** The final loop over [existing_chunk_map.values()]. *)
Fixpoint merge_untouched (w : World) (lists : list (list ChunkRecord))
    (chunks : list ChunkRecord) (seen : list str) : list ChunkRecord * list str :=
  match lists with
  | [] => (chunks, seen)
  | chunk_list :: rest =>
      let '(chunks', seen') :=
        (fix inner (l : list ChunkRecord) (chunks : list ChunkRecord) (seen : list str) :=
           match l with
           | [] => (chunks, seen)
           | chunk :: l' =>
               if existsb (str_eqb (chunk_id chunk)) seen then inner l' chunks seen
               else if exists_ w (markdown_path chunk)
                    then inner l' (chunks ++ [chunk]) (seen ++ [chunk_id chunk])
                    else inner l' chunks seen
           end) chunk_list chunks seen in
      merge_untouched w rest chunks' seen'
  end.

Definition NEWLINE : str := [LF].

Definition discover (X : Ext) (c : ConversionConfig) : list Path :=
  _deduplicate_paths X (_iter_source_files X (input_dir c)).

(** The state after the preparation loop, when no uncaught exception ended
    the run. *)
Definition prepared_run (X : Ext) (w : World) (c : ConversionConfig)
  : Result Run * World :=
  prepare_all X c
    {| world := w; run_chunks := []; errors := []; seen_chunk_ids := [];
       prepared_lookup := [];
       existing_chunk_map :=
         if enable_chunking c then _load_existing_chunk_map X w c else [] |}
    (discover X c).

(** The units of the chunking stage in the order their outcomes are
    handled. *)
Definition handled_units (X : Ext) (units : list (str * PreparedSource))
  : list (str * PreparedSource) :=
  if (length units =? 1) || (max_workers X (length units) =? 1)
  then units
  else as_completed (length units) (completion X) units.

Definition run_conversion_pipeline (X : Ext) (w : World) (c : ConversionConfig)
  : Result CorpusManifest * World :=
  match discover X c with
  | [] =>
      (Ok {| chunks := []; output_dir := cfg_output_dir c; uploads_dir := input_dir c;
             needs_embedding_refresh := false |}, w)
  | _ =>
      match prepared_run X w c with
      | (Raise msg, w1) => (Raise msg, w1)
      | (Ok r1, _) =>
          match errors r1 with
          | _ :: _ => (Raise (join NEWLINE (errors r1)), world r1)
          | [] =>
              let r2 :=
                if enable_chunking c
                then match prepared_lookup r1 with
                     | [] => r1
                     | units => chunk_all X c r1 (handled_units X units)
                     end
                else r1 in
              match errors r2 with
              | _ :: _ => (Raise (join NEWLINE (errors r2)), world r2)
              | [] =>
                  let chunks' :=
                    if enable_chunking c
                    then fst (merge_untouched (world r2)
                                (map snd (existing_chunk_map r2))
                                (run_chunks r2) (seen_chunk_ids r2))
                    else run_chunks r2 in
                  (Ok {| chunks := chunks'; output_dir := cfg_output_dir c;
                         uploads_dir := input_dir c;
                         needs_embedding_refresh := enable_chunking c |},
                   world r2)
              end
          end
      end
  end.

End Runner.
(* ===================================================================== *)
(** * The runner, as the specification words it *)
(* ===================================================================== *)

Module RunnerSpec.

Import Rewriter Runner.

(** The numbers of the conversion attempts made so far, first to last. *)
Fixpoint attempts_in (acts : list Action) : list nat :=
  match acts with
  | [] => []
  | Converted _ attempt :: rest => attempts_in rest ++ [attempt]
  | _ :: rest => attempts_in rest
  end.

Definition attempts_of (w : World) : list nat := attempts_in (done w).

(** The paths an action writes to or removes. *)
Definition target_of (a : Action) : option Path :=
  match a with
  | Copied _ dst => Some dst
  | Unlinked p => Some p
  | Wrote p => Some p
  | _ => None
  end.

(** Every stage of the chain of a source is fresh. *)
Definition chain_fresh (w : World) (copied pdf_path markdown : Path)
    (existing_chunks : list ChunkRecord) : Prop :=
  exists tc tp tm,
    mtime w copied = Some tc
    /\ mtime w pdf_path = Some tp /\ (tc <= tp)%Z
    /\ mtime w markdown = Some tm /\ (tp <= tm)%Z
    /\ Forall (fun chunk => exists t, mtime w (markdown_path chunk) = Some t /\ (tm <= t)%Z)
              existing_chunks.

(** The configured number of attempts, or the default. *)
Definition configured_attempts (X : Ext) (options : dict PyVal) : Z :=
  match dict_get options (lit "max_conversion_attempts") with
  | None | Some PyNone => DEFAULT_CONVERSION_ATTEMPTS
  | Some v => match py_int X v with
              | IntValue z => z
              | _ => DEFAULT_CONVERSION_ATTEMPTS
              end
  end.

(** The configured value is there and is no integer: [int] refuses it
    with an exception that is caught. *)
Definition not_coercible (X : Ext) (options : dict PyVal) : bool :=
  match dict_get options (lit "max_conversion_attempts") with
  | None | Some PyNone => false
  | Some v => match py_int X v with IntRefused => true | _ => false end
  end.

(** The configured value is an infinite float: [int] overflows on it. *)
Definition overflows (options : dict PyVal) : bool :=
  match dict_get options (lit "max_conversion_attempts") with
  | Some (PyFloat (FloatInf _)) => true
  | _ => false
  end.

(** The ceiling of the attempts as the specification words it. *)
Definition claimed_ceiling (X : Ext) (options : dict PyVal) (ext : str) : Z :=
  if retry_eligible ext then Z.max 1 (configured_attempts X options) else 1%Z.

Definition ceiling_warnings (X : Ext) (options : dict PyVal) : list Action :=
  if not_coercible X options then [Warned MSG_INVALID_ATTEMPTS] else [].


(** Why the chunking of a prepared document fails, if it does. *)
Definition chunk_error (X : Ext) (prepared : PreparedSource) : option str :=
  match chunk_markdown X prepared with
  | Raise msg => Some msg
  | Ok [] => Some (no_chunks_message (ps_markdown_path prepared))
  | Ok (_ :: _) => None
  end.

(** The failure messages of the units, in the order they are handled. *)
Definition chunk_failures (X : Ext) (units : list (str * PreparedSource)) : list str :=
  flat_map (fun u => match chunk_error X (snd u) with
                     | Some exc => [chunk_failure (ps_markdown_path (snd u)) exc]
                     | None => []
                     end) units.

(** The failures a run has collected when it decides between raising and
    returning: those of the preparation loop if there are any (the chunking
    stage is not entered then), otherwise those of the chunking stage. *)
Definition collected_failures (X : Ext) (c : ConversionConfig) (r1 : Run) : list str :=
  match errors r1 with
  | [] => if enable_chunking c
          then chunk_failures X (handled_units X (prepared_lookup r1))
          else []
  | errs => errs
  end.

(** The identity hash of a source and the derived paths it names. *)
Definition rel_of (X : Ext) (c : ConversionConfig) (src : Path) : Path :=
  _compute_source_rel X src (input_dir c).

Definition hash_of (X : Ext) (c : ConversionConfig) (src : Path) : str :=
  relpath_hash X (input_dir c) (rel_of X c src).

Definition copy_of (X : Ext) (c : ConversionConfig) (src : Path) : Path :=
  pjoin (originals_dir c) (hash_of X c src ++ suffix_lower X src).

Definition pdf_of (c : ConversionConfig) (hash : str) : Path :=
  pjoin (converted_dir c) (hash ++ lit ".pdf").

Definition markdown_of (c : ConversionConfig) (hash : str) : Path :=
  pjoin (markdown_dir c) (hash ++ lit ".md").

(** A turn of the preparation loop that skips the source: nothing is
    written, nothing is queued, the recorded chunks are kept. *)
Definition skipped (r : Run) (w2 : World) (existing : list ChunkRecord)
    (res : Result Run) : Prop :=
  exists r',
    res = Ok r'
    /\ world r' = w2
    /\ errors r' = errors r
    /\ prepared_lookup r' = prepared_lookup r
    /\ run_chunks r' = fst (keep_existing w2 existing (run_chunks r) (seen_chunk_ids r)).

(** A turn that reprocesses the source from the world [w2], with chunking
    enabled: the source is prepared again and, when that succeeds, queued
    for chunking. *)
Definition reprocessed (X : Ext) (c : ConversionConfig) (r : Run) (src copied : Path)
    (w2 : World) (res : Result Run) : Prop :=
  exists r',
    res = Ok r'
    /\ world r' = snd (_prepare_source_file X w2 c copied (rel_of X c src) (hash_of X c src))
    /\ match fst (_prepare_source_file X w2 c copied (rel_of X c src) (hash_of X c src)) with
       | Ok prepared =>
           errors r' = errors r
           /\ prepared_lookup r' = prepared_lookup r ++ [(hash_of X c src, prepared)]
       | Raise exc =>
           errors r' = errors r ++ [process_failure src exc]
           /\ prepared_lookup r' = prepared_lookup r
       end.







End RunnerSpec.
(* ===================================================================== *)
(** * A small corpus, for worked runs of the pipeline *)
(* ===================================================================== *)

Module DemoRun.

Import Rewriter Runner Demo.

(** [int] of a string of ASCII digits with an optional sign, blanks around
    it allowed. *)
Fixpoint digits_value (s : str) (acc : Z) : option Z :=
  match s with
  | [] => Some acc
  | c :: rest =>
      if ((48 <=? c) && (c <=? 57))%N
      then digits_value rest (10 * acc + Z.of_N (c - 48))%Z
      else None
  end.

Definition ascii_int (s : str) : option Z :=
  match strip s with
  | [] => None
  | c :: rest =>
      if N.eqb c 45 then
        match rest with [] => None | _ => option_map Z.opp (digits_value rest 0) end
      else if N.eqb c 43 then
        match rest with [] => None | _ => digits_value rest 0 end
      else digits_value (c :: rest) 0
  end.

(** A stand-in for the hash of a relative path: the path with every
    character that is no lower-case letter replaced by [_]. *)
Definition demo_hash (_ rel : Path) : str :=
  map (fun c => if ((97 <=? c) && (c <=? 122))%N then c else 95%N) rel.

Definition demo_relative (p root : Path) : option Path :=
  if startswith (root ++ [SLASH]) p then Some (skipn (length root + 1) p) else None.

Definition demo_ext (conv : Path -> nat -> ConvOutcome)
    (extract : option (Path -> Result (list str)))
    (chunker : PreparedSource -> Result (list (str * str * dict MetaVal)))
    (listing : list Path) (jsonl : JsonlFile) : Ext :=
  {| rglob_sorted := fun _ => listing;
     ext_is_file := fun _ => true;
     relative_to := demo_relative;
     path_parts := path_components;
     suffix_lower := path_suffix;
     resolve := fun p => p;
     relpath_hash := demo_hash;
     int_of_text := ascii_int;
     converter := conv;
     extractor := extract;
     read_text := fun _ => lit "plain text";
     rewriter_env := fun _ => empty_env;
     chunk_markdown := chunker;
     cpu_count := Some 4;
     completion := [1; 0];
     chunks_jsonl := jsonl |}.

(** A world with the given files and their times. *)
Definition world_of (files : dict Z) (t : Z) : World :=
  {| mtime := dict_get files; now := t; caption_cache := NoFile; done := [] |}.

Definition always_fails (_ : Path) (_ : nat) : ConvOutcome :=
  ConvFailed (lit "boom") true.

Definition fails_twice (pdf : Path) (_ : Path) (attempt : nat) : ConvOutcome :=
  if attempt <? 3 then ConvFailed (lit "boom") true else ConvDone pdf.

Definition extracts_one (pdf : Path) : Result (list str) :=
  Ok [path_stem pdf ++ lit ".md"].

(** A chunker that gives one chunk per document, none for the documents
    whose hash is in [empty], and raises for those in [broken]. *)
Definition demo_chunker (empty broken : list str) (p : PreparedSource)
  : Result (list (str * str * dict MetaVal)) :=
  if existsb (str_eqb (ps_source_hash p)) broken then Raise (lit "chunker crashed")
  else if existsb (str_eqb (ps_source_hash p)) empty then Ok []
  else Ok [(ps_source_hash p ++ lit "_0000", lit "chunk text", [])].

Definition OUT : Path := lit "/out".
Definition IN : Path := lit "/in".
Definition A_DOCX : Path := lit "/in/a.docx".
Definition B_DOCX : Path := lit "/in/b.docx".
Definition C_PDF : Path := lit "/in/c.pdf".

Definition demo_config (options : dict PyVal) (chunking : bool) : ConversionConfig :=
  {| input_dir := IN; cfg_output_dir := OUT; extra_options := options;
     enable_chunking := chunking; vision_model := None;
     disable_caption_cache := false; clear_caption_cache := false |}.

Definition MAX_ATTEMPTS : str := lit "max_conversion_attempts".

(** Three PDFs; the chunker gives nothing for the first and crashes on the
    second.  The futures complete in the order second, first, third. *)
Definition THREE_PDFS : Ext :=
  demo_ext always_fails (Some extracts_one)
    (demo_chunker [lit "a_pdf"] [lit "b_pdf"])
    [lit "/in/a.pdf"; lit "/in/b.pdf"; lit "/in/c.pdf"] JsonlAbsent.

Definition THREE_PDFS_WORLD : World :=
  world_of [(lit "/in/a.pdf", 5%Z); (lit "/in/b.pdf", 5%Z); (lit "/in/c.pdf", 5%Z)] 20.

(** One PDF that an earlier run has chunked. *)
Definition CHUNKED_BEFORE : Ext :=
  demo_ext always_fails (Some extracts_one) (demo_chunker [] []) [C_PDF]
    (JsonlRecords [Rec (Some (lit "chnk_c_pdf_0000")) (Some (lit "/out/originals/c_pdf.pdf"))
                       (Some (lit "c.pdf")) (Some (lit "c_pdf")) []]).

(** The artefacts of that PDF with the given times of the markdown and of
    the chunk file; source, copy and PDF have time 5, the clock is at 20. *)
Definition chunked_world (markdown_time chunk_time : Z) : World :=
  world_of [(lit "/in/c.pdf", 5%Z);
            (lit "/out/originals/c_pdf.pdf", 5%Z);
            (lit "/out/converted/c_pdf.pdf", 5%Z);
            (lit "/out/markdown/c_pdf.md", markdown_time);
            (lit "/out/chunk_markdown/chnk_c_pdf_0000.md", chunk_time)] 20.

(** The PDF of that run, prepared for chunking. *)
Definition PREPARED_C : PreparedSource :=
  {| ps_source_path := lit "/out/originals/c_pdf.pdf";
     ps_markdown_path := lit "/out/markdown/c_pdf.md";
     ps_media_assets := [];
     ps_source_rel := lit "c.pdf";
     ps_source_hash := lit "c_pdf" |}.

End DemoRun.
(* ===================================================================== *)
(** * Further notions used to state properties of the code *)
(* ===================================================================== *)

Module MoreSpec.

Import Rewriter Runner RunnerSpec.

(** The string holds no line boundary of [str.splitlines]. *)
Definition no_linebreak (s : str) : bool := forallb (fun c => negb (islinebreak c)) s.

(** [l] is [l'] with some elements left out, the order kept. *)
Inductive subsequence {A : Type} : list A -> list A -> Prop :=
| sub_nil : subsequence [] []
| sub_skip x l l' : subsequence l l' -> subsequence l (x :: l')
| sub_keep x l l' : subsequence l l' -> subsequence (x :: l) (x :: l').

(** The bytes of the file of an existing target can be read. *)
Definition readable (E : Env) (t : Bucket) : bool :=
  match read_bytes E (bucket_path t) with Some _ => true | None => false end.

(** The path is the chunk file or the chunk text of one of the records. *)
Definition removed_by (c : ConversionConfig) (records : list ChunkRecord) (q : Path) : bool :=
  existsb (fun chunk => str_eqb q (markdown_path chunk)
                        || str_eqb q (pjoin (texts_dir c) (chunk_id chunk ++ lit ".md")))
          records.



(** The inner loop of the final merge, over one list of recorded chunks. *)
Definition keep_unseen (w : World) :=
  fix inner (l : list ChunkRecord) (chunks : list ChunkRecord) (seen : list str) :=
    match l with
    | [] => (chunks, seen)
    | chunk :: l' =>
        if existsb (str_eqb (chunk_id chunk)) seen then inner l' chunks seen
        else if exists_ w (markdown_path chunk)
             then inner l' (chunks ++ [chunk]) (seen ++ [chunk_id chunk])
             else inner l' chunks seen
    end.

(** The metadata of a chunk record: what the chunker gave, and the two
    defaults where it gave nothing. *)
Definition metadata_with_defaults (prepared : PreparedSource) (given : dict MetaVal)
    (k : str) : option MetaVal :=
  match dict_get given k with
  | Some v => Some v
  | None =>
      if str_eqb k (lit "source_rel") then Some (MetaStr (ps_source_rel prepared))
      else if str_eqb k (lit "source_hash") then Some (MetaStr (ps_source_hash prepared))
      else None
  end.

(** No file carries a time later than the clock. *)
Definition clock_ahead (w : World) : Prop :=
  forall q t, mtime w q = Some t -> (t <= now w)%Z.

End MoreSpec.
(* ===================================================================== *)
(** * Facts about the string primitives *)
(* ===================================================================== *)

Lemma str_eqb_eq a b : str_eqb a b = true <-> a = b.
Proof. unfold str_eqb; destruct (str_eq_dec a b); split; congruence. Qed.

Lemma str_eqb_refl a : str_eqb a a = true.
Proof. apply str_eqb_eq; reflexivity. Qed.

Lemma str_eqb_neq a b : str_eqb a b = false <-> a <> b.
Proof. unfold str_eqb; destruct (str_eq_dec a b); split; congruence. Qed.

Example splitlines_ex1 :
  splitlines (lit "a" ++ [CR; LF] ++ lit "b" ++ [11%N] ++ lit "c") = [lit "a"; lit "b"; lit "c"].
Proof. reflexivity. Qed.

Example splitlines_ex2 : splitlines [LF] = [[]] /\ splitlines [] = [] /\
  splitlines (lit "a" ++ [LF; LF]) = [lit "a"; []].
Proof. repeat split. Qed.

Example pad3_ex : pad3 5 = lit "005" /\ pad3 1234 = lit "1234" /\ pad3 0 = lit "000".
Proof. repeat split. Qed.


Example path_stem_ex :
  path_stem (lit "a/b.png") = lit "b" /\ path_stem (lit "a/.hidden") = lit ".hidden" /\
  path_stem (lit "a/b.") = lit "b." /\ path_stem (lit ".a.b") = lit ".a" /\
  path_stem (lit "..") = lit ".." /\ path_stem (lit "/") = [] /\
  path_stem (lit "a//b.tar.gz/") = lit "b.tar" /\ path_stem (lit ".") = [].
Proof. repeat split. Qed.

Module PyFacts.

(** ** Stripping *)

Lemma lstrip_head s :
  match lstrip s with [] => True | c :: _ => isspace c = false end.
Proof.
  induction s as [|c s IH]; simpl; [exact I|].
  destruct (isspace c) eqn:E; [exact IH|exact E].
Qed.

Lemma lstrip_fix s :
  match s with [] => True | c :: _ => isspace c = false end -> lstrip s = s.
Proof. destruct s as [|c s]; simpl; [reflexivity|]. intros ->. reflexivity. Qed.

Lemma lstrip_idem s : lstrip (lstrip s) = lstrip s.
Proof. apply lstrip_fix. apply lstrip_head. Qed.

Lemma lstrip_split s :
  exists pre, s = pre ++ lstrip s /\ forallb isspace pre = true.
Proof.
  induction s as [|c s (pre & Hs & Hp)]; simpl.
  - exists []. split; reflexivity.
  - destruct (isspace c) eqn:E.
    + exists (c :: pre). simpl. rewrite E, Hp. split; [f_equal; exact Hs|reflexivity].
    + exists []. split; reflexivity.
Qed.

Lemma rstrip_nil : rstrip [] = [].
Proof. reflexivity. Qed.

Lemma rstrip_strip s : rstrip (strip s) = strip s.
Proof.
  unfold strip. set (r := rstrip s).
  destruct (lstrip_split r) as (pre & Hr & Hpre).
  destruct (lstrip r) as [|c t] eqn:Ht; [reflexivity|].
  unfold rstrip at 1. rewrite lstrip_fix; [apply rev_involutive|].
  assert (Hrev : rev r = rev (c :: t) ++ rev pre) by (rewrite Hr at 1; apply rev_app_distr).
  pose proof (lstrip_head (rev s)) as Hh.
  assert (Hrr : rev r = lstrip (rev s)) by (unfold r, rstrip; apply rev_involutive).
  rewrite <- Hrr, Hrev in Hh.
  destruct (rev (c :: t)) as [|x u] eqn:Hu.
  - apply (f_equal (@length _)) in Hu. rewrite length_rev in Hu. discriminate.
  - exact Hh.
Qed.

Lemma strip_idem s : strip (strip s) = strip s.
Proof.
  unfold strip at 1. rewrite rstrip_strip. unfold strip. apply lstrip_idem.
Qed.

Lemma blank_strip s : blank (strip s) = blank s.
Proof. unfold blank. rewrite strip_idem. reflexivity. Qed.

Lemma truthy_strip_not_blank s : truthy (strip s) = true -> blank (strip s) = false.
Proof. intros H. rewrite blank_strip. unfold blank. rewrite H. reflexivity. Qed.

Lemma blank_false_truthy s : blank s = false -> truthy s = true.
Proof. destruct s; [discriminate|reflexivity]. Qed.

Lemma blank_false_iff s : blank s = false <-> truthy (strip s) = true.
Proof. unfold blank. destruct (truthy (strip s)); simpl; split; congruence. Qed.

Lemma rstrip_last s :
  match rev (rstrip s) with [] => True | c :: _ => isspace c = false end.
Proof. unfold rstrip. rewrite rev_involutive. apply lstrip_head. Qed.

(** ** Joining lines *)

Lemma join_terminated sep : forall ls,
  ls <> [] -> join sep ls ++ sep = concat (map (fun l => l ++ sep) ls).
Proof.
  induction ls as [|l ls IH]; intros Hne; [congruence|].
  destruct ls as [|l' ls].
  - simpl. rewrite app_nil_r. reflexivity.
  - change (join sep (l :: l' :: ls)) with (l ++ sep ++ join sep (l' :: ls)).
    rewrite <- !app_assoc. rewrite IH by discriminate.
    simpl. rewrite <- !app_assoc. reflexivity.
Qed.

(** ** Decimal digits *)

Lemma digits_fuel_value : forall fuel n acc,
  n < fuel ->
  exists d, digits_fuel fuel n acc = d ++ acc /\ value_of d = n.
Proof.
  induction fuel as [|fuel IH]; intros n acc Hn; [lia|].
  cbn [digits_fuel]. destruct (Nat.ltb_spec n 10) as [Hlt|Hge].
  - exists [N.of_nat (48 + n mod 10)]. split; [reflexivity|].
    unfold value_of, digit_value. cbn [fold_left].
    rewrite Nat2N.id. rewrite Nat.mod_small by assumption. lia.
  - destruct (IH (n / 10) (N.of_nat (48 + n mod 10) :: acc)) as (d & Hd & Hv).
    + assert (n / 10 < n) by (apply Nat.div_lt; lia). lia.
    + exists (d ++ [N.of_nat (48 + n mod 10)]). split.
      * rewrite Hd, <- app_assoc. reflexivity.
      * unfold value_of in *. rewrite fold_left_app, Hv. unfold digit_value.
        cbn [fold_left]. rewrite Nat2N.id.
        pose proof (Nat.div_mod_eq n 10) as Hdm. lia.
Qed.

Lemma value_of_str_of_nat n : value_of (str_of_nat n) = n.
Proof.
  unfold str_of_nat. destruct (digits_fuel_value (S n) n []) as (d & Hd & Hv); [lia|].
  rewrite Hd, app_nil_r. exact Hv.
Qed.

Lemma value_of_zeros k s : value_of (repeat 48%N k ++ s) = value_of s.
Proof.
  unfold value_of. rewrite fold_left_app. f_equal.
  induction k as [|k IH]; [reflexivity|].
  cbn [repeat fold_left]. exact IH.
Qed.

Lemma value_of_pad3 n : value_of (pad3 n) = n.
Proof. unfold pad3. rewrite value_of_zeros. apply value_of_str_of_nat. Qed.

Lemma pad3_inj n m : pad3 n = pad3 m -> n = m.
Proof.
  intros H. rewrite <- (value_of_pad3 n), <- (value_of_pad3 m), H. reflexivity.
Qed.

(** ** Dictionaries *)

Lemma dict_get_set_same (V : Type) (d : dict V) k v : dict_get (dict_set d k v) k = Some v.
Proof.
  induction d as [|[k' v'] d IH]; simpl.
  - rewrite str_eqb_refl. reflexivity.
  - destruct (str_eqb k' k) eqn:E; simpl; rewrite E; [reflexivity|exact IH].
Qed.

Lemma dict_get_set_other (V : Type) (d : dict V) k k' v :
  k <> k' -> dict_get (dict_set d k v) k' = dict_get d k'.
Proof.
  intros Hne. induction d as [|[k0 v0] d IH]; simpl.
  - destruct (str_eqb k k') eqn:E; [apply str_eqb_eq in E; congruence|reflexivity].
  - destruct (str_eqb k0 k) eqn:E; simpl.
    + apply str_eqb_eq in E. subst k0.
      destruct (str_eqb k k') eqn:E'; [apply str_eqb_eq in E'; congruence|reflexivity].
    + destruct (str_eqb k0 k'); [reflexivity|exact IH].
Qed.

Lemma dict_get_set (V : Type) (d : dict V) k k' v :
  dict_get (dict_set d k v) k' = if str_eqb k k' then Some v else dict_get d k'.
Proof.
  destruct (str_eqb k k') eqn:E.
  - apply str_eqb_eq in E. subst. apply dict_get_set_same.
  - apply dict_get_set_other. now apply str_eqb_neq.
Qed.

Lemma dict_get_in (V : Type) (d : dict V) k v : dict_get d k = Some v -> In (k, v) d.
Proof.
  induction d as [|[k' v'] d IH]; simpl; [discriminate|].
  destruct (str_eqb k' k) eqn:E.
  - apply str_eqb_eq in E. intros H; inversion H; subst. now left.
  - intros H. right. now apply IH.
Qed.

Lemma dict_get_none_not_in (V : Type) (d : dict V) k :
  dict_get d k = None <-> ~ In k (dict_keys d).
Proof.
  induction d as [|[k' v'] d IH]; simpl.
  - split; [intros _ []|reflexivity].
  - destruct (str_eqb k' k) eqn:E.
    + apply str_eqb_eq in E. split; [discriminate|]. intros H. exfalso. apply H. now left.
    + apply str_eqb_neq in E. rewrite IH. split.
      * intros H [H'|H']; [congruence|contradiction].
      * intros H H'. apply H. now right.
Qed.

(** ** The first exception *)

Lemma first_raised_map (A : Type) (f : A -> option str) (l : list A) msg :
  first_raised (map f l) = Some msg
  <-> exists pre x post, l = pre ++ x :: post
                         /\ Forall (fun y => f y = None) pre /\ f x = Some msg.
Proof.
  induction l as [|y l IH]; cbn [map first_raised].
  - split; [discriminate|]. intros (pre & x & post & H & _). destruct pre; discriminate.
  - destruct (f y) as [m|] eqn:Hy.
    + split.
      * intros H. inversion H; subst. exists [], y, l. repeat split; [constructor|exact Hy].
      * intros (pre & x & post & Heq & Hpre & Hx).
        destruct pre as [|z pre]; inversion Heq; subst; [congruence|].
        inversion Hpre; subst. congruence.
    + rewrite IH. split.
      * intros (pre & x & post & -> & Hpre & Hx). exists (y :: pre), x, post.
        repeat split; [constructor; assumption|exact Hx].
      * intros (pre & x & post & Heq & Hpre & Hx).
        destruct pre as [|z pre]; inversion Heq; subst; [congruence|].
        inversion Hpre; subst. exists pre, x, post. repeat split; assumption.
Qed.

Lemma first_raised_none (A : Type) (f : A -> option str) (l : list A) :
  first_raised (map f l) = None <-> Forall (fun y => f y = None) l.
Proof.
  induction l as [|y l IH]; cbn [map first_raised].
  - split; [constructor|reflexivity].
  - destruct (f y) as [m|] eqn:Hy.
    + split; [discriminate|]. intros H. inversion H; subst. congruence.
    + rewrite IH. split; [intros H; now constructor|intros H; now inversion H].
Qed.

End PyFacts.
(* ===================================================================== *)
(** * The scanner meets its specification *)
(* ===================================================================== *)

Module ScanFacts.

Import Rewriter ScanSpec.

Lemma closing_bracket_complete a :
  alt_span a ->
  forall rest i, closing_bracket_at (a ++ RBRACKET :: rest) i = Some (i + length a).
Proof.
  induction 1 as [|c s Hs IH|c s Hb Hr Hs IH]; intros rest i; simpl.
  - f_equal; lia.
  - rewrite IH; f_equal; lia.
  - destruct (N.eqb_spec c BACKSLASH) as [->|_]; [congruence|].
    destruct (N.eqb_spec c RBRACKET) as [->|_]; [congruence|].
    rewrite IH; f_equal; lia.
Qed.

Lemma closing_bracket_sound_len n :
  forall s i e, length s <= n -> closing_bracket_at s i = Some e ->
  exists a rest, s = a ++ RBRACKET :: rest /\ alt_span a /\ e = i + length a.
Proof.
  induction n as [|n IH]; intros s i e Hlen H.
  - destruct s; simpl in *; [discriminate|lia].
  - destruct s as [|c s]; simpl in H; [discriminate|].
    destruct (N.eqb_spec c BACKSLASH) as [->|Hb].
    + destruct s as [|c' s]; [discriminate|].
      apply IH in H; [|simpl in Hlen; lia].
      destruct H as (a & rest & -> & Ha & ->).
      exists (BACKSLASH :: c' :: a), rest; repeat split.
      * now constructor.
      * simpl; lia.
    + destruct (N.eqb_spec c RBRACKET) as [->|Hr].
      * inversion H; subst. exists [], s; repeat split; [constructor|simpl; lia].
      * apply IH in H; [|simpl in Hlen; lia].
        destruct H as (a & rest & -> & Ha & ->).
        exists (c :: a), rest; repeat split.
        -- now constructor.
        -- simpl; lia.
Qed.

Lemma closing_bracket_sound s i e :
  closing_bracket_at s i = Some e ->
  exists a rest, s = a ++ RBRACKET :: rest /\ alt_span a /\ e = i + length a.
Proof. apply closing_bracket_sound_len with (n := length s); lia. Qed.

Lemma closing_bracket_none s i :
  closing_bracket_at s i = None -> unterminated s.
Proof.
  intros H a rest Ha ->. rewrite closing_bracket_complete in H by assumption.
  discriminate.
Qed.

Lemma matching_paren_skip b :
  balanced b ->
  forall k i d, 1 <= d ->
    matching_paren_at (b ++ k) i d = matching_paren_at k (i + length b) d.
Proof.
  induction 1 as [|c s Hs IH|c s Hb Hl Hr Hs IH|a b Ha IHa Hb IHb]; intros k i d Hd.
  - simpl; f_equal; lia.
  - simpl. rewrite IH by assumption. f_equal; lia.
  - simpl.
    destruct (N.eqb_spec c BACKSLASH) as [->|_]; [congruence|].
    destruct (N.eqb_spec c LPAREN) as [->|_]; [congruence|].
    destruct (N.eqb_spec c RPAREN) as [->|_]; [congruence|].
    rewrite IH by assumption. f_equal; lia.
  - cbn [app matching_paren_at].
    change (N.eqb LPAREN BACKSLASH) with false; cbn iota.
    change (N.eqb LPAREN LPAREN) with true; cbn iota.
    rewrite <- app_assoc. rewrite IHa by lia.
    cbn [app matching_paren_at].
    change (N.eqb RPAREN BACKSLASH) with false; cbn iota.
    change (N.eqb RPAREN LPAREN) with false; cbn iota.
    change (N.eqb RPAREN RPAREN) with true; cbn iota.
    replace (d + 1 - 1) with d by lia.
    destruct (Nat.eqb_spec d 0); [lia|].
    rewrite IHb by assumption.
    f_equal. simpl. rewrite length_app. simpl. lia.
Qed.

Lemma matching_paren_complete b rest i :
  balanced b ->
  matching_paren_at (b ++ RPAREN :: rest) i 1 = Some (i + length b).
Proof.
  intros Hb. rewrite matching_paren_skip by (assumption || lia).
  reflexivity.
Qed.

Lemma closes_escape k : forall c b, closes k b -> closes k (BACKSLASH :: c :: b).
Proof.
  destruct k; simpl; intros c b H.
  - now constructor.
  - destruct H as (b1 & b2 & -> & H1 & H2).
    exists (BACKSLASH :: c :: b1), b2; repeat split; [now constructor|assumption].
Qed.

Lemma closes_char k c b :
  c <> BACKSLASH -> c <> LPAREN -> c <> RPAREN -> closes k b -> closes k (c :: b).
Proof.
  destruct k; simpl; intros Hb Hl Hr H.
  - now constructor.
  - destruct H as (b1 & b2 & -> & H1 & H2).
    exists (c :: b1), b2; repeat split; [now constructor|assumption].
Qed.

Lemma closes_group k b : closes (S k) b -> closes k (LPAREN :: b).
Proof.
  simpl; intros (b1 & b2 & -> & H1 & H2).
  destruct k; simpl in *.
  - now constructor.
  - destruct H2 as (b3 & b4 & -> & H3 & H4).
    exists (LPAREN :: b1 ++ RPAREN :: b3), b4; repeat split.
    + simpl. rewrite <- app_assoc. reflexivity.
    + now constructor.
    + assumption.
Qed.

Lemma matching_paren_sound_len n :
  forall s i k e, length s <= n -> matching_paren_at s i (S k) = Some e ->
  exists b rest, s = b ++ RPAREN :: rest /\ closes k b /\ e = i + length b.
Proof.
  induction n as [|n IH]; intros s i k e Hlen H.
  - destruct s; simpl in *; [discriminate|lia].
  - destruct s as [|c s]; simpl in H; [discriminate|].
    destruct (N.eqb_spec c BACKSLASH) as [->|Hb].
    + destruct s as [|c' s]; [discriminate|].
      apply IH in H; [|simpl in Hlen; lia].
      destruct H as (b & rest & -> & Hc & ->).
      exists (BACKSLASH :: c' :: b), rest; repeat split.
      * now apply closes_escape.
      * simpl; lia.
    + destruct (N.eqb_spec c LPAREN) as [->|Hl].
      * replace (k + 1) with (S k) in H by lia.
        apply IH in H; [|simpl in Hlen; lia].
        destruct H as (b & rest & -> & Hc & ->).
        exists (LPAREN :: b), rest; repeat split.
        -- now apply closes_group.
        -- simpl; lia.
      * destruct (N.eqb_spec c RPAREN) as [->|Hr].
        -- replace (S k - 1) with k in H by lia.
           destruct (Nat.eqb_spec k 0) as [->|Hk].
           ++ inversion H; subst. exists [], s; repeat split; [constructor|simpl; lia].
           ++ destruct k as [|k']; [congruence|].
              apply IH in H; [|simpl in Hlen; lia].
              destruct H as (b & rest & -> & Hc & ->).
              exists (RPAREN :: b), rest; repeat split.
              ** exists [], b; repeat split; [constructor|assumption].
              ** simpl; lia.
        -- apply IH in H; [|simpl in Hlen; lia].
           destruct H as (b & rest & -> & Hc & ->).
           exists (c :: b), rest; repeat split.
           ++ now apply closes_char.
           ++ simpl; lia.
Qed.

Lemma matching_paren_sound s i e :
  matching_paren_at s i 1 = Some e ->
  exists b rest, s = b ++ RPAREN :: rest /\ balanced b /\ e = i + length b.
Proof.
  intros H. apply matching_paren_sound_len with (n := length s) in H; [|lia].
  exact H.
Qed.

Lemma matching_paren_none s i :
  matching_paren_at s i 1 = None -> unclosed s.
Proof.
  intros H b rest Hb ->. rewrite matching_paren_complete in H by assumption.
  discriminate.
Qed.

(** ** [str.find] *)

Lemma startswith_app pat : forall s,
  startswith pat s = true <-> exists post, s = pat ++ post.
Proof.
  induction pat as [|p pat IH]; intros s; simpl.
  - split; [intros _; now exists s|reflexivity].
  - destruct s as [|c s].
    + split; [discriminate|intros (post & H); discriminate].
    + rewrite andb_true_iff, IH, N.eqb_eq. split.
      * intros (-> & post & ->). now exists post.
      * intros (post & H). inversion H; subst. split; [reflexivity|now exists post].
Qed.

Lemma occurs_at_skipn pat text j :
  occurs_at pat text j <-> j <= length text /\ startswith pat (skipn j text) = true.
Proof.
  unfold occurs_at. rewrite startswith_app. split.
  - intros (pre & post & -> & <-). split.
    + rewrite length_app. lia.
    + exists post. rewrite skipn_app, skipn_all, Nat.sub_diag. reflexivity.
  - intros (Hj & post & Hpost). exists (firstn j text), post. split.
    + rewrite <- Hpost. symmetry. apply firstn_skipn.
    + apply firstn_length_le. assumption.
Qed.

Lemma find_at_spec pat : forall s i,
  match find_at pat s i with
  | Some e => i <= e /\ e - i <= length s
              /\ startswith pat (skipn (e - i) s) = true
              /\ forall j, j < e - i -> startswith pat (skipn j s) = false
  | None => forall j, j <= length s -> startswith pat (skipn j s) = false
  end.
Proof.
  induction s as [|c s IH]; intros i.
  - cbn [find_at]. destruct (startswith pat []) eqn:E.
    + replace (i - i) with 0 by lia. repeat split; [lia|simpl; lia|exact E|intros; lia].
    + intros j Hj. simpl in Hj. replace j with 0 by lia. exact E.
  - cbn [find_at]. destruct (startswith pat (c :: s)) eqn:E.
    + replace (i - i) with 0 by lia. repeat split; [lia|simpl; lia|exact E|intros; lia].
    + specialize (IH (S i)). destruct (find_at pat s (S i)) as [e|].
      * destruct IH as (H1 & H2 & H3 & H4).
        replace (e - i) with (S (e - S i)) by lia.
        repeat split; [lia|simpl; lia|exact H3|].
        intros [|j] Hj; [exact E|]. apply H4. lia.
      * intros [|j] Hj; [exact E|]. apply IH. simpl in Hj. lia.
Qed.

Lemma str_find_some pat text idx start :
  str_find pat text idx = Some start -> first_at pat text idx start.
Proof.
  unfold str_find. destruct (Nat.leb_spec idx (length text)) as [Hle|]; [|discriminate].
  intros H. pose proof (find_at_spec pat (skipn idx text) idx) as S.
  rewrite H in S. destruct S as (H1 & H2 & H3 & H4).
  rewrite length_skipn in H2.
  rewrite skipn_skipn in H3. replace (start - idx + idx) with start in H3 by lia.
  repeat split.
  - assumption.
  - apply occurs_at_skipn. split; [lia|assumption].
  - intros j Hj1 Hj2 Hocc. apply occurs_at_skipn in Hocc. destruct Hocc as [_ Hocc].
    specialize (H4 (j - idx)). rewrite skipn_skipn in H4.
    replace (j - idx + idx) with j in H4 by lia.
    rewrite H4 in Hocc by lia. discriminate.
Qed.

Lemma str_find_none pat text idx :
  str_find pat text idx = None -> forall j, idx <= j -> ~ occurs_at pat text j.
Proof.
  unfold str_find. intros H j Hj Hocc. apply occurs_at_skipn in Hocc.
  destruct Hocc as [Hlen Hocc].
  destruct (Nat.leb_spec idx (length text)) as [Hle|]; [|lia].
  pose proof (find_at_spec pat (skipn idx text) idx) as S.
  rewrite H in S. specialize (S (j - idx)).
  rewrite length_skipn, skipn_skipn in S.
  replace (j - idx + idx) with j in S by lia.
  rewrite S in Hocc by lia. discriminate.
Qed.

Lemma first_at_unique pat text idx s1 s2 :
  first_at pat text idx s1 -> first_at pat text idx s2 -> s1 = s2.
Proof.
  intros (A1 & A2 & A3) (B1 & B2 & B3).
  destruct (Nat.lt_trichotomy s1 s2) as [H|[H|H]]; [|assumption|].
  - exfalso. apply (B3 s1); assumption.
  - exfalso. apply (A3 s2); assumption.
Qed.

Lemma first_at_str_find pat text idx start :
  first_at pat text idx start -> str_find pat text idx = Some start.
Proof.
  intros H. destruct (str_find pat text idx) as [s'|] eqn:E.
  - f_equal. apply str_find_some in E. eapply first_at_unique; eassumption.
  - exfalso. destruct H as (H1 & H2 & _).
    eapply str_find_none; eassumption.
Qed.

Lemma no_occurrence_str_find pat text idx :
  (forall j, idx <= j -> ~ occurs_at pat text j) -> str_find pat text idx = None.
Proof.
  intros H. destruct (str_find pat text idx) as [s'|] eqn:E; [|reflexivity].
  apply str_find_some in E. destruct E as (E1 & E2 & _).
  exfalso. eapply H; eassumption.
Qed.

(** Finding one character. *)
Lemma find_at_char_complete c d : forall tail i,
  ~ In c d -> find_at [c] (d ++ c :: tail) i = Some (i + length d).
Proof.
  induction d as [|x d IH]; intros tail i Hd.
  - cbn [app find_at startswith]. rewrite N.eqb_refl. cbn [andb].
    f_equal. simpl. lia.
  - cbn [app find_at startswith].
    destruct (N.eqb_spec c x) as [->|Hx]; [exfalso; apply Hd; now left|].
    cbn [andb]. rewrite IH by (intros Hin; apply Hd; now right).
    f_equal. simpl. lia.
Qed.

Lemma find_at_char_sound c : forall s i e,
  find_at [c] s i = Some e ->
  exists d tail, s = d ++ c :: tail /\ ~ In c d /\ e = i + length d.
Proof.
  induction s as [|x s IH]; intros i e H.
  - cbn in H. discriminate.
  - cbn [find_at startswith] in H.
    destruct (N.eqb_spec c x) as [->|Hx].
    + cbn in H. inversion H; subst. exists [], s. repeat split; [intros []|simpl; lia].
    + cbn [andb] in H. apply IH in H. destruct H as (d & tail & -> & Hd & ->).
      exists (x :: d), tail. repeat split.
      * intros [Hin|Hin]; [congruence|contradiction].
      * simpl. lia.
Qed.

Lemma find_at_char_none c : forall s i, find_at [c] s i = None -> ~ In c s.
Proof.
  induction s as [|x s IH]; intros i H; [intros []|].
  cbn [find_at startswith] in H.
  destruct (N.eqb_spec c x) as [->|Hx]; cbn [andb] in H; [discriminate|].
  intros [Hin|Hin]; [congruence|]. eapply IH; eassumption.
Qed.

(** ** Destinations *)

Lemma read_destination_spec_len n : forall s,
  length s <= n -> reads_to_space s (read_destination false s).
Proof.
  induction n as [|n IH]; intros s Hlen.
  - destruct s; [constructor|simpl in Hlen; lia].
  - destruct s as [|c s]; [constructor|]. cbn [read_destination].
    destruct (N.eqb_spec c BACKSLASH) as [->|Hb].
    + destruct s as [|c' s]; cbn [read_destination]; [apply rs_lone|].
      apply rs_escape. apply IH. simpl in Hlen. lia.
    + destruct (isspace c) eqn:Hs.
      * now apply rs_space.
      * apply rs_char; [assumption..|]. apply IH. simpl in Hlen. lia.
Qed.

Lemma read_destination_spec s : reads_to_space s (read_destination false s).
Proof. apply read_destination_spec_len with (n := length s). lia. Qed.

Lemma isspace_backslash : isspace BACKSLASH = false.
Proof. reflexivity. Qed.

Lemma reads_to_space_fun s out :
  reads_to_space s out -> out = read_destination false s.
Proof.
  induction 1 as [|c rest Hs| |c rest out H IH|c rest out Hb Hs H IH];
    cbn [read_destination].
  - reflexivity.
  - destruct (N.eqb_spec c BACKSLASH) as [->|_].
    + rewrite isspace_backslash in Hs. discriminate.
    + rewrite Hs. reflexivity.
  - reflexivity.
  - change (N.eqb BACKSLASH BACKSLASH) with true. cbn iota. now f_equal.
  - destruct (N.eqb_spec c BACKSLASH) as [->|_]; [congruence|].
    rewrite Hs. now f_equal.
Qed.

Lemma extract_destination_spec raw : spec_destination raw (_extract_destination raw).
Proof.
  unfold _extract_destination.
  destruct (strip raw) as [|c cleaned] eqn:Hc; cbn [truthy negb].
  - apply sd_plain; rewrite Hc; [intros d tail; discriminate|constructor].
  - cbn [startswith]. destruct (N.eqb_spec LANGLE c) as [<-|Hne]; cbn [andb].
    + unfold str_find. cbn [Nat.leb skipn].
      destruct (find_at [RANGLE] (LANGLE :: cleaned) 0) as [closing|] eqn:Hf.
      * apply find_at_char_sound in Hf. destruct Hf as (d & tail & Hd & Hnot & ->).
        destruct d as [|x d]; [discriminate|]. inversion Hd; subst.
        assert (Hs : slice 1 (0 + length (LANGLE :: d)) (LANGLE :: d ++ RANGLE :: tail) = d).
        { unfold slice. simpl. rewrite Nat.sub_0_r.
          rewrite firstn_app, firstn_all, Nat.sub_diag. simpl.
          apply app_nil_r. }
        rewrite Hs.
        apply sd_angle with (tail := tail); [rewrite Hc; reflexivity|].
        intros Hin. apply Hnot. now right.
      * apply sd_plain; rewrite Hc; [|apply read_destination_spec].
        intros d tail Heq. inversion Heq; subst.
        apply find_at_char_none in Hf. apply Hf. right.
        apply in_or_app. right. now left.
    + apply sd_plain; rewrite Hc; [|apply read_destination_spec].
      intros d tail Heq. inversion Heq; subst. congruence.
Qed.

Lemma extract_destination_fun raw d :
  spec_destination raw d -> d = _extract_destination raw.
Proof.
  intros [d' tail Hc Hnot|out Hno Hr]; unfold _extract_destination.
  - rewrite Hc. cbn [truthy negb startswith]. change (N.eqb LANGLE LANGLE) with true.
    cbn [andb]. unfold str_find. cbn [Nat.leb skipn].
    change (LANGLE :: d' ++ RANGLE :: tail) with ((LANGLE :: d') ++ RANGLE :: tail).
    rewrite (find_at_char_complete RANGLE (LANGLE :: d') tail 0).
    + unfold slice. simpl. rewrite Nat.sub_0_r.
      rewrite firstn_app, firstn_all, Nat.sub_diag. simpl.
      symmetry. apply app_nil_r.
    + intros [Hin|Hin]; [discriminate|contradiction].
  - destruct (strip raw) as [|c cleaned] eqn:Hc; cbn [truthy negb].
    + inversion Hr. reflexivity.
    + destruct (if startswith [LANGLE] (c :: cleaned)
                then str_find [RANGLE] (c :: cleaned) 0 else None) as [closing|] eqn:Hf.
      * exfalso. cbn [startswith] in Hf.
        destruct (N.eqb_spec LANGLE c) as [<-|Hne]; cbn [andb] in Hf; [|discriminate].
        unfold str_find in Hf. cbn [Nat.leb skipn] in Hf.
        apply find_at_char_sound in Hf. destruct Hf as (d' & tail & Hd & _ & _).
        destruct d' as [|x d']; [discriminate|]. inversion Hd; subst.
        eapply Hno. reflexivity.
      * now apply reads_to_space_fun.
Qed.

(** ** Suffixes and slices *)

Lemma skipn_app_tail (A : Type) n (l a r : list A) :
  skipn n l = a ++ r -> skipn (n + length a) l = r.
Proof.
  intros H. rewrite Nat.add_comm, <- skipn_skipn, H.
  rewrite skipn_app, skipn_all, Nat.sub_diag. reflexivity.
Qed.

Lemma skipn_cons_tail (A : Type) n (l : list A) x r :
  skipn n l = x :: r -> skipn (n + 1) l = r.
Proof. intros H. apply (skipn_app_tail A n l [x] r H). Qed.

Lemma skipn_cons_nth (A : Type) n (l : list A) x r d :
  skipn n l = x :: r -> n < length l /\ nth n l d = x.
Proof.
  revert l. induction n as [|n IH]; intros [|y l] H; simpl in *; try discriminate.
  - inversion H; subst. split; [lia|reflexivity].
  - apply IH in H. destruct H. split; [lia|assumption].
Qed.

Lemma skipn_nil_length (A : Type) n (l : list A) : skipn n l = [] -> length l <= n.
Proof.
  intros H. pose proof (length_skipn n l) as L. rewrite H in L. simpl in L. lia.
Qed.

Lemma skipn_app_slice n (l a r : str) :
  skipn n l = a ++ r -> slice n (n + length a) l = a.
Proof.
  intros H. unfold slice. rewrite H. replace (n + length a - n) with (length a) by lia.
  rewrite firstn_app, firstn_all, Nat.sub_diag. simpl. apply app_nil_r.
Qed.

Lemma skipn_app_length (A : Type) n (l a r : list A) x :
  skipn n l = a ++ x :: r -> n + length a + S (length r) = length l.
Proof.
  intros H. pose proof (length_skipn n l) as L. rewrite H, length_app in L.
  simpl in L. lia.
Qed.

Lemma open_paren_test_false text n rest :
  skipn n text = LPAREN :: rest ->
  (length text <=? n) || negb (N.eqb (nth n text 0%N) LPAREN) = false.
Proof.
  intros H. destruct (skipn_cons_nth _ n text _ _ 0%N H) as [Hlt Hn].
  rewrite Hn. destruct (Nat.leb_spec (length text) n); [lia|]. reflexivity.
Qed.

Lemma open_paren_test_true text n rest :
  skipn n text = rest -> (forall rest', rest <> LPAREN :: rest') ->
  (length text <=? n) || negb (N.eqb (nth n text 0%N) LPAREN) = true.
Proof.
  intros H Hno. destruct rest as [|c rest].
  - apply skipn_nil_length in H. destruct (Nat.leb_spec (length text) n); [reflexivity|lia].
  - destruct (skipn_cons_nth _ n text _ _ 0%N H) as [Hlt Hn]. rewrite Hn.
    destruct (N.eqb_spec c LPAREN) as [->|Hc]; [exfalso; eapply Hno; reflexivity|].
    apply orb_true_r.
Qed.

Lemma occurs_at_bound pat text j : occurs_at pat text j -> j + length pat <= length text.
Proof.
  intros (pre & post & -> & <-). rewrite !length_app. lia.
Qed.

(** ** The loop *)

Lemma find_image_tags_from_sound : forall fuel text idx,
  length text - idx < fuel ->
  exists tags, find_image_tags_from fuel text idx = Some tags /\ recognizes text idx tags.
Proof.
  induction fuel as [|fuel IH]; intros text idx Hfuel; [lia|].
  cbn [find_image_tags_from].
  destruct (Nat.ltb_spec idx (length text)) as [Hidx|Hidx].
  2:{ exists []. split; [reflexivity|]. apply rec_done.
      intros j Hj Hocc. apply occurs_at_bound in Hocc. simpl in Hocc. lia. }
  destruct (str_find [BANG; LBRACKET] text idx) as [start|] eqn:Hfind.
  2:{ exists []. split; [reflexivity|]. apply rec_done. now apply str_find_none. }
  apply str_find_some in Hfind. pose proof Hfind as (Hge & Hocc & _).
  unfold _find_closing_bracket.
  destruct (closing_bracket_at (skipn (start + 2) text) (start + 2)) as [alt_end|] eqn:Hcb.
  2:{ exists []. split; [reflexivity|]. eapply rec_unterminated; [eassumption|].
      eapply closing_bracket_none; eassumption. }
  apply closing_bracket_sound in Hcb. destruct Hcb as (a & rest & Hsk & Ha & ->).
  assert (Hrest : skipn (start + 2 + length a + 1) text = rest).
  { eapply skipn_cons_tail. eapply skipn_app_tail. eassumption. }
  assert (Hnext : exists tags,
             find_image_tags_from fuel text (start + 2 + length a + 1) = Some tags
             /\ recognizes text (start + 2 + length a + 1) tags) by (apply IH; lia).
  destruct rest as [|c rest].
  { rewrite (@open_paren_test_true _ _ _ Hrest) by (intros; discriminate).
    destruct Hnext as (tags & Ht & Hr). exists tags. split; [assumption|].
    eapply rec_not_image; try eassumption. intros; discriminate. }
  destruct (N.eq_dec c LPAREN) as [->|Hc].
  2:{ rewrite (@open_paren_test_true _ _ _ Hrest) by (intros r' Hr'; congruence).
      destruct Hnext as (tags & Ht & Hr). exists tags. split; [assumption|].
      eapply rec_not_image; try eassumption. intros r' Hr'; congruence. }
  rewrite (@open_paren_test_false _ _ _ Hrest).
  unfold _find_matching_paren.
  assert (Hrest2 : skipn (start + 2 + length a + 2) text = rest).
  { replace (start + 2 + length a + 2) with (start + 2 + length a + 1 + 1) by lia.
    eapply skipn_cons_tail. eassumption. }
  rewrite Hrest2.
  destruct (matching_paren_at rest (start + 2 + length a + 2) 1) as [dest_end|] eqn:Hmp.
  2:{ destruct Hnext as (tags & Ht & Hr). exists tags. split; [assumption|].
      eapply rec_unbalanced; try eassumption.
      eapply matching_paren_none; eassumption. }
  apply matching_paren_sound in Hmp. destruct Hmp as (dest & rest' & -> & Hb & ->).
  destruct (IH text (start + 2 + length a + 2 + length dest + 1)) as (tags & Ht & Hr).
  { pose proof (@skipn_app_length _ _ _ _ _ _ Hsk) as L. simpl in L. rewrite length_app in L. simpl in L. lia. }
  rewrite Ht. cbn [option_map].
  rewrite (@skipn_app_slice _ _ _ _ Hsk), (@skipn_app_slice _ _ _ _ Hrest2).
  eexists. split; [reflexivity|].
  eapply rec_tag; try eassumption. apply extract_destination_spec.
Qed.

Lemma find_image_tags_from_complete text idx tags :
  recognizes text idx tags ->
  forall fuel, length text - idx < fuel -> find_image_tags_from fuel text idx = Some tags.
Proof.
  induction 1 as [idx Hno|idx start Hfirst Hun
                 |idx start a rest tags Hfirst Hsk Ha Hrest Hrec IH
                 |idx start a rest tags Hfirst Hsk Ha Hun Hrec IH
                 |idx start a dest rest d tags Hfirst Hsk Ha Hb Hd Hrec IH];
    intros [|fuel] Hfuel; try lia; cbn [find_image_tags_from].
  - destruct (idx <? length text); [|reflexivity].
    rewrite no_occurrence_str_find by assumption. reflexivity.
  - pose proof Hfirst as (Hge & Hocc & _). apply occurs_at_bound in Hocc. simpl in Hocc.
    destruct (Nat.ltb_spec idx (length text)); [|lia].
    rewrite (@first_at_str_find _ _ _ _ Hfirst). unfold _find_closing_bracket.
    destruct (closing_bracket_at (skipn (start + 2) text) (start + 2)) eqn:Hcb; [|reflexivity].
    exfalso. apply closing_bracket_sound in Hcb. destruct Hcb as (a & rest & Hsk & Ha & _).
    eapply Hun; eassumption.
  - pose proof Hfirst as (Hge & Hocc & _). apply occurs_at_bound in Hocc. simpl in Hocc.
    destruct (Nat.ltb_spec idx (length text)); [|lia].
    rewrite (@first_at_str_find _ _ _ _ Hfirst). unfold _find_closing_bracket.
    rewrite Hsk, closing_bracket_complete by assumption.
    assert (Hr : skipn (start + 2 + length a + 1) text = rest).
    { eapply skipn_cons_tail. eapply skipn_app_tail. eassumption. }
    rewrite (@open_paren_test_true _ _ _ Hr Hrest). apply IH. lia.
  - pose proof Hfirst as (Hge & Hocc & _). apply occurs_at_bound in Hocc. simpl in Hocc.
    destruct (Nat.ltb_spec idx (length text)); [|lia].
    rewrite (@first_at_str_find _ _ _ _ Hfirst). unfold _find_closing_bracket.
    rewrite Hsk, closing_bracket_complete by assumption.
    assert (Hr : skipn (start + 2 + length a + 1) text = LPAREN :: rest).
    { eapply skipn_cons_tail. eapply skipn_app_tail. eassumption. }
    rewrite (@open_paren_test_false _ _ _ Hr). unfold _find_matching_paren.
    assert (Hr2 : skipn (start + 2 + length a + 2) text = rest).
    { replace (start + 2 + length a + 2) with (start + 2 + length a + 1 + 1) by lia.
      eapply skipn_cons_tail. eassumption. }
    rewrite Hr2.
    destruct (matching_paren_at rest (start + 2 + length a + 2) 1) eqn:Hmp.
    + exfalso. apply matching_paren_sound in Hmp.
      destruct Hmp as (b & rest' & Hb & Hbal & _). eapply Hun; eassumption.
    + apply IH. lia.
  - pose proof Hfirst as (Hge & Hocc & _). apply occurs_at_bound in Hocc. simpl in Hocc.
    destruct (Nat.ltb_spec idx (length text)); [|lia].
    rewrite (@first_at_str_find _ _ _ _ Hfirst). unfold _find_closing_bracket.
    rewrite Hsk, closing_bracket_complete by assumption.
    assert (Hr : skipn (start + 2 + length a + 1) text
                 = LPAREN :: dest ++ RPAREN :: rest).
    { eapply skipn_cons_tail. eapply skipn_app_tail. eassumption. }
    rewrite (@open_paren_test_false _ _ _ Hr). unfold _find_matching_paren.
    assert (Hr2 : skipn (start + 2 + length a + 2) text = dest ++ RPAREN :: rest).
    { replace (start + 2 + length a + 2) with (start + 2 + length a + 1 + 1) by lia.
      eapply skipn_cons_tail. eassumption. }
    rewrite Hr2, matching_paren_complete by assumption.
    rewrite IH by lia. cbn [option_map].
    rewrite (@skipn_app_slice _ _ _ _ Hr2), (@skipn_app_slice _ _ _ _ Hsk).
    rewrite <- (@extract_destination_fun _ _ Hd). reflexivity.
Qed.

Lemma find_image_tags_recognizes text : recognizes text 0 (_find_image_tags text).
Proof.
  unfold _find_image_tags.
  destruct (find_image_tags_from_sound (S (length text)) text 0) as (tags & -> & H); [lia|].
  assumption.
Qed.

Lemma recognizes_find_image_tags text tags :
  recognizes text 0 tags -> tags = _find_image_tags text.
Proof.
  intros H. unfold _find_image_tags.
  rewrite (@find_image_tags_from_complete _ _ _ H) by lia. reflexivity.
Qed.

End ScanFacts.
(* ===================================================================== *)
(** * Spans and substitution *)
(* ===================================================================== *)

Module SpliceFacts.

Import Rewriter ScanSpec ScanFacts.

Lemma spans_in_order_weaken text tags : forall a b,
  a <= b -> spans_in_order text b tags -> spans_in_order text a tags.
Proof.
  destruct tags as [|t tags]; intros a b Hab H; [exact I|].
  simpl in *. destruct H as (H1 & H2 & H3 & H4). repeat split; try assumption. lia.
Qed.

Lemma recognizes_in_order text idx tags :
  recognizes text idx tags -> spans_in_order text idx tags.
Proof.
  induction 1 as [idx Hno|idx start Hfirst Hun
                 |idx start a rest tags Hfirst Hsk Ha Hrest Hrec IH
                 |idx start a rest tags Hfirst Hsk Ha Hun Hrec IH
                 |idx start a dest rest d tags Hfirst Hsk Ha Hb Hd Hrec IH].
  - exact I.
  - exact I.
  - destruct Hfirst as (Hge & _). eapply spans_in_order_weaken; [|exact IH]. lia.
  - destruct Hfirst as (Hge & _). eapply spans_in_order_weaken; [|exact IH]. lia.
  - destruct Hfirst as (Hge & _). simpl.
    pose proof (skipn_app_length _ _ _ _ _ _ Hsk) as L. simpl in L.
    rewrite length_app in L. simpl in L.
    repeat split; [assumption|lia|lia|exact IH].
Qed.

Lemma find_image_tags_in_order text : spans_in_order text 0 (_find_image_tags text).
Proof. apply recognizes_in_order, find_image_tags_recognizes. Qed.

Lemma slice_skipn a b (text : str) :
  a <= b -> slice a b text ++ skipn b text = skipn a text.
Proof.
  intros Hab. unfold slice.
  replace (skipn b text) with (skipn (b - a) (skipn a text)).
  - apply firstn_skipn.
  - rewrite skipn_skipn. f_equal. lia.
Qed.

(** Putting the text of every span back in its place gives the text. *)
Lemma splice_spans text : forall tags cursor,
  spans_in_order text cursor tags ->
  splice text cursor tags (map (span_text text) tags) = skipn cursor text.
Proof.
  induction tags as [|t tags IH]; intros cursor H; [reflexivity|].
  simpl in H. destruct H as (H1 & H2 & H3 & H4).
  cbn [map splice]. rewrite IH by assumption. unfold span_text.
  rewrite slice_skipn by lia. apply slice_skipn. assumption.
Qed.

Lemma splice_find_image_tags text :
  splice text 0 (_find_image_tags text)
    (map (span_text text) (_find_image_tags text)) = text.
Proof. apply (splice_spans text _ 0), find_image_tags_in_order. Qed.

(** The substitution loop is a splice. *)
Lemma substitute_splice raw cba : forall tags placed cursor,
  map (fun p => span (entry p)) placed = map (fun t => (start t, end_ t)) tags ->
  concat (substitute raw cursor placed cba)
  = splice raw cursor tags (map (fun p => wrapped (caption_core cba p)) placed).
Proof.
  induction tags as [|t tags IH]; intros [|p placed] cursor H; try discriminate.
  - simpl. apply app_nil_r.
  - cbn [map] in H. inversion H as [[Hs Hrest]].
    cbn [substitute concat map splice]. rewrite Hs. cbn [fst snd].
    rewrite (IH placed (end_ t) Hrest). reflexivity.
Qed.

End SpliceFacts.
(* ===================================================================== *)
(** * The grouping loop *)
(* ===================================================================== *)

Module GroupFacts.

Import Rewriter CaptionSpec PyFacts.

Lemma append_alt_length targets : forall i a,
  length (append_alt targets i a) = length targets.
Proof.
  induction targets as [|b targets IH]; intros [|i] a; simpl; try reflexivity.
  now rewrite IH.
Qed.

Lemma append_alt_same targets : forall i a b,
  nth_error targets i = Some b ->
  nth_error (append_alt targets i a) i = Some (with_alt b a).
Proof.
  induction targets as [|b0 targets IH]; intros [|i] a b H; simpl in *; try discriminate.
  - inversion H; subst. reflexivity.
  - now apply IH.
Qed.

Lemma append_alt_other targets : forall i j a,
  i <> j -> nth_error (append_alt targets i a) j = nth_error targets j.
Proof.
  induction targets as [|b0 targets IH]; intros [|i] [|j] a H; simpl; try reflexivity.
  - congruence.
  - apply IH. congruence.
Qed.

Lemma same_target_refl b : same_target b b.
Proof. repeat split. Qed.

Lemma same_target_trans a b c : same_target a b -> same_target b c -> same_target a c.
Proof.
  intros (H1 & H2 & H3) (H4 & H5 & H6). repeat split; congruence.
Qed.

Lemma same_target_key E b b0 : same_target b b0 -> bucket_key E b = bucket_key E b0.
Proof. intros (_ & H2 & H3). unfold bucket_key. now rewrite H2, H3. Qed.

Lemma with_alt_same_target b a : same_target (with_alt b a) b.
Proof. repeat split. Qed.

Section Grouping.

Variable E : Env.
Variable source_hash : str.

Lemma coherent_nil : coherent E source_hash [] [].
Proof.
  split.
  - intros [|i] b H; discriminate.
  - intros k i H. discriminate.
Qed.

Lemma coherent_inj targets lookup i j bi bj :
  coherent E source_hash targets lookup ->
  nth_error targets i = Some bi -> nth_error targets j = Some bj ->
  bucket_key E bi = bucket_key E bj -> i = j.
Proof.
  intros [H1 _] Hi Hj Hk.
  destruct (H1 _ _ Hi) as [Li _]. destruct (H1 _ _ Hj) as [Lj _].
  rewrite Hk in Li. congruence.
Qed.

(** Appending an alt text changes no key and no name. *)
Lemma coherent_append_alt targets lookup i a :
  coherent E source_hash targets lookup ->
  coherent E source_hash (append_alt targets i a) lookup.
Proof.
  intros [H1 H2]. split.
  - intros j b Hj. destruct (Nat.eq_dec i j) as [<-|Hne].
    + destruct (nth_error targets i) as [b0|] eqn:Hb0.
      * rewrite (append_alt_same _ _ a _ Hb0) in Hj. inversion Hj; subst.
        destruct (H1 _ _ Hb0) as [L N]. split; assumption.
      * exfalso. apply nth_error_None in Hb0.
        assert (nth_error (append_alt targets i a) i <> None) by congruence.
        apply nth_error_Some in H. rewrite append_alt_length in H. lia.
    + rewrite append_alt_other in Hj by assumption. now apply H1.
  - intros k j Hk. destruct (H2 _ _ Hk) as (b & Hb & Hkey).
    destruct (Nat.eq_dec i j) as [<-|Hne].
    + exists (with_alt b a). split; [now apply append_alt_same|exact Hkey].
    + exists b. split; [|exact Hkey]. now rewrite append_alt_other.
Qed.

(** A new target gets the next place and the next name. *)
Lemma coherent_new targets lookup r raw :
  coherent E source_hash targets lookup ->
  dict_get lookup (_make_target_key E r raw) = None ->
  coherent E source_hash
    (targets ++ [{| id := asset_name source_hash (length targets);
                    b_resolved := r; b_raw_path := raw; alts := [] |}])
    (dict_set lookup (_make_target_key E r raw) (length targets)).
Proof.
  intros [H1 H2] Hnone. split.
  - intros i b Hi. destruct (Nat.lt_ge_cases i (length targets)) as [Hlt|Hge].
    + rewrite nth_error_app1 in Hi by assumption.
      destruct (H1 _ _ Hi) as [L N]. split; [|assumption].
      rewrite dict_get_set_other; [assumption|]. intros Heq. congruence.
    + rewrite nth_error_app2 in Hi by assumption.
      destruct (i - length targets) as [|n] eqn:Hn; simpl in Hi.
      * inversion Hi; subst. replace i with (length targets) by lia.
        unfold bucket_key. simpl. split; [apply dict_get_set_same|reflexivity].
      * destruct n; discriminate.
  - intros k i Hk. rewrite dict_get_set in Hk.
    destruct (str_eqb (_make_target_key E r raw) k) eqn:Ek.
    + apply str_eqb_eq in Ek. inversion Hk; subst.
      eexists. split.
      * rewrite nth_error_app2 by lia. rewrite Nat.sub_diag. reflexivity.
      * reflexivity.
    + destruct (H2 _ _ Hk) as (b & Hb & Hkey). exists b. split; [|assumption].
      rewrite nth_error_app1; [assumption|]. apply nth_error_Some. congruence.
Qed.

Lemma alts_for_cons_same k e entries :
  entry_key E e = k -> alts_for E k (e :: entries) = alt e :: alts_for E k entries.
Proof. intros H. unfold alts_for. simpl. rewrite H, str_eqb_refl. reflexivity. Qed.

Lemma alts_for_cons_other k e entries :
  entry_key E e <> k -> alts_for E k (e :: entries) = alts_for E k entries.
Proof.
  intros H. unfold alts_for. simpl.
  destruct (str_eqb (entry_key E e) k) eqn:Ek; [apply str_eqb_eq in Ek; congruence|].
  reflexivity.
Qed.

Lemma group_entries_grouped : forall entries targets lookup,
  coherent E source_hash targets lookup ->
  grouped E source_hash entries targets
    (fst (group_entries E source_hash entries targets lookup))
    (snd (group_entries E source_hash entries targets lookup)).
Proof.
  induction entries as [|e entries IH]; intros targets lookup Hco.
  - simpl. unfold grouped.
    split; [reflexivity|]. split; [now exists lookup|]. split; [lia|].
    split; [|split; [|split]].
    + intros i b Hb. rewrite Hb. unfold alts_for. simpl. now rewrite app_nil_r.
    + intros i b0 Hb0. exists b0. split; [assumption|apply same_target_refl].
    + constructor.
    + intros i b Hb Hi. exfalso.
      assert (nth_error targets i <> None) by congruence.
      apply nth_error_Some in H. lia.
  - cbn [group_entries].
    set (key := _make_target_key E (resolved e) (raw_path e)).
    (* the bucket of [e]: found, or made *)
    assert (Hstep : exists i targets1 lookup1 b1,
      (match dict_get lookup key with
       | Some i => (i, targets, lookup)
       | None =>
           (length targets,
            targets ++ [{| id := asset_name source_hash (length targets);
                           b_resolved := resolved e; b_raw_path := raw_path e;
                           alts := [] |}],
            dict_set lookup key (length targets))
       end) = (i, targets1, lookup1)
      /\ coherent E source_hash targets1 lookup1
      /\ nth_error targets1 i = Some b1
      /\ bucket_key E b1 = key
      /\ length targets <= length targets1
      /\ (forall j, j < length targets -> nth_error targets1 j = nth_error targets j)
      /\ (length targets <= i ->
            b_resolved b1 = resolved e /\ b_raw_path b1 = raw_path e /\ alts b1 = [])
      /\ (forall j, nth_error targets1 j <> None -> j < length targets \/ j = i)).
    { destruct (dict_get lookup key) as [i|] eqn:Hget.
      - pose proof Hco as [H1 H2]. destruct (H2 _ _ Hget) as (b & Hb & Hkey).
        assert (Hi : i < length targets) by (apply nth_error_Some; congruence).
        exists i, targets, lookup, b.
        split; [reflexivity|]. split; [exact Hco|]. split; [exact Hb|].
        split; [exact Hkey|]. split; [lia|]. split; [reflexivity|].
        split; [lia|]. intros j Hj. left. now apply nth_error_Some.
      - eexists _, _, _, _. split; [reflexivity|].
        split; [now apply coherent_new|].
        split; [rewrite nth_error_app2 by lia; rewrite Nat.sub_diag; reflexivity|].
        split; [reflexivity|].
        split; [rewrite length_app; simpl; lia|].
        split; [intros j Hj; now rewrite nth_error_app1|].
        split; [intros _; repeat split|].
        intros j Hj. apply nth_error_Some in Hj. rewrite length_app in Hj.
        simpl in Hj. lia. }
    destruct Hstep as (i & targets1 & lookup1 & b1 & Heq & Hco1 & Hb1 & Hk1 & Hlen1
                       & Hold & Hnew & Hdom).
    rewrite Heq.
    pose proof (coherent_append_alt _ _ i (alt e) Hco1) as Hco2.
    pose proof (append_alt_same _ _ (alt e) _ Hb1) as Hb2.
    rewrite Hb2.
    specialize (IH (append_alt targets1 i (alt e)) lookup1 Hco2).
    destruct (group_entries E source_hash entries (append_alt targets1 i (alt e)) lookup1)
      as [placed final] eqn:Hrec.
    cbn [fst snd] in *.
    destruct IH as (P1 & (lookupF & HcoF) & P3 & P4 & P5 & P6 & P7).
    destruct (P5 _ _ Hb2) as (bF & HbF & HsF).
    assert (HkF : bucket_key E bF = key).
    { rewrite (same_target_key E _ _ HsF). exact Hk1. }
    unfold grouped.
    split; [cbn [map entry]; now rewrite P1|].
    split; [now exists lookupF|].
    split; [rewrite append_alt_length in P3; lia|].
    split; [|split; [|split]].
    + intros j b Hb. rewrite (P4 _ _ Hb).
      destruct (Nat.eq_dec i j) as [<-|Hne].
      * rewrite Hb2. cbn [with_alt alts].
        assert (b = bF) by congruence. subst b.
        rewrite alts_for_cons_same by (rewrite HkF; reflexivity).
        rewrite <- app_assoc. cbn [app]. f_equal.
        destruct (Nat.lt_ge_cases i (length targets)) as [Hlt|Hge].
        -- rewrite <- (Hold _ Hlt), Hb1. reflexivity.
        -- destruct (Hnew Hge) as (_ & _ & ->).
           destruct (nth_error targets i) eqn:Hn; [|reflexivity].
           assert (nth_error targets i <> None) by congruence.
           apply nth_error_Some in H. lia.
      * rewrite append_alt_other by assumption.
        assert (Hkey : entry_key E e <> bucket_key E b).
        { intros Hkk. apply Hne.
          eapply (coherent_inj final lookupF i j bF b HcoF HbF Hb).
          rewrite HkF. exact Hkk. }
        rewrite alts_for_cons_other by assumption. f_equal.
        destruct (Nat.lt_ge_cases j (length targets)) as [Hlt|Hge].
        -- now rewrite Hold.
        -- destruct (nth_error targets1 j) eqn:Hn1.
           ++ exfalso. destruct (Hdom j) as [H|H]; [congruence|lia|congruence].
           ++ destruct (nth_error targets j) eqn:Hn; [|reflexivity].
              assert (nth_error targets j <> None) by congruence.
              apply nth_error_Some in H. lia.
    + intros j b0 Hb0.
      assert (Hj : j < length targets) by (apply nth_error_Some; congruence).
      destruct (Nat.eq_dec i j) as [<-|Hne].
      * exists bF. split; [assumption|].
        eapply same_target_trans; [exact HsF|].
        rewrite Hold in Hb1 by assumption.
        assert (b1 = b0) by congruence. subst. apply with_alt_same_target.
      * apply P5. rewrite append_alt_other by assumption. now rewrite Hold.
    + constructor; [|exact P6].
      exists i, bF. cbn [asset_id entry].
      split; [assumption|]. split; [|exact HkF].
      destruct HsF as (Hid & _). exact Hid.
    + intros j b Hb Hj.
      destruct (Nat.eq_dec i j) as [<-|Hne].
      * exists e. split; [now left|].
        assert (b = bF) by congruence. subst b.
        destruct HsF as (_ & Hr & Hp). destruct (Hnew Hj) as (Hr1 & Hp1 & _).
        cbn [with_alt b_resolved b_raw_path] in Hr, Hp. split; congruence.
      * destruct (P7 j b Hb) as (e' & He' & Hr & Hp).
        -- rewrite append_alt_length.
           destruct (Nat.lt_ge_cases j (length targets1)) as [Hlt|Hge]; [|assumption].
           exfalso. destruct (Hdom j) as [H|H]; [|lia|congruence].
           apply nth_error_Some. assumption.
        -- exists e'. split; [now right|]. split; assumption.
Qed.

End Grouping.

End GroupFacts.
(* ===================================================================== *)
(** * Captions of buckets and of substitution sites *)
(* ===================================================================== *)

Module CaptionFacts.

Import Rewriter ScanSpec CaptionSpec PyFacts GroupFacts SpliceFacts.

Lemma placeholder_not_blank : blank PLACEHOLDER = false.
Proof. reflexivity. Qed.

Lemma caption_bucket_not_blank E L b : blank (caption (caption_bucket E L b)) = false.
Proof.
  unfold caption_bucket. cbn [caption].
  match goal with |- blank (if truthy (strip ?c) then _ else _) = false =>
    destruct (truthy (strip c)) eqn:H end.
  - unfold blank. now rewrite H.
  - apply placeholder_not_blank.
Qed.

(** Where the caption of a bucket comes from. *)
Lemma caption_bucket_source E L b :
  caption (caption_bucket E L b) = PLACEHOLDER
  \/ caption (caption_bucket E L b) = _fallback_caption E b
  \/ dict_get L (id b) = Some (caption (caption_bucket E L b)).
Proof.
  unfold caption_bucket. cbn [caption].
  match goal with |- context [if truthy (strip ?c) then _ else _] =>
    destruct (truthy (strip c)) eqn:H end; [|now left].
  right. unfold or_else. destruct (dict_get L (id b)) as [c|]; cbn [truthy].
  - destruct (truthy c); [right; reflexivity|left; reflexivity].
  - left. reflexivity.
Qed.

(** A caption dictionary whose values are stripped decides the caption of
    a bucket: its entry when it has one that is not empty, else the
    fallback chain. *)
Lemma caption_bucket_chain E L b :
  all_stripped L ->
  caption (caption_bucket E L b)
  = match dict_get L (id b) with
    | Some c => if truthy c then c else fallback_chain E b
    | None => fallback_chain E b
    end.
Proof.
  intros HL. unfold caption_bucket, fallback_chain, or_else. cbn [caption].
  destruct (dict_get L (id b)) as [c|] eqn:Hc; cbn [truthy]; [|reflexivity].
  destruct (truthy c) eqn:Ht; [|reflexivity].
  apply dict_get_in in Hc. rewrite (HL _ _ Hc), Ht. reflexivity.
Qed.

Lemma caption_by_asset_get : forall cs acc k,
  (exists c, In c cs /\ id (bucket c) = k) ->
  exists c, In c cs /\ id (bucket c) = k
            /\ dict_get (caption_by_asset_of cs acc) k = Some (caption c).
Proof.
  induction cs as [|c0 cs IH]; intros acc k (c & Hin & Hid); [destruct Hin|].
  cbn [caption_by_asset_of].
  assert (Hdec : (exists c', In c' cs /\ id (bucket c') = k)
                 \/ ~ (exists c', In c' cs /\ id (bucket c') = k)).
  { clear. induction cs as [|c1 cs IHc].
    - right. intros (c' & [] & _).
    - destruct (str_eq_dec (id (bucket c1)) k) as [He|Hne].
      + left. exists c1. split; [now left|assumption].
      + destruct IHc as [(c' & Hin & Hid)|Hno].
        * left. exists c'. split; [now right|assumption].
        * right. intros (c' & [->|Hin] & Hid); [congruence|].
          apply Hno. now exists c'. }
  destruct Hdec as [Hlater|Hnot].
  - destruct (IH (dict_set acc (id (bucket c0)) (caption c0)) k Hlater) as (c' & H1 & H2 & H3).
    exists c'. split; [now right|]. split; assumption.
  - destruct Hin as [->|Hin]; [|exfalso; apply Hnot; now exists c].
    exists c. split; [now left|]. split; [assumption|].
    assert (Hkeep : forall cs' acc', (~ exists c', In c' cs' /\ id (bucket c') = k) ->
              dict_get (caption_by_asset_of cs' acc') k = dict_get acc' k).
    { clear. induction cs' as [|c1 cs' IHc]; intros acc' Hno; [reflexivity|].
      cbn [caption_by_asset_of]. rewrite IHc.
      - apply dict_get_set_other. intros He. apply Hno. exists c1. split; [now left|assumption].
      - intros (c' & Hin & Hid). apply Hno. exists c'. split; [now right|assumption]. }
    rewrite Hkeep by assumption. rewrite <- Hid. apply dict_get_set_same.
Qed.

Lemma caption_core_found cba p c :
  dict_get cba (asset_id p) = Some c -> blank c = false ->
  caption_core cba p = strip c.
Proof.
  intros Hget Hb. unfold caption_core. rewrite Hget.
  apply blank_false_iff in Hb. rewrite Hb.
  destruct c as [|x c]; [discriminate|]. reflexivity.
Qed.

Lemma span_make_entry E t : span (make_entry E t) = (start t, end_ t).
Proof. reflexivity. Qed.

Section Document.

Variable E : Env.
Variables raw_text source_hash : str.
Variable vision_model : option str.
Variables disable_cache clear_cache : bool.
Variable file : CacheFile.

Let tags := _find_image_tags raw_text.
Let placed := fst (document_groups E raw_text source_hash).
Let targets := snd (document_groups E raw_text source_hash).
Let captioned :=
  document_captions E raw_text source_hash vision_model disable_cache clear_cache file.
Let cba := caption_by_asset_of captioned [].

Lemma document_grouped :
  grouped E source_hash (document_entries E raw_text) [] placed targets.
Proof. apply group_entries_grouped, coherent_nil. Qed.

Lemma placed_spans :
  map (fun p => span (entry p)) placed = map (fun t => (start t, end_ t)) tags.
Proof.
  destruct document_grouped as (P1 & _).
  rewrite <- (map_map entry span), P1. unfold document_entries.
  rewrite map_map. reflexivity.
Qed.

Lemma length_placed : length placed = length tags.
Proof.
  pose proof (f_equal (@length _) placed_spans) as H. now rewrite !length_map in H.
Qed.

Lemma captioned_buckets : map bucket captioned = targets.
Proof.
  unfold captioned, document_captions. rewrite map_map. cbn [bucket caption_bucket].
  apply map_id.
Qed.

Lemma captioned_not_blank : Forall (fun t => blank (caption t) = false) captioned.
Proof.
  unfold captioned, document_captions. apply Forall_map, Forall_forall.
  intros b _. apply caption_bucket_not_blank.
Qed.

(** Every placed entry finds the caption of a bucket under its asset id. *)
Lemma placed_caption p :
  In p placed ->
  exists c, In c captioned /\ id (bucket c) = asset_id p
            /\ bucket_key E (bucket c) = entry_key E (entry p)
            /\ dict_get cba (asset_id p) = Some (caption c).
Proof.
  intros Hp. destruct document_grouped as (_ & (lookupF & HcoF) & _ & _ & _ & P6 & _).
  rewrite Forall_forall in P6. destruct (P6 _ Hp) as (i & b & Hb & Hid & Hkey).
  assert (Hin : In b (map bucket captioned))
    by (rewrite captioned_buckets; eapply nth_error_In; eassumption).
  apply in_map_iff in Hin. destruct Hin as (c0 & Hc0 & Hin0).
  destruct (caption_by_asset_get captioned [] (asset_id p)) as (c & Hc & Hcid & Hget).
  { exists c0. split; [assumption|]. now rewrite Hc0. }
  exists c. split; [assumption|]. split; [assumption|]. split; [|exact Hget].
  (* [c] and [b] carry one name, so they stand at one place *)
  assert (Hcb : In (bucket c) targets)
    by (rewrite <- captioned_buckets; now apply in_map).
  apply In_nth_error in Hcb. destruct Hcb as (j & Hj).
  destruct HcoF as [H1 _].
  destruct (H1 _ _ Hb) as [_ Nb]. destruct (H1 _ _ Hj) as [_ Nc].
  assert (i = j).
  { apply pad3_inj. unfold asset_name in *.
    assert (Heq : source_hash ++ lit "_img_" ++ pad3 i
                  = source_hash ++ lit "_img_" ++ pad3 j) by congruence.
    apply app_inv_head in Heq. apply app_inv_head in Heq. exact Heq. }
  subst j. assert (Hbc : bucket c = b) by congruence. rewrite Hbc. exact Hkey.
Qed.

Lemma placed_core p :
  In p placed ->
  exists c, In c captioned /\ id (bucket c) = asset_id p
            /\ bucket_key E (bucket c) = entry_key E (entry p)
            /\ caption_core cba p = strip (caption c).
Proof.
  intros Hp. destruct (placed_caption p Hp) as (c & Hc & Hid & Hkey & Hget).
  exists c. split; [assumption|]. split; [assumption|]. split; [assumption|].
  apply caption_core_found; [assumption|].
  pose proof captioned_not_blank as Hnb. rewrite Forall_forall in Hnb. now apply Hnb.
Qed.

Lemma processed_text_splice :
  processed_text E raw_text source_hash vision_model disable_cache clear_cache file
  = splice raw_text 0 tags (map wrapped (map (caption_core cba) placed)).
Proof.
  unfold processed_text. fold placed. fold captioned. fold cba.
  rewrite (substitute_splice raw_text cba tags placed 0 placed_spans).
  now rewrite map_map.
Qed.

Lemma cores_not_blank : Forall (fun c => blank c = false) (map (caption_core cba) placed).
Proof.
  apply Forall_map, Forall_forall. intros p Hp.
  destruct (placed_core p Hp) as (c & Hc & _ & _ & ->).
  rewrite blank_strip.
  pose proof captioned_not_blank as Hnb. rewrite Forall_forall in Hnb. now apply Hnb.
Qed.

End Document.

Lemma media_assets_captioned E raw hash vm dc cc file :
  media_assets (rewrite_markdown_with_captions E raw hash vm dc cc file)
  = map (media_asset_of E) (document_captions E raw hash vm dc cc file).
Proof.
  unfold rewrite_markdown_with_captions.
  destruct (_find_image_tags raw) as [|t ts] eqn:Ht; [|reflexivity].
  unfold document_captions, document_groups, document_entries. rewrite Ht. reflexivity.
Qed.

(** What stands between the markers at the place of an entry is the
    caption of its asset, stripped. *)
Lemma placed_asset_caption E raw hash vm dc cc file p :
  In p (fst (document_groups E raw hash)) ->
  exists a,
    In a (media_assets (rewrite_markdown_with_captions E raw hash vm dc cc file))
    /\ ma_id a = asset_id p
    /\ caption_core (caption_by_asset_of (document_captions E raw hash vm dc cc file) []) p
       = strip (ma_caption a).
Proof.
  intros Hp. destruct (placed_core E raw hash vm dc cc file p Hp) as (c & Hc & Hid & _ & Hcore).
  exists (media_asset_of E c). rewrite media_assets_captioned.
  split; [now apply in_map|]. split; [exact Hid|exact Hcore].
Qed.

(** When the pass raises: at the first tag whose destination cannot be
    resolved without an exception. *)
Lemma rewrite_outcome_raises E raw hash vm dc cc file msg :
  rewrite_outcome E raw hash vm dc cc file = Raise msg
  <-> exists pre tag post,
        _find_image_tags raw = pre ++ tag :: post
        /\ Forall (fun t => resolve_error E (destination t) = None) pre
        /\ resolve_error E (destination tag) = Some msg.
Proof.
  rewrite <- (first_raised_map _ (fun t => resolve_error E (destination t))).
  unfold rewrite_outcome, rewrite_error.
  destruct (first_raised _) as [m|]; split; intros H; inversion H; subst;
    reflexivity.
Qed.

Lemma Forall2_map_r (A B : Type) (P : A -> B -> Prop) (f : A -> B) (l : list A) :
  (forall x, In x l -> P x (f x)) -> Forall2 P l (map f l).
Proof.
  induction l as [|x l IH]; intros H; [constructor|].
  cbn [map]. constructor; [apply H; now left|]. apply IH. intros y Hy. apply H. now right.
Qed.

End CaptionFacts.
(* ===================================================================== *)
(** * One pass of caption generation *)
(* ===================================================================== *)

Module LookupFacts.

Import Rewriter CaptionSpec PyFacts.

Lemma requested_app a b : requested (a ++ b) = requested a ++ requested b.
Proof.
  induction a as [|e a IH]; [reflexivity|]. destruct e; simpl; now rewrite IH.
Qed.

Lemma cache_writes_app a b : cache_writes (a ++ b) = cache_writes a ++ cache_writes b.
Proof.
  induction a as [|e a IH]; [reflexivity|]. destruct e; simpl; now rewrite IH.
Qed.

Lemma open_cache_quiet E clear file :
  requested (snd (open_cache E clear file)) = []
  /\ cache_writes (snd (open_cache E clear file)) = [].
Proof.
  unfold open_cache.
  destruct file; cbn [_load_caption_cache cache_file_exists andb];
    destruct clear; cbn [andb]; try destruct (unlink_succeeds E); split; reflexivity.
Qed.

Lemma open_cache_eta E clear file :
  open_cache E clear file
  = (loaded_cache E clear file, opened_file E clear file, snd (open_cache E clear file)).
Proof.
  unfold loaded_cache, opened_file. destruct (open_cache E clear file) as [[a b] c].
  reflexivity.
Qed.

Lemma save_caption_cache_writes E f cache :
  cache_writes (fst (_save_caption_cache E f cache)) = [cache]
  /\ requested (fst (_save_caption_cache E f cache)) = [].
Proof. unfold _save_caption_cache. destruct (write_succeeds E); split; reflexivity. Qed.

(** ** The first loop *)

Lemma consult_cache_requests E vm cache : forall existing acc,
  to_request (consult_cache E vm cache existing acc)
  = to_request acc
    ++ map bucket_path (filter (fun t => cache_miss E vm cache (bucket_path t)) existing).
Proof.
  induction existing as [|t existing IH]; intros acc; cbn [consult_cache filter map].
  - now rewrite app_nil_r.
  - unfold cache_miss at 1.
    destruct (read_bytes E (bucket_path t)) as [blob|]; [|apply IH].
    destruct (dict_get cache (cache_key E vm blob)) as [cached|].
    + destruct (truthy (strip cached)); cbn [negb].
      * rewrite IH. reflexivity.
      * rewrite IH. cbn [to_request map]. now rewrite <- app_assoc.
    + rewrite IH. cbn [to_request map]. now rewrite <- app_assoc.
Qed.

Lemma consult_cache_lookup_sound E vm cache : forall existing acc,
  lookup_sound E vm cache (request_lookup acc) ->
  lookup_sound E vm cache (request_lookup (consult_cache E vm cache existing acc)).
Proof.
  induction existing as [|t existing IH]; intros acc Hacc; cbn [consult_cache];
    [assumption|].
  destruct (read_bytes E (bucket_path t)) as [blob|] eqn:Hread; [|now apply IH].
  assert (Hnew : (match dict_get cache (cache_key E vm blob) with
                  | Some cached => truthy (strip cached)
                  | None => false
                  end) = false ->
          lookup_sound E vm cache
            (dict_set (request_lookup acc) (bucket_path t) (id t, cache_key E vm blob))).
  { intros Hmiss p aid key Hget. rewrite dict_get_set in Hget.
    destruct (str_eqb (bucket_path t) p) eqn:Ep.
    - apply str_eqb_eq in Ep. subst p. inversion Hget; subst.
      exists blob. split; [assumption|]. split; [reflexivity|].
      unfold cache_miss. rewrite Hread.
      destruct (dict_get cache (cache_key E vm blob)); [now rewrite Hmiss|reflexivity].
    - exact (Hacc p aid key Hget). }
  destruct (match dict_get cache (cache_key E vm blob) with
            | Some cached => truthy (strip cached)
            | None => false
            end) eqn:Hhit.
  - apply IH. exact Hacc.
  - apply IH. cbn [request_lookup]. now apply Hnew.
Qed.

Lemma consult_cache_requests_known E vm cache : forall existing acc,
  (forall p, In p (to_request acc) -> dict_get (request_lookup acc) p <> None) ->
  forall p, In p (to_request (consult_cache E vm cache existing acc)) ->
            dict_get (request_lookup (consult_cache E vm cache existing acc)) p <> None.
Proof.
  induction existing as [|t existing IH]; intros acc Hacc; cbn [consult_cache];
    [assumption|].
  destruct (read_bytes E (bucket_path t)) as [blob|] eqn:Hread; [|now apply IH].
  destruct (match dict_get cache (cache_key E vm blob) with
            | Some cached => truthy (strip cached)
            | None => false
            end) eqn:Hhit.
  - apply IH. exact Hacc.
  - apply IH. cbn [to_request request_lookup]. intros p Hp.
    rewrite dict_get_set. destruct (str_eqb (bucket_path t) p) eqn:Ep; [discriminate|].
    apply in_app_or in Hp. destruct Hp as [Hp|[Hp|[]]]; [now apply Hacc|].
    apply str_eqb_neq in Ep. congruence.
Qed.

Lemma all_stripped_set d k v : all_stripped d -> strip v = v -> all_stripped (dict_set d k v).
Proof.
  intros Hd Hv. induction d as [|[k0 v0] d IH]; simpl.
  - intros k' v' [H|[]]. inversion H; subst. assumption.
  - destruct (str_eqb k0 k).
    + intros k' v' [H|H]; [inversion H; subst; assumption|].
      apply (Hd k' v'). now right.
    + intros k' v' [H|H]; [apply (Hd k' v'); now left|].
      refine (IH _ k' v' H). intros k1 v1 H1. apply (Hd k1 v1). now right.
Qed.

Lemma all_stripped_nil : all_stripped [].
Proof. intros k v []. Qed.

Lemma consult_cache_stripped E vm cache : forall existing acc,
  all_stripped (captions acc) ->
  all_stripped (captions (consult_cache E vm cache existing acc)).
Proof.
  induction existing as [|t existing IH]; intros acc Hacc; cbn [consult_cache];
    [assumption|].
  destruct (read_bytes E (bucket_path t)) as [blob|]; [|now apply IH].
  destruct (match dict_get cache (cache_key E vm blob) with
            | Some cached => truthy (strip cached)
            | None => false
            end).
  - apply IH. cbn [captions]. apply all_stripped_set; [assumption|apply strip_idem].
  - apply IH. exact Hacc.
Qed.

(** A caption the first loop holds was read from the cache. *)
Lemma consult_cache_origin E vm cache : forall existing acc aid v,
  dict_get (captions (consult_cache E vm cache existing acc)) aid = Some v ->
  dict_get (captions acc) aid = Some v
  \/ exists t blob cached,
       In t existing /\ id t = aid /\ read_bytes E (bucket_path t) = Some blob
       /\ dict_get cache (cache_key E vm blob) = Some cached
       /\ truthy (strip cached) = true /\ v = strip cached.
Proof.
  induction existing as [|t existing IH]; intros acc aid v Hget; cbn [consult_cache] in Hget.
  - now left.
  - destruct (read_bytes E (bucket_path t)) as [blob|] eqn:Hread.
    + destruct (dict_get cache (cache_key E vm blob)) as [cached|] eqn:Hc.
      * destruct (truthy (strip cached)) eqn:Ht.
        -- destruct (IH _ _ _ Hget) as [Hacc|(t' & blob' & cached' & Hin & Hrest)].
           ++ cbn [captions] in Hacc. rewrite dict_get_set in Hacc.
              destruct (str_eqb (id t) aid) eqn:Eid.
              ** right. exists t, blob, cached. apply str_eqb_eq in Eid.
                 inversion Hacc; subst. repeat split; try assumption. now left.
              ** now left.
           ++ right. exists t', blob', cached'. split; [now right|assumption].
        -- destruct (IH _ _ _ Hget) as [Hacc|(t' & blob' & cached' & Hin & Hrest)].
           ++ now left.
           ++ right. exists t', blob', cached'. split; [now right|assumption].
      * destruct (IH _ _ _ Hget) as [Hacc|(t' & blob' & cached' & Hin & Hrest)].
        -- now left.
        -- right. exists t', blob', cached'. split; [now right|assumption].
    + destruct (IH _ _ _ Hget) as [Hacc|(t' & blob' & cached' & Hin & Hrest)].
      * now left.
      * right. exists t', blob', cached'. split; [now right|assumption].
Qed.

(** ** The merging loop *)

Lemma merge_captions_fold table : forall raw caps cache changed,
  merge_captions raw table caps cache changed
  = fold_left (merge_step table) raw (caps, cache, changed).
Proof.
  induction raw as [|[p text] raw IH]; intros caps cache changed; [reflexivity|].
  cbn [merge_captions fold_left merge_step].
  destruct (dict_get table p) as [[aid key]|]; [|apply IH].
  destruct (truthy text) eqn:Htext; cbn [negb].
  - destruct (truthy (strip text)); cbn [negb]; [|apply IH].
    destruct (dict_get cache key) as [old|]; [|apply IH].
    destruct (str_eqb old (strip text)); apply IH.
  - destruct text; [|discriminate]. cbn. apply IH.
Qed.

(** The three things a turn can do. *)
Lemma merge_step_cases table caps cache changed p text :
  merge_step table (caps, cache, changed) (p, text) = (caps, cache, changed)
  \/ exists aid key,
       dict_get table p = Some (aid, key) /\ blank (strip text) = false
       /\ ((dict_get cache key = Some (strip text)
            /\ merge_step table (caps, cache, changed) (p, text)
               = (dict_set caps aid (strip text), cache, changed))
           \/ (dict_get cache key <> Some (strip text)
               /\ merge_step table (caps, cache, changed) (p, text)
                  = (dict_set caps aid (strip text),
                     dict_set cache key (strip text), true))).
Proof.
  cbn [merge_step]. destruct (dict_get table p) as [[aid key]|]; [|now left].
  destruct (truthy (strip text)) eqn:Ht; [|now left].
  right. exists aid, key. split; [reflexivity|].
  split; [now apply truthy_strip_not_blank|].
  destruct (dict_get cache key) as [old|] eqn:Hold.
  - destruct (str_eqb old (strip text)) eqn:Eq.
    + left. apply str_eqb_eq in Eq. subst old. split; reflexivity.
    + right. apply str_eqb_neq in Eq. split; [congruence|reflexivity].
  - right. split; [discriminate|reflexivity].
Qed.

Lemma fold_merge_invariant table (P : dict str * dict str * bool -> Prop) :
  (forall st item, P st -> P (merge_step table st item)) ->
  forall raw st, P st -> P (fold_left (merge_step table) raw st).
Proof.
  intros Hstep. induction raw as [|item raw IH]; intros st Hst; [assumption|].
  cbn [fold_left]. apply IH, Hstep, Hst.
Qed.

Lemma blank_not_usable cache key v :
  unusable cache key -> blank v = false -> dict_get cache key <> Some v.
Proof.
  unfold unusable. intros Hu Hv Hget. rewrite Hget in Hu. congruence.
Qed.

Section Merging.

Variable table : dict (str * str).
Variable cache0 : dict str.
Hypothesis table_unusable :
  forall p aid key, dict_get table p = Some (aid, key) -> unusable cache0 key.

Lemma merge_step_tracks st item :
  tracks cache0 st -> tracks cache0 (merge_step table st item).
Proof.
  destruct st as [[caps cache] changed]. destruct item as [p text]. intros [H1 H2].
  destruct (merge_step_cases table caps cache changed p text)
    as [->|(aid & key & Hget & Hnb & [[Hsame ->]|[Hdiff ->]])].
  - split; assumption.
  - split; assumption.
  - split; [discriminate|]. intros _. exists key, (strip text).
    split; [eapply table_unusable; eassumption|].
    split; [apply dict_get_set_same|assumption].
Qed.

Lemma merge_step_keeps key st item :
  holds_caption key st -> holds_caption key (merge_step table st item).
Proof.
  destruct st as [[caps cache] changed]. destruct item as [p text].
  intros (v & Hv & Hnb). unfold holds_caption in *. cbn [fst snd] in *.
  destruct (merge_step_cases table caps cache changed p text)
    as [->|(aid & key' & Hget & Hnb' & [[Hsame ->]|[Hdiff ->]])]; cbn [fst snd].
  - now exists v.
  - now exists v.
  - rewrite dict_get_set. destruct (str_eqb key' key).
    + now exists (strip text).
    + now exists v.
Qed.

Lemma merge_step_changed st item :
  snd st = true -> snd (merge_step table st item) = true.
Proof.
  destruct st as [[caps cache] changed]. destruct item as [p text]. cbn [snd]. intros ->.
  destruct (merge_step_cases table caps cache true p text)
    as [->|(aid & key' & Hget & Hnb' & [[Hsame ->]|[Hdiff ->]])]; reflexivity.
Qed.

(** A caption that is not blank, for a path of the table, is in the cache
    after its turn, and [changed] is set. *)
Lemma merge_step_stores st p text aid key :
  tracks cache0 st -> dict_get table p = Some (aid, key) -> blank text = false ->
  holds_caption key (merge_step table st (p, text))
  /\ snd (merge_step table st (p, text)) = true.
Proof.
  destruct st as [[caps cache] changed]. intros [H1 H2] Hget Hnb.
  assert (Hs : blank (strip text) = false) by now rewrite blank_strip.
  cbn [merge_step]. rewrite Hget.
  apply blank_false_iff in Hnb. rewrite Hnb.
  destruct (dict_get cache key) as [old|] eqn:Hold.
  - destruct (str_eqb old (strip text)) eqn:Eq.
    + apply str_eqb_eq in Eq. subst old. split.
      * exists (strip text). cbn [fst snd]. split; assumption.
      * cbn [snd]. destruct changed; [reflexivity|].
        exfalso. rewrite (H1 eq_refl) in Hold.
        eapply blank_not_usable; [eapply table_unusable|..]; eassumption.
    + split; [|reflexivity]. exists (strip text). cbn [fst snd].
      split; [apply dict_get_set_same|assumption].
  - split; [|reflexivity]. exists (strip text). cbn [fst snd].
    split; [apply dict_get_set_same|assumption].
Qed.

Lemma fold_merge_stores : forall raw st p text aid key,
  tracks cache0 st -> In (p, text) raw ->
  dict_get table p = Some (aid, key) -> blank text = false ->
  holds_caption key (fold_left (merge_step table) raw st)
  /\ snd (fold_left (merge_step table) raw st) = true.
Proof.
  induction raw as [|item raw IH]; intros st p text aid key Hst Hin Hget Hnb;
    [destruct Hin|].
  cbn [fold_left]. destruct Hin as [->|Hin].
  - destruct (merge_step_stores st p text aid key Hst Hget Hnb) as [Hh Hc]. split.
    + apply (fold_merge_invariant table (holds_caption key)); [|assumption].
      intros st' item'. apply merge_step_keeps.
    + apply (fold_merge_invariant table (fun st' => snd st' = true)); [|assumption].
      intros st' item'. apply merge_step_changed.
  - eapply IH; try eassumption. now apply merge_step_tracks.
Qed.

Lemma fold_merge_tracks raw st :
  tracks cache0 st -> tracks cache0 (fold_left (merge_step table) raw st).
Proof.
  apply fold_merge_invariant. intros st' item. apply merge_step_tracks.
Qed.

End Merging.

Lemma merge_step_stripped table st item :
  all_stripped (fst (fst st)) -> all_stripped (fst (fst (merge_step table st item))).
Proof.
  destruct st as [[caps cache] changed]. destruct item as [p text]. cbn [fst]. intros H.
  destruct (merge_step_cases table caps cache changed p text)
    as [->|(aid & key' & Hget & Hnb' & [[Hsame ->]|[Hdiff ->]])]; cbn [fst].
  - assumption.
  - apply all_stripped_set; [assumption|apply strip_idem].
  - apply all_stripped_set; [assumption|apply strip_idem].
Qed.

(** A caption the merging loop holds was there before or came from the
    vision service. *)
Lemma fold_merge_origin table : forall raw st aid v,
  dict_get (fst (fst (fold_left (merge_step table) raw st))) aid = Some v ->
  dict_get (fst (fst st)) aid = Some v
  \/ exists p text key, In (p, text) raw /\ dict_get table p = Some (aid, key)
                        /\ v = strip text /\ blank v = false.
Proof.
  induction raw as [|[p text] raw IH]; intros st aid v Hget; [now left|].
  cbn [fold_left] in Hget. destruct (IH _ _ _ Hget) as [Hst|(p' & text' & key' & Hin & Hrest)].
  - destruct st as [[caps cache] changed].
    destruct (merge_step_cases table caps cache changed p text)
      as [Heq|(aid' & key' & Hg & Hnb' & [[Hsame Heq]|[Hdiff Heq]])];
      rewrite Heq in Hst; cbn [fst] in *.
    + now left.
    + rewrite dict_get_set in Hst. destruct (str_eqb aid' aid) eqn:Ea.
      * apply str_eqb_eq in Ea. subst aid'. inversion Hst; subst.
        right. exists p, text, key'. split; [now left|]. repeat split; assumption.
      * now left.
    + rewrite dict_get_set in Hst. destruct (str_eqb aid' aid) eqn:Ea.
      * apply str_eqb_eq in Ea. subst aid'. inversion Hst; subst.
        right. exists p, text, key'. split; [now left|]. repeat split; assumption.
      * now left.
  - right. exists p', text', key'. split; [now right|assumption].
Qed.

(** ** The pass as a whole *)

Lemma lookup_nothing_existing E targets vm disable clear file :
  filter (is_existing E) targets = [] ->
  _generate_caption_lookup E targets vm disable clear file
  = {| lr_captions := []; lr_events := []; lr_cache_file := file |}.
Proof. intros H. unfold _generate_caption_lookup. now rewrite H. Qed.

Lemma lookup_uncached E targets vm clear file :
  filter (is_existing E) targets <> [] ->
  _generate_caption_lookup E targets vm true clear file
  = if api_key_present E then
      {| lr_captions :=
           uncached_captions
             (service_captions E (map bucket_path (filter (is_existing E) targets)))
             (filter (is_existing E) targets) [];
         lr_events := [CaptionRequest (map bucket_path (filter (is_existing E) targets))];
         lr_cache_file := file |}
    else {| lr_captions := []; lr_events := [Warning MSG_KEY_MISSING];
            lr_cache_file := file |}.
Proof.
  intros H. unfold _generate_caption_lookup.
  destruct (filter (is_existing E) targets) as [|t ts]; [congruence|].
  destruct (api_key_present E); reflexivity.
Qed.

(** A pass of the cached mode that asks for nothing. *)
Lemma lookup_cached_quiet E targets vm clear file :
  filter (is_existing E) targets <> [] ->
  pass_requests E targets vm clear file = [] ->
  let r := _generate_caption_lookup E targets vm false clear file in
  lr_captions r = captions (pass_pending E targets vm clear file)
  /\ requested (lr_events r) = []
  /\ cache_writes (lr_events r) = []
  /\ lr_cache_file r = opened_file E clear file.
Proof.
  intros Hex Hreq. cbv zeta. unfold _generate_caption_lookup.
  destruct (filter (is_existing E) targets) as [|t ts] eqn:Hf; [congruence|].
  rewrite open_cache_eta.
  rewrite <- Hf. fold (pass_pending E targets vm clear file).
  unfold pass_requests in Hreq.
  destruct (open_cache_quiet E clear file) as [Q1 Q2].
  destruct (to_request (pass_pending E targets vm clear file)) as [|p ps] eqn:Htr.
  - cbn [lr_captions lr_events lr_cache_file].
    rewrite app_nil_r. repeat split; assumption.
  - destruct (api_key_present E); [discriminate|].
    cbn [lr_captions lr_events lr_cache_file].
    rewrite requested_app, cache_writes_app, Q1, Q2. repeat split.
Qed.

(** A pass of the cached mode that asks the vision service. *)
Lemma lookup_cached_asking E targets vm clear file :
  pass_requests E targets vm clear file <> [] ->
  let r := _generate_caption_lookup E targets vm false clear file in
  let m := pass_merged E targets vm clear file in
  lr_captions r = fst (fst m)
  /\ requested (lr_events r) = [pass_requests E targets vm clear file]
  /\ cache_writes (lr_events r) = (if snd m then [snd (fst m)] else [])
  /\ lr_cache_file r
     = if snd m && write_succeeds E then Stored (snd (fst m))
       else opened_file E clear file.
Proof.
  intros Hreq. cbv zeta. unfold pass_merged.
  unfold pass_requests in *. unfold pass_pending in *.
  unfold _generate_caption_lookup.
  destruct (filter (is_existing E) targets) as [|t ts] eqn:Hf.
  { exfalso. apply Hreq. destruct (api_key_present E); reflexivity. }
  rewrite open_cache_eta.
  set (pending := consult_cache E vm (loaded_cache E clear file) (t :: ts)
                    {| captions := []; to_request := []; request_lookup := [] |}) in *.
  destruct (open_cache_quiet E clear file) as [Q1 Q2].
  destruct (to_request pending) as [|p ps] eqn:Htr.
  { exfalso. apply Hreq. destruct (api_key_present E); reflexivity. }
  destruct (api_key_present E); [|congruence].
  destruct (merge_captions (service_captions E (p :: ps)) (request_lookup pending)
              (captions pending) (loaded_cache E clear file) false)
    as [[caps' cache'] changed] eqn:Hm.
  cbn [fst snd]. destruct changed.
  - unfold _save_caption_cache. destruct (write_succeeds E);
      cbn [lr_captions lr_events lr_cache_file andb];
      rewrite !requested_app, !cache_writes_app, Q1, Q2; repeat split.
  - cbn [lr_captions lr_events lr_cache_file andb].
    rewrite !requested_app, !cache_writes_app, Q1, Q2. repeat split.
Qed.

(** An entry of the cache after the merging loop was there before or
    came from the vision service. *)
Lemma fold_merge_cache_origin table : forall raw st key v,
  dict_get (snd (fst (fold_left (merge_step table) raw st))) key = Some v ->
  dict_get (snd (fst st)) key = Some v
  \/ exists p text aid, In (p, text) raw /\ dict_get table p = Some (aid, key)
                        /\ v = strip text /\ blank v = false.
Proof.
  induction raw as [|[p text] raw IH]; intros st key v Hget; [now left|].
  cbn [fold_left] in Hget. destruct (IH _ _ _ Hget) as [Hst|(p' & text' & aid' & Hin & Hrest)].
  - destruct st as [[caps cache] changed].
    destruct (merge_step_cases table caps cache changed p text)
      as [Heq|(aid' & key' & Hg & Hnb' & [[Hsame Heq]|[Hdiff Heq]])];
      rewrite Heq in Hst; cbn [fst snd] in *.
    + now left.
    + now left.
    + rewrite dict_get_set in Hst. destruct (str_eqb key' key) eqn:Ek.
      * apply str_eqb_eq in Ek. subst key'. inversion Hst; subst.
        right. exists p, text, aid'. split; [now left|]. repeat split; assumption.
      * now left.
  - right. exists p', text', aid'. split; [now right|assumption].
Qed.

(** The cache a later pass loads from the file an earlier pass left
    untouched is the one the earlier pass worked with. *)
Lemma reopen_cache E clear file :
  loaded_cache E false (opened_file E clear file) = loaded_cache E clear file.
Proof.
  unfold loaded_cache, opened_file, open_cache.
  destruct file; destruct clear; cbn; try reflexivity;
    destruct (unlink_succeeds E); reflexivity.
Qed.

(** The captions the first loop of the cached mode holds. *)
Lemma consult_cache_captions E vm cache : forall existing acc aid,
  NoDup (map id existing) ->
  dict_get (captions (consult_cache E vm cache existing acc)) aid
  = match find (fun t => str_eqb (id t) aid) existing with
    | Some t =>
        match read_bytes E (bucket_path t) with
        | Some blob =>
            match dict_get cache (cache_key E vm blob) with
            | Some cached => if truthy (strip cached) then Some (strip cached)
                             else dict_get (captions acc) aid
            | None => dict_get (captions acc) aid
            end
        | None => dict_get (captions acc) aid
        end
    | None => dict_get (captions acc) aid
    end.
Proof.
  induction existing as [|t rest IH]; intros acc aid Hnd; [reflexivity|].
  cbn [map] in Hnd. inversion Hnd as [|? ? Hnot Hrest]; subst.
  cbn [consult_cache find].
  destruct (str_eqb (id t) aid) eqn:Et.
  - assert (Hfind : find (fun t0 => str_eqb (id t0) aid) rest = None).
    { apply str_eqb_eq in Et. subst aid.
      destruct (find (fun t0 => str_eqb (id t0) (id t)) rest) as [t'|] eqn:Hf; [|reflexivity].
      apply find_some in Hf. destruct Hf as [Hin Heq]. apply str_eqb_eq in Heq.
      exfalso. apply Hnot. rewrite <- Heq. now apply in_map. }
    destruct (read_bytes E (bucket_path t)) as [blob|];
      [|now rewrite IH, Hfind by assumption].
    destruct (dict_get cache (cache_key E vm blob)) as [cached|];
      [|now rewrite IH, Hfind by assumption].
    destruct (truthy (strip cached)); rewrite IH, Hfind by assumption; cbn [captions];
      [|reflexivity].
    apply str_eqb_eq in Et. subst aid. apply dict_get_set_same.
  - assert (Hacc : forall acc', dict_get (captions acc') aid = dict_get (captions acc) aid ->
                   dict_get (captions (consult_cache E vm cache rest acc')) aid
                   = match find (fun t0 => str_eqb (id t0) aid) rest with
                     | Some t0 =>
                         match read_bytes E (bucket_path t0) with
                         | Some blob =>
                             match dict_get cache (cache_key E vm blob) with
                             | Some cached => if truthy (strip cached) then Some (strip cached)
                                              else dict_get (captions acc) aid
                             | None => dict_get (captions acc) aid
                             end
                         | None => dict_get (captions acc) aid
                         end
                     | None => dict_get (captions acc) aid
                     end).
    { intros acc' Heq. rewrite IH by assumption. now rewrite Heq. }
    destruct (read_bytes E (bucket_path t)) as [blob|]; [|now apply Hacc].
    destruct (dict_get cache (cache_key E vm blob)) as [cached|]; [|now apply Hacc].
    destruct (truthy (strip cached)); apply Hacc; cbn [captions]; [|reflexivity].
    now rewrite dict_get_set, Et.
Qed.

(** The requests of a pass of the cached mode. *)
Lemma cached_requests_exact E targets vm clear file :
  requested (lr_events (_generate_caption_lookup E targets vm false clear file))
  = if api_key_present E
    then match cache_misses E vm (loaded_cache E clear file) targets with
         | [] => []
         | ps => [ps]
         end
    else [].
Proof.
  assert (Hto : to_request (pass_pending E targets vm clear file)
                = cache_misses E vm (loaded_cache E clear file) targets).
  { unfold pass_pending, cache_misses. now rewrite consult_cache_requests. }
  destruct (filter (is_existing E) targets) as [|t0 ts] eqn:Hf.
  { rewrite lookup_nothing_existing by assumption. unfold cache_misses. rewrite Hf.
    now destruct (api_key_present E). }
  assert (Hne : filter (is_existing E) targets <> []) by (rewrite Hf; discriminate).
  destruct (pass_requests E targets vm clear file) as [|p0 ps0] eqn:Hreq.
  - destruct (lookup_cached_quiet E targets vm clear file Hne Hreq) as (_ & -> & _).
    unfold pass_requests in Hreq. rewrite Hto in Hreq.
    destruct (api_key_present E); [now rewrite Hreq|reflexivity].
  - assert (Hne2 : pass_requests E targets vm clear file <> []) by (rewrite Hreq; discriminate).
    destruct (lookup_cached_asking E targets vm clear file Hne2) as (_ & -> & _).
    rewrite Hreq. unfold pass_requests in Hreq. rewrite Hto in Hreq.
    destruct (api_key_present E); [now rewrite Hreq|discriminate].
Qed.

Lemma cache_miss_iff E vm cache p :
  cache_miss E vm cache p = true
  <-> exists blob, read_bytes E p = Some blob
                   /\ match dict_get cache (cache_key E vm blob) with
                      | Some cached => blank cached = true
                      | None => True
                      end.
Proof.
  unfold cache_miss, blank. destruct (read_bytes E p) as [blob|].
  - destruct (dict_get cache (cache_key E vm blob)) as [cached|] eqn:Hc; split.
    + intros H. exists blob. split; [reflexivity|]. now rewrite Hc.
    + intros (blob' & Hb & H). inversion Hb; subst. now rewrite Hc in H.
    + intros _. exists blob. split; [reflexivity|]. now rewrite Hc.
    + reflexivity.
  - split; [discriminate|]. intros (blob & Hb & _). discriminate.
Qed.

End LookupFacts.
(* ===================================================================== *)
(** * One bucket, one name and one request per target *)
(* ===================================================================== *)

Module DedupFacts.

Import Rewriter ScanSpec CaptionSpec PyFacts GroupFacts SpliceFacts CaptionFacts LookupFacts.

Lemma NoDup_by_place (A B : Type) (f : A -> B) (l : list A) :
  (forall i j x y, nth_error l i = Some x -> nth_error l j = Some y ->
                   f x = f y -> i = j) ->
  NoDup (map f l).
Proof.
  intros H. apply NoDup_nth_error. intros i j Hi Heq.
  rewrite length_map in Hi. rewrite !nth_error_map in Heq.
  destruct (nth_error l i) as [x|] eqn:Hx.
  - destruct (nth_error l j) as [y|] eqn:Hy; [|discriminate].
    simpl in Heq. inversion Heq. eapply H; eassumption.
  - apply nth_error_None in Hx. lia.
Qed.

Lemma NoDup_map_filter (A B : Type) (f : A -> B) (P : A -> bool) (l : list A) :
  NoDup (map f l) -> NoDup (map f (filter P l)).
Proof.
  induction l as [|x l IH]; intros H; [constructor|].
  simpl in *. inversion H as [|? ? Hnot Hnd]; subst.
  destruct (P x); [|now apply IH].
  simpl. constructor; [|now apply IH].
  intros Hin. apply Hnot. apply in_map_iff in Hin. destruct Hin as (y & Hy & Hin).
  apply filter_In in Hin. apply in_map_iff. exists y. split; [assumption|apply Hin].
Qed.

Lemma NoDup_map_inj_in (A B : Type) (f : A -> B) (l : list A) x y :
  NoDup (map f l) -> In x l -> In y l -> f x = f y -> x = y.
Proof.
  induction l as [|z l IH]; intros H Hx Hy Hf; [destruct Hx|].
  simpl in H. inversion H as [|? ? Hnot Hnd]; subst.
  destruct Hx as [->|Hx]; destruct Hy as [->|Hy].
  - reflexivity.
  - exfalso. apply Hnot. rewrite Hf. now apply in_map.
  - exfalso. apply Hnot. rewrite <- Hf. now apply in_map.
  - now apply IH.
Qed.

Lemma filter_all_true (A : Type) (l : list A) : filter (fun _ => true) l = l.
Proof. induction l as [|x l IH]; simpl; [reflexivity|now rewrite IH]. Qed.

Lemma asset_name_inj h i j : asset_name h i = asset_name h j -> i = j.
Proof.
  unfold asset_name. intros H. apply app_inv_head in H. apply app_inv_head in H.
  now apply pad3_inj.
Qed.


Lemma existing_resolved E t :
  is_existing E t = true -> b_resolved t = Some (bucket_path t).
Proof.
  unfold is_existing, bucket_path. destruct (b_resolved t); [reflexivity|discriminate].
Qed.

Lemma requested_warnings entries : requested (unresolved_warnings entries) = [].
Proof.
  unfold unresolved_warnings. induction entries as [|e entries IH]; [reflexivity|].
  cbn [flat_map]. rewrite requested_app, IH, app_nil_r.
  destruct (resolved e); [reflexivity|]. destruct (truthy (raw_path e)); reflexivity.
Qed.

Lemma cache_writes_warnings entries : cache_writes (unresolved_warnings entries) = [].
Proof.
  unfold unresolved_warnings. induction entries as [|e entries IH]; [reflexivity|].
  cbn [flat_map]. rewrite cache_writes_app, IH, app_nil_r.
  destruct (resolved e); [reflexivity|]. destruct (truthy (raw_path e)); reflexivity.
Qed.

Section Targets.

Variable E : Env.
Variables raw_text source_hash : str.

Let placed := fst (document_groups E raw_text source_hash).
Let targets := snd (document_groups E raw_text source_hash).


Lemma targets_ids_distinct : NoDup (map id targets).
Proof.
  destruct (document_grouped E raw_text source_hash) as (_ & (lookupF & [H1 _]) & _).
  apply NoDup_by_place. intros i j x y Hx Hy Hid.
  destruct (H1 _ _ Hx) as [_ Nx]. destruct (H1 _ _ Hy) as [_ Ny].
  apply (asset_name_inj source_hash). congruence.
Qed.










End Targets.

End DedupFacts.
(* ===================================================================== *)
(** * The conversion loop *)
(* ===================================================================== *)

Module ConvertFacts.

Import Rewriter Runner RunnerSpec PyFacts.

Lemma set_mtime_same w p t : set_mtime w p t p = t.
Proof. unfold set_mtime. now rewrite str_eqb_refl. Qed.

Lemma set_mtime_other w p t q : q <> p -> set_mtime w p t q = mtime w q.
Proof.
  intros H. unfold set_mtime. destruct (str_eqb q p) eqn:E; [|reflexivity].
  apply str_eqb_eq in E. congruence.
Qed.

Lemma attempts_of_converted w s a :
  attempts_of (record w (Converted s a)) = attempts_of w ++ [a].
Proof. reflexivity. Qed.

Lemma attempts_of_after_failure w pdf msg partial :
  attempts_of (after_failure w pdf msg partial) = attempts_of w.
Proof.
  unfold after_failure. destruct partial;
    match goal with |- context [if ?b then _ else _] => destruct b end; reflexivity.
Qed.

Lemma attempts_of_after_success w pdf produced :
  attempts_of (after_success w pdf produced) = attempts_of w.
Proof. unfold after_success. destruct (str_eqb produced pdf); reflexivity. Qed.



Lemma exists_after_success w pdf produced :
  exists_ (after_success w pdf produced) pdf = true.
Proof.
  unfold after_success. destruct (str_eqb produced pdf) eqn:E.
  - apply str_eqb_eq in E. subst. unfold exists_, touch. cbn [mtime].
    now rewrite set_mtime_same.
  - unfold exists_, copy2, record, touch. cbn [mtime].
    rewrite set_mtime_same. cbn [mtime]. now rewrite set_mtime_same.
Qed.

Lemma attempts_of_warned w warned :
  Forall (fun a => exists m, a = Warned m) warned ->
  attempts_of (fold_left record warned w) = attempts_of w
  /\ mtime (fold_left record warned w) = mtime w.
Proof.
  revert w. induction warned as [|a warned IH]; intros w H; [split; reflexivity|].
  inversion H as [|? ? (m & ->) Hrest]; subst. cbn [fold_left].
  destruct (IH (record w (Warned m)) Hrest) as [-> ->]. split; reflexivity.
Qed.

Section Loop.

Variable X : Ext.
Variables source pdf_path : Path.



End Loop.

(** ** The ceiling *)


Lemma coerced_attempts_spec X options :
  coerced_attempts X options
  = if overflows options then Raise MSG_OVERFLOW
    else Ok (configured_attempts X options, ceiling_warnings X options).
Proof.
  unfold coerced_attempts, configured_value, overflows, configured_attempts,
    ceiling_warnings, not_coercible.
  destruct (dict_get options (lit "max_conversion_attempts")) as [v|]; [|reflexivity].
  destruct v as [|z|b|f|s|]; cbn [py_int]; try reflexivity.
  - destruct f; reflexivity.
  - destruct (int_of_text X s); reflexivity.
Qed.

Lemma attempt_ceiling_spec X options ext :
  attempt_ceiling X options ext
  = if overflows options then Raise MSG_OVERFLOW
    else Ok (claimed_ceiling X options ext, ceiling_warnings X options).
Proof.
  unfold attempt_ceiling. rewrite coerced_attempts_spec.
  destruct (overflows options); [reflexivity|].
  unfold claimed_ceiling. f_equal. f_equal.
  destruct (retry_eligible ext); cbn [negb andb]; [reflexivity|].
  destruct (Z.ltb_spec 1 (Z.max 1 (configured_attempts X options))); [reflexivity|lia].
Qed.

Lemma claimed_ceiling_positive X options ext : (1 <= claimed_ceiling X options ext)%Z.
Proof. unfold claimed_ceiling. destruct (retry_eligible ext); lia. Qed.

(** ** [_convert_to_pdf] on a source that is no PDF *)

Lemma convert_reuses_existing X w source converted given options hash :
  str_eqb (suffix_lower X source) PDF_EXTENSION = false ->
  exists_ w (pjoin converted (hash ++ lit ".pdf")) = true ->
  _convert_to_pdf X w source converted given options hash
  = (Ok (pjoin converted (hash ++ lit ".pdf")), w).
Proof. intros Hext Hex. unfold _convert_to_pdf. now rewrite Hext, Hex. Qed.


Lemma convert_starts_loop X w source converted options hash :
  str_eqb (suffix_lower X source) PDF_EXTENSION = false ->
  exists_ w (pjoin converted (hash ++ lit ".pdf")) = false ->
  overflows options = false ->
  _convert_to_pdf X w source converted true options hash
  = match conversion_loop X
            (Z.to_nat (claimed_ceiling X options (suffix_lower X source))) 1
            (fold_left record (ceiling_warnings X options) w)
            source (pjoin converted (hash ++ lit ".pdf")) None with
    | (Ok p, w', _) => (Ok p, w')
    | (Raise _, w', last_error) =>
        (Raise (exhausted_message source
                  (claimed_ceiling X options (suffix_lower X source)) last_error), w')
    end.
Proof.
  intros Hext Hex Ho. unfold _convert_to_pdf. rewrite Hext, Hex. cbn [negb].
  now rewrite attempt_ceiling_spec, Ho.
Qed.

Lemma warned_only X options :
  Forall (fun a => exists m, a = Warned m) (ceiling_warnings X options).
Proof.
  unfold ceiling_warnings. destruct (not_coercible X options); repeat constructor.
  now exists MSG_INVALID_ATTEMPTS.
Qed.

End ConvertFacts.
(* ===================================================================== *)
(** * The loops of the pipeline *)
(* ===================================================================== *)

Module PipelineFacts.

Import Rewriter Runner RunnerSpec PyFacts.

(** ** Completion order *)

Lemma nth_middle_split {A : Type} (d : A) : forall (l : list A) i,
  i < length l -> l = firstn i l ++ nth i l d :: skipn (S i) l.
Proof.
  induction l as [|x l IH]; intros i Hi; [cbn in Hi; lia|].
  destruct i as [|i]; [reflexivity|].
  cbn [firstn nth skipn app]. f_equal. apply IH. cbn in Hi. lia.
Qed.

Lemma as_completed_permutation {A : Type} : forall fuel choices (pending : list A),
  length pending <= fuel -> Permutation (as_completed fuel choices pending) pending.
Proof.
  induction fuel as [|fuel IH]; intros choices pending Hlen.
  - destruct pending; [constructor|cbn in Hlen; lia].
  - destruct pending as [|x rest]; [constructor|].
    cbn [as_completed].
    set (i := hd 0 choices mod length (x :: rest)).
    assert (Hi : i < length (x :: rest)).
    { apply Nat.mod_upper_bound. cbn. lia. }
    rewrite (nth_middle_split x (x :: rest) i Hi) at 4.
    apply Permutation_cons_app. apply IH.
    pose proof (f_equal (@length A) (nth_middle_split x (x :: rest) i Hi)) as Hl.
    rewrite length_app in Hl. cbn [length] in Hl. rewrite length_app.
    cbn [length] in Hlen. lia.
Qed.

Lemma handled_units_permutation X units : Permutation (handled_units X units) units.
Proof.
  unfold handled_units.
  destruct ((length units =? 1) || (max_workers X (length units) =? 1));
    [apply Permutation_refl|].
  apply as_completed_permutation. lia.
Qed.

(** ** Chunking *)

Lemma write_chunks_nil w c p produced :
  fst (write_chunks w c p produced) = [] <-> produced = [].
Proof.
  destruct produced as [|[[suffix text] meta] rest]; [now split|].
  cbn [write_chunks].
  destruct (write_chunks _ c p rest) as [records w2]. cbn [fst].
  split; discriminate.
Qed.

Lemma chunk_prepared_fails X w c p e :
  chunk_error X p = Some e -> fst (_chunk_prepared_source X w c p) = Raise e.
Proof.
  unfold chunk_error, _chunk_prepared_source.
  destruct (chunk_markdown X p) as [[|x produced]|msg]; intros H; inversion H; subst;
    reflexivity.
Qed.

Lemma chunk_prepared_succeeds X w c p :
  chunk_error X p = None ->
  exists records, records <> [] /\ fst (_chunk_prepared_source X w c p) = Ok records.
Proof.
  unfold chunk_error, _chunk_prepared_source.
  destruct (chunk_markdown X p) as [[|x produced]|msg]; intros H; try discriminate.
  pose proof (write_chunks_nil (record w (Chunked (ps_markdown_path p))) c p (x :: produced))
    as Hnil.
  destruct (write_chunks _ c p (x :: produced)) as [records w2]. cbn [fst] in Hnil.
  destruct records as [|r records].
  - destruct Hnil as [Hnil _]. specialize (Hnil eq_refl). discriminate.
  - exists (r :: records). split; [discriminate|reflexivity].
Qed.

Lemma chunk_one_errors X c r u :
  errors (chunk_one X c r u)
  = errors r ++ match chunk_error X (snd u) with
                | Some exc => [chunk_failure (ps_markdown_path (snd u)) exc]
                | None => []
                end.
Proof.
  destruct u as [key p]. cbn [snd]. unfold chunk_one.
  destruct (chunk_error X p) as [e|] eqn:He.
  - pose proof (chunk_prepared_fails X (world r) c p e He) as H.
    destruct (_chunk_prepared_source X (world r) c p) as [[records|msg] w1];
      cbn [fst] in H; inversion H; subst. reflexivity.
  - destruct (chunk_prepared_succeeds X (world r) c p He) as (records & _ & H).
    destruct (_chunk_prepared_source X (world r) c p) as [[records'|msg] w1];
      cbn [fst] in H; inversion H; subst. cbn [errors]. now rewrite app_nil_r.
Qed.

Lemma chunk_all_errors X c : forall units r,
  errors (chunk_all X c r units) = errors r ++ chunk_failures X units.
Proof.
  unfold chunk_all, chunk_failures.
  induction units as [|u units IH]; intros r; cbn [fold_left flat_map].
  - now rewrite app_nil_r.
  - rewrite IH, chunk_one_errors. now rewrite <- app_assoc.
Qed.

(** ** Preparation *)






(** ** Discovery *)

Lemma dedupe_head X path rest : dedupe X (path :: rest) [] <> [].
Proof. cbn. discriminate. Qed.

Lemma discover_nil X c :
  discover X c = []
  <-> forall p, In p (rglob_sorted X (input_dir c)) -> eligible X (input_dir c) p = false.
Proof.
  unfold discover, _deduplicate_paths, _iter_source_files. split.
  - intros H p Hin. destruct (eligible X (input_dir c) p) eqn:E; [|reflexivity].
    assert (Hf : In p (filter (eligible X (input_dir c)) (rglob_sorted X (input_dir c)))).
    { apply filter_In. now split. }
    destruct (filter _ _) as [|q l]; [destruct Hf|].
    exfalso. exact (dedupe_head X q l H).
  - intros H.
    assert (E : filter (eligible X (input_dir c)) (rglob_sorted X (input_dir c)) = []).
    { induction (rglob_sorted X (input_dir c)) as [|q l IH]; [reflexivity|].
      cbn [filter]. rewrite (H q (or_introl eq_refl)). apply IH.
      intros p Hin. apply H. now right. }
    now rewrite E.
Qed.

(** ** The outcome of a run *)

Lemma handled_units_nil X : handled_units X [] = [].
Proof. unfold handled_units. now destruct ((length (@nil (str * PreparedSource)) =? 1) || _). Qed.

Lemma run_outcome X w c r1 :
  discover X c <> [] ->
  fst (prepared_run X w c) = Ok r1 ->
  (collected_failures X c r1 <> [] ->
   fst (run_conversion_pipeline X w c) = Raise (join NEWLINE (collected_failures X c r1)))
  /\ (collected_failures X c r1 = [] ->
      exists m, fst (run_conversion_pipeline X w c) = Ok m
                /\ needs_embedding_refresh m = enable_chunking c).
Proof.
  intros Hd Hp. unfold run_conversion_pipeline, collected_failures.
  destruct (discover X c) as [|u us] eqn:Ed; [congruence|].
  destruct (prepared_run X w c) as [[r|msg] w1]; cbn [fst] in Hp; inversion Hp; subst.
  destruct (errors r1) as [|e es] eqn:Ee.
  - destruct (enable_chunking c) eqn:Ec.
    + assert (Herr : errors (match prepared_lookup r1 with
                             | [] => r1
                             | _ :: _ => chunk_all X c r1 (handled_units X (prepared_lookup r1))
                             end)
                     = chunk_failures X (handled_units X (prepared_lookup r1))).
      { destruct (prepared_lookup r1) as [|p ps] eqn:El.
        - rewrite handled_units_nil. exact Ee.
        - rewrite chunk_all_errors, Ee. reflexivity. }
      destruct (prepared_lookup r1) as [|p ps] eqn:El.
      * rewrite Ee. rewrite handled_units_nil. cbn [chunk_failures flat_map].
        split; [congruence|]. intros _. eexists. split; reflexivity.
      * rewrite Herr.
        destruct (chunk_failures X (handled_units X (p :: ps))) as [|f fs].
        -- split; [congruence|]. intros _. eexists. split; reflexivity.
        -- split; [reflexivity|discriminate].
    + rewrite Ee. split; [congruence|]. intros _. eexists. split; reflexivity.
  - split; [reflexivity|discriminate].
Qed.

End PipelineFacts.
(* ===================================================================== *)
(** * Freshness and regeneration *)
(* ===================================================================== *)

Module FreshFacts.

Import Rewriter Runner RunnerSpec PyFacts ScanFacts ConvertFacts.

Lemma chunks_fresh_iff w tm existing :
  chunks_fresh w tm existing = true
  <-> Forall (fun chunk => exists t, mtime w (markdown_path chunk) = Some t /\ (tm <= t)%Z)
             existing.
Proof.
  induction existing as [|chunk rest IH]; cbn [chunks_fresh].
  - split; [constructor|reflexivity].
  - destruct (mtime w (markdown_path chunk)) as [t|] eqn:Ht.
    + unfold older. destruct (t <? tm)%Z eqn:Hlt.
      * split; [discriminate|]. intros H. inversion H as [|? ? (t' & Ht' & Hle) _]; subst.
        rewrite Ht in Ht'. inversion Ht'; subst. apply Z.ltb_lt in Hlt. lia.
      * rewrite IH. apply Z.ltb_ge in Hlt. split.
        -- intros H. constructor; [exists t; now split|exact H].
        -- intros H. now inversion H.
    + split; [discriminate|]. intros H. inversion H as [|? ? (t' & Ht' & _) _]; subst.
      rewrite Ht in Ht'. discriminate.
Qed.

Lemma should_skip_iff w copied pdf_path markdown existing :
  _should_skip_reprocessing w copied pdf_path markdown existing = true
  <-> existing <> [] /\ chain_fresh w copied pdf_path markdown existing.
Proof.
  unfold _should_skip_reprocessing, chain_fresh.
  destruct existing as [|chunk rest].
  { split; [discriminate|]. intros [H _]. now destruct H. }
  destruct (mtime w copied) as [tc|].
  2:{ split; [discriminate|]. intros [_ (a & b & d & H & _)]. discriminate. }
  destruct (mtime w pdf_path) as [tp|].
  2:{ split; [discriminate|]. intros [_ (a & b & d & _ & H & _)]. discriminate. }
  unfold older. destruct (tp <? tc)%Z eqn:Hp.
  { split; [discriminate|]. intros [_ (a & b & d & Ha & Hb & Hle & _)].
    inversion Ha; inversion Hb; subst. apply Z.ltb_lt in Hp. lia. }
  destruct (mtime w markdown) as [tm|].
  2:{ split; [discriminate|]. intros [_ (a & b & d & _ & _ & _ & H & _)]. discriminate. }
  destruct (tm <? tp)%Z eqn:Hm.
  { split; [discriminate|]. intros [_ (a & b & d & _ & Hb & _ & Hd & Hle & _)].
    inversion Hb; inversion Hd; subst. apply Z.ltb_lt in Hm. lia. }
  apply Z.ltb_ge in Hp, Hm. rewrite chunks_fresh_iff. split.
  - intros H. split; [discriminate|]. exists tc, tp, tm. repeat split; assumption.
  - intros [_ (a & b & d & _ & _ & _ & Hd & _ & H)]. inversion Hd; subst. exact H.
Qed.

(** ** The copy of the original *)

Lemma copy_original_spec X w source originals hash ts :
  mtime w source = Some ts ->
  let target := pjoin originals (hash ++ suffix_lower X source) in
  fst (_copy_original X w source originals hash) = Ok target
  /\ snd (_copy_original X w source originals hash)
     = (match mtime w target with
        | Some tg => if (tg <? ts)%Z then copy2 w source target else w
        | None => copy2 w source target
        end)
  /\ exists t, mtime (snd (_copy_original X w source originals hash)) target = Some t
               /\ (ts <= t)%Z.
Proof.
  intros Hs. cbv zeta. unfold _copy_original. rewrite Hs.
  destruct (mtime w (pjoin originals (hash ++ suffix_lower X source))) as [tg|] eqn:Ht.
  - unfold older. destruct (tg <? ts)%Z eqn:Hlt; cbn [fst snd].
    + split; [reflexivity|]. split; [reflexivity|]. exists ts.
      unfold copy2, record. cbn [mtime]. rewrite set_mtime_same. split; [exact Hs|lia].
    + split; [reflexivity|]. split; [reflexivity|]. exists tg. split; [exact Ht|].
      apply Z.ltb_ge in Hlt. lia.
  - cbn [fst snd]. split; [reflexivity|]. split; [reflexivity|]. exists ts.
    unfold copy2, record. cbn [mtime]. rewrite set_mtime_same. split; [exact Hs|lia].
Qed.

(** ** The PDF *)

Lemma convert_pdf_source X w source converted given options hash tc :
  str_eqb (suffix_lower X source) PDF_EXTENSION = true ->
  mtime w source = Some tc ->
  _convert_to_pdf X w source converted given options hash
  = (Ok (pjoin converted (hash ++ lit ".pdf")),
     match mtime w (pjoin converted (hash ++ lit ".pdf")) with
     | Some tp => if (tp <? tc)%Z
                  then copy2 w source (pjoin converted (hash ++ lit ".pdf"))
                  else w
     | None => copy2 w source (pjoin converted (hash ++ lit ".pdf"))
     end).
Proof.
  intros He Hs. unfold _convert_to_pdf. rewrite He, Hs.
  destruct (mtime w (pjoin converted (hash ++ lit ".pdf"))) as [tp|]; [|reflexivity].
  unfold older. now destruct (tp <? tc)%Z.
Qed.

Lemma loop_attempts_prefix X source pdf_path : forall remaining attempt w last,
  exists l,
    attempts_of (snd (fst (conversion_loop X remaining attempt w source pdf_path last)))
    = attempts_of w ++ l
    /\ (0 < remaining -> exists l', l = attempt :: l').
Proof.
  induction remaining as [|remaining IH]; intros attempt w last; cbn [conversion_loop].
  - exists []. cbn [fst snd]. split; [now rewrite app_nil_r|lia].
  - destruct (converter X source attempt) as [produced|msg partial].
    + exists [attempt]. cbn [fst snd]. rewrite attempts_of_after_success.
      split; [reflexivity|]. intros _. now exists [].
    + destruct (IH (S attempt)
                  (after_failure (record w (Converted source attempt)) pdf_path msg partial)
                  (Some msg)) as (l & Hl & _).
      exists (attempt :: l). rewrite Hl, attempts_of_after_failure, attempts_of_converted.
      rewrite <- app_assoc. split; [reflexivity|]. intros _. now exists l.
Qed.

Lemma convert_missing_pdf X w source converted options hash :
  str_eqb (suffix_lower X source) PDF_EXTENSION = false ->
  exists_ w (pjoin converted (hash ++ lit ".pdf")) = false ->
  overflows options = false ->
  exists l,
    attempts_of (snd (_convert_to_pdf X w source converted true options hash))
    = attempts_of w ++ 1 :: l.
Proof.
  intros He Hx Ho. rewrite (convert_starts_loop X w source converted options hash He Hx Ho).
  destruct (attempts_of_warned w _ (warned_only X options)) as [Hatt _].
  pose proof (claimed_ceiling_positive X options (suffix_lower X source)) as Hpos.
  destruct (loop_attempts_prefix X source (pjoin converted (hash ++ lit ".pdf"))
              (Z.to_nat (claimed_ceiling X options (suffix_lower X source))) 1
              (fold_left record (ceiling_warnings X options) w)
              None) as (l & Hl & Hne).
  destruct Hne as (l' & ->); [lia|]. exists l'.
  destruct (conversion_loop X _ 1 _ source _ None) as [[[p|m] w'] last];
    cbn [fst snd] in Hl |- *; now rewrite Hl, Hatt.
Qed.

(** ** The scratch folder *)

Lemma under_self dir : under dir dir = true.
Proof. unfold under. now rewrite str_eqb_refl. Qed.

Lemma under_child dir name : under dir (pjoin dir name) = true.
Proof.
  unfold under, pjoin. apply orb_true_iff. right.
  apply startswith_app. exists name. now rewrite <- app_assoc.
Qed.

Lemma not_under_neq dir q : under dir q = false -> q <> dir.
Proof.
  unfold under. intros H ->. rewrite str_eqb_refl in H. discriminate.
Qed.

Lemma exists_rmtree w dir : exists_ (rmtree w dir) dir = false.
Proof. unfold exists_, rmtree, record. cbn [mtime]. now rewrite under_self. Qed.

Lemma fresh_scratch_eq w dir :
  fresh_scratch w dir = touch (if exists_ w dir then rmtree w dir else w) dir.
Proof.
  unfold fresh_scratch, mkdir. destruct (exists_ w dir) eqn:E.
  - now rewrite exists_rmtree.
  - now rewrite E.
Qed.

Lemma fresh_scratch_frame w dir :
  (forall q, under dir q = false -> mtime (fresh_scratch w dir) q = mtime w q)
  /\ now (fresh_scratch w dir) = (now w + 1)%Z
  /\ caption_cache (fresh_scratch w dir) = caption_cache w
  /\ done (fresh_scratch w dir)
     = (if exists_ w dir then [RemovedTree dir] else []) ++ done w
  /\ mtime (fresh_scratch w dir) dir = Some (now w).
Proof.
  rewrite fresh_scratch_eq. split; [|split; [|split; [|split]]].
  - intros q Hq. unfold touch. cbn [mtime].
    rewrite set_mtime_other by now apply not_under_neq.
    destruct (exists_ w dir); [|reflexivity].
    unfold rmtree, record. cbn [mtime]. now rewrite Hq.
  - now destruct (exists_ w dir).
  - now destruct (exists_ w dir).
  - now destruct (exists_ w dir).
  - unfold touch. cbn [mtime]. rewrite set_mtime_same. now destruct (exists_ w dir).
Qed.

Lemma touches_frame : forall paths w,
  (forall q, ~ In q paths -> mtime (fold_left touch paths w) q = mtime w q)
  /\ now (fold_left touch paths w) = (now w + Z.of_nat (length paths))%Z
  /\ caption_cache (fold_left touch paths w) = caption_cache w
  /\ done (fold_left touch paths w) = done w.
Proof.
  induction paths as [|p paths IH]; intros w; cbn [fold_left length].
  - repeat split; lia.
  - destruct (IH (touch w p)) as (Hm & Hn & Hc & Hd).
    split; [|split; [|split]].
    + intros q Hq. rewrite Hm by (intros H; apply Hq; now right).
      unfold touch. cbn [mtime]. apply set_mtime_other. intros ->. apply Hq. now left.
    + rewrite Hn. cbn [touch now]. lia.
    + now rewrite Hc.
    + now rewrite Hd.
Qed.

Lemma extracted_frame w dir names :
  (forall q, under dir q = false -> mtime (extracted w dir names) q = mtime w q)
  /\ now (extracted w dir names) = (now w + Z.of_nat (length names))%Z
  /\ caption_cache (extracted w dir names) = caption_cache w
  /\ done (extracted w dir names) = done w.
Proof.
  unfold extracted.
  destruct (touches_frame (map (pjoin dir) names) w) as (Hm & Hn & Hc & Hd).
  split; [|split; [|split]]; try assumption.
  - intros q Hq. apply Hm. intros Hin. apply in_map_iff in Hin.
    destruct Hin as (name & <- & _). rewrite under_child in Hq. discriminate.
  - now rewrite Hn, length_map.
Qed.

(** The world in which the rewriter is called. *)
Lemma scratch_frame w dir pdf_path names :
  let w2 := extracted (record (fresh_scratch w dir) (Extracted pdf_path)) dir names in
  (forall q, under dir q = false -> mtime w2 q = mtime w q)
  /\ now w2 = (now w + 1 + Z.of_nat (length names))%Z
  /\ caption_cache w2 = caption_cache w
  /\ done w2 = Extracted pdf_path
               :: (if exists_ w dir then [RemovedTree dir] else []) ++ done w.
Proof.
  cbv zeta.
  destruct (extracted_frame (record (fresh_scratch w dir) (Extracted pdf_path)) dir names)
    as (Hm & Hn & Hc & Hd).
  destruct (fresh_scratch_frame w dir) as (Fm & Fn & Fc & Fd & _).
  split; [|split; [|split]].
  - intros q Hq. rewrite Hm by assumption. cbn [record mtime]. now apply Fm.
  - rewrite Hn. cbn [record now]. now rewrite Fn.
  - rewrite Hc. exact Fc.
  - rewrite Hd. cbn [record done]. now rewrite Fd.
Qed.

(** ** The markdown *)

Lemma render_eq X w pdf_path c hash run names :
  extractor X = Some run ->
  run pdf_path = Ok names ->
  _render_markdown_and_assets X w pdf_path c hash
  = let w2 := extracted (record (fresh_scratch w (scratch_dir c hash)) (Extracted pdf_path))
                (scratch_dir c hash) names in
    match names with
    | [] => (Raise (no_markdown_message pdf_path), w2)
    | name :: _ =>
        let first := pjoin (scratch_dir c hash) name in
        match rewrite_error (rewriter_env X first) (read_text X first) with
        | Some msg => (Raise msg, w2)
        | None =>
            let r := rewrite_markdown_with_captions (rewriter_env X first)
                       (read_text X first) hash (vision_model c)
                       (disable_caption_cache c) (clear_caption_cache c)
                       (caption_cache w2) in
            (Ok (markdown_of c hash, media_assets r),
             with_cache (record (touch w2 (markdown_of c hash)) (Wrote (markdown_of c hash)))
               (cache_file r))
        end
    end.
Proof.
  intros Hx Hr. unfold _render_markdown_and_assets, markdown_of. rewrite Hx, Hr. cbv zeta.
  destruct names as [|name rest]; [reflexivity|]. cbn [map].
  unfold rewrite_outcome.
  destruct (rewrite_error _ _); reflexivity.
Qed.

Lemma render_writes_markdown X w pdf_path c hash run name rest :
  extractor X = Some run ->
  run pdf_path = Ok (name :: rest) ->
  rewrite_error (rewriter_env X (pjoin (scratch_dir c hash) name))
    (read_text X (pjoin (scratch_dir c hash) name)) = None ->
  let out := _render_markdown_and_assets X w pdf_path c hash in
  (exists assets, fst out = Ok (markdown_of c hash, assets))
  /\ done (snd out)
     = Wrote (markdown_of c hash) :: Extracted pdf_path
       :: (if exists_ w (scratch_dir c hash) then [RemovedTree (scratch_dir c hash)] else [])
       ++ done w
  /\ mtime (snd out) (markdown_of c hash)
     = Some (now w + 1 + Z.of_nat (length (name :: rest)))%Z
  /\ now (snd out) = (now w + 2 + Z.of_nat (length (name :: rest)))%Z
  /\ (forall q, q <> markdown_of c hash -> under (scratch_dir c hash) q = false ->
        mtime (snd out) q = mtime w q).
Proof.
  intros Hx Hr He. cbv zeta. rewrite (render_eq X w pdf_path c hash run _ Hx Hr).
  cbv zeta. rewrite He. cbn [fst snd].
  destruct (scratch_frame w (scratch_dir c hash) pdf_path (name :: rest))
    as (Hm & Hn & Hc & Hd).
  split; [eexists; reflexivity|].
  set (w2 := extracted _ (scratch_dir c hash) (name :: rest)) in *.
  cbn [with_cache record touch mtime done now].
  split; [now rewrite Hd|].
  split; [now rewrite set_mtime_same, Hn|].
  split; [rewrite Hn; lia|].
  intros q Hq Hu. rewrite set_mtime_other by assumption. now apply Hm.
Qed.

(** When the rewriter raises, the markdown is not written. *)
Lemma render_rewriter_raises X w pdf_path c hash run name rest msg :
  extractor X = Some run ->
  run pdf_path = Ok (name :: rest) ->
  rewrite_error (rewriter_env X (pjoin (scratch_dir c hash) name))
    (read_text X (pjoin (scratch_dir c hash) name)) = Some msg ->
  let out := _render_markdown_and_assets X w pdf_path c hash in
  fst out = Raise msg
  /\ done (snd out)
     = Extracted pdf_path
       :: (if exists_ w (scratch_dir c hash) then [RemovedTree (scratch_dir c hash)] else [])
       ++ done w
  /\ caption_cache (snd out) = caption_cache w
  /\ (forall q, under (scratch_dir c hash) q = false -> mtime (snd out) q = mtime w q).
Proof.
  intros Hx Hr He. cbv zeta. rewrite (render_eq X w pdf_path c hash run _ Hx Hr).
  cbv zeta. rewrite He. cbn [fst snd].
  destruct (scratch_frame w (scratch_dir c hash) pdf_path (name :: rest))
    as (Hm & Hn & Hc & Hd).
  split; [reflexivity|]. split; [exact Hd|]. split; [exact Hc|exact Hm].
Qed.

Lemma prepare_after_convert X w c copied rel hash pdf_path w1 :
  _convert_to_pdf X w copied (converted_dir c) true (extra_options c) hash = (Ok pdf_path, w1) ->
  snd (_prepare_source_file X w c copied rel hash)
  = snd (_render_markdown_and_assets X w1 pdf_path c hash)
  /\ fst (_prepare_source_file X w c copied rel hash)
     = match fst (_render_markdown_and_assets X w1 pdf_path c hash) with
       | Ok (markdown_master, assets) =>
           Ok {| ps_source_path := copied; ps_markdown_path := markdown_master;
                 ps_media_assets := assets; ps_source_rel := rel;
                 ps_source_hash := hash |}
       | Raise msg => Raise msg
       end.
Proof.
  intros H. unfold _prepare_source_file. rewrite H.
  destruct (_render_markdown_and_assets X w1 pdf_path c hash) as [[[md assets]|msg] w2];
    split; reflexivity.
Qed.

(** ** The chunks *)

Lemma write_chunks_done c p : forall produced w,
  done (snd (write_chunks w c p produced))
  = rev (map (fun r => Wrote (markdown_path r)) (fst (write_chunks w c p produced)))
    ++ done w.
Proof.
  induction produced as [|[[suffix text] meta] rest IH]; intros w; [reflexivity|].
  cbn [write_chunks].
  specialize (IH (record (touch w (pjoin (chunks_dir c) ((lit "chnk_" ++ suffix) ++ lit ".md")))
                    (Wrote (pjoin (chunks_dir c) ((lit "chnk_" ++ suffix) ++ lit ".md"))))).
  destruct (write_chunks _ c p rest) as [records w2]. cbn [fst snd] in IH |- *.
  rewrite IH. cbn [map rev markdown_path].
  exact (app_assoc (rev (map (fun r => Wrote (markdown_path r)) records)) [_] (done w)).
Qed.

Lemma chunk_prepared_done X w c p :
  exists l, done (snd (_chunk_prepared_source X w c p))
            = l ++ Chunked (ps_markdown_path p) :: done w
            /\ forall records, fst (_chunk_prepared_source X w c p) = Ok records ->
                 l = rev (map (fun r => Wrote (markdown_path r)) records).
Proof.
  unfold _chunk_prepared_source.
  destruct (chunk_markdown X p) as [produced|msg].
  - pose proof (write_chunks_done c p produced (record w (Chunked (ps_markdown_path p)))) as H.
    destruct (write_chunks _ c p produced) as [records w2]. cbn [fst snd] in H.
    exists (rev (map (fun r => Wrote (markdown_path r)) records)).
    destruct records as [|r records]; cbn [fst snd]; (split; [exact H|]).
    + discriminate.
    + intros records' E. now inversion E.
  - exists []. cbn [fst snd]. split; [reflexivity|discriminate].
Qed.

Lemma chunk_one_done X c r u :
  exists l, done (world (chunk_one X c r u))
            = l ++ Chunked (ps_markdown_path (snd u)) :: done (world r).
Proof.
  destruct u as [key p]. cbn [snd]. unfold chunk_one.
  destruct (chunk_prepared_done X (world r) c p) as (l & Hl & _). exists l.
  destruct (_chunk_prepared_source X (world r) c p) as [[records|msg] w1]; exact Hl.
Qed.

Lemma chunk_all_keeps X c : forall units r a,
  In a (done (world r)) -> In a (done (world (chunk_all X c r units))).
Proof.
  unfold chunk_all. induction units as [|u units IH]; intros r a H; [exact H|].
  cbn [fold_left]. apply IH. destruct (chunk_one_done X c r u) as (l & ->).
  apply in_or_app. right. now right.
Qed.

Lemma chunk_all_chunks X c : forall units r u,
  In u units ->
  In (Chunked (ps_markdown_path (snd u))) (done (world (chunk_all X c r units))).
Proof.
  induction units as [|v units IH]; intros r u Hin; [destruct Hin|].
  destruct Hin as [->|Hin].
  - unfold chunk_all. cbn [fold_left]. apply (chunk_all_keeps X c units).
    destruct (chunk_one_done X c r u) as (l & ->). apply in_or_app. right. now left.
  - unfold chunk_all. cbn [fold_left]. now apply (IH (chunk_one X c r v)).
Qed.

(** ** A turn of the preparation loop, with chunking *)

Section Turn.

Variable X : Ext.
Variable c : ConversionConfig.
Variable r : Run.
Variable src : Path.
Variable copied : Path.
Variable w1 : World.

Hypothesis chunking : enable_chunking c = true.
Hypothesis copy_done :
  _copy_original X (world r) src (originals_dir c) (hash_of X c src) = (Ok copied, w1).

Lemma turn_recorded existing :
  dict_get (existing_chunk_map r) (hash_of X c src) = Some existing ->
  existing <> [] ->
  _chunks_match_hash existing (hash_of X c src) = true ->
  (chain_fresh w1 copied (pdf_of c (hash_of X c src)) (markdown_of c (hash_of X c src)) existing ->
   skipped r w1 existing (prepare_one X c r src))
  /\ (~ chain_fresh w1 copied (pdf_of c (hash_of X c src)) (markdown_of c (hash_of X c src))
          existing ->
      reprocessed X c r src copied w1 (prepare_one X c r src)).
Proof.
  intros Hget Hne Hmatch.
  pose proof (should_skip_iff w1 copied (pdf_of c (hash_of X c src))
                (markdown_of c (hash_of X c src)) existing) as Hiff.
  unfold prepare_one. fold (rel_of X c src). fold (hash_of X c src).
  rewrite copy_done, chunking, Hget.
  destruct existing as [|chunk rest]; [now destruct Hne|].
  rewrite Hmatch. fold (pdf_of c (hash_of X c src)). fold (markdown_of c (hash_of X c src)).
  cbn [andb negb].
  destruct (_should_skip_reprocessing w1 copied _ _ (chunk :: rest)) eqn:Hskip.
  - split.
    + intros _. unfold skipped.
      destruct (keep_existing w1 (chunk :: rest) (run_chunks r) (seen_chunk_ids r))
        as [ch se] eqn:Hk.
      eexists. split; [reflexivity|]. cbn [world errors prepared_lookup run_chunks fst].
      repeat split; reflexivity.
    + intros Hn. exfalso. apply Hn. now apply Hiff.
  - split.
    + intros Hf. assert (false = true) by (apply Hiff; split; [discriminate|exact Hf]).
      discriminate.
    + intros _. unfold reprocessed.
      destruct (_prepare_source_file X w1 c copied (rel_of X c src) (hash_of X c src))
        as [[prepared|exc] w3]; eexists; (split; [reflexivity|]);
        cbn [world errors prepared_lookup fst snd]; repeat split; reflexivity.
Qed.

Lemma turn_diverged existing :
  dict_get (existing_chunk_map r) (hash_of X c src) = Some existing ->
  _chunks_match_hash existing (hash_of X c src) = false ->
  reprocessed X c r src copied (_remove_chunk_artifacts w1 c existing) (prepare_one X c r src).
Proof.
  intros Hget Hmatch.
  unfold prepare_one. fold (rel_of X c src). fold (hash_of X c src).
  rewrite copy_done, chunking, Hget.
  destruct existing as [|chunk rest]; [discriminate|].
  rewrite Hmatch. cbn [andb negb _should_skip_reprocessing]. unfold reprocessed.
  destruct (_prepare_source_file X _ c copied (rel_of X c src) (hash_of X c src))
    as [[prepared|exc] w3]; eexists; (split; [reflexivity|]);
    cbn [world errors prepared_lookup fst snd]; repeat split; reflexivity.
Qed.

End Turn.

End FreshFacts.
(* ===================================================================== *)
(** * The caption rewriter: scanning, substitution, captions *)
(* ===================================================================== *)

Module RewriterClaims.

Import Rewriter ScanSpec CaptionSpec Demo.
Import PyFacts ScanFacts SpliceFacts GroupFacts CaptionFacts LookupFacts DedupFacts.

(** ** Worked runs of the scanner *)

Example scan_sample_tags :
  _find_image_tags SCAN_SAMPLE
  = [ {| start := 2; end_ := 22;
         alt_text := lit "a" ++ [BACKSLASH] ++ lit "]b";
         destination := lit "p q.png" |};
      {| start := 23; end_ := 34; alt_text := lit "c"; destination := lit "d(e)f" |} ].
Proof. vm_compute. reflexivity. Qed.

Example scan_unterminated :
  _find_image_tags (lit "![never closed") = []
  /\ _find_image_tags (lit "![alt] (not a tag)") = []
  /\ _find_image_tags (lit "![alt](unbalanced ( paren") = [].
Proof. vm_compute. repeat split. Qed.

(** C6.  For every text, the tags [_find_image_tags] returns are exactly
    the ones the specification describes ([recognizes]): each starts at the
    first [![] at or after the place the scan resumed from, its alt span
    runs to the first unescaped [\]] (a backslash and the character after
    it are skipped together), the [\]] is directly followed by [(], the
    destination span ends at the parenthesis that balances the opening one
    (escapes skipped, any nesting depth), and the destination is what
    stands between [<] and the first [>], or else what is read up to the
    first unescaped whitespace.  A candidate with no closing bracket ends
    the scan with no tag; one with no [(] or no balancing parenthesis gives
    no tag and the scan resumes after its [\]].  The loop always ends
    within its bound, and the spans come out in order, inside the text,
    without overlap. *)
Theorem find_image_tags_exact (text : str) :
  find_image_tags_from (S (length text)) text 0 <> None
  /\ recognizes text 0 (_find_image_tags text)
  /\ (forall tags, recognizes text 0 tags -> tags = _find_image_tags text)
  /\ spans_in_order text 0 (_find_image_tags text)
  /\ (forall raw, spec_destination raw (_extract_destination raw))
  /\ (forall s i, (exists e, _find_closing_bracket (s) i = Some e) <->
                  (exists a rest, skipn i s = a ++ RBRACKET :: rest /\ alt_span a))
  /\ (forall s i, (exists e, _find_matching_paren s i = Some e) <->
                  (exists b rest, skipn i s = b ++ RPAREN :: rest /\ balanced b)).
Proof.
  split.
  { destruct (find_image_tags_from_sound (S (length text)) text 0) as (tags & Ht & _);
      [lia|]. rewrite Ht. discriminate. }
  split; [apply find_image_tags_recognizes|].
  split; [apply recognizes_find_image_tags|].
  split; [apply find_image_tags_in_order|].
  split; [apply extract_destination_spec|].
  split.
  - intros s i. unfold _find_closing_bracket. split.
    + intros (e & He). apply closing_bracket_sound in He.
      destruct He as (a & rest & Hs & Ha & _). now exists a, rest.
    + intros (a & rest & Hs & Ha). rewrite Hs, closing_bracket_complete by assumption.
      eexists. reflexivity.
  - intros s i. unfold _find_matching_paren. split.
    + intros (e & He). apply matching_paren_sound in He.
      destruct He as (b & rest & Hs & Hb & _). now exists b, rest.
    + intros (b & rest & Hs & Hb). rewrite Hs, matching_paren_complete by assumption.
      eexists. reflexivity.
Qed.

(** ** Normalisation *)

Lemma normalize_markdown_lines text :
  _normalize_markdown text
  = concat (map (fun l => rstrip l ++ [LF]) (splitlines text)).
Proof.
  unfold _normalize_markdown. destruct (splitlines text) as [|l ls] eqn:H.
  - reflexivity.
  - rewrite join_terminated by (destruct ls; discriminate).
    rewrite map_map. reflexivity.
Qed.

Lemma rewrite_written E raw hash vm dc cc file :
  written (rewrite_markdown_with_captions E raw hash vm dc cc file)
  = _normalize_markdown
      (splice raw 0 (_find_image_tags raw)
         (map wrapped
            (map (caption_core
                    (caption_by_asset_of
                       (document_captions E raw hash vm dc cc file) []))
                 (fst (document_groups E raw hash))))).
Proof.
  rewrite <- processed_text_splice.
  unfold rewrite_markdown_with_captions.
  destruct (_find_image_tags raw) as [|t ts] eqn:Ht; [|reflexivity].
  cbn [written]. unfold processed_text, document_groups, document_entries.
  rewrite Ht. cbn. now rewrite app_nil_r.
Qed.

(** C7 (amended).  The written text is the normalisation of the raw text
    in which the exact span of every recognized tag is replaced by the
    caption of the tag's asset, stripped, between the two markers, one
    space on each side of it, while everything outside the spans is kept:
    putting the spans' own texts back gives the raw text again.  The
    caption is the one the returned asset of that tag carries.  With no
    recognized tag (malformed image syntax included) the raw text itself is
    normalised.  Normalising splits the text at the line boundaries, strips
    the trailing whitespace of every line and ends every line with one line
    feed: an empty text stays empty, and blank lines at the end are kept. *)
Theorem rewrite_replaces_spans (E : Env) (raw hash : str) (vm : option str)
    (dc cc : bool) (file : CacheFile) :
  exists cores,
    length cores = length (_find_image_tags raw)
    /\ map (fun p => span (entry p)) (fst (document_groups E raw hash))
       = map (fun t => (start t, end_ t)) (_find_image_tags raw)
    /\ Forall2 (fun p core =>
                  exists a,
                    In a (media_assets
                            (rewrite_markdown_with_captions E raw hash vm dc cc file))
                    /\ ma_id a = asset_id p
                    /\ core = strip (ma_caption a))
               (fst (document_groups E raw hash)) cores
    /\ splice raw 0 (_find_image_tags raw)
         (map (span_text raw) (_find_image_tags raw)) = raw
    /\ written (rewrite_markdown_with_captions E raw hash vm dc cc file)
       = _normalize_markdown (splice raw 0 (_find_image_tags raw) (map wrapped cores))
    /\ (_find_image_tags raw = [] ->
        written (rewrite_markdown_with_captions E raw hash vm dc cc file)
        = _normalize_markdown raw)
    /\ (forall text,
          _normalize_markdown text
          = concat (map (fun l => rstrip l ++ [LF]) (splitlines text)))
    /\ (forall line, match rev (rstrip line) with
                     | [] => True
                     | c :: _ => isspace c = false
                     end).
Proof.
  exists (map (caption_core
                 (caption_by_asset_of (document_captions E raw hash vm dc cc file) []))
              (fst (document_groups E raw hash))).
  split; [|split; [|split; [|split; [|split; [|split; [|split]]]]]].
  - rewrite length_map. apply length_placed.
  - apply placed_spans.
  - apply Forall2_map_r. intros p Hp.
    destruct (placed_asset_caption E raw hash vm dc cc file p Hp) as (a & Ha & Hid & Hc).
    exists a. split; [exact Ha|]. split; [exact Hid|exact Hc].
  - apply splice_find_image_tags.
  - apply rewrite_written.
  - intros Hnone. unfold rewrite_markdown_with_captions. rewrite Hnone. reflexivity.
  - apply normalize_markdown_lines.
  - apply rstrip_last.
Qed.

(** C7, the claim as written fails: a text that ends with a blank line is
    written with two line feeds at its end, and an empty text is written
    empty. *)
Lemma trailing_blank_lines_kept :
  written (rewrite_markdown_with_captions empty_env (lit "a" ++ [LF; LF]) (lit "h")
             None true false NoFile) = lit "a" ++ [LF; LF]
  /\ ends_with_one_newline
       (written (rewrite_markdown_with_captions empty_env (lit "a" ++ [LF; LF]) (lit "h")
                   None true false NoFile)) = false
  /\ written (rewrite_markdown_with_captions empty_env [] (lit "h")
                None true false NoFile) = [].
Proof. vm_compute. repeat split. Qed.

(** C10.  Every media asset the rewrite returns carries a caption that is
    not blank, and so does every substitution site: what stands between
    the markers is not blank either.  A bucket's caption is the one the
    captioning pass gave it, or its fallback, or the placeholder, and it is
    the placeholder whenever the others are blank. *)
Theorem captions_never_blank (E : Env) (raw hash : str) (vm : option str)
    (dc cc : bool) (file : CacheFile) :
  Forall (fun a => blank (ma_caption a) = false)
    (media_assets (rewrite_markdown_with_captions E raw hash vm dc cc file))
  /\ (exists cores,
        length cores = length (_find_image_tags raw)
        /\ Forall (fun c => blank c = false) cores
        /\ written (rewrite_markdown_with_captions E raw hash vm dc cc file)
           = _normalize_markdown
               (splice raw 0 (_find_image_tags raw) (map wrapped cores)))
  /\ (forall L b,
        blank (caption (caption_bucket E L b)) = false
        /\ (caption (caption_bucket E L b) = PLACEHOLDER
            \/ caption (caption_bucket E L b) = _fallback_caption E b
            \/ dict_get L (id b) = Some (caption (caption_bucket E L b)))
        /\ (blank (match dict_get L (id b) with Some c => c | None => [] end) = true ->
            blank (_fallback_caption E b) = true ->
            caption (caption_bucket E L b) = PLACEHOLDER))
  /\ blank PLACEHOLDER = false.
Proof.
  split; [|split; [|split]].
  - unfold rewrite_markdown_with_captions.
    destruct (_find_image_tags raw) as [|t ts]; cbn [media_assets]; [constructor|].
    apply Forall_map. cbn [ma_caption media_asset_of].
    apply captioned_not_blank.
  - eexists. split; [|split].
    + rewrite length_map. apply length_placed.
    + apply cores_not_blank.
    + apply rewrite_written.
  - intros L b. split; [apply caption_bucket_not_blank|].
    split; [apply caption_bucket_source|].
    intros HL HF. unfold caption_bucket, or_else. cbn [caption].
    destruct (dict_get L (id b)) as [c|].
    + destruct (truthy c) eqn:Hc.
      * unfold blank in HL. destruct (truthy (strip c)); [discriminate|reflexivity].
      * unfold blank in HF. destruct (truthy (strip (_fallback_caption E b)));
          [discriminate|reflexivity].
    + cbn [truthy]. unfold blank in HF.
      destruct (truthy (strip (_fallback_caption E b))); [discriminate|reflexivity].
  - reflexivity.
Qed.


(** Two tags of different targets under one asset: the first is resolved
    to [/doc/a%41.png]; the second, which is not resolved, has that very
    path as its raw destination.  Both get the one id, and the alt text of
    the second is the caption at both sites. *)
Example encoded_destination_joins_asset :
  map (fun p => (resolved (entry p), raw_path (entry p), asset_id p))
      (fst (document_groups percent_env PERCENT_TAGS (lit "h")))
  = [(Some (lit "/doc/a%41.png"), lit "a%2541.png", lit "h_img_000");
     (None, lit "/doc/a%41.png", lit "h_img_000")]
  /\ map (fun a => (ma_id a, source_file a, ma_caption a))
       (media_assets (rewrite_markdown_with_captions percent_env PERCENT_TAGS (lit "h")
                        None true false NoFile))
     = [(lit "h_img_000", lit "/doc/a%41.png", lit "other")].
Proof. vm_compute. split; reflexivity. Qed.

End RewriterClaims.
(* ===================================================================== *)
(** * The caption rewriter: missing key, and the caption cache *)
(* ===================================================================== *)

Module CacheClaims.

Import Rewriter ScanSpec CaptionSpec Demo.
Import PyFacts ScanFacts SpliceFacts GroupFacts CaptionFacts LookupFacts DedupFacts.

(** ** The first alt text that is not blank *)

Lemma first_alt_some alts a :
  first_alt alts = Some a <->
  exists pre x post, alts = pre ++ x :: post
                     /\ Forall (fun y => blank y = true) pre
                     /\ blank x = false /\ a = strip x.
Proof.
  induction alts as [|y alts IH]; cbn [first_alt].
  - split; [discriminate|]. intros (pre & x & post & H & _). destruct pre; discriminate.
  - destruct (truthy (strip y)) eqn:Hy.
    + split.
      * intros H. inversion H; subst. exists [], y, alts.
        repeat split; [constructor|now apply blank_false_iff].
      * intros (pre & x & post & Heq & Hpre & Hx & ->).
        destruct pre as [|z pre]; inversion Heq; subst; [reflexivity|].
        inversion Hpre as [|? ? Hz _]; subst. unfold blank in Hz. now rewrite Hy in Hz.
    + rewrite IH. split.
      * intros (pre & x & post & -> & Hpre & Hx & ->).
        exists (y :: pre), x, post. repeat split; try assumption.
        constructor; [unfold blank; now rewrite Hy|assumption].
      * intros (pre & x & post & Heq & Hpre & Hx & ->).
        destruct pre as [|z pre]; inversion Heq; subst.
        -- apply blank_false_iff in Hx. congruence.
        -- inversion Hpre; subst. exists pre, x, post. repeat split; assumption.
Qed.

Lemma first_alt_none alts :
  first_alt alts = None <-> Forall (fun y => blank y = true) alts.
Proof.
  induction alts as [|y alts IH]; cbn [first_alt].
  - split; [constructor|reflexivity].
  - destruct (truthy (strip y)) eqn:Hy.
    + split; [discriminate|]. intros H. inversion H as [|? ? Hb _]; subst.
      unfold blank in Hb. now rewrite Hy in Hb.
    + rewrite IH. split.
      * intros H. constructor; [unfold blank; now rewrite Hy|assumption].
      * intros H. now inversion H.
Qed.

(** ** A pass without a key *)

Lemma events_of_rewrite E raw hash vm dc cc file :
  requested (events (rewrite_markdown_with_captions E raw hash vm dc cc file))
  = requested (lr_events (_generate_caption_lookup E
                 (snd (document_groups E raw hash)) vm dc cc file))
  /\ cache_writes (events (rewrite_markdown_with_captions E raw hash vm dc cc file))
     = cache_writes (lr_events (_generate_caption_lookup E
                       (snd (document_groups E raw hash)) vm dc cc file)).
Proof.
  unfold rewrite_markdown_with_captions.
  destruct (_find_image_tags raw) as [|t ts] eqn:Ht.
  - unfold document_groups, document_entries. rewrite Ht. cbn. split; reflexivity.
  - cbn [events]. rewrite requested_app, cache_writes_app,
      requested_warnings, cache_writes_warnings. split; reflexivity.
Qed.

Lemma no_key_no_requests E targets vm dc cc file :
  api_key_present E = false ->
  requested (lr_events (_generate_caption_lookup E targets vm dc cc file)) = []
  /\ cache_writes (lr_events (_generate_caption_lookup E targets vm dc cc file)) = [].
Proof.
  intros Hkey.
  destruct (filter (is_existing E) targets) as [|t0 ts] eqn:Hf.
  { rewrite lookup_nothing_existing by assumption. split; reflexivity. }
  assert (Hne : filter (is_existing E) targets <> []) by (rewrite Hf; discriminate).
  destruct dc.
  - rewrite lookup_uncached by assumption. rewrite Hkey. split; reflexivity.
  - assert (Hreq : pass_requests E targets vm cc file = [])
      by (unfold pass_requests; now rewrite Hkey).
    destruct (lookup_cached_quiet E targets vm cc file Hne Hreq) as (_ & H1 & H2 & _).
    split; assumption.
Qed.

Lemma no_key_warning E targets vm dc cc file :
  api_key_present E = false ->
  filter (is_existing E) targets <> [] ->
  (dc = true \/ to_request (pass_pending E targets vm cc file) <> []) ->
  In (Warning MSG_KEY_MISSING)
     (lr_events (_generate_caption_lookup E targets vm dc cc file)).
Proof.
  intros Hkey Hne Hask. destruct dc.
  - rewrite lookup_uncached by assumption. rewrite Hkey. now left.
  - destruct Hask as [|Hask]; [discriminate|].
    unfold pass_pending in Hask. unfold _generate_caption_lookup.
    destruct (filter (is_existing E) targets) as [|t ts] eqn:Hf; [congruence|].
    rewrite open_cache_eta.
    destruct (to_request (consult_cache E vm (loaded_cache E cc file) (t :: ts)
                {| captions := []; to_request := []; request_lookup := [] |}));
      [congruence|].
    rewrite Hkey. cbn [lr_events]. apply in_or_app. right. now left.
Qed.

(** The captions the cached mode holds after its first loop. *)
Lemma pass_captions E raw hash vm cc file b :
  In b (snd (document_groups E raw hash)) ->
  dict_get (captions (pass_pending E (snd (document_groups E raw hash)) vm cc file)) (id b)
  = cached_caption E vm (loaded_cache E cc file) b.
Proof.
  intros Hb. unfold pass_pending.
  rewrite consult_cache_captions
    by (apply NoDup_map_filter, targets_ids_distinct).
  cbn [captions dict_get]. unfold cached_caption, blank.
  destruct (find (fun t => str_eqb (id t) (id b))
              (filter (is_existing E) (snd (document_groups E raw hash)))) as [t|] eqn:Hf.
  - apply find_some in Hf. destruct Hf as [Ht Heq]. apply str_eqb_eq in Heq.
    apply filter_In in Ht. destruct Ht as [Ht Hex].
    assert (t = b).
    { apply (NoDup_map_inj_in _ _ id (snd (document_groups E raw hash))); try assumption.
      apply targets_ids_distinct. }
    subst t. rewrite Hex.
    destruct (read_bytes E (bucket_path b)) as [blob|]; [|reflexivity].
    destruct (dict_get (loaded_cache E cc file) (cache_key E vm blob)) as [cached|];
      [|reflexivity].
    now destruct (truthy (strip cached)).
  - destruct (is_existing E b) eqn:Hex; [|reflexivity].
    exfalso.
    assert (Hin : In b (filter (is_existing E) (snd (document_groups E raw hash))))
      by (apply filter_In; now split).
    pose proof (find_none _ _ Hf b Hin) as Hn. cbn in Hn.
    now rewrite str_eqb_refl in Hn.
Qed.

Lemma cached_caption_not_blank E vm cache b s :
  cached_caption E vm cache b = Some s -> truthy s = true.
Proof.
  unfold cached_caption. destruct (is_existing E b); [|discriminate].
  destruct (read_bytes E (bucket_path b)) as [blob|]; [|discriminate].
  destruct (dict_get cache (cache_key E vm blob)) as [cached|]; [|discriminate].
  destruct (blank cached) eqn:Hb; [discriminate|]. intros H. inversion H; subst.
  now apply blank_false_iff.
Qed.

Lemma no_key_captions E raw hash vm (dc : bool) cc file :
  api_key_present E = false ->
  Forall (fun c =>
            caption c
            = match (if dc then @None str
                     else cached_caption E vm (loaded_cache E cc file) (bucket c)) with
              | Some cached => cached
              | None => fallback_chain E (bucket c)
              end)
         (document_captions E raw hash vm dc cc file).
Proof.
  intros Hkey. unfold document_captions. apply Forall_map, Forall_forall. intros b Hb.
  change (bucket (caption_bucket E
            (lr_captions (_generate_caption_lookup E (snd (document_groups E raw hash))
                            vm dc cc file)) b)) with b.
  set (targets := snd (document_groups E raw hash)) in *.
  destruct (filter (is_existing E) targets) as [|t0 ts] eqn:Hf.
  { rewrite lookup_nothing_existing by assumption. cbn [lr_captions].
    rewrite (caption_bucket_chain E [] b all_stripped_nil). cbn [dict_get].
    destruct dc; [reflexivity|].
    unfold cached_caption.
    destruct (is_existing E b) eqn:Hex; [|reflexivity].
    assert (Hin : In b (filter (is_existing E) targets)) by (apply filter_In; now split).
    rewrite Hf in Hin. destruct Hin. }
  assert (Hne : filter (is_existing E) targets <> []) by (rewrite Hf; discriminate).
  destruct dc.
  - rewrite lookup_uncached by assumption. rewrite Hkey. cbn [lr_captions].
    now rewrite (caption_bucket_chain E [] b all_stripped_nil).
  - assert (Hreq : pass_requests E targets vm cc file = [])
      by (unfold pass_requests; now rewrite Hkey).
    destruct (lookup_cached_quiet E targets vm cc file Hne Hreq) as (-> & _).
    assert (Hs : all_stripped (captions (pass_pending E targets vm cc file)))
      by (unfold pass_pending; apply consult_cache_stripped; apply all_stripped_nil).
    rewrite (caption_bucket_chain E _ b Hs).
    unfold targets. rewrite (pass_captions E raw hash vm cc file b Hb).
    destruct (cached_caption E vm (loaded_cache E cc file) b) as [s0|] eqn:Hc;
      [|reflexivity].
    now rewrite (cached_caption_not_blank E vm _ b s0 Hc).
Qed.

(** C9 (amended).  Without a usable key no caption request is made and
    the cache file is not written.  The pass does not fail for want of the
    key: it raises only when resolving a destination raises, and returns
    otherwise, with a warning when an image had to be asked for.  Every
    asset then has the caption of its fallback chain, except that in the
    cached mode an asset whose file exists and can be read, and for whose
    bytes the cache holds a caption that is not blank, has that caption,
    stripped.  The chain is: the first alt text that is not blank,
    stripped; else the stem of the resolved file; else, for an unresolved
    destination that is not empty, the stem of its decoded form, or the
    destination itself when that stem is empty; else the placeholder; and
    the placeholder whenever the result is blank. *)
Theorem no_key_falls_back (E : Env) (raw hash : str) (vm : option str)
    (dc cc : bool) (file : CacheFile) :
  api_key_present E = false ->
  (rewrite_error E raw = None ->
   rewrite_outcome E raw hash vm dc cc file
   = Ok (rewrite_markdown_with_captions E raw hash vm dc cc file))
  /\ (forall msg,
        rewrite_outcome E raw hash vm dc cc file = Raise msg
        <-> exists pre tag post,
              _find_image_tags raw = pre ++ tag :: post
              /\ Forall (fun t => resolve_error E (destination t) = None) pre
              /\ resolve_error E (destination tag) = Some msg)
  /\ requested (events (rewrite_markdown_with_captions E raw hash vm dc cc file)) = []
  /\ cache_writes (events (rewrite_markdown_with_captions E raw hash vm dc cc file)) = []
  /\ media_assets (rewrite_markdown_with_captions E raw hash vm dc cc file)
     = map (media_asset_of E) (document_captions E raw hash vm dc cc file)
  /\ Forall (fun c =>
               caption c
               = match (if dc then @None str
                        else cached_caption E vm (loaded_cache E cc file) (bucket c)) with
                 | Some cached => cached
                 | None => fallback_chain E (bucket c)
                 end)
            (document_captions E raw hash vm dc cc file)
  /\ (filter (is_existing E) (snd (document_groups E raw hash)) <> [] ->
      dc = true
      \/ to_request (pass_pending E (snd (document_groups E raw hash)) vm cc file) <> [] ->
      In (Warning MSG_KEY_MISSING)
         (lr_events (_generate_caption_lookup E (snd (document_groups E raw hash))
                       vm dc cc file)))
  /\ (forall b,
        fallback_chain E b
        = let chosen :=
            match first_alt (alts b) with
            | Some a => a
            | None =>
                match b_resolved b with
                | Some p => path_stem p
                | None =>
                    if truthy (b_raw_path b) then
                      if truthy (path_stem (unquote E (b_raw_path b)))
                      then path_stem (unquote E (b_raw_path b))
                      else b_raw_path b
                    else PLACEHOLDER
                end
            end in
          if blank chosen then PLACEHOLDER else chosen)
  /\ (forall alts a,
        first_alt alts = Some a <->
        exists pre x post, alts = pre ++ x :: post
                           /\ Forall (fun y => blank y = true) pre
                           /\ blank x = false /\ a = strip x).
Proof.
  intros Hkey.
  split; [intros He; unfold rewrite_outcome; now rewrite He|].
  split; [intros msg; apply rewrite_outcome_raises|].
  destruct (events_of_rewrite E raw hash vm dc cc file) as [-> ->].
  destruct (no_key_no_requests E (snd (document_groups E raw hash)) vm dc cc file Hkey)
    as [-> ->].
  split; [reflexivity|]. split; [reflexivity|].
  split; [apply media_assets_captioned|].
  split; [now apply no_key_captions|].
  split; [now apply no_key_warning|].
  split; [|apply first_alt_some].
  intros b. unfold fallback_chain, _fallback_caption, blank. cbv zeta.
  match goal with |- (if truthy (strip ?x) then _ else _) = _ =>
    destruct (truthy (strip x)) end; reflexivity.
Qed.

(** C9, two runs without a key, one in each mode: no request is made; in
    the uncached mode the captions are the ones of the fallback chains, in
    the cached mode the caption of [a.png] is the one found in the cache. *)
Lemma no_key_falls_back_witness :
  api_key_present (demo_env false silent) = false
  /\ rewrite_outcome (demo_env false silent) MIXED_TAGS (lit "h") None true false NoFile
     = Ok (rewrite_markdown_with_captions (demo_env false silent) MIXED_TAGS (lit "h")
             None true false NoFile)
  /\ requested (events (rewrite_markdown_with_captions (demo_env false silent)
                          MIXED_TAGS (lit "h") None true false NoFile)) = []
  /\ requested (events (rewrite_markdown_with_captions (demo_env false silent)
                          MIXED_TAGS (lit "h") None false false
                          (Stored [(KEY_OF_A, lit " A cat ")]))) = []
  /\ map caption (document_captions (demo_env false silent)
                    MIXED_TAGS (lit "h") None true false NoFile)
     = [lit "a"; lit "b"; lit "missing"]
  /\ map caption (document_captions (demo_env false silent)
                    MIXED_TAGS (lit "h") None false false
                    (Stored [(KEY_OF_A, lit " A cat ")]))
     = [lit "A cat"; lit "b"; lit "missing"].
Proof.
  pose proof (no_key_falls_back (demo_env false silent) MIXED_TAGS (lit "h")
                None true false NoFile eq_refl) as (H1 & _ & H2 & _).
  pose proof (no_key_falls_back (demo_env false silent) MIXED_TAGS (lit "h")
                None false false (Stored [(KEY_OF_A, lit " A cat ")]) eq_refl)
    as (_ & _ & H3 & _).
  split; [reflexivity|]. split; [apply H1; reflexivity|].
  split; [exact H2|]. split; [exact H3|].
  split; vm_compute; reflexivity.
Defined.

(** C9, the claim as written fails: without a key, in the cached mode, the
    asset of [a.png] keeps the caption found in the cache, and the asset of
    the unresolved [missing.png] is captioned with the stem of its
    destination, where the claimed chain gives the stem [a] and the
    placeholder. *)
Lemma cached_and_unresolved_captions :
  api_key_present (demo_env false silent) = false
  /\ map ma_caption
       (media_assets
          (rewrite_markdown_with_captions (demo_env false silent) MIXED_TAGS (lit "h")
             None false false (Stored [(KEY_OF_A, lit "A cat")])))
     = [lit "A cat"; lit "b"; lit "missing"]
  /\ map claimed_fallback
       (snd (document_groups (demo_env false silent) MIXED_TAGS (lit "h")))
     = [lit "a"; lit "b"; PLACEHOLDER]
  /\ events
       (rewrite_markdown_with_captions (demo_env false silent) MIXED_TAGS (lit "h")
          None false false (Stored [(KEY_OF_A, lit "A cat")]))
     = [Warning MSG_NOT_FOUND; Warning MSG_KEY_MISSING].
Proof. vm_compute. repeat split. Qed.

(** ** The cached mode *)

Lemma pass_table_sound E targets vm cc file :
  lookup_sound E vm (loaded_cache E cc file)
    (request_lookup (pass_pending E targets vm cc file)).
Proof.
  unfold pass_pending. apply consult_cache_lookup_sound.
  intros p aid key H. discriminate.
Qed.

Lemma pass_table_known E targets vm cc file p :
  In p (to_request (pass_pending E targets vm cc file)) ->
  dict_get (request_lookup (pass_pending E targets vm cc file)) p <> None.
Proof.
  unfold pass_pending. apply consult_cache_requests_known. intros q [].
Qed.

Lemma pass_table_unusable E targets vm cc file p aid key :
  dict_get (request_lookup (pass_pending E targets vm cc file)) p = Some (aid, key) ->
  unusable (loaded_cache E cc file) key.
Proof.
  intros H. destruct (pass_table_sound E targets vm cc file p aid key H)
    as (blob & Hread & -> & Hmiss).
  unfold cache_miss in Hmiss. rewrite Hread in Hmiss. unfold unusable.
  destruct (dict_get (loaded_cache E cc file) (cache_key E vm blob)) as [cached|];
    [|exact I].
  unfold blank. now rewrite Hmiss.
Qed.

(** What a request of the cached mode names: the paths whose images the
    cache has nothing usable for. *)
Lemma cached_request_paths E targets vm cc file ps :
  In ps (requested (lr_events (_generate_caption_lookup E targets vm false cc file))) ->
  ps = to_request (pass_pending E targets vm cc file)
  /\ ps = pass_requests E targets vm cc file
  /\ ps <> []
  /\ forall p, In p ps -> cache_miss E vm (loaded_cache E cc file) p = true.
Proof.
  intros Hin.
  destruct (filter (is_existing E) targets) as [|t0 ts] eqn:Hf.
  { rewrite lookup_nothing_existing in Hin by assumption. destruct Hin. }
  assert (Hne : filter (is_existing E) targets <> []) by (rewrite Hf; discriminate).
  destruct (pass_requests E targets vm cc file) as [|p0 ps0] eqn:Hreq.
  { destruct (lookup_cached_quiet E targets vm cc file Hne Hreq) as (_ & H & _).
    rewrite H in Hin. destruct Hin. }
  assert (Hne2 : pass_requests E targets vm cc file <> []) by (rewrite Hreq; discriminate).
  destruct (lookup_cached_asking E targets vm cc file Hne2) as (_ & H & _).
  rewrite H, Hreq in Hin. destruct Hin as [<-|[]].
  assert (Hps : p0 :: ps0 = to_request (pass_pending E targets vm cc file)).
  { unfold pass_requests in Hreq. destruct (api_key_present E); [now symmetry|discriminate]. }
  split; [exact Hps|]. split; [reflexivity|]. split; [discriminate|].
  intros p Hp. rewrite Hps in Hp. unfold pass_pending in Hp.
  rewrite consult_cache_requests in Hp. cbn [to_request app] in Hp.
  apply in_map_iff in Hp. destruct Hp as (t & <- & Ht).
  apply filter_In in Ht. apply Ht.
Qed.

Lemma cached_never_requested E targets vm cc file p blob cached ps :
  read_bytes E p = Some blob ->
  dict_get (loaded_cache E cc file) (cache_key E vm blob) = Some cached ->
  blank cached = false ->
  In ps (requested (lr_events (_generate_caption_lookup E targets vm false cc file))) ->
  ~ In p ps.
Proof.
  intros Hread Hget Hnb Hps Hp.
  destruct (cached_request_paths E targets vm cc file ps Hps) as (_ & _ & _ & Hmiss).
  specialize (Hmiss p Hp). unfold cache_miss in Hmiss. rewrite Hread, Hget in Hmiss.
  apply blank_false_iff in Hnb. rewrite Hnb in Hmiss. discriminate.
Qed.

Lemma pass_merged_tracks E targets vm cc file :
  tracks (loaded_cache E cc file) (pass_merged E targets vm cc file).
Proof.
  unfold pass_merged. rewrite merge_captions_fold.
  apply (fold_merge_tracks (request_lookup (pass_pending E targets vm cc file))).
  - intros p aid key. apply pass_table_unusable.
  - split; [reflexivity|discriminate].
Qed.

(** A caption that the service gave for a requested path is in the cache
    that is written. *)
Lemma pass_merged_stores E targets vm cc file ps p text blob :
  In ps (requested (lr_events (_generate_caption_lookup E targets vm false cc file))) ->
  In p ps -> In (p, text) (service_captions E ps) ->
  read_bytes E p = Some blob -> blank text = false ->
  snd (pass_merged E targets vm cc file) = true
  /\ exists v, dict_get (snd (fst (pass_merged E targets vm cc file)))
                 (cache_key E vm blob) = Some v
               /\ blank v = false.
Proof.
  intros Hps Hp Hans Hread Hnb.
  destruct (cached_request_paths E targets vm cc file ps Hps) as (Hto & Hreq & _ & _).
  assert (Hknown : dict_get (request_lookup (pass_pending E targets vm cc file)) p <> None)
    by (apply pass_table_known; now rewrite <- Hto).
  destruct (dict_get (request_lookup (pass_pending E targets vm cc file)) p)
    as [[aid key]|] eqn:Hget; [|congruence].
  destruct (pass_table_sound E targets vm cc file p aid key Hget)
    as (blob' & Hread' & -> & _).
  assert (blob' = blob) by congruence. subst blob'.
  unfold pass_merged. rewrite merge_captions_fold, <- Hreq.
  destruct (fold_merge_stores (request_lookup (pass_pending E targets vm cc file))
              (loaded_cache E cc file)
              (fun p aid key => pass_table_unusable E targets vm cc file p aid key)
              (service_captions E ps)
              (captions (pass_pending E targets vm cc file), loaded_cache E cc file, false)
              p text aid (cache_key E vm blob)) as [Hh Hc]; try assumption.
  - split; [reflexivity|discriminate].
  - split; [exact Hc|exact Hh].
Qed.

Lemma cached_writes E targets vm dc cc file :
  length (cache_writes (lr_events (_generate_caption_lookup E targets vm dc cc file))) <= 1
  /\ forall d,
       In d (cache_writes (lr_events (_generate_caption_lookup E targets vm dc cc file))) ->
       dc = false
       /\ d = snd (fst (pass_merged E targets vm cc file))
       /\ exists key v, unusable (loaded_cache E cc file) key
                        /\ dict_get d key = Some v /\ blank v = false.
Proof.
  destruct (filter (is_existing E) targets) as [|t0 ts] eqn:Hf.
  { rewrite lookup_nothing_existing by assumption. cbn. split; [lia|intros d []]. }
  assert (Hne : filter (is_existing E) targets <> []) by (rewrite Hf; discriminate).
  destruct dc.
  { rewrite lookup_uncached by assumption.
    destruct (api_key_present E); cbn; (split; [lia|intros d []]). }
  destruct (pass_requests E targets vm cc file) as [|p0 ps0] eqn:Hreq.
  { destruct (lookup_cached_quiet E targets vm cc file Hne Hreq) as (_ & _ & -> & _).
    cbn. split; [lia|intros d []]. }
  assert (Hne2 : pass_requests E targets vm cc file <> []) by (rewrite Hreq; discriminate).
  destruct (lookup_cached_asking E targets vm cc file Hne2) as (_ & _ & -> & _).
  pose proof (pass_merged_tracks E targets vm cc file) as Ht.
  destruct (pass_merged E targets vm cc file) as [[caps' cache'] changed].
  cbn [fst snd]. destruct changed; cbn; [|split; [lia|intros d []]].
  split; [lia|]. intros d [<-|[]]. split; [reflexivity|]. split; [reflexivity|].
  destruct Ht as [_ Ht]. apply Ht. reflexivity.
Qed.

Lemma loaded_cache_stored E d : loaded_cache E false (Stored d) = d.
Proof. reflexivity. Qed.

Lemma cache_misses_in E vm cache targets p :
  In p (cache_misses E vm cache targets)
  <-> exists t, In t targets /\ is_existing E t = true /\ bucket_path t = p
                /\ cache_miss E vm cache p = true.
Proof.
  unfold cache_misses. rewrite in_map_iff. split.
  - intros (t & <- & Ht). apply filter_In in Ht. destruct Ht as [Ht Hm].
    apply filter_In in Ht. destruct Ht as [Ht Hex]. exists t. repeat split; assumption.
  - intros (t & Ht & Hex & <- & Hm). exists t. split; [reflexivity|].
    apply filter_In. split; [|exact Hm]. apply filter_In. now split.
Qed.

(** An image for whose bytes the vision service gave nothing that can be
    used is asked for again by the next pass. *)
Lemma unanswered_asked_again E targets vm cc file0 p blob :
  api_key_present E = true ->
  In p (cache_misses E vm (loaded_cache E cc file0) targets) ->
  read_bytes E p = Some blob ->
  (forall q text blob',
     In (q, text) (service_captions E (cache_misses E vm (loaded_cache E cc file0) targets)) ->
     read_bytes E q = Some blob' ->
     cache_key E vm blob' = cache_key E vm blob ->
     blank text = true) ->
  In p (cache_misses E vm
          (loaded_cache E false
             (lr_cache_file (_generate_caption_lookup E targets vm false cc file0)))
          targets).
Proof.
  intros Hkey Hp Hread Hans.
  assert (Hto : to_request (pass_pending E targets vm cc file0)
                = cache_misses E vm (loaded_cache E cc file0) targets).
  { unfold pass_pending, cache_misses. now rewrite consult_cache_requests. }
  assert (Hreq : pass_requests E targets vm cc file0
                 = cache_misses E vm (loaded_cache E cc file0) targets).
  { unfold pass_requests. now rewrite Hkey. }
  assert (Hne : pass_requests E targets vm cc file0 <> []).
  { rewrite Hreq. intros H. rewrite H in Hp. destruct Hp. }
  destruct (lookup_cached_asking E targets vm cc file0 Hne) as (_ & _ & _ & ->).
  apply cache_misses_in in Hp. destruct Hp as (t & Ht & Hex & Hpath & Hmiss).
  apply cache_misses_in. exists t. repeat (split; [assumption|]).
  destruct (snd (pass_merged E targets vm cc file0) && write_succeeds E);
    [|now rewrite reopen_cache].
  rewrite loaded_cache_stored. apply cache_miss_iff. exists blob. split; [exact Hread|].
  destruct (dict_get (snd (fst (pass_merged E targets vm cc file0))) (cache_key E vm blob))
    as [v|] eqn:Hv; [|exact I].
  unfold pass_merged in Hv. rewrite merge_captions_fold in Hv.
  apply fold_merge_cache_origin in Hv. cbn [fst snd] in Hv.
  destruct Hv as [Hold|(q & text & aid & Hin & Htab & -> & Hnb)].
  - apply cache_miss_iff in Hmiss. destruct Hmiss as (blob0 & Hb0 & Hm).
    assert (blob0 = blob) by congruence. subst blob0. now rewrite Hold in Hm.
  - exfalso.
    destruct (pass_table_sound E targets vm cc file0 q aid _ Htab)
      as (blob' & Hread' & Hk & _).
    rewrite Hreq in Hin. rewrite blank_strip in Hnb.
    rewrite (Hans q text blob' Hin Hread' (eq_sym Hk)) in Hnb. discriminate.
Qed.

(** C4 (amended).  In the cached mode the key of a candidate is the model
    identifier, two colons and the digest of the bytes of its file.  With a
    key at hand a pass makes one request, for exactly the existing targets
    whose bytes can be read and for which the loaded cache holds no caption
    or a blank one, and no request when there is none of them; so a
    candidate whose key holds a cached caption that is not blank is in no
    caption request, and one whose cached caption is blank is asked for
    again.  Once a pass got from the vision service a caption that is not
    blank for an image and stored the cache file, a later pass that does
    not clear the cache never asks for an image with the same bytes under
    the same key, whatever document it belongs to; an image for whose bytes
    the service gave nothing that can be used is asked for again by the
    next pass.  A caption that is not blank, obtained for a requested path,
    is merged into the cache in memory; the cache file is written at most
    once in a pass, never in the uncached mode, and only when some key that
    had nothing usable got a caption. *)
Theorem caption_cache_reuse :
  (forall E vm blob,
     cache_key E vm blob = model_key E vm ++ lit "::" ++ sha1_hexdigest E blob)
  /\ (forall E targets vm cc file,
        requested (lr_events (_generate_caption_lookup E targets vm false cc file))
        = if api_key_present E
          then match cache_misses E vm (loaded_cache E cc file) targets with
               | [] => []
               | ps => [ps]
               end
          else [])
  /\ (forall E vm cache targets p,
        In p (cache_misses E vm cache targets)
        <-> exists t, In t targets /\ is_existing E t = true /\ bucket_path t = p
                      /\ exists blob,
                           read_bytes E p = Some blob
                           /\ match dict_get cache (cache_key E vm blob) with
                              | Some cached => blank cached = true
                              | None => True
                              end)
  /\ (forall E targets vm cc file p blob cached ps,
        read_bytes E p = Some blob ->
        dict_get (loaded_cache E cc file) (cache_key E vm blob) = Some cached ->
        blank cached = false ->
        In ps (requested
                 (lr_events (_generate_caption_lookup E targets vm false cc file))) ->
        ~ In p ps)
  /\ (forall E1 targets1 vm cc1 file0 ps p text blob E2 targets2 p2 ps2,
        In ps (requested
                 (lr_events (_generate_caption_lookup E1 targets1 vm false cc1 file0))) ->
        In p ps -> In (p, text) (service_captions E1 ps) ->
        read_bytes E1 p = Some blob -> blank text = false ->
        write_succeeds E1 = true ->
        cache_key E2 vm blob = cache_key E1 vm blob ->
        read_bytes E2 p2 = Some blob ->
        In ps2 (requested
                  (lr_events
                     (_generate_caption_lookup E2 targets2 vm false false
                        (lr_cache_file
                           (_generate_caption_lookup E1 targets1 vm false cc1 file0))))) ->
        ~ In p2 ps2)
  /\ (forall E targets vm cc file0 p blob,
        api_key_present E = true ->
        In p (cache_misses E vm (loaded_cache E cc file0) targets) ->
        read_bytes E p = Some blob ->
        (forall q text blob',
           In (q, text)
              (service_captions E (cache_misses E vm (loaded_cache E cc file0) targets)) ->
           read_bytes E q = Some blob' ->
           cache_key E vm blob' = cache_key E vm blob ->
           blank text = true) ->
        exists ps2,
          requested
            (lr_events
               (_generate_caption_lookup E targets vm false false
                  (lr_cache_file (_generate_caption_lookup E targets vm false cc file0))))
          = [ps2]
          /\ In p ps2)
  /\ (forall E targets vm cc file ps p text blob,
        In ps (requested
                 (lr_events (_generate_caption_lookup E targets vm false cc file))) ->
        In p ps -> In (p, text) (service_captions E ps) ->
        read_bytes E p = Some blob -> blank text = false ->
        exists d v,
          cache_writes (lr_events (_generate_caption_lookup E targets vm false cc file))
          = [d]
          /\ dict_get d (cache_key E vm blob) = Some v /\ blank v = false)
  /\ (forall E targets vm dc cc file,
        length (cache_writes
                  (lr_events (_generate_caption_lookup E targets vm dc cc file))) <= 1
        /\ forall d,
             In d (cache_writes
                     (lr_events (_generate_caption_lookup E targets vm dc cc file))) ->
             dc = false
             /\ exists key v, unusable (loaded_cache E cc file) key
                              /\ dict_get d key = Some v /\ blank v = false).
Proof.
  split; [reflexivity|].
  split; [intros; apply cached_requests_exact|].
  split.
  { intros E vm cache targets p. rewrite cache_misses_in. split.
    - intros (t & Ht & Hex & Hp & Hm). exists t. repeat (split; [assumption|]).
      now apply cache_miss_iff.
    - intros (t & Ht & Hex & Hp & Hm). exists t. repeat (split; [assumption|]).
      now apply cache_miss_iff. }
  split; [intros; eapply cached_never_requested; eassumption|].
  split; [|split; [|split]].
  - intros E1 targets1 vm cc1 file0 ps p text blob E2 targets2 p2 ps2
           Hps Hp Hans Hread Hnb Hw Hkey Hread2 Hps2.
    destruct (pass_merged_stores E1 targets1 vm cc1 file0 ps p text blob
                Hps Hp Hans Hread Hnb) as (Hch & v & Hv & Hvb).
    destruct (cached_request_paths E1 targets1 vm cc1 file0 ps Hps) as (_ & Hreq & Hne & _).
    assert (Hne1 : pass_requests E1 targets1 vm cc1 file0 <> []) by now rewrite <- Hreq.
    destruct (lookup_cached_asking E1 targets1 vm cc1 file0 Hne1) as (_ & _ & _ & Hfile).
    rewrite Hch, Hw in Hfile. cbn [andb] in Hfile. rewrite Hfile in Hps2.
    eapply cached_never_requested; try eassumption.
    rewrite loaded_cache_stored, Hkey. exact Hv.
  - intros E targets vm cc file0 p blob Hkey Hp Hread Hans.
    pose proof (unanswered_asked_again E targets vm cc file0 p blob Hkey Hp Hread Hans)
      as Hin.
    rewrite cached_requests_exact, Hkey. revert Hin.
    destruct (cache_misses E vm (loaded_cache E false (lr_cache_file _)) targets)
      as [|p0 ps0]; intros Hin; [destruct Hin|].
    exists (p0 :: ps0). split; [reflexivity|exact Hin].
  - intros E targets vm cc file ps p text blob Hps Hp Hans Hread Hnb.
    destruct (pass_merged_stores E targets vm cc file ps p text blob
                Hps Hp Hans Hread Hnb) as (Hch & v & Hv & Hvb).
    destruct (cached_request_paths E targets vm cc file ps Hps) as (_ & Hreq & Hne & _).
    assert (Hne1 : pass_requests E targets vm cc file <> []) by now rewrite <- Hreq.
    destruct (lookup_cached_asking E targets vm cc file Hne1) as (_ & _ & Hwr & _).
    rewrite Hch in Hwr. exists (snd (fst (pass_merged E targets vm cc file))), v.
    split; [exact Hwr|]. split; assumption.
  - intros E targets vm dc cc file.
    destruct (cached_writes E targets vm dc cc file) as [Hlen Hd].
    split; [exact Hlen|]. intros d Hin. destruct (Hd d Hin) as (Hdc & _ & Hex).
    split; assumption.
Qed.

(** C4, two passes over the same two images: the first asks for both and
    stores the caption of [a.png]; the second asks for [b.png] only. *)
Lemma caption_cache_reuse_witness :
  requested (lr_events
    (_generate_caption_lookup (demo_env true describes_a)
       (snd (document_groups (demo_env true describes_a) TWO_IMAGES (lit "h")))
       None false false NoFile)) = [[A_PNG; B_PNG]]
  /\ ~ In A_PNG [B_PNG]
  /\ forall ps2,
       In ps2 (requested (lr_events
         (_generate_caption_lookup (demo_env true silent)
            (snd (document_groups (demo_env true silent) TWO_IMAGES (lit "other")))
            None false false
            (lr_cache_file
               (_generate_caption_lookup (demo_env true describes_a)
                  (snd (document_groups (demo_env true describes_a) TWO_IMAGES (lit "h")))
                  None false false NoFile))))) ->
       ~ In A_PNG ps2.
Proof.
  split; [vm_compute; reflexivity|].
  split; [intros [H|[]]; discriminate|].
  intros ps2.
  apply (proj1 (proj2 (proj2 (proj2 (proj2 caption_cache_reuse))))
           (demo_env true describes_a)
           (snd (document_groups (demo_env true describes_a) TWO_IMAGES (lit "h")))
           None false NoFile [A_PNG; B_PNG] A_PNG (lit "a cat") [1%N]
           (demo_env true silent)
           (snd (document_groups (demo_env true silent) TWO_IMAGES (lit "other")))
           A_PNG ps2).
  - vm_compute. left. reflexivity.
  - left. reflexivity.
  - vm_compute. left. reflexivity.
  - reflexivity.
  - reflexivity.
  - reflexivity.
  - reflexivity.
  - reflexivity.
Defined.

(** C4, the claim as written fails twice.  A cached caption of two spaces
    is not empty, and its image is asked for all the same.  And when the
    service answers nothing, nothing is stored, and the next pass over the
    same bytes with the same model asks again. *)
Lemma blank_or_missing_caption_asked_again :
  requested (lr_events
    (_generate_caption_lookup (demo_env true silent)
       (snd (document_groups (demo_env true silent) TWO_IMAGES (lit "h")))
       None false false (Stored [(KEY_OF_A, lit "  ")]))) = [[A_PNG; B_PNG]]
  /\ lr_cache_file
       (_generate_caption_lookup (demo_env true silent)
          (snd (document_groups (demo_env true silent) TWO_IMAGES (lit "h")))
          None false false NoFile) = NoFile
  /\ requested (lr_events
       (_generate_caption_lookup (demo_env true silent)
          (snd (document_groups (demo_env true silent) TWO_IMAGES (lit "h")))
          None false false NoFile)) = [[A_PNG; B_PNG]]
  /\ requested (lr_events
       (_generate_caption_lookup (demo_env true silent)
          (snd (document_groups (demo_env true silent) TWO_IMAGES (lit "h")))
          None false false
          (lr_cache_file
             (_generate_caption_lookup (demo_env true silent)
                (snd (document_groups (demo_env true silent) TWO_IMAGES (lit "h")))
                None false false NoFile)))) = [[A_PNG; B_PNG]].
Proof. vm_compute. repeat split. Qed.

End CacheClaims.
(* ===================================================================== *)
(** * The runner: conversion attempts *)
(* ===================================================================== *)

Module ConvertClaims.

Import Rewriter Runner RunnerSpec Demo DemoRun.
Import PyFacts ConvertFacts.




(** An infinite float as the configured value: [int] overflows, nothing
    catches the error, and no attempt is made. *)
Example infinite_attempts_raise :
  _convert_to_pdf (demo_ext always_fails None (demo_chunker [] []) [] JsonlAbsent)
    (world_of [(lit "/out/originals/a.docx", 5%Z)] 10)
    (lit "/out/originals/a.docx") (lit "/out/converted") true
    [(MAX_ATTEMPTS, PyFloat (FloatInf false))] (lit "a")
  = (Raise (lit "cannot convert float infinity to integer"),
     world_of [(lit "/out/originals/a.docx", 5%Z)] 10).
Proof. vm_compute. reflexivity. Qed.

End ConvertClaims.
(* ===================================================================== *)
(** * The runner: failures and the manifest *)
(* ===================================================================== *)

Module PipelineClaims.

Import Rewriter Runner RunnerSpec Demo DemoRun.
Import PyFacts PipelineFacts.

(** Both failures are in the one error of the run, in the order they were
    collected; the chunk of the third document was written all the same. *)
Example two_chunk_failures_one_error :
  fst (run_conversion_pipeline THREE_PDFS THREE_PDFS_WORLD (demo_config [] true))
  = Raise (lit "Failed to chunk /out/markdown/b_pdf.md: chunker crashed"
           ++ [LF]
           ++ lit "Failed to chunk /out/markdown/a_pdf.md: Chunking produced no output for /out/markdown/a_pdf.md")
  /\ exists_ (snd (run_conversion_pipeline THREE_PDFS THREE_PDFS_WORLD (demo_config [] true)))
       (lit "/out/chunk_markdown/chnk_c_pdf_0000.md") = true.
Proof. vm_compute. split; reflexivity. Qed.

(** A source without extractor fails in preparation; the next source is
    still prepared, and the run raises after the loop. *)
Example preparation_failures_one_error :
  fst (run_conversion_pipeline
         (demo_ext always_fails None (demo_chunker [] [])
            [lit "/in/a.docx"; lit "/in/c.pdf"] JsonlAbsent)
         (world_of [(lit "/in/a.docx", 5%Z); (lit "/in/c.pdf", 5%Z)] 20)
         (demo_config [(MAX_ATTEMPTS, PyInt 1)] true))
  = Raise (lit "Failed to process /in/a.docx: Failed to convert /out/originals/a_docx.docx to PDF after 1 attempt: boom"
           ++ [LF]
           ++ lit "Failed to process /in/c.pdf: opendataloader_pdf not installed; unable to extract markdown. Install the dependency and rerun.").
Proof. vm_compute. reflexivity. Qed.


(** C8.  When no eligible file is found, the run returns at once a
    manifest without chunks whose flag is false.  A manifest that a run
    with chunking returns with a chunk in it has the flag true. *)
Theorem refresh_flag (X : Ext) (w : World) (c : ConversionConfig) :
  (discover X c = []
   <-> forall p, In p (rglob_sorted X (input_dir c)) -> eligible X (input_dir c) p = false)
  /\ (discover X c = [] ->
      run_conversion_pipeline X w c
      = (Ok {| chunks := []; output_dir := cfg_output_dir c; uploads_dir := input_dir c;
               needs_embedding_refresh := false |}, w))
  /\ (forall m,
        fst (run_conversion_pipeline X w c) = Ok m ->
        enable_chunking c = true ->
        chunks m <> [] ->
        needs_embedding_refresh m = true)
  /\ (forall m,
        fst (run_conversion_pipeline X w c) = Ok m ->
        needs_embedding_refresh m
        = match discover X c with [] => false | _ => enable_chunking c end).
Proof.
  assert (Hflag : forall m,
            fst (run_conversion_pipeline X w c) = Ok m ->
            needs_embedding_refresh m
            = match discover X c with [] => false | _ => enable_chunking c end
            /\ (discover X c = [] -> chunks m = [])).
  { intros m Hm. destruct (discover X c) as [|u us] eqn:Ed.
    - unfold run_conversion_pipeline in Hm. rewrite Ed in Hm. cbn [fst] in Hm.
      inversion Hm; subst. split; [reflexivity|]. intros _. reflexivity.
    - split; [|discriminate].
      destruct (prepared_run X w c) as [[r1|msg] w1] eqn:Hp.
      + apply (f_equal fst) in Hp. cbn [fst] in Hp.
        assert (Hd : discover X c <> []) by (rewrite Ed; discriminate).
        destruct (run_outcome X w c r1 Hd Hp) as [Hraise Hok].
        destruct (collected_failures X c r1) as [|f fs] eqn:Ef.
        * destruct (Hok eq_refl) as (m' & Hm' & Hn). rewrite Hm in Hm'.
          inversion Hm'; subst. exact Hn.
        * rewrite Hraise in Hm by discriminate. discriminate.
      + unfold run_conversion_pipeline in Hm. rewrite Ed, Hp in Hm. discriminate. }
  split; [apply discover_nil|].
  split; [intros Hd; unfold run_conversion_pipeline; now rewrite Hd|].
  split.
  - intros m Hm Hc Hne. destruct (Hflag m Hm) as [Hn Hnil]. rewrite Hn.
    destruct (discover X c); [now destruct Hne; apply Hnil|exact Hc].
  - intros m Hm. apply (Hflag m Hm).
Qed.

(** An input root with a hidden file and a text file only: nothing is
    eligible, the manifest is empty and the flag is false. *)
Example nothing_eligible :
  run_conversion_pipeline
    (demo_ext always_fails (Some extracts_one) (demo_chunker [] [])
       [lit "/in/.hidden.pdf"; lit "/in/notes.txt"] JsonlAbsent)
    (world_of [(lit "/in/.hidden.pdf", 5%Z); (lit "/in/notes.txt", 5%Z)] 20)
    (demo_config [] true)
  = (Ok {| chunks := []; output_dir := OUT; uploads_dir := IN;
           needs_embedding_refresh := false |},
     world_of [(lit "/in/.hidden.pdf", 5%Z); (lit "/in/notes.txt", 5%Z)] 20).
Proof. vm_compute. reflexivity. Qed.

End PipelineClaims.
(* ===================================================================== *)
(** * The runner: freshness of the chain *)
(* ===================================================================== *)

Module FreshnessClaims.

Import Rewriter Runner RunnerSpec Demo DemoRun.
Import PyFacts ConvertFacts PipelineFacts FreshFacts.

(** C1 (amended).  With chunking enabled, a source whose recorded chunks
    carry its hash is skipped if and only if the chain is fresh: copy, PDF
    not older than the copy, markdown not older than the PDF, every
    recorded chunk file there and not older than the markdown.  The copy
    is made again before that decision only when it is missing or older
    than the source.  A source that is not skipped is prepared again as a
    whole: the PDF of a PDF source is copied again only when it is missing
    or older than the copy, a missing PDF of another source is converted
    (unless the configured number of attempts is an infinite float, which
    raises), the scratch folder of the extraction is emptied and the
    markdown is extracted again in every case, and, unless the rewriter
    raises while resolving an image, the markdown is written again and the
    document is queued for chunking, where its chunk files are written
    again.  Recorded chunks that do not carry the hash are removed and the
    source is prepared again. *)
Theorem skip_iff_chain_fresh (X : Ext) (c : ConversionConfig) :
  (forall w copied pdf_path markdown existing,
     _should_skip_reprocessing w copied pdf_path markdown existing = true
     <-> existing <> [] /\ chain_fresh w copied pdf_path markdown existing)
  /\ (forall w src ts,
        mtime w src = Some ts ->
        fst (_copy_original X w src (originals_dir c) (hash_of X c src))
        = Ok (copy_of X c src)
        /\ snd (_copy_original X w src (originals_dir c) (hash_of X c src))
           = (match mtime w (copy_of X c src) with
              | Some tg => if (tg <? ts)%Z then copy2 w src (copy_of X c src) else w
              | None => copy2 w src (copy_of X c src)
              end)
        /\ exists t,
             mtime (snd (_copy_original X w src (originals_dir c) (hash_of X c src)))
                   (copy_of X c src) = Some t
             /\ (ts <= t)%Z)
  /\ (forall r src copied w1 existing,
        enable_chunking c = true ->
        _copy_original X (world r) src (originals_dir c) (hash_of X c src) = (Ok copied, w1) ->
        dict_get (existing_chunk_map r) (hash_of X c src) = Some existing ->
        existing <> [] ->
        (_chunks_match_hash existing (hash_of X c src) = true ->
         (chain_fresh w1 copied (pdf_of c (hash_of X c src))
            (markdown_of c (hash_of X c src)) existing ->
          skipped r w1 existing (prepare_one X c r src))
         /\ (~ chain_fresh w1 copied (pdf_of c (hash_of X c src))
                 (markdown_of c (hash_of X c src)) existing ->
             reprocessed X c r src copied w1 (prepare_one X c r src)))
        /\ (_chunks_match_hash existing (hash_of X c src) = false ->
            reprocessed X c r src copied (_remove_chunk_artifacts w1 c existing)
              (prepare_one X c r src)))
  /\ (forall w copied hash tc,
        str_eqb (suffix_lower X copied) PDF_EXTENSION = true ->
        mtime w copied = Some tc ->
        _convert_to_pdf X w copied (converted_dir c) true (extra_options c) hash
        = (Ok (pdf_of c hash),
           match mtime w (pdf_of c hash) with
           | Some tp => if (tp <? tc)%Z then copy2 w copied (pdf_of c hash) else w
           | None => copy2 w copied (pdf_of c hash)
           end))
  /\ (forall w copied hash,
        str_eqb (suffix_lower X copied) PDF_EXTENSION = false ->
        exists_ w (pdf_of c hash) = false ->
        overflows (extra_options c) = false ->
        exists l,
          attempts_of (snd (_convert_to_pdf X w copied (converted_dir c) true
                              (extra_options c) hash))
          = attempts_of w ++ 1 :: l)
  /\ (forall w copied rel hash pdf_path w1 run name rest,
        _convert_to_pdf X w copied (converted_dir c) true (extra_options c) hash
        = (Ok pdf_path, w1) ->
        extractor X = Some run ->
        run pdf_path = Ok (name :: rest) ->
        match rewrite_error (rewriter_env X (pjoin (scratch_dir c hash) name))
                (read_text X (pjoin (scratch_dir c hash) name)) with
        | None =>
            (exists assets,
               fst (_prepare_source_file X w c copied rel hash)
               = Ok {| ps_source_path := copied; ps_markdown_path := markdown_of c hash;
                       ps_media_assets := assets; ps_source_rel := rel;
                       ps_source_hash := hash |})
            /\ done (snd (_prepare_source_file X w c copied rel hash))
               = Wrote (markdown_of c hash) :: Extracted pdf_path
                 :: (if exists_ w1 (scratch_dir c hash)
                     then [RemovedTree (scratch_dir c hash)] else [])
                 ++ done w1
            /\ mtime (snd (_prepare_source_file X w c copied rel hash)) (markdown_of c hash)
               = Some (now w1 + 1 + Z.of_nat (length (name :: rest)))%Z
        | Some msg =>
            fst (_prepare_source_file X w c copied rel hash) = Raise msg
            /\ done (snd (_prepare_source_file X w c copied rel hash))
               = Extracted pdf_path
                 :: (if exists_ w1 (scratch_dir c hash)
                     then [RemovedTree (scratch_dir c hash)] else [])
                 ++ done w1
        end)
  /\ (forall r units u,
        In u units ->
        In (Chunked (ps_markdown_path (snd u)))
           (done (world (chunk_all X c r (handled_units X units)))))
  /\ (forall w prepared records,
        fst (_chunk_prepared_source X w c prepared) = Ok records ->
        records <> []
        /\ done (snd (_chunk_prepared_source X w c prepared))
           = rev (map (fun chunk => Wrote (markdown_path chunk)) records)
             ++ Chunked (ps_markdown_path prepared) :: done w).
Proof.
  split; [intros; apply should_skip_iff|].
  split; [intros w src ts Hs; exact (copy_original_spec X w src (originals_dir c)
                                       (hash_of X c src) ts Hs)|].
  split.
  { intros r src copied w1 existing Hc Hcopy Hget Hne. split.
    - intros Hm. exact (turn_recorded X c r src copied w1 Hc Hcopy existing Hget Hne Hm).
    - intros Hm. exact (turn_diverged X c r src copied w1 Hc Hcopy existing Hget Hm). }
  split.
  { intros w copied hash tc He Hs.
    exact (convert_pdf_source X w copied (converted_dir c) true (extra_options c) hash tc
             He Hs). }
  split.
  { intros w copied hash He Hx Ho.
    exact (convert_missing_pdf X w copied (converted_dir c) (extra_options c) hash
             He Hx Ho). }
  split.
  { intros w copied rel hash pdf_path w1 run name rest Hconv Hx Hr.
    destruct (prepare_after_convert X w c copied rel hash pdf_path w1 Hconv) as [Hw Hf].
    destruct (rewrite_error _ _) as [msg|] eqn:He.
    - destruct (render_rewriter_raises X w1 pdf_path c hash run name rest msg Hx Hr He)
        as (Ha & Hd & _).
      rewrite Hw, Hf, Ha. split; [reflexivity|exact Hd].
    - destruct (render_writes_markdown X w1 pdf_path c hash run name rest Hx Hr He)
        as ((assets & Ha) & Hd & Hm & _).
      rewrite Hw, Hf, Ha. split; [now exists assets|]. split; assumption. }
  split.
  { intros r units u Hin. apply chunk_all_chunks.
    apply (Permutation_in u (Permutation_sym (handled_units_permutation X units)) Hin). }
  intros w prepared records Hok.
  destruct (chunk_prepared_done X w c prepared) as (l & Hl & Hrec).
  rewrite Hl, (Hrec records Hok). split; [|reflexivity].
  intros ->. unfold _chunk_prepared_source in Hok.
  destruct (chunk_markdown X prepared) as [produced|msg]; [|discriminate].
  destruct (write_chunks _ c prepared produced) as [[|x records] w2]; discriminate.
Qed.

(** C1, the claim as written fails.  Copy, PDF and markdown are fresh; the
    one recorded chunk file is older than the markdown.  The first link
    that fails is the chunk, yet the markdown upstream of it is extracted
    and written again: its time goes from 9 to that of the run, 22. *)
Lemma fresh_markdown_written_again :
  mtime (chunked_world 9 8) (lit "/out/originals/c_pdf.pdf") = Some 5%Z
  /\ mtime (chunked_world 9 8) (lit "/out/converted/c_pdf.pdf") = Some 5%Z
  /\ mtime (chunked_world 9 8) (lit "/out/markdown/c_pdf.md") = Some 9%Z
  /\ mtime (chunked_world 9 8) (lit "/out/chunk_markdown/chnk_c_pdf_0000.md") = Some 8%Z
  /\ done (snd (run_conversion_pipeline CHUNKED_BEFORE (chunked_world 9 8)
                  (demo_config [] true)))
     = [Wrote (lit "/out/chunk_markdown/chnk_c_pdf_0000.md");
        Chunked (lit "/out/markdown/c_pdf.md");
        Wrote (lit "/out/markdown/c_pdf.md");
        Extracted (lit "/out/converted/c_pdf.pdf")]
  /\ mtime (snd (run_conversion_pipeline CHUNKED_BEFORE (chunked_world 9 8)
                   (demo_config [] true)))
       (lit "/out/markdown/c_pdf.md") = Some 22%Z.
Proof. vm_compute. repeat split. Qed.

(** The whole chain is fresh: the run writes nothing and its manifest
    holds the recorded chunk. *)
Example fresh_chain_skipped :
  snd (run_conversion_pipeline CHUNKED_BEFORE (chunked_world 6 7) (demo_config [] true))
  = chunked_world 6 7
  /\ option_map (map chunk_id)
       (match fst (run_conversion_pipeline CHUNKED_BEFORE (chunked_world 6 7)
                     (demo_config [] true)) with
        | Ok m => Some (chunks m)
        | Raise _ => None
        end)
     = Some [lit "chnk_c_pdf_0000"].
Proof. vm_compute. split; reflexivity. Qed.

(** A [.docx] whose converted PDF is older than its copy: the PDF is used
    as it is, no conversion is attempted. *)
Example stale_pdf_of_docx_kept :
  _convert_to_pdf (demo_ext always_fails None (demo_chunker [] []) [] JsonlAbsent)
    (world_of [(lit "/out/originals/a.docx", 9%Z); (lit "/out/converted/a.pdf", 7%Z)] 10)
    (lit "/out/originals/a.docx") (lit "/out/converted") true [] (lit "a")
  = (Ok (lit "/out/converted/a.pdf"),
     world_of [(lit "/out/originals/a.docx", 9%Z); (lit "/out/converted/a.pdf", 7%Z)] 10).
Proof. vm_compute. reflexivity. Qed.

End FreshnessClaims.
(* ===================================================================== *)
(** * Lines *)
(* ===================================================================== *)

Module LineFacts.

Import Rewriter MoreSpec PyFacts.

Lemma no_linebreak_app a b :
  no_linebreak (a ++ b) = no_linebreak a && no_linebreak b.
Proof. unfold no_linebreak. apply forallb_app. Qed.

Lemma islinebreak_LF : islinebreak LF = true.
Proof. reflexivity. Qed.

Lemma LF_not_CR : N.eqb LF CR = false.
Proof. reflexivity. Qed.

Lemma splitlines_from_line : forall l cur rest,
  no_linebreak l = true ->
  splitlines_from cur (l ++ LF :: rest) = (cur ++ l) :: splitlines_from [] rest.
Proof.
  induction l as [|c l IH]; intros cur rest H.
  - cbn [app splitlines_from]. rewrite islinebreak_LF, LF_not_CR, app_nil_r. reflexivity.
  - cbn [no_linebreak forallb] in H. apply andb_true_iff in H. destruct H as [Hc Hl].
    apply negb_true_iff in Hc. cbn [app splitlines_from]. rewrite Hc.
    rewrite (IH (cur ++ [c]) rest Hl), <- app_assoc. reflexivity.
Qed.

Lemma splitlines_join : forall ls,
  ls <> [] -> Forall (fun l => no_linebreak l = true) ls ->
  splitlines (join [LF] ls ++ [LF]) = ls.
Proof.
  induction ls as [|l ls IH]; intros Hne Hall; [now destruct Hne|].
  inversion Hall as [|? ? Hl Hrest]; subst. unfold splitlines in *.
  destruct ls as [|l' ls].
  - cbn [join]. rewrite (splitlines_from_line l [] [] Hl). reflexivity.
  - change (join [LF] (l :: l' :: ls)) with (l ++ [LF] ++ join [LF] (l' :: ls)).
    rewrite <- !app_assoc. cbn [app].
    rewrite (splitlines_from_line l [] _ Hl). cbn [app]. f_equal.
    apply IH; [discriminate|exact Hrest].
Qed.

Lemma splitlines_from_no_break_len n : forall s cur,
  length s <= n -> no_linebreak cur = true ->
  Forall (fun l => no_linebreak l = true) (splitlines_from cur s).
Proof.
  induction n as [|n IH]; intros s cur Hlen Hcur.
  - destruct s; [|cbn in Hlen; lia]. cbn. destruct cur; constructor; [exact Hcur|constructor].
  - destruct s as [|c rest].
    + cbn. destruct cur; constructor; [exact Hcur|constructor].
    + cbn [splitlines_from]. cbn [length] in Hlen.
      destruct (islinebreak c) eqn:Hc.
      * constructor; [exact Hcur|].
        destruct (N.eqb c CR).
        -- destruct rest as [|c' rest']; [apply IH; [cbn; lia|reflexivity]|].
           destruct (N.eqb c' LF); apply IH; cbn [length] in *; try lia; reflexivity.
        -- apply IH; [lia|reflexivity].
      * apply IH; [lia|]. rewrite no_linebreak_app, Hcur. cbn. now rewrite Hc.
Qed.

Lemma splitlines_no_break s : Forall (fun l => no_linebreak l = true) (splitlines s).
Proof. apply (splitlines_from_no_break_len (length s)); [lia|reflexivity]. Qed.

Lemma rstrip_prefix s : exists t, s = rstrip s ++ t.
Proof.
  destruct (lstrip_split (rev s)) as (pre & H & _). exists (rev pre).
  unfold rstrip. rewrite <- rev_app_distr, <- H. now rewrite rev_involutive.
Qed.

Lemma rstrip_no_break s : no_linebreak s = true -> no_linebreak (rstrip s) = true.
Proof.
  intros H. destruct (rstrip_prefix s) as (t & Ht). rewrite Ht in H.
  rewrite no_linebreak_app in H. now apply andb_true_iff in H.
Qed.

Lemma rstrip_idem s : rstrip (rstrip s) = rstrip s.
Proof. unfold rstrip. now rewrite rev_involutive, lstrip_idem. Qed.

Lemma normalized_lines text :
  splitlines (_normalize_markdown text) = map rstrip (splitlines text).
Proof.
  unfold _normalize_markdown.
  pose proof (splitlines_no_break text) as Hall.
  destruct (splitlines text) as [|l ls] eqn:E; [reflexivity|].
  apply splitlines_join; [discriminate|].
  rewrite <- E in Hall |- *. clear E.
  induction Hall as [|x xs Hx _ IH]; cbn [map]; constructor; [|exact IH].
  now apply rstrip_no_break.
Qed.

Lemma in_join sep : forall ls (c : char),
  In c (join sep ls) -> In c sep \/ exists l, In l ls /\ In c l.
Proof.
  induction ls as [|l ls IH]; intros c H; [destruct H|].
  destruct ls as [|l' ls].
  - right. exists l. split; [now left|exact H].
  - change (join sep (l :: l' :: ls)) with (l ++ sep ++ join sep (l' :: ls)) in H.
    apply in_app_or in H. destruct H as [H|H]; [right; exists l; split; [now left|exact H]|].
    apply in_app_or in H. destruct H as [H|H]; [now left|].
    destruct (IH c H) as [H'|(x & Hx & Hc)]; [now left|].
    right. exists x. split; [now right|exact Hc].
Qed.

End LineFacts.
(* ===================================================================== *)
(** * The caption rewriter: further properties *)
(* ===================================================================== *)

Module RewriterExtras.

Import Rewriter ScanSpec CaptionSpec MoreSpec Demo.
Import PyFacts ScanFacts SpliceFacts GroupFacts CaptionFacts LookupFacts DedupFacts LineFacts.

(** ** Normalisation *)

Lemma normalize_by_lines text :
  _normalize_markdown text
  = match splitlines text with
    | [] => []
    | ls => join [LF] (map rstrip ls) ++ [LF]
    end.
Proof. unfold _normalize_markdown. now destruct (splitlines text). Qed.

(** X1.  Normalising a text that is already normalised changes nothing. *)
Theorem normalize_markdown_idempotent (text : str) :
  _normalize_markdown (_normalize_markdown text) = _normalize_markdown text.
Proof.
  rewrite (normalize_by_lines (_normalize_markdown text)), normalized_lines.
  rewrite (normalize_by_lines text).
  destruct (splitlines text) as [|l ls]; [reflexivity|].
  cbn [map]. rewrite rstrip_idem. do 2 f_equal.
  rewrite map_map. f_equal. apply map_ext. intros a. apply rstrip_idem.
Qed.

(** X2.  The lines of a normalised text are the lines of the text it was
    made from, each without its trailing whitespace; no line of it ends
    with whitespace, and the line feed is its only line boundary. *)
Theorem normalize_markdown_keeps_lines (text : str) :
  splitlines (_normalize_markdown text) = map rstrip (splitlines text)
  /\ Forall (fun line => rstrip line = line) (splitlines (_normalize_markdown text))
  /\ (forall c, In c (_normalize_markdown text) -> islinebreak c = true -> c = LF).
Proof.
  split; [apply normalized_lines|]. split.
  - rewrite normalized_lines. apply Forall_forall. intros line Hin.
    apply in_map_iff in Hin. destruct Hin as (l & <- & _). apply rstrip_idem.
  - intros c Hin Hbreak. rewrite normalize_by_lines in Hin.
    pose proof (splitlines_no_break text) as Hall.
    destruct (splitlines text) as [|l ls]; [destruct Hin|].
    apply in_app_or in Hin. destruct Hin as [Hin|[Hc|[]]]; [|now symmetry].
    apply in_join in Hin. destruct Hin as [[Hc|[]]|(x & Hx & Hc)]; [now symmetry|].
    apply in_map_iff in Hx. destruct Hx as (y & <- & Hy).
    rewrite Forall_forall in Hall. specialize (Hall y Hy).
    apply rstrip_no_break in Hall. unfold no_linebreak in Hall.
    rewrite forallb_forall in Hall. specialize (Hall c Hc).
    rewrite Hbreak in Hall. discriminate.
Qed.

(** ** Resolving a destination *)

(** X3.  A path that [_resolve_image_path] returns was found: it lies
    under the directory of the markdown file and exists, or it is the
    absolute destination itself and exists, or it is a file that the search
    of the directory tree came up with. *)
Theorem resolved_path_was_found (E : Env) (raw p : str) :
  _resolve_image_path E raw = Some p ->
  (under_root E p = true /\ path_exists E p = true)
  \/ (is_absolute p = true /\ path_exists E p = true)
  \/ (is_file E p = true /\ exists name, In p (rglob E name)).
Proof.
  unfold _resolve_image_path.
  destruct (negb (truthy (unquote E (strip raw)))); [discriminate|].
  match goal with |- context [root_join_resolve E ?c] => set (cleaned := c) end.
  destruct (under_root E (root_join_resolve E cleaned)
            && path_exists E (root_join_resolve E cleaned)) eqn:H1.
  { intros H. inversion H; subst. left. now apply andb_true_iff in H1. }
  destruct (is_absolute (path_of_str cleaned) && path_exists E (path_of_str cleaned)) eqn:H2.
  { intros H. inversion H; subst. right. left. now apply andb_true_iff in H2. }
  intros H. apply find_some in H. destruct H as [Hin Hf].
  right. right. split; [exact Hf|]. now exists (path_name cleaned).
Qed.

Lemma resolved_path_was_found_witness :
  _resolve_image_path (demo_env true silent) (lit "a.png") = Some A_PNG
  /\ ((under_root (demo_env true silent) A_PNG = true
       /\ path_exists (demo_env true silent) A_PNG = true)
      \/ (is_absolute A_PNG = true /\ path_exists (demo_env true silent) A_PNG = true)
      \/ (is_file (demo_env true silent) A_PNG = true
          /\ exists name, In A_PNG (rglob (demo_env true silent) name))).
Proof.
  split; [reflexivity|].
  apply (resolved_path_was_found (demo_env true silent) (lit "a.png") A_PNG). reflexivity.
Defined.

(** ** Asset ids *)

Lemma map_by_place {A B : Type} (f : A -> B) (g : nat -> B) : forall (l : list A) k,
  (forall i b, nth_error l i = Some b -> f b = g (k + i)) ->
  map f l = map g (seq k (length l)).
Proof.
  induction l as [|x l IH]; intros k H; [reflexivity|].
  cbn [map length seq]. f_equal.
  - specialize (H 0 x eq_refl). now rewrite Nat.add_0_r in H.
  - apply IH. intros i b Hi. specialize (H (S i) b Hi).
    now replace (S k + i) with (k + S i) by lia.
Qed.

Lemma group_entries_length E h : forall entries targets lookup,
  length (snd (group_entries E h entries targets lookup)) <= length targets + length entries.
Proof.
  induction entries as [|e rest IH]; intros targets lookup; cbn [group_entries snd length].
  - lia.
  - destruct (dict_get lookup (_make_target_key E (resolved e) (raw_path e))) as [i|].
    + specialize (IH (append_alt targets i (alt e)) lookup).
      destruct (group_entries E h rest (append_alt targets i (alt e)) lookup) as [pl fin].
      cbn [snd] in *. rewrite append_alt_length in IH. lia.
    + match goal with |- context [group_entries E h rest ?t ?l] =>
        specialize (IH t l); destruct (group_entries E h rest t l) as [pl fin] end.
      cbn [snd] in *. rewrite append_alt_length, length_app in IH. cbn [length] in IH. lia.
Qed.

Lemma append_alt_ids : forall targets i a, map id (append_alt targets i a) = map id targets.
Proof.
  induction targets as [|b rest IH]; intros i a; [reflexivity|].
  destruct i as [|i]; cbn [append_alt map]; [reflexivity|]. now rewrite IH.
Qed.

Lemma first_seen_ext : forall names seen seen',
  (forall x, In x seen <-> In x seen') -> first_seen seen names = first_seen seen' names.
Proof.
  induction names as [|x rest IH]; intros seen seen' H; [reflexivity|].
  cbn [first_seen].
  assert (E : existsb (str_eqb x) seen = existsb (str_eqb x) seen').
  { destruct (existsb (str_eqb x) seen) eqn:E1; destruct (existsb (str_eqb x) seen') eqn:E2;
      try reflexivity; exfalso.
    - apply existsb_exists in E1. destruct E1 as (y & Hy & Heq). apply str_eqb_eq in Heq.
      subst y. apply H in Hy.
      assert (existsb (str_eqb x) seen' = true)
        by (apply existsb_exists; exists x; split; [exact Hy|apply str_eqb_refl]).
      congruence.
    - apply existsb_exists in E2. destruct E2 as (y & Hy & Heq). apply str_eqb_eq in Heq.
      subst y. apply H in Hy.
      assert (existsb (str_eqb x) seen = true)
        by (apply existsb_exists; exists x; split; [exact Hy|apply str_eqb_refl]).
      congruence. }
  rewrite E. destruct (existsb (str_eqb x) seen'); [now apply IH|].
  f_equal. apply IH. intros y. cbn [In]. now rewrite H.
Qed.

(** The buckets stand in the order in which their ids are first given
    out. *)
Lemma group_entries_first_seen E h : forall entries targets lookup,
  coherent E h targets lookup ->
  map id (snd (group_entries E h entries targets lookup))
  = map id targets
    ++ first_seen (map id targets)
         (map asset_id (fst (group_entries E h entries targets lookup))).
Proof.
  induction entries as [|e rest IH]; intros targets lookup Hco;
    cbn [group_entries].
  - cbn. now rewrite app_nil_r.
  - destruct (dict_get lookup (_make_target_key E (resolved e) (raw_path e))) as [i|] eqn:Hk.
    + destruct Hco as [H1 H2]. destruct (H2 _ _ Hk) as (b & Hb & Hkey).
      assert (Hco2 : coherent E h (append_alt targets i (alt e)) lookup)
        by (apply coherent_append_alt; now split).
      specialize (IH (append_alt targets i (alt e)) lookup Hco2).
      rewrite (append_alt_same targets i (alt e) b Hb).
      destruct (group_entries E h rest (append_alt targets i (alt e)) lookup) as [pl fin].
      cbn [fst snd map asset_id first_seen] in *. rewrite IH, append_alt_ids.
      assert (Hin : existsb (str_eqb (id (with_alt b (alt e)))) (map id targets) = true).
      { apply existsb_exists. exists (id b). split; [|apply str_eqb_refl].
        apply in_map. eapply nth_error_In; eassumption. }
      now rewrite Hin.
    + pose proof (coherent_new E h targets lookup (resolved e) (raw_path e) Hco Hk) as Hco1.
      set (b := {| id := asset_name h (length targets); b_resolved := resolved e;
                   b_raw_path := raw_path e; alts := [] |}) in *.
      assert (Hco2 : coherent E h (append_alt (targets ++ [b]) (length targets) (alt e))
                       (dict_set lookup (_make_target_key E (resolved e) (raw_path e))
                          (length targets)))
        by (now apply coherent_append_alt).
      specialize (IH _ _ Hco2).
      assert (Hnth : nth_error (targets ++ [b]) (length targets) = Some b).
      { rewrite nth_error_app2 by lia. now rewrite Nat.sub_diag. }
      rewrite (append_alt_same (targets ++ [b]) (length targets) (alt e) b Hnth).
      destruct (group_entries E h rest _ _) as [pl fin].
      cbn [fst snd map asset_id first_seen] in *.
      rewrite IH, append_alt_ids, map_app. cbn [map id with_alt b].
      assert (Hnew : existsb (str_eqb (asset_name h (length targets))) (map id targets) = false).
      { destruct (existsb _ (map id targets)) eqn:Ex; [|reflexivity]. exfalso.
        apply existsb_exists in Ex. destruct Ex as (y & Hy & Heq). apply str_eqb_eq in Heq.
        subst y. apply in_map_iff in Hy. destruct Hy as (b0 & Hid & Hb0).
        apply In_nth_error in Hb0. destruct Hb0 as (k & Hk0).
        destruct Hco as [H1 _]. destruct (H1 _ _ Hk0) as [_ Hname].
        rewrite Hname in Hid. apply asset_name_inj in Hid.
        assert (k < length targets) by (apply nth_error_Some; congruence). lia. }
      rewrite Hnew, <- app_assoc. cbn [app]. f_equal. f_equal.
      apply first_seen_ext. intros x. rewrite in_app_iff. cbn [In]. tauto.
Qed.

(** X4.  The media assets of a document carry the ids [<hash>_img_000],
    [<hash>_img_001], ... in the order in which their targets first appear:
    the ids of the assets, in their order, are the asset ids given to the
    tags, each at the place where it first occurs.  There are no more
    assets than image tags. *)
Theorem asset_ids_are_consecutive (E : Env) (raw hash : str) (vm : option str)
    (dc cc : bool) (file : CacheFile) :
  map ma_id (media_assets (rewrite_markdown_with_captions E raw hash vm dc cc file))
  = map (asset_name hash)
        (seq 0 (length (media_assets
                          (rewrite_markdown_with_captions E raw hash vm dc cc file))))
  /\ map ma_id (media_assets (rewrite_markdown_with_captions E raw hash vm dc cc file))
     = first_seen [] (map asset_id (fst (document_groups E raw hash)))
  /\ map (fun p => span (entry p)) (fst (document_groups E raw hash))
     = map (fun t => (start t, end_ t)) (_find_image_tags raw)
  /\ length (media_assets (rewrite_markdown_with_captions E raw hash vm dc cc file))
     <= length (_find_image_tags raw).
Proof.
  assert (Hids : map ma_id
                   (media_assets (rewrite_markdown_with_captions E raw hash vm dc cc file))
                 = map id (snd (document_groups E raw hash))).
  { rewrite media_assets_captioned, map_map.
    change (map (fun x => ma_id (media_asset_of E x))
              (document_captions E raw hash vm dc cc file))
      with (map (fun x => id (bucket x)) (document_captions E raw hash vm dc cc file)).
    now rewrite <- (map_map bucket id), (captioned_buckets E raw hash vm dc cc file). }
  assert (Hlen : length (media_assets
                           (rewrite_markdown_with_captions E raw hash vm dc cc file))
                 = length (snd (document_groups E raw hash))).
  { rewrite <- (length_map ma_id), Hids. apply length_map. }
  rewrite Hids, Hlen.
  split; [|split; [|split]].
  - destruct (document_grouped E raw hash) as (_ & (lookupF & [H1 _]) & _).
    apply map_by_place. intros i b Hi. destruct (H1 i b Hi) as [_ Hid]. exact Hid.
  - unfold document_groups.
    now rewrite (group_entries_first_seen E hash (document_entries E raw) [] []
                   (coherent_nil E hash)).
  - apply placed_spans.
  - pose proof (group_entries_length E hash (document_entries E raw) [] []) as H.
    unfold document_groups. unfold document_entries in H at 2.
    rewrite length_map in H. exact H.
Qed.

(** ** The span of a tag *)

Lemma recognizes_shape text idx tags :
  recognizes text idx tags ->
  Forall (fun t => exists raw_dest,
            span_text text t
            = [BANG; LBRACKET] ++ alt_text t ++ [RBRACKET; LPAREN] ++ raw_dest ++ [RPAREN]
            /\ destination t = _extract_destination raw_dest
            /\ alt_span (alt_text t) /\ balanced raw_dest) tags.
Proof.
  induction 1 as [| | | |idx st a dest rest d tags Hfirst Hskip Ha Hb Hd Hrec IH];
    try constructor; try assumption.
  exists dest. cbn [alt_text destination]. split; [|split; [|split]]; try assumption.
  - destruct Hfirst as (_ & (pre & post & Htext & Hlen) & _).
    assert (Hst0 : skipn st text = [BANG; LBRACKET] ++ post).
    { rewrite Htext, <- Hlen, skipn_app, skipn_all, Nat.sub_diag. reflexivity. }
    assert (Hpost : skipn (st + 2) text = post).
    { replace (st + 2) with (2 + st) by lia. rewrite <- skipn_skipn, Hst0. reflexivity. }
    assert (Hst : skipn st text
                  = ([BANG; LBRACKET] ++ a ++ [RBRACKET; LPAREN] ++ dest ++ [RPAREN]) ++ rest).
    { rewrite Hst0, <- Hpost, Hskip, <- !app_assoc. reflexivity. }
    unfold span_text. cbn [start end_].
    replace (st + 2 + length a + 2 + length dest + 1)
      with (st + length ([BANG; LBRACKET] ++ a ++ [RBRACKET; LPAREN] ++ dest ++ [RPAREN])).
    + apply (skipn_app_slice st text _ rest Hst).
    + rewrite !length_app. cbn [length]. lia.
  - now apply extract_destination_fun.
Qed.

(** X5.  The span of every recognized tag reads [![], the alt text, [\](],
    a raw destination and [)]; the tag's destination is what
    [_extract_destination] makes of that raw destination. *)
Theorem tag_span_shape (text : str) (t : _ImageTag) :
  In t (_find_image_tags text) ->
  exists raw_dest,
    span_text text t
    = [BANG; LBRACKET] ++ alt_text t ++ [RBRACKET; LPAREN] ++ raw_dest ++ [RPAREN]
    /\ destination t = _extract_destination raw_dest
    /\ alt_span (alt_text t) /\ balanced raw_dest.
Proof.
  intros Hin.
  pose proof (recognizes_shape text 0 _ (find_image_tags_recognizes text)) as H.
  rewrite Forall_forall in H. exact (H t Hin).
Qed.

Lemma tag_span_shape_witness :
  In {| start := 23; end_ := 34; alt_text := lit "c"; destination := lit "d(e)f" |}
     (_find_image_tags SCAN_SAMPLE)
  /\ exists raw_dest,
       span_text SCAN_SAMPLE
         {| start := 23; end_ := 34; alt_text := lit "c"; destination := lit "d(e)f" |}
       = [BANG; LBRACKET] ++ lit "c" ++ [RBRACKET; LPAREN] ++ raw_dest ++ [RPAREN]
       /\ lit "d(e)f" = _extract_destination raw_dest
       /\ alt_span (lit "c") /\ balanced raw_dest.
Proof.
  assert (Hin : In {| start := 23; end_ := 34; alt_text := lit "c";
                      destination := lit "d(e)f" |} (_find_image_tags SCAN_SAMPLE)).
  { vm_compute. right. left. reflexivity. }
  split; [exact Hin|]. exact (tag_span_shape SCAN_SAMPLE _ Hin).
Defined.

End RewriterExtras.
(* ===================================================================== *)
(** * The captioning pass: further properties *)
(* ===================================================================== *)

Module LookupExtras.

Import Rewriter ScanSpec CaptionSpec MoreSpec Demo.
Import PyFacts GroupFacts CaptionFacts LookupFacts DedupFacts.

Lemma uncached_captions_other raw : forall existing acc k,
  ~ In k (map id existing) ->
  dict_get (uncached_captions raw existing acc) k = dict_get acc k.
Proof.
  induction existing as [|t rest IH]; intros acc k Hk; [reflexivity|].
  cbn [uncached_captions]. cbn [map In] in Hk.
  assert (Hrest : ~ In k (map id rest)) by tauto.
  assert (Hid : id t <> k) by tauto.
  destruct (dict_get raw (bucket_path t)) as [text|]; [|now apply IH].
  destruct (truthy text); [|now apply IH].
  rewrite (IH _ k Hrest). now apply dict_get_set_other.
Qed.

Lemma uncached_captions_get raw : forall existing acc t,
  NoDup (map id existing) -> In t existing ->
  dict_get (uncached_captions raw existing acc) (id t)
  = match dict_get raw (bucket_path t) with
    | Some text => if truthy text then Some (strip text) else dict_get acc (id t)
    | None => dict_get acc (id t)
    end.
Proof.
  induction existing as [|x rest IH]; intros acc t Hnd Hin; [destruct Hin|].
  cbn [map] in Hnd. inversion Hnd as [|? ? Hx Hrest]; subst.
  cbn [uncached_captions]. destruct Hin as [->|Hin].
  - destruct (dict_get raw (bucket_path t)) as [text|];
      [|now apply uncached_captions_other].
    destruct (truthy text); [|now apply uncached_captions_other].
    rewrite (uncached_captions_other raw rest _ (id t) Hx). apply dict_get_set_same.
  - assert (Hne : id x <> id t).
    { intros E. apply Hx. rewrite E. now apply in_map. }
    destruct (dict_get raw (bucket_path x)) as [text|]; [|now apply IH].
    destruct (truthy text); [|now apply IH].
    rewrite (IH _ t Hrest Hin). now rewrite (dict_get_set_other _ _ _ _ _ Hne).
Qed.

(** X6.  With the cache disabled and a key at hand, the caption the pass
    holds for a target of the document is the stripped answer of the vision
    service for its file, when the target exists and the answer is not
    empty; any other target gets no caption from the pass. *)
Theorem uncached_captions_exact (E : Env) (raw hash : str) (vm : option str)
    (cc : bool) (file : CacheFile) (t : Bucket) :
  api_key_present E = true ->
  In t (snd (document_groups E raw hash)) ->
  dict_get
    (lr_captions (_generate_caption_lookup E (snd (document_groups E raw hash))
                    vm true cc file)) (id t)
  = if is_existing E t then
      match dict_get
              (service_captions E
                 (map bucket_path
                    (filter (is_existing E) (snd (document_groups E raw hash)))))
              (bucket_path t) with
      | Some text => if truthy text then Some (strip text) else None
      | None => None
      end
    else None.
Proof.
  intros Hkey Hin.
  pose proof (targets_ids_distinct E raw hash) as Hnd.
  set (targets := snd (document_groups E raw hash)) in *.
  destruct (filter (is_existing E) targets) as [|x xs] eqn:Hf.
  - rewrite (lookup_nothing_existing E targets vm true cc file Hf). cbn [lr_captions dict_get].
    destruct (is_existing E t) eqn:Ht; [|reflexivity].
    assert (H : In t (filter (is_existing E) targets)) by (apply filter_In; now split).
    rewrite Hf in H. destruct H.
  - rewrite (lookup_uncached E targets vm cc file) by (rewrite Hf; discriminate).
    rewrite Hkey. cbn [lr_captions]. rewrite <- Hf.
    destruct (is_existing E t) eqn:Ht.
    + rewrite uncached_captions_get.
      * destruct (dict_get _ (bucket_path t)) as [text|]; [|reflexivity].
        now destruct (truthy text).
      * now apply NoDup_map_filter.
      * apply filter_In. now split.
    + rewrite uncached_captions_other; [reflexivity|].
      intros Hid. apply in_map_iff in Hid. destruct Hid as (y & Hy & Hyin).
      apply filter_In in Hyin. destruct Hyin as [Hyin Hye].
      assert (y = t) by (eapply NoDup_map_inj_in; eassumption).
      subst. congruence.
Qed.

Lemma uncached_captions_exact_witness :
  api_key_present (demo_env true describes_a) = true
  /\ In {| id := lit "h_img_000"; b_resolved := Some A_PNG; b_raw_path := lit "a.png";
           alts := [[]] |}
        (snd (document_groups (demo_env true describes_a) MIXED_TAGS (lit "h")))
  /\ dict_get
       (lr_captions
          (_generate_caption_lookup (demo_env true describes_a)
             (snd (document_groups (demo_env true describes_a) MIXED_TAGS (lit "h")))
             None true false NoFile)) (lit "h_img_000")
     = Some (lit "a cat").
Proof.
  assert (Hin : In {| id := lit "h_img_000"; b_resolved := Some A_PNG;
                      b_raw_path := lit "a.png"; alts := [[]] |}
                   (snd (document_groups (demo_env true describes_a) MIXED_TAGS (lit "h")))).
  { vm_compute. left. reflexivity. }
  split; [reflexivity|]. split; [exact Hin|].
  exact (eq_trans
           (uncached_captions_exact (demo_env true describes_a) MIXED_TAGS (lit "h")
              None false NoFile _ eq_refl Hin)
           eq_refl).
Defined.

(** ** Clearing the cache *)

Lemma loaded_cache_cleared E file :
  unlink_succeeds E = true -> loaded_cache E true file = [].
Proof.
  intros Hu. unfold loaded_cache, open_cache.
  destruct file; cbn; rewrite ?Hu; reflexivity.
Qed.

Lemma cache_miss_empty E vm p :
  cache_miss E vm [] p = match read_bytes E p with Some _ => true | None => false end.
Proof. unfold cache_miss. now destruct (read_bytes E p). Qed.

(** X7.  When the cache is to be cleared and its file can be removed, what
    the file held is not used: with a key at hand the pass asks, in one
    request, for every existing target whose file can be read, whether the
    file held a caption for it or not. *)
Theorem cleared_cache_asks_for_all (E : Env) (targets : list Bucket) (vm : option str)
    (file : CacheFile) :
  unlink_succeeds E = true ->
  api_key_present E = true ->
  requested (lr_events (_generate_caption_lookup E targets vm false true file))
  = match map bucket_path (filter (readable E) (filter (is_existing E) targets)) with
    | [] => []
    | paths => [paths]
    end.
Proof.
  intros Hu Hkey.
  assert (Hreq : pass_requests E targets vm true file
                 = map bucket_path (filter (readable E) (filter (is_existing E) targets))).
  { unfold pass_requests, pass_pending. rewrite Hkey, consult_cache_requests.
    rewrite (loaded_cache_cleared E file Hu). cbn [to_request app].
    f_equal; try (apply filter_ext; intros t; apply cache_miss_empty). }
  destruct (filter (is_existing E) targets) as [|x xs] eqn:Hf.
  - rewrite (lookup_nothing_existing E targets vm false true file Hf). reflexivity.
  - rewrite <- Hf in *.
    destruct (pass_requests E targets vm true file) as [|p ps] eqn:Hp.
    + destruct (lookup_cached_quiet E targets vm true file) as (_ & Hr & _);
        [rewrite Hf; discriminate|exact Hp|].
      rewrite Hr, <- Hreq. reflexivity.
    + destruct (lookup_cached_asking E targets vm true file) as (_ & Hr & _);
        [rewrite Hp; discriminate|].
      rewrite Hr, Hp, <- Hreq. reflexivity.
Qed.

Lemma cleared_cache_asks_for_all_witness :
  unlink_succeeds (demo_env true silent) = true
  /\ api_key_present (demo_env true silent) = true
  /\ requested
       (lr_events
          (_generate_caption_lookup (demo_env true silent)
             (snd (document_groups (demo_env true silent) TWO_IMAGES (lit "h")))
             None false true (Stored [(KEY_OF_A, lit "A cat")])))
     = [[A_PNG; B_PNG]].
Proof.
  split; [reflexivity|]. split; [reflexivity|].
  exact (eq_trans
           (cleared_cache_asks_for_all (demo_env true silent)
              (snd (document_groups (demo_env true silent) TWO_IMAGES (lit "h")))
              None (Stored [(KEY_OF_A, lit "A cat")]) eq_refl eq_refl)
           eq_refl).
Defined.

(** ** What is asked for *)

(** X8.  A request to the vision service is never empty, and every path in
    it is the resolved file of a target that exists; with the cache in use
    the bytes of every such file could be read. *)
Theorem requests_name_existing_files (E : Env) (targets : list Bucket)
    (vm : option str) (dc cc : bool) (file : CacheFile) (paths : list Path) :
  In paths (requested (lr_events (_generate_caption_lookup E targets vm dc cc file))) ->
  paths <> []
  /\ forall p, In p paths ->
       (exists t, In t targets /\ b_resolved t = Some p /\ path_exists E p = true)
       /\ (dc = false -> read_bytes E p <> None).
Proof.
  intros Hin.
  assert (Hex : forall p q, In p (map bucket_path (filter q (filter (is_existing E) targets))) ->
                  exists t, In t targets /\ b_resolved t = Some p /\ path_exists E p = true
                            /\ q t = true).
  { intros p q Hp. apply in_map_iff in Hp. destruct Hp as (t & <- & Ht).
    apply filter_In in Ht. destruct Ht as [Ht Hq]. apply filter_In in Ht.
    destruct Ht as [Ht He]. exists t. split; [exact Ht|].
    split; [exact (existing_resolved E t He)|]. split; [|exact Hq].
    unfold is_existing, bucket_path in *. now destruct (b_resolved t). }
  destruct (filter (is_existing E) targets) as [|x xs] eqn:Hf.
  { rewrite (lookup_nothing_existing E targets vm dc cc file Hf) in Hin. destruct Hin. }
  rewrite <- Hf in *.
  destruct dc.
  - rewrite (lookup_uncached E targets vm cc file) in Hin by (rewrite Hf; discriminate).
    destruct (api_key_present E); cbn [lr_events requested] in Hin; [|destruct Hin].
    destruct Hin as [<-|[]]. split; [rewrite Hf; discriminate|].
    intros p Hp. split; [|discriminate].
    rewrite <- (filter_all_true _ (filter (is_existing E) targets)) in Hp.
    destruct (Hex p (fun _ => true) Hp) as (t & H1 & H2 & H3 & _). now exists t.
  - destruct (pass_requests E targets vm cc file) as [|p0 ps] eqn:Hp.
    + destruct (lookup_cached_quiet E targets vm cc file) as (_ & Hr & _);
        [rewrite Hf; discriminate|exact Hp|].
      rewrite Hr in Hin. destruct Hin.
    + destruct (lookup_cached_asking E targets vm cc file) as (_ & Hr & _);
        [rewrite Hp; discriminate|].
      rewrite Hr in Hin. destruct Hin as [<-|[]]. rewrite Hp.
      split; [discriminate|]. intros p Hpin. rewrite <- Hp in Hpin.
      unfold pass_requests, pass_pending in Hpin.
      destruct (api_key_present E); [|destruct Hpin].
      rewrite consult_cache_requests in Hpin. cbn [to_request app] in Hpin.
      destruct (Hex p _ Hpin) as (t & H1 & H2 & H3 & H4).
      split; [now exists t|]. intros _.
      assert (Hp' : bucket_path t = p) by (unfold bucket_path; now rewrite H2).
      rewrite Hp' in H4. unfold cache_miss in H4. now destruct (read_bytes E p).
Qed.

Lemma requests_name_existing_files_witness :
  In [A_PNG; B_PNG]
     (requested
        (lr_events
           (_generate_caption_lookup (demo_env true silent)
              (snd (document_groups (demo_env true silent) MIXED_TAGS (lit "h")))
              None false false NoFile)))
  /\ [A_PNG; B_PNG] <> []
  /\ forall p, In p [A_PNG; B_PNG] ->
       (exists t, In t (snd (document_groups (demo_env true silent) MIXED_TAGS (lit "h")))
                  /\ b_resolved t = Some p /\ path_exists (demo_env true silent) p = true)
       /\ (false = false -> read_bytes (demo_env true silent) p <> None).
Proof.
  assert (Hin : In [A_PNG; B_PNG]
                   (requested
                      (lr_events
                         (_generate_caption_lookup (demo_env true silent)
                            (snd (document_groups (demo_env true silent) MIXED_TAGS (lit "h")))
                            None false false NoFile)))).
  { vm_compute. left. reflexivity. }
  split; [exact Hin|].
  exact (requests_name_existing_files (demo_env true silent)
           (snd (document_groups (demo_env true silent) MIXED_TAGS (lit "h")))
           None false false NoFile [A_PNG; B_PNG] Hin).
Defined.

End LookupExtras.
(* ===================================================================== *)
(** * The runner: discovery of the sources *)
(* ===================================================================== *)

Module DiscoveryExtras.

Import Rewriter Runner RunnerSpec MoreSpec Demo DemoRun.
Import PyFacts.

Lemma existsb_str_eqb k l : existsb (str_eqb k) l = true <-> In k l.
Proof.
  rewrite existsb_exists. split.
  - intros (x & Hin & Heq). apply str_eqb_eq in Heq. now subst.
  - intros Hin. exists k. split; [exact Hin|apply str_eqb_refl].
Qed.

Lemma existsb_str_eqb_false k l : existsb (str_eqb k) l = false <-> ~ In k l.
Proof.
  rewrite <- existsb_str_eqb. destruct (existsb (str_eqb k) l); split; congruence.
Qed.

Lemma subsequence_filter {A : Type} (f : A -> bool) (l : list A) :
  subsequence (filter f l) l.
Proof.
  induction l as [|x l IH]; cbn [filter]; [constructor|].
  destruct (f x); [apply sub_keep|apply sub_skip]; exact IH.
Qed.

Lemma subsequence_trans {A : Type} (a b c : list A) :
  subsequence a b -> subsequence b c -> subsequence a c.
Proof.
  intros Hab Hbc. revert a Hab.
  induction Hbc as [|x l l' _ IH|x l l' _ IH]; intros a Hab.
  - exact Hab.
  - apply sub_skip. now apply IH.
  - inversion Hab; subst.
    + apply sub_skip. now apply IH.
    + apply sub_keep. now apply IH.
Qed.

Section Dedupe.

Variable X : Ext.

Lemma dedupe_in : forall paths seen q,
  In q (dedupe X paths seen) -> In q paths /\ ~ In (resolve X q) seen.
Proof.
  induction paths as [|p rest IH]; intros seen q H; [destruct H|].
  cbn [dedupe] in H. destruct (existsb (str_eqb (resolve X p)) seen) eqn:E.
  - destruct (IH seen q H) as [H1 H2]. split; [now right|exact H2].
  - apply existsb_str_eqb_false in E. destruct H as [->|H].
    + split; [now left|exact E].
    + destruct (IH _ q H) as [H1 H2]. split; [now right|].
      intros Hs. apply H2. now right.
Qed.

Lemma dedupe_distinct : forall paths seen,
  NoDup (map (resolve X) (dedupe X paths seen)).
Proof.
  induction paths as [|p rest IH]; intros seen; cbn [dedupe]; [constructor|].
  destruct (existsb (str_eqb (resolve X p)) seen); [apply IH|].
  cbn [map]. constructor; [|apply IH].
  intros Hin. apply in_map_iff in Hin. destruct Hin as (q & Hq & Hqin).
  destruct (dedupe_in rest (resolve X p :: seen) q Hqin) as [_ Hn].
  apply Hn. left. now symmetry.
Qed.

Lemma dedupe_represents : forall paths seen p,
  In p paths ->
  In (resolve X p) seen
  \/ exists q, In q (dedupe X paths seen) /\ resolve X q = resolve X p.
Proof.
  induction paths as [|x rest IH]; intros seen p Hin; [destruct Hin|].
  cbn [dedupe]. destruct (existsb (str_eqb (resolve X x)) seen) eqn:E.
  - destruct Hin as [->|Hin]; [left; now apply existsb_str_eqb|now apply IH].
  - destruct Hin as [->|Hin]; [right; exists p; split; [now left|reflexivity]|].
    destruct (IH (resolve X x :: seen) p Hin) as [[Hs|Hs]|(q & Hq & Hr)].
    + right. exists x. split; [now left|exact Hs].
    + now left.
    + right. exists q. split; [now right|exact Hr].
Qed.

Lemma dedupe_subsequence : forall paths seen, subsequence (dedupe X paths seen) paths.
Proof.
  induction paths as [|p rest IH]; intros seen; cbn [dedupe]; [constructor|].
  destruct (existsb (str_eqb (resolve X p)) seen); [apply sub_skip|apply sub_keep]; apply IH.
Qed.

Lemma dedupe_fixed : forall paths seen,
  NoDup (map (resolve X) paths) ->
  (forall p, In p paths -> ~ In (resolve X p) seen) ->
  dedupe X paths seen = paths.
Proof.
  induction paths as [|p rest IH]; intros seen Hnd Hs; [reflexivity|].
  cbn [map] in Hnd. inversion Hnd as [|? ? Hp Hrest]; subst.
  cbn [dedupe].
  assert (E : existsb (str_eqb (resolve X p)) seen = false).
  { apply existsb_str_eqb_false. apply Hs. now left. }
  rewrite E. f_equal. apply IH; [exact Hrest|].
  intros q Hq [Hk|Hk].
  - apply Hp. rewrite Hk. now apply in_map.
  - apply (Hs q); [now right|exact Hk].
Qed.

End Dedupe.

(** X9.  The sources a run works on are files of the listing of the input
    directory, in the order of the listing, each of them eligible: a file,
    with no hidden part in its relative path, with a retry-eligible
    extension or [.pdf].  No two of them resolve to the same file, and every
    eligible file of the listing is among them or resolves to the same file
    as one of them. *)
Theorem discovery_sound_and_complete (X : Ext) (c : ConversionConfig) :
  subsequence (discover X c) (rglob_sorted X (input_dir c))
  /\ (forall p, In p (discover X c) ->
        ext_is_file X p = true
        /\ hidden (match relative_to X p (input_dir c) with
                   | Some rel => path_parts X rel
                   | None => path_parts X p
                   end) = false
        /\ (retry_eligible (suffix_lower X p) = true \/ suffix_lower X p = PDF_EXTENSION))
  /\ NoDup (map (resolve X) (discover X c))
  /\ (forall p, In p (rglob_sorted X (input_dir c)) ->
        eligible X (input_dir c) p = true ->
        exists q, In q (discover X c) /\ resolve X q = resolve X p).
Proof.
  unfold discover, _deduplicate_paths, _iter_source_files.
  split; [|split; [|split]].
  - eapply subsequence_trans; [apply dedupe_subsequence|apply subsequence_filter].
  - intros p Hin. apply dedupe_in in Hin. destruct Hin as [Hin _].
    apply filter_In in Hin. destruct Hin as [_ He]. unfold eligible in He.
    apply andb_true_iff in He. destruct He as [He Hext].
    apply andb_true_iff in He. destruct He as [Hfile Hhid].
    split; [exact Hfile|]. split; [now apply negb_true_iff|].
    apply orb_true_iff in Hext. destruct Hext as [H|H]; [now left|].
    right. now apply str_eqb_eq.
  - apply dedupe_distinct.
  - intros p Hin He.
    destruct (dedupe_represents X (filter (eligible X (input_dir c))
                                     (rglob_sorted X (input_dir c))) [] p)
      as [[]|H]; [|exact H].
    apply filter_In. now split.
Qed.

(** X10.  Removing duplicates keeps the first path of a list, changes
    nothing in a list whose paths resolve to different files, and so
    changes nothing when it is done a second time. *)
Theorem deduplicate_paths_idempotent (X : Ext) (paths : list Path) :
  _deduplicate_paths X (_deduplicate_paths X paths) = _deduplicate_paths X paths
  /\ (NoDup (map (resolve X) paths) -> _deduplicate_paths X paths = paths)
  /\ hd_error (_deduplicate_paths X paths) = hd_error paths.
Proof.
  unfold _deduplicate_paths. split; [|split].
  - apply dedupe_fixed; [apply dedupe_distinct|]. intros p _ [].
  - intros Hnd. apply dedupe_fixed; [exact Hnd|]. intros p _ [].
  - destruct paths; reflexivity.
Qed.

(** A listing with a hidden file, an unsupported one, and the same file
    under two names. *)
Example discovery_example :
  discover
    {| rglob_sorted := fun _ => [lit "/in/.git/x.pdf"; lit "/in/a.docx"; lit "/in/b.txt";
                                 lit "/in/link.docx"; lit "/in/z.pdf"];
       ext_is_file := fun _ => true;
       relative_to := demo_relative;
       path_parts := path_components;
       suffix_lower := path_suffix;
       resolve := fun p => if str_eqb p (lit "/in/link.docx") then lit "/in/a.docx" else p;
       relpath_hash := demo_hash;
       int_of_text := ascii_int;
       converter := always_fails;
       extractor := None;
       read_text := fun _ => [];
       rewriter_env := fun _ => empty_env;
       chunk_markdown := demo_chunker [] [];
       cpu_count := None;
       completion := [];
       chunks_jsonl := JsonlAbsent |}
    (demo_config [] true)
  = [lit "/in/a.docx"; lit "/in/z.pdf"].
Proof. vm_compute. reflexivity. Qed.

End DiscoveryExtras.
(* ===================================================================== *)
(** * The runner: copies, freshness, removal, conversion *)
(* ===================================================================== *)

Module ArtifactExtras.

Import Rewriter Runner RunnerSpec MoreSpec Demo DemoRun.
Import PyFacts ConvertFacts FreshFacts.

(** ** The copy of an original *)

(** X11.  [_copy_original] raises and changes nothing when the source is
    missing.  Otherwise it changes no file but the copy, leaves the clock
    and the caption cache alone, and a second call right after the first
    does nothing more. *)
Theorem copy_original_frame (X : Ext) (w : World) (source originals : Path) (hash : str) :
  (mtime w source = None ->
   _copy_original X w source originals hash = (Raise NOT_FOUND, w))
  /\ (forall q, q <> pjoin originals (hash ++ suffix_lower X source) ->
        mtime (snd (_copy_original X w source originals hash)) q = mtime w q)
  /\ now (snd (_copy_original X w source originals hash)) = now w
  /\ caption_cache (snd (_copy_original X w source originals hash)) = caption_cache w
  /\ _copy_original X (snd (_copy_original X w source originals hash)) source originals hash
     = (fst (_copy_original X w source originals hash),
        snd (_copy_original X w source originals hash)).
Proof.
  set (target := pjoin originals (hash ++ suffix_lower X source)).
  assert (Hcopied : forall ts, mtime w source = Some ts ->
            _copy_original X (copy2 w source target) source originals hash
            = (Ok target, copy2 w source target)).
  { intros ts Hs. unfold _copy_original. fold target.
    assert (Ht : mtime (copy2 w source target) target = Some ts).
    { unfold copy2, record. cbn [mtime]. now rewrite set_mtime_same. }
    assert (Hs' : mtime (copy2 w source target) source = Some ts).
    { unfold copy2, record. cbn [mtime]. unfold set_mtime. cbn [mtime].
      destruct (str_eqb source target); [exact Hs|exact Hs]. }
    rewrite Hs', Ht. unfold older. now rewrite Z.ltb_irrefl. }
  unfold _copy_original. fold target.
  destruct (mtime w source) as [ts|] eqn:Hs.
  2:{ split; [reflexivity|]. cbn [fst snd]. rewrite Hs. repeat split; reflexivity. }
  split; [discriminate|].
  destruct (mtime w target) as [tg|] eqn:Ht.
  - unfold older. destruct (tg <? ts)%Z eqn:Hlt; cbn [fst snd].
    + split; [intros q Hq; unfold copy2, record; cbn [mtime]; now apply set_mtime_other|].
      split; [reflexivity|]. split; [reflexivity|].
      exact (Hcopied ts eq_refl).
    + split; [reflexivity|]. split; [reflexivity|]. split; [reflexivity|].
      rewrite Hs, Ht. unfold older. now rewrite Hlt.
  - cbn [fst snd].
    split; [intros q Hq; unfold copy2, record; cbn [mtime]; now apply set_mtime_other|].
    split; [reflexivity|]. split; [reflexivity|].
    exact (Hcopied ts eq_refl).
Qed.

(** ** Freshness without chunks *)

Lemma artifacts_iff w source pdf_path markdown :
  _artifacts_up_to_date w source pdf_path markdown = true
  <-> exists ts tp tm,
        mtime w source = Some ts /\ mtime w pdf_path = Some tp
        /\ mtime w markdown = Some tm /\ (ts <= tp)%Z /\ (tp <= tm)%Z.
Proof.
  unfold _artifacts_up_to_date, older.
  destruct (mtime w source) as [ts|].
  2:{ split; [discriminate|]. intros (a & b & d & H & _). discriminate. }
  destruct (mtime w pdf_path) as [tp|].
  2:{ split; [discriminate|]. intros (a & b & d & _ & H & _). discriminate. }
  destruct (tp <? ts)%Z eqn:Hp.
  { split; [discriminate|]. intros (a & b & d & Ha & Hb & _ & Hle & _).
    inversion Ha; inversion Hb; subst. apply Z.ltb_lt in Hp. lia. }
  destruct (mtime w markdown) as [tm|].
  2:{ split; [discriminate|]. intros (a & b & d & _ & _ & H & _). discriminate. }
  apply Z.ltb_ge in Hp. split.
  - intros H. apply negb_true_iff, Z.ltb_ge in H. exists ts, tp, tm.
    repeat split; assumption.
  - intros (a & b & d & _ & Hb & Hd & _ & Hle). inversion Hb; inversion Hd; subst.
    apply negb_true_iff, Z.ltb_ge. exact Hle.
Qed.

(** X12.  [_artifacts_up_to_date], the test used when chunking is off,
    holds exactly when source, PDF and markdown exist with times that do
    not go down along the chain.  The test used when chunking is on asks
    for the same and more: it holds exactly when there are recorded chunks,
    [_artifacts_up_to_date] holds, and every recorded chunk file exists and
    is not older than the markdown. *)
Theorem artifacts_up_to_date_iff (w : World) (source pdf_path markdown : Path) :
  (_artifacts_up_to_date w source pdf_path markdown = true
   <-> exists ts tp tm,
         mtime w source = Some ts /\ mtime w pdf_path = Some tp
         /\ mtime w markdown = Some tm /\ (ts <= tp)%Z /\ (tp <= tm)%Z)
  /\ (forall chunks,
        _should_skip_reprocessing w source pdf_path markdown chunks = true
        <-> chunks <> []
            /\ _artifacts_up_to_date w source pdf_path markdown = true
            /\ Forall (fun chunk =>
                         exists t tm, mtime w (markdown_path chunk) = Some t
                                      /\ mtime w markdown = Some tm /\ (tm <= t)%Z)
                      chunks).
Proof.
  split; [apply artifacts_iff|].
  intros chunks. rewrite should_skip_iff, artifacts_iff. unfold chain_fresh. split.
  - intros (Hne & tc & tp & tm & H1 & H2 & H3 & H4 & H5 & H6).
    split; [exact Hne|]. split; [exists tc, tp, tm; repeat split; assumption|].
    eapply Forall_impl; [|exact H6]. intros ch (t & Ht & Hle). now exists t, tm.
  - intros (Hne & (tc & tp & tm & H1 & H2 & H3 & H4 & H5) & H6).
    split; [exact Hne|]. exists tc, tp, tm. repeat split; try assumption.
    eapply Forall_impl; [|exact H6]. intros ch (t & tm' & Ht & Hm & Hle).
    rewrite H3 in Hm. inversion Hm; subst. now exists t.
Qed.

(** ** Removing chunk artefacts *)

Lemma mtime_unlink w p q :
  mtime (unlink w p) q = if str_eqb q p then None else mtime w q.
Proof. reflexivity. Qed.

Lemma remove_chunk_artifacts_mtime c : forall records w q,
  mtime (_remove_chunk_artifacts w c records) q
  = if removed_by c records q then None else mtime w q.
Proof.
  induction records as [|chunk rest IH]; intros w q; [reflexivity|].
  cbn [_remove_chunk_artifacts removed_by existsb]. rewrite IH.
  fold (removed_by c rest q). destruct (removed_by c rest q).
  - now rewrite orb_true_r.
  - rewrite orb_false_r, !mtime_unlink.
    destruct (str_eqb q (pjoin (texts_dir c) (chunk_id chunk ++ lit ".md")));
      [now rewrite orb_true_r|].
    rewrite orb_false_r. reflexivity.
Qed.

Lemma remove_chunk_artifacts_now c : forall records w,
  now (_remove_chunk_artifacts w c records) = now w
  /\ caption_cache (_remove_chunk_artifacts w c records) = caption_cache w.
Proof.
  induction records as [|chunk rest IH]; intros w; [split; reflexivity|].
  cbn [_remove_chunk_artifacts]. destruct (IH (unlink (unlink w (markdown_path chunk))
    (pjoin (texts_dir c) (chunk_id chunk ++ lit ".md")))) as [-> ->]. split; reflexivity.
Qed.

(** X13.  In a file system where no removal fails, after
    [_remove_chunk_artifacts] neither the chunk file nor the chunk text of
    any of the given records exists.  No file is created, no other file is
    changed, and the clock and the caption cache stay as they were. *)
Theorem remove_chunk_artifacts_removes (w : World) (c : ConversionConfig)
    (chunks : list ChunkRecord) :
  Forall (fun chunk =>
            exists_ (_remove_chunk_artifacts w c chunks) (markdown_path chunk) = false
            /\ exists_ (_remove_chunk_artifacts w c chunks)
                 (pjoin (texts_dir c) (chunk_id chunk ++ lit ".md")) = false) chunks
  /\ (forall q, exists_ w q = false -> exists_ (_remove_chunk_artifacts w c chunks) q = false)
  /\ (forall q,
        (forall chunk, In chunk chunks ->
           q <> markdown_path chunk
           /\ q <> pjoin (texts_dir c) (chunk_id chunk ++ lit ".md")) ->
        mtime (_remove_chunk_artifacts w c chunks) q = mtime w q)
  /\ now (_remove_chunk_artifacts w c chunks) = now w
  /\ caption_cache (_remove_chunk_artifacts w c chunks) = caption_cache w.
Proof.
  split; [|split; [|split]].
  - apply Forall_forall. intros chunk Hin. unfold exists_.
    rewrite !remove_chunk_artifacts_mtime.
    assert (H1 : removed_by c chunks (markdown_path chunk) = true).
    { apply existsb_exists. exists chunk. split; [exact Hin|].
      now rewrite str_eqb_refl. }
    assert (H2 : removed_by c chunks (pjoin (texts_dir c) (chunk_id chunk ++ lit ".md")) = true).
    { apply existsb_exists. exists chunk. split; [exact Hin|].
      rewrite str_eqb_refl. apply orb_true_r. }
    rewrite H1, H2. split; reflexivity.
  - intros q Hq. unfold exists_ in *. rewrite remove_chunk_artifacts_mtime.
    destruct (removed_by c chunks q); [reflexivity|exact Hq].
  - intros q Hq. rewrite remove_chunk_artifacts_mtime.
    destruct (removed_by c chunks q) eqn:E; [|reflexivity].
    apply existsb_exists in E. destruct E as (chunk & Hin & Heq).
    destruct (Hq chunk Hin) as [H1 H2].
    apply orb_true_iff in Heq. destruct Heq as [Heq|Heq]; apply str_eqb_eq in Heq;
      contradiction.
  - apply remove_chunk_artifacts_now.
Qed.

(** ** A conversion that succeeds *)

Lemma loop_success X source pdf_path : forall remaining attempt w last p w' last',
  conversion_loop X remaining attempt w source pdf_path last = (Ok p, w', last') ->
  p = pdf_path /\ exists_ w' pdf_path = true.
Proof.
  induction remaining as [|remaining IH]; intros attempt w last p w' last' H;
    cbn [conversion_loop] in H; [discriminate|].
  destruct (converter X source attempt) as [produced|msg partial].
  - inversion H; subst. split; [reflexivity|apply exists_after_success].
  - exact (IH _ _ _ _ _ _ H).
Qed.

(** X14.  Whenever [_convert_to_pdf] returns, what it returns is the path
    [<converted>/<hash>.pdf], and a file is there; a converter that reports
    success is taken to have written the file it names. *)
Theorem convert_success_leaves_pdf (X : Ext) (w : World) (source converted : Path)
    (given : bool) (options : dict PyVal) (hash : str) (p : Path) :
  fst (_convert_to_pdf X w source converted given options hash) = Ok p ->
  p = pjoin converted (hash ++ lit ".pdf")
  /\ exists_ (snd (_convert_to_pdf X w source converted given options hash))
       (pjoin converted (hash ++ lit ".pdf")) = true.
Proof.
  unfold _convert_to_pdf.
  set (pdf_path := pjoin converted (hash ++ lit ".pdf")).
  destruct (str_eqb (suffix_lower X source) PDF_EXTENSION).
  - destruct (mtime w source) as [ts|] eqn:Hs; [|discriminate].
    destruct (mtime w pdf_path) as [tp|] eqn:Hp.
    + destruct (older tp ts); cbn [fst snd]; intros H; inversion H; subst.
      * split; [reflexivity|]. unfold exists_, copy2, record. cbn [mtime].
        now rewrite set_mtime_same, Hs.
      * split; [reflexivity|]. unfold exists_. now rewrite Hp.
    + cbn [fst snd]. intros H. inversion H; subst. split; [reflexivity|].
      unfold exists_, copy2, record. cbn [mtime]. now rewrite set_mtime_same, Hs.
  - destruct (exists_ w pdf_path) eqn:Hex.
    { cbn [fst snd]. intros H. inversion H; subst. now split. }
    destruct (negb given); [discriminate|].
    destruct (attempt_ceiling X options (suffix_lower X source)) as [[attempts warned]|m0];
      [|discriminate].
    destruct (conversion_loop X (Z.to_nat attempts) 1 (fold_left record warned w) source
                pdf_path None) as [[[p'|m] w'] last] eqn:Hloop; [|discriminate].
    cbn [fst snd]. intros H. inversion H; subst.
    exact (loop_success X source pdf_path _ _ _ _ _ _ _ Hloop).
Qed.

Lemma convert_success_leaves_pdf_witness :
  fst (_convert_to_pdf
         (demo_ext (fails_twice (lit "/tmp/a.pdf")) None (demo_chunker [] []) [] JsonlAbsent)
         (world_of [(lit "/out/originals/a.docx", 5%Z)] 10)
         (lit "/out/originals/a.docx") (lit "/out/converted") true [] (lit "a"))
  = Ok (lit "/out/converted/a.pdf")
  /\ lit "/out/converted/a.pdf" = pjoin (lit "/out/converted") (lit "a" ++ lit ".pdf")
  /\ exists_
       (snd (_convert_to_pdf
               (demo_ext (fails_twice (lit "/tmp/a.pdf")) None (demo_chunker [] []) []
                  JsonlAbsent)
               (world_of [(lit "/out/originals/a.docx", 5%Z)] 10)
               (lit "/out/originals/a.docx") (lit "/out/converted") true [] (lit "a")))
       (pjoin (lit "/out/converted") (lit "a" ++ lit ".pdf")) = true.
Proof.
  split; [vm_compute; reflexivity|].
  apply (convert_success_leaves_pdf
           (demo_ext (fails_twice (lit "/tmp/a.pdf")) None (demo_chunker [] []) [] JsonlAbsent)
           (world_of [(lit "/out/originals/a.docx", 5%Z)] 10)
           (lit "/out/originals/a.docx") (lit "/out/converted") true [] (lit "a")).
  vm_compute. reflexivity.
Defined.

(** ** An extraction that fails *)

(** X15.  When [_render_markdown_and_assets] raises, no file outside the
    scratch folder of the document has been written or changed, and the
    caption cache is as it was; nothing has been done but to empty the
    scratch folder and to run the extractor, which is taken to write into
    that folder only.  The message is the one of the missing extractor, the
    one the extractor raised, the one that says that the extraction left no
    markdown file, or the one the rewriter raised while it resolved the
    destination of an image. *)
Theorem render_failure_writes_nothing (X : Ext) (w : World) (pdf_path : Path)
    (c : ConversionConfig) (hash msg : str) :
  fst (_render_markdown_and_assets X w pdf_path c hash) = Raise msg ->
  (forall q, under (scratch_dir c hash) q = false ->
     mtime (snd (_render_markdown_and_assets X w pdf_path c hash)) q = mtime w q)
  /\ caption_cache (snd (_render_markdown_and_assets X w pdf_path c hash)) = caption_cache w
  /\ (done (snd (_render_markdown_and_assets X w pdf_path c hash)) = done w
      \/ done (snd (_render_markdown_and_assets X w pdf_path c hash))
         = Extracted pdf_path
           :: (if exists_ w (scratch_dir c hash)
               then [RemovedTree (scratch_dir c hash)] else [])
           ++ done w)
  /\ ((extractor X = None /\ msg = MSG_NO_EXTRACTOR
       /\ snd (_render_markdown_and_assets X w pdf_path c hash) = w)
      \/ exists run,
           extractor X = Some run
           /\ (run pdf_path = Raise msg
               \/ (run pdf_path = Ok [] /\ msg = no_markdown_message pdf_path)
               \/ exists name rest,
                    run pdf_path = Ok (name :: rest)
                    /\ rewrite_error (rewriter_env X (pjoin (scratch_dir c hash) name))
                         (read_text X (pjoin (scratch_dir c hash) name)) = Some msg)).
Proof.
  destruct (extractor X) as [run|] eqn:Hx.
  2:{ unfold _render_markdown_and_assets. rewrite Hx. cbn [fst snd].
      intros H. inversion H; subst.
      split; [reflexivity|]. split; [reflexivity|]. split; [now left|]. left.
      repeat split. }
  destruct (run pdf_path) as [names|m] eqn:Hr.
  - rewrite (render_eq X w pdf_path c hash run names Hx Hr). cbv zeta.
    destruct (scratch_frame w (scratch_dir c hash) pdf_path names) as (Hm & _ & Hc & Hd).
    destruct names as [|name rest].
    + cbn [fst snd]. intros H. inversion H; subst.
      split; [exact Hm|]. split; [exact Hc|]. split; [right; exact Hd|].
      right. exists run. split; [reflexivity|]. right. left. now split.
    + destruct (rewrite_error _ _) as [m|] eqn:He; cbn [fst snd]; intros H;
        inversion H; subst.
      split; [exact Hm|]. split; [exact Hc|]. split; [right; exact Hd|].
      right. exists run. split; [reflexivity|]. right. right.
      exists name, rest. now split.
  - unfold _render_markdown_and_assets. rewrite Hx, Hr. cbn [fst snd].
    intros H. inversion H; subst.
    destruct (fresh_scratch_frame w (scratch_dir c hash)) as (Fm & _ & Fc & Fd & _).
    split; [intros q Hq; cbn [record mtime]; now apply Fm|].
    split; [exact Fc|].
    split; [right; cbn [record done]; now rewrite Fd|].
    right. exists run. split; [reflexivity|]. now left.
Qed.

Lemma render_failure_writes_nothing_witness :
  fst (_render_markdown_and_assets
         (demo_ext always_fails (Some (fun _ => Ok [])) (demo_chunker [] []) [] JsonlAbsent)
         (world_of [(lit "/out/converted/a.pdf", 5%Z);
                    (lit "/out/markdown/a_opendata/old.md", 3%Z);
                    (lit "/out/markdown/a_opendata", 3%Z)] 10)
         (lit "/out/converted/a.pdf") (demo_config [] true) (lit "a"))
  = Raise (no_markdown_message (lit "/out/converted/a.pdf"))
  /\ mtime
       (snd (_render_markdown_and_assets
               (demo_ext always_fails (Some (fun _ => Ok [])) (demo_chunker [] []) []
                  JsonlAbsent)
               (world_of [(lit "/out/converted/a.pdf", 5%Z);
                          (lit "/out/markdown/a_opendata/old.md", 3%Z);
                          (lit "/out/markdown/a_opendata", 3%Z)] 10)
               (lit "/out/converted/a.pdf") (demo_config [] true) (lit "a")))
       (lit "/out/converted/a.pdf")
     = Some 5%Z
  /\ mtime
       (snd (_render_markdown_and_assets
               (demo_ext always_fails (Some (fun _ => Ok [])) (demo_chunker [] []) []
                  JsonlAbsent)
               (world_of [(lit "/out/converted/a.pdf", 5%Z);
                          (lit "/out/markdown/a_opendata/old.md", 3%Z);
                          (lit "/out/markdown/a_opendata", 3%Z)] 10)
               (lit "/out/converted/a.pdf") (demo_config [] true) (lit "a")))
       (lit "/out/markdown/a_opendata/old.md")
     = None.
Proof.
  split; [reflexivity|]. split; [|reflexivity].
  exact (proj1 (render_failure_writes_nothing
                  (demo_ext always_fails (Some (fun _ => Ok [])) (demo_chunker [] []) []
                     JsonlAbsent)
                  (world_of [(lit "/out/converted/a.pdf", 5%Z);
                             (lit "/out/markdown/a_opendata/old.md", 3%Z);
                             (lit "/out/markdown/a_opendata", 3%Z)] 10)
                  (lit "/out/converted/a.pdf") (demo_config [] true) (lit "a")
                  (no_markdown_message (lit "/out/converted/a.pdf")) eq_refl)
               (lit "/out/converted/a.pdf") eq_refl).
Defined.

End ArtifactExtras.
(* ===================================================================== *)
(** * The runner: recorded chunks, new chunks, the manifest *)
(* ===================================================================== *)

Module ChunkExtras.

Import Rewriter Runner RunnerSpec MoreSpec Demo DemoRun.
Import PyFacts ScanFacts PipelineFacts DiscoveryExtras.


(** ** Loading the recorded chunks *)


Section Loading.

Variable X : Ext.
Variable w : World.
Variable c : ConversionConfig.






End Loading.





(** ** New chunks *)

Lemma setdefault_get m k v k' :
  dict_get (setdefault m k v) k'
  = match dict_get m k' with
    | Some x => Some x
    | None => if str_eqb k' k then Some v else None
    end.
Proof.
  unfold setdefault. destruct (dict_get m k) as [x|] eqn:E.
  - destruct (dict_get m k') as [y|] eqn:E'; [reflexivity|].
    destruct (str_eqb k' k) eqn:Ek; [|reflexivity].
    apply str_eqb_eq in Ek. subst. congruence.
  - rewrite dict_get_set. destruct (str_eqb k k') eqn:Ek.
    + apply str_eqb_eq in Ek. subst. now rewrite E, str_eqb_refl.
    + destruct (dict_get m k'); [reflexivity|].
      destruct (str_eqb k' k) eqn:Ek'; [|reflexivity].
      apply str_eqb_eq in Ek'. subst. now rewrite str_eqb_refl in Ek.
Qed.

Lemma write_chunks_shape c p : forall produced w,
  Forall2 (fun record x =>
             chunk_id record = lit "chnk_" ++ fst (fst x)
             /\ markdown_path record = pjoin (chunks_dir c) (chunk_id record ++ lit ".md")
             /\ source_path record = ps_source_path p
             /\ forall k, dict_get (metadata record) k = metadata_with_defaults p (snd x) k)
          (fst (write_chunks w c p produced)) produced.
Proof.
  induction produced as [|[[suffix text] meta] rest IH]; intros w; [constructor|].
  cbn [write_chunks].
  match goal with |- context [write_chunks ?w1 c p rest] =>
    specialize (IH w1); destruct (write_chunks w1 c p rest) as [records w2] end.
  cbn [fst snd] in *. constructor; [|exact IH].
  cbn [chunk_id markdown_path source_path metadata fst snd].
  repeat split. intros k. rewrite !setdefault_get. unfold metadata_with_defaults.
  destruct (dict_get meta k); [reflexivity|].
  destruct (str_eqb k (lit "source_rel")); reflexivity.
Qed.

(** X18.  When the chunker gives chunks, [_chunk_prepared_source] returns
    one record for each, in their order: the id is [chnk_] and the chunk's
    suffix, the file is [<id>.md] in the chunk directory, the source path is
    the one of the prepared document, and the metadata are what the chunker
    gave, with the relative path and the hash of the source filled in only
    where the chunker gave no value. *)
Theorem chunk_records_follow_chunks (X : Ext) (w : World) (c : ConversionConfig)
    (p : PreparedSource) (produced : list (str * str * dict MetaVal)) :
  chunk_markdown X p = Ok produced ->
  produced <> [] ->
  exists records,
    fst (_chunk_prepared_source X w c p) = Ok records
    /\ Forall2 (fun record x =>
                  chunk_id record = lit "chnk_" ++ fst (fst x)
                  /\ markdown_path record
                     = pjoin (chunks_dir c) (chunk_id record ++ lit ".md")
                  /\ source_path record = ps_source_path p
                  /\ forall k, dict_get (metadata record) k
                               = metadata_with_defaults p (snd x) k)
               records produced.
Proof.
  intros Hc Hne. unfold _chunk_prepared_source. rewrite Hc.
  pose proof (write_chunks_shape c p produced (record w (Chunked (ps_markdown_path p)))) as H.
  destruct (write_chunks _ c p produced) as [records w2]. cbn [fst] in H.
  destruct records as [|r records].
  - inversion H; subst. now destruct Hne.
  - exists (r :: records). split; [reflexivity|exact H].
Qed.

Lemma chunk_records_follow_chunks_witness :
  exists records,
    fst (_chunk_prepared_source CHUNKED_BEFORE (chunked_world 6 7) (demo_config [] true)
           PREPARED_C) = Ok records
    /\ Forall2 (fun record x =>
                  chunk_id record = lit "chnk_" ++ fst (fst x)
                  /\ markdown_path record
                     = pjoin (chunks_dir (demo_config [] true)) (chunk_id record ++ lit ".md")
                  /\ source_path record = ps_source_path PREPARED_C
                  /\ forall k, dict_get (metadata record) k
                               = metadata_with_defaults PREPARED_C (snd x) k)
               records [(lit "c_pdf_0000", lit "chunk text", [])].
Proof.
  apply (chunk_records_follow_chunks CHUNKED_BEFORE (chunked_world 6 7) (demo_config [] true)
           PREPARED_C [(lit "c_pdf_0000", lit "chunk text", [])]).
  - reflexivity.
  - discriminate.
Defined.

Lemma startswith_same_prefix a : forall b s,
  startswith (a ++ b) (a ++ s) = startswith b s.
Proof.
  induction a as [|x a IH]; intros b s; [reflexivity|].
  cbn [app startswith]. rewrite N.eqb_refl. apply IH.
Qed.

(** X19.  When every suffix the chunker gives starts with the hash of the
    source and an underscore, the records that [_chunk_prepared_source]
    returns are accepted by [_chunks_match_hash] for that hash. *)
Theorem new_chunks_match_hash (X : Ext) (w : World) (c : ConversionConfig)
    (p : PreparedSource) (records : list ChunkRecord) :
  (forall produced, chunk_markdown X p = Ok produced ->
     Forall (fun x => startswith (ps_source_hash p ++ lit "_") (fst (fst x)) = true)
            produced) ->
  fst (_chunk_prepared_source X w c p) = Ok records ->
  _chunks_match_hash records (ps_source_hash p) = true.
Proof.
  intros Hpre Hok. unfold _chunk_prepared_source in Hok.
  destruct (chunk_markdown X p) as [produced|msg] eqn:Hc; [|discriminate].
  specialize (Hpre produced eq_refl).
  pose proof (write_chunks_shape c p produced (record w (Chunked (ps_markdown_path p)))) as H.
  destruct (write_chunks _ c p produced) as [rs w2]. cbn [fst] in H.
  assert (rs = records) by (destruct rs; [discriminate|now inversion Hok]). subst rs.
  clear Hok Hc. unfold _chunks_match_hash.
  induction H as [|r x rs xs (Hid & _) _ IH]; [reflexivity|].
  inversion Hpre as [|? ? Hx Hxs]; subst. cbn [forallb].
  rewrite (IH Hxs), andb_true_r, Hid.
  rewrite (startswith_same_prefix (lit "chnk_")). exact Hx.
Qed.

Lemma new_chunks_match_hash_witness :
  match fst (_chunk_prepared_source CHUNKED_BEFORE (chunked_world 6 7) (demo_config [] true)
               PREPARED_C) with
  | Ok records => _chunks_match_hash records (lit "c_pdf") = true
  | Raise _ => False
  end.
Proof.
  destruct (fst (_chunk_prepared_source CHUNKED_BEFORE (chunked_world 6 7)
                   (demo_config [] true) PREPARED_C)) as [records|msg] eqn:E.
  - apply (new_chunks_match_hash CHUNKED_BEFORE (chunked_world 6 7) (demo_config [] true)
             PREPARED_C records); [|exact E].
    intros produced Hp. vm_compute in Hp. inversion Hp; subst.
    constructor; [reflexivity|constructor].
  - vm_compute in E. discriminate.
Defined.

(** ** The final merge *)

Lemma merge_untouched_flat w : forall lists chunks seen,
  merge_untouched w lists chunks seen = keep_unseen w (concat lists) chunks seen.
Proof.
  assert (Happ : forall a b chunks seen,
            keep_unseen w (a ++ b) chunks seen
            = keep_unseen w b (fst (keep_unseen w a chunks seen))
                (snd (keep_unseen w a chunks seen))).
  { induction a as [|x a IH]; intros b chunks seen; [reflexivity|].
    cbn [app keep_unseen]. destruct (existsb (str_eqb (chunk_id x)) seen); [apply IH|].
    destruct (exists_ w (markdown_path x)); apply IH. }
  induction lists as [|l lists IH]; intros chunks seen; [reflexivity|].
  cbn [merge_untouched concat]. rewrite Happ.
  change ((fix inner (l0 chunks0 : list ChunkRecord) (seen0 : list str) {struct l0} :
             list ChunkRecord * list str :=
             match l0 with
             | [] => (chunks0, seen0)
             | chunk :: l' =>
                 if existsb (str_eqb (chunk_id chunk)) seen0
                 then inner l' chunks0 seen0
                 else if exists_ w (markdown_path chunk)
                      then inner l' (chunks0 ++ [chunk]) (seen0 ++ [chunk_id chunk])
                      else inner l' chunks0 seen0
             end) l chunks seen) with (keep_unseen w l chunks seen).
  destruct (keep_unseen w l chunks seen) as [c1 s1]. cbn [fst snd]. apply IH.
Qed.

Lemma keep_unseen_adds w : forall l chunks seen,
  exists added,
    fst (keep_unseen w l chunks seen) = chunks ++ added
    /\ snd (keep_unseen w l chunks seen) = seen ++ map chunk_id added
    /\ NoDup (map chunk_id added)
    /\ Forall (fun chunk => In chunk l /\ exists_ w (markdown_path chunk) = true
                            /\ ~ In (chunk_id chunk) seen) added
    /\ (forall chunk, In chunk l -> exists_ w (markdown_path chunk) = true ->
          In (chunk_id chunk) (seen ++ map chunk_id added)).
Proof.
  induction l as [|x l IH]; intros chunks seen.
  - exists []. cbn. rewrite !app_nil_r. repeat split; try constructor. intros ch [].
  - cbn [keep_unseen]. destruct (existsb (str_eqb (chunk_id x)) seen) eqn:Eseen.
    + destruct (IH chunks seen) as (added & H1 & H2 & H3 & H4 & H5).
      exists added. split; [exact H1|]. split; [exact H2|]. split; [exact H3|]. split.
      * eapply Forall_impl; [|exact H4]. intros ch (Ha & Hb & Hc). split; [now right|now split].
      * intros ch [->|Hin] Hex; [|now apply H5].
        apply in_or_app. left. now apply existsb_str_eqb.
    + apply existsb_str_eqb_false in Eseen.
      destruct (exists_ w (markdown_path x)) eqn:Ex.
      * destruct (IH (chunks ++ [x]) (seen ++ [chunk_id x]))
          as (added & H1 & H2 & H3 & H4 & H5).
        exists (x :: added). cbn [map].
        split; [rewrite H1, <- app_assoc; reflexivity|].
        split; [rewrite H2, <- app_assoc; reflexivity|].
        split.
        { constructor; [|exact H3]. intros Hin. apply in_map_iff in Hin.
          destruct Hin as (y & Hy & Hyin). rewrite Forall_forall in H4.
          destruct (H4 y Hyin) as (_ & _ & Hn). apply Hn. apply in_or_app. right.
          left. now symmetry. }
        split.
        { constructor; [split; [now left|now split]|].
          eapply Forall_impl; [|exact H4]. intros ch (Ha & Hb & Hc).
          split; [now right|]. split; [exact Hb|].
          intros Hs. apply Hc. apply in_or_app. now left. }
        intros ch [->|Hin] Hex.
        { apply in_or_app. right. now left. }
        specialize (H5 ch Hin Hex). rewrite <- app_assoc in H5. exact H5.
      * destruct (IH chunks seen) as (added & H1 & H2 & H3 & H4 & H5).
        exists added. split; [exact H1|]. split; [exact H2|]. split; [exact H3|]. split.
        -- eapply Forall_impl; [|exact H4]. intros ch (Ha & Hb & Hc).
           split; [now right|now split].
        -- intros ch [->|Hin] Hex; [congruence|now apply H5].
Qed.

(** X20.  The final merge keeps the chunks gathered so far and adds, of the
    recorded chunks left in the map, those whose file exists and whose id
    has not been seen, each id once; so a list of chunks with distinct ids,
    all of them seen, stays a list with distinct ids.  Every recorded chunk
    left in the map whose file exists ends with its id among the seen. *)
Theorem merge_untouched_adds_unseen (w : World) (lists : list (list ChunkRecord))
    (gathered : list ChunkRecord) (seen : list str) :
  exists added,
    fst (merge_untouched w lists gathered seen) = gathered ++ added
    /\ snd (merge_untouched w lists gathered seen) = seen ++ map chunk_id added
    /\ NoDup (map chunk_id added)
    /\ Forall (fun chunk => In chunk (concat lists)
                            /\ exists_ w (markdown_path chunk) = true
                            /\ ~ In (chunk_id chunk) seen) added
    /\ (forall chunk, In chunk (concat lists) -> exists_ w (markdown_path chunk) = true ->
          In (chunk_id chunk) (snd (merge_untouched w lists gathered seen)))
    /\ (NoDup (map chunk_id gathered) -> incl (map chunk_id gathered) seen ->
        NoDup (map chunk_id (fst (merge_untouched w lists gathered seen)))).
Proof.
  rewrite merge_untouched_flat.
  destruct (keep_unseen_adds w (concat lists) gathered seen)
    as (added & H1 & H2 & H3 & H4 & H5).
  exists added. split; [exact H1|]. split; [exact H2|]. split; [exact H3|].
  split; [exact H4|]. split; [rewrite H2; exact H5|].
  intros Hnd Hincl. rewrite H1, map_app. apply NoDup_app; [exact Hnd|exact H3|].
  intros k Hk Hk'. apply in_map_iff in Hk'. destruct Hk' as (y & <- & Hy).
  rewrite Forall_forall in H4. destruct (H4 y Hy) as (_ & _ & Hn).
  apply Hn. now apply Hincl.
Qed.

(** ** A run without chunking *)

Lemma prepare_one_no_chunking X c r src r' :
  enable_chunking c = false -> prepare_one X c r src = Ok r' ->
  run_chunks r' = run_chunks r /\ prepared_lookup r' = prepared_lookup r.
Proof.
  intros Hc. unfold prepare_one. rewrite Hc. cbn [andb negb].
  destruct (_copy_original X (world r) src (originals_dir c) _) as [[copied|msg] w1];
    [|discriminate].
  destruct (_artifacts_up_to_date w1 copied _ _).
  - intros H. inversion H; subst. now split.
  - destruct (_prepare_source_file X w1 c copied _ _) as [[prepared|exc] w3];
      intros H; inversion H; subst; now split.
Qed.

Lemma prepare_all_no_chunking X c : forall uploads r r',
  enable_chunking c = false -> fst (prepare_all X c r uploads) = Ok r' ->
  run_chunks r' = run_chunks r /\ prepared_lookup r' = prepared_lookup r.
Proof.
  induction uploads as [|src rest IH]; intros r r' Hc H; cbn [prepare_all] in H.
  - cbn [fst] in H. inversion H; subst. now split.
  - destruct (prepare_one X c r src) as [r1|msg] eqn:H1; [|discriminate].
    destruct (prepare_one_no_chunking X c r src r1 Hc H1) as [<- <-].
    now apply IH.
Qed.

(** X21.  With chunking disabled a run that returns a manifest returns one
    without chunks and with the flag false, whatever it converted and
    extracted. *)
Theorem no_chunking_empty_manifest (X : Ext) (w : World) (c : ConversionConfig)
    (m : CorpusManifest) :
  enable_chunking c = false ->
  fst (run_conversion_pipeline X w c) = Ok m ->
  chunks m = [] /\ needs_embedding_refresh m = false
  /\ output_dir m = cfg_output_dir c /\ uploads_dir m = input_dir c.
Proof.
  intros Hc. unfold run_conversion_pipeline.
  destruct (discover X c) as [|u us].
  { cbn [fst]. intros H. inversion H; subst. repeat split. }
  unfold prepared_run. rewrite Hc.
  match goal with |- context [prepare_all X c ?r0 ?ups] =>
    pose proof (prepare_all_no_chunking X c ups r0) as Hinv;
    destruct (prepare_all X c r0 ups) as [[r1|msg] w1] end; [|discriminate].
  destruct (Hinv r1 Hc eq_refl) as [Hch _]. cbn [run_chunks] in Hch.
  destruct (errors r1); [|discriminate].
  cbn [fst]. intros H. inversion H; subst.
  cbn [chunks needs_embedding_refresh output_dir uploads_dir].
  split; [exact Hch|]. repeat split.
Qed.

Lemma no_chunking_empty_manifest_witness :
  match fst (run_conversion_pipeline CHUNKED_BEFORE (chunked_world 3 7)
               (demo_config [] false)) with
  | Ok m => chunks m = [] /\ needs_embedding_refresh m = false
            /\ output_dir m = OUT /\ uploads_dir m = IN
  | Raise _ => False
  end.
Proof.
  destruct (fst (run_conversion_pipeline CHUNKED_BEFORE (chunked_world 3 7)
                   (demo_config [] false))) as [m|msg] eqn:E.
  - exact (no_chunking_empty_manifest CHUNKED_BEFORE (chunked_world 3 7)
             (demo_config [] false) m eq_refl E).
  - vm_compute in E. discriminate.
Defined.

(** ** The order of completion *)

Lemma chunk_raises_iff X w c p e :
  fst (_chunk_prepared_source X w c p) = Raise e <-> chunk_error X p = Some e.
Proof.
  split.
  - intros H. destruct (chunk_error X p) as [e'|] eqn:He.
    + rewrite (chunk_prepared_fails X w c p e' He) in H. congruence.
    + destruct (chunk_prepared_succeeds X w c p He) as (records & _ & Hok).
      rewrite Hok in H. discriminate.
  - apply chunk_prepared_fails.
Qed.

(** X22.  The failures the chunking stage collects are the same whatever
    the order in which the units complete: what the stage adds to the
    errors of the run is a rearrangement of what it adds when the units are
    handled in the order of the queue, and a message is added exactly for
    the units whose chunking raises, that of a unit being [Failed to chunk
    <markdown>: <error>]. *)
Theorem chunk_failures_any_order (X : Ext) (c : ConversionConfig) (r : Run)
    (units : list (str * PreparedSource)) :
  exists added queued,
    errors (chunk_all X c r (handled_units X units)) = errors r ++ added
    /\ errors (chunk_all X c r units) = errors r ++ queued
    /\ Permutation added queued
    /\ (forall m,
          In m added
          <-> exists u exc,
                In u units
                /\ (forall w0, fst (_chunk_prepared_source X w0 c (snd u)) = Raise exc)
                /\ m = chunk_failure (ps_markdown_path (snd u)) exc).
Proof.
  exists (chunk_failures X (handled_units X units)), (chunk_failures X units).
  split; [apply chunk_all_errors|]. split; [apply chunk_all_errors|].
  assert (Hperm : Permutation (chunk_failures X (handled_units X units))
                    (chunk_failures X units)).
  { unfold chunk_failures. apply Permutation_flat_map, handled_units_permutation. }
  split; [exact Hperm|].
  intros m. split.
  - intros Hin. apply (Permutation_in _ Hperm) in Hin.
    unfold chunk_failures in Hin. apply in_flat_map in Hin.
    destruct Hin as (u & Hu & Hm).
    destruct (chunk_error X (snd u)) as [exc|] eqn:He; [|destruct Hm].
    destruct Hm as [<-|[]]. exists u, exc. split; [exact Hu|].
    split; [intros w0; now apply chunk_raises_iff|reflexivity].
  - intros (u & exc & Hu & Hr & ->).
    apply (Permutation_in _ (Permutation_sym Hperm)).
    unfold chunk_failures. apply in_flat_map. exists u. split; [exact Hu|].
    specialize (Hr (world r)). apply chunk_raises_iff in Hr. rewrite Hr. now left.
Qed.

End ChunkExtras.
(* ===================================================================== *)
(** * The runner: the chain after a source has been processed *)
(* ===================================================================== *)

Module RerunExtras.

Import Rewriter Runner RunnerSpec MoreSpec Demo DemoRun.
Import PyFacts ConvertFacts FreshFacts ArtifactExtras.

(** ** The world under the file operations *)

Lemma mtime_touch w p q :
  mtime (touch w p) q = if str_eqb q p then Some (now w) else mtime w q.
Proof. reflexivity. Qed.

Lemma mtime_copy2 w s d q :
  mtime (copy2 w s d) q = if str_eqb q d then mtime w s else mtime w q.
Proof. reflexivity. Qed.

Lemma clock_ahead_record w a : clock_ahead w -> clock_ahead (record w a).
Proof. intros H q t Hq. exact (H q t Hq). Qed.

Lemma clock_ahead_touch w p : clock_ahead w -> clock_ahead (touch w p).
Proof.
  intros H q t Hq. rewrite mtime_touch in Hq. cbn [now touch].
  destruct (str_eqb q p); [inversion Hq; lia|]. specialize (H q t Hq). lia.
Qed.

Lemma clock_ahead_copy2 w s d : clock_ahead w -> clock_ahead (copy2 w s d).
Proof.
  intros H q t Hq. rewrite mtime_copy2 in Hq. cbn [now copy2 record].
  destruct (str_eqb q d); [exact (H s t Hq)|exact (H q t Hq)].
Qed.

Lemma clock_ahead_unlink w p : clock_ahead w -> clock_ahead (unlink w p).
Proof.
  intros H q t Hq. rewrite mtime_unlink in Hq. cbn [now unlink record].
  destruct (str_eqb q p); [discriminate|exact (H q t Hq)].
Qed.

Lemma clock_ahead_with_cache w f : clock_ahead w -> clock_ahead (with_cache w f).
Proof. intros H q t Hq. exact (H q t Hq). Qed.

Lemma clock_ahead_after_failure w pdf msg partial :
  clock_ahead w -> clock_ahead (after_failure w pdf msg partial).
Proof.
  intros H. unfold after_failure.
  assert (H2 : clock_ahead (if partial then touch w pdf else w)).
  { destruct partial; [now apply clock_ahead_touch|exact H]. }
  match goal with |- context [if exists_ ?w3 pdf then _ else _] =>
    destruct (exists_ w3 pdf) end;
    [apply clock_ahead_unlink|]; now apply clock_ahead_record.
Qed.

Lemma mtime_after_failure w pdf msg partial q :
  q <> pdf -> mtime (after_failure w pdf msg partial) q = mtime w q.
Proof.
  intros Hq. apply str_eqb_neq in Hq. unfold after_failure.
  match goal with |- context [if exists_ ?w3 pdf then _ else _] =>
    destruct (exists_ w3 pdf) end; rewrite ?mtime_unlink, ?Hq;
    destruct partial; cbn [record mtime]; rewrite ?mtime_touch, ?Hq; reflexivity.
Qed.

Lemma clock_ahead_warned : forall warned w,
  clock_ahead w -> clock_ahead (fold_left record warned w).
Proof.
  induction warned as [|a warned IH]; intros w H; [exact H|].
  cbn [fold_left]. apply IH. now apply clock_ahead_record.
Qed.

Lemma mtime_warned : forall warned w, mtime (fold_left record warned w) = mtime w.
Proof.
  induction warned as [|a warned IH]; intros w; [reflexivity|].
  cbn [fold_left]. now rewrite IH.
Qed.

Lemma world_of_clock files T :
  Forall (fun kv => (snd kv <= T)%Z) files -> clock_ahead (world_of files T).
Proof.
  intros H q t Hq. unfold world_of in *. cbn [mtime now] in *.
  induction H as [|[k v] rest Hv _ IH]; [discriminate|].
  cbn [dict_get] in Hq. destruct (str_eqb k q); [inversion Hq; subst; exact Hv|exact (IH Hq)].
Qed.

Lemma attempts_in_wrote (ps : list Path) (d : list Action) :
  attempts_in (map Wrote ps ++ d) = attempts_in d.
Proof. induction ps as [|p ps IH]; [reflexivity|exact IH]. Qed.

(** ** The paths of the four directories *)

Lemma lit_originals : lit "originals" = 111%N :: lit "riginals".
Proof. reflexivity. Qed.
Lemma lit_converted : lit "converted" = 99%N :: 111%N :: lit "nverted".
Proof. reflexivity. Qed.
Lemma lit_markdown : lit "markdown" = 109%N :: lit "arkdown".
Proof. reflexivity. Qed.
Lemma lit_chunk_markdown : lit "chunk_markdown" = 99%N :: 104%N :: lit "unk_markdown".
Proof. reflexivity. Qed.

Section Paths.

Variable c : ConversionConfig.
Variables name hash suffix : str.

Lemma copy_not_pdf : pjoin (originals_dir c) name <> pdf_of c hash.
Proof.
  unfold pdf_of, markdown_of, originals_dir, converted_dir, markdown_dir, chunks_dir, pjoin.
  rewrite ?lit_originals, ?lit_converted, ?lit_markdown, ?lit_chunk_markdown.
  rewrite <- !app_assoc.
  intros H. apply app_inv_head in H. cbn [app] in H. discriminate H.
Qed.

Lemma copy_not_markdown : pjoin (originals_dir c) name <> markdown_of c hash.
Proof.
  unfold pdf_of, markdown_of, originals_dir, converted_dir, markdown_dir, chunks_dir, pjoin.
  rewrite ?lit_originals, ?lit_converted, ?lit_markdown, ?lit_chunk_markdown.
  rewrite <- !app_assoc.
  intros H. apply app_inv_head in H. cbn [app] in H. discriminate H.
Qed.

Lemma pdf_not_markdown : pdf_of c hash <> markdown_of c hash.
Proof.
  unfold pdf_of, markdown_of, originals_dir, converted_dir, markdown_dir, chunks_dir, pjoin.
  rewrite ?lit_originals, ?lit_converted, ?lit_markdown, ?lit_chunk_markdown.
  rewrite <- !app_assoc.
  intros H. apply app_inv_head in H. cbn [app] in H. discriminate H.
Qed.

Lemma copy_not_chunk : pjoin (originals_dir c) name <> pjoin (chunks_dir c) suffix.
Proof.
  unfold pdf_of, markdown_of, originals_dir, converted_dir, markdown_dir, chunks_dir, pjoin.
  rewrite ?lit_originals, ?lit_converted, ?lit_markdown, ?lit_chunk_markdown.
  rewrite <- !app_assoc.
  intros H. apply app_inv_head in H. cbn [app] in H. discriminate H.
Qed.

Lemma pdf_not_chunk : pdf_of c hash <> pjoin (chunks_dir c) suffix.
Proof.
  unfold pdf_of, markdown_of, originals_dir, converted_dir, markdown_dir, chunks_dir, pjoin.
  rewrite ?lit_originals, ?lit_converted, ?lit_markdown, ?lit_chunk_markdown.
  rewrite <- !app_assoc.
  intros H. apply app_inv_head in H. cbn [app] in H. discriminate H.
Qed.

Lemma markdown_not_chunk : markdown_of c hash <> pjoin (chunks_dir c) suffix.
Proof.
  unfold pdf_of, markdown_of, originals_dir, converted_dir, markdown_dir, chunks_dir, pjoin.
  rewrite ?lit_originals, ?lit_converted, ?lit_markdown, ?lit_chunk_markdown.
  rewrite <- !app_assoc.
  intros H. apply app_inv_head in H. cbn [app] in H. discriminate H.
Qed.

Lemma copy_not_scratch : under (scratch_dir c hash) (pjoin (originals_dir c) name) = false.
Proof.
  unfold under. apply orb_false_iff. split.
  - apply str_eqb_neq.
    unfold scratch_dir, originals_dir, converted_dir, markdown_dir, chunks_dir, pjoin.
    match goal with |- context [path_stem ?x] => generalize (path_stem x) end.
    intros stem.
    rewrite ?lit_originals, ?lit_converted, ?lit_markdown, ?lit_chunk_markdown.
    rewrite <- !app_assoc.
    intros H. apply app_inv_head in H. cbn [app] in H. discriminate H.
  - destruct (startswith (scratch_dir c hash ++ [SLASH]) (pjoin (originals_dir c) name))
      eqn:E; [|reflexivity].
    exfalso. apply ScanFacts.startswith_app in E. destruct E as (post & E). revert E.
    unfold scratch_dir, originals_dir, converted_dir, markdown_dir, chunks_dir, pjoin.
    match goal with |- context [path_stem ?x] => generalize (path_stem x) end.
    intros stem.
    rewrite ?lit_originals, ?lit_converted, ?lit_markdown, ?lit_chunk_markdown.
    rewrite <- !app_assoc.
    intros H. apply app_inv_head in H. cbn [app] in H. discriminate H.
Qed.

Lemma pdf_not_scratch : under (scratch_dir c hash) (pdf_of c hash) = false.
Proof.
  unfold under. apply orb_false_iff. split.
  - apply str_eqb_neq.
    unfold scratch_dir, pdf_of, originals_dir, converted_dir, markdown_dir, chunks_dir, pjoin.
    match goal with |- context [path_stem ?x] => generalize (path_stem x) end.
    intros stem.
    rewrite ?lit_originals, ?lit_converted, ?lit_markdown, ?lit_chunk_markdown.
    rewrite <- !app_assoc.
    intros H. apply app_inv_head in H. cbn [app] in H. discriminate H.
  - destruct (startswith (scratch_dir c hash ++ [SLASH]) (pdf_of c hash))
      eqn:E; [|reflexivity].
    exfalso. apply ScanFacts.startswith_app in E. destruct E as (post & E). revert E.
    unfold scratch_dir, pdf_of, originals_dir, converted_dir, markdown_dir, chunks_dir, pjoin.
    match goal with |- context [path_stem ?x] => generalize (path_stem x) end.
    intros stem.
    rewrite ?lit_originals, ?lit_converted, ?lit_markdown, ?lit_chunk_markdown.
    rewrite <- !app_assoc.
    intros H. apply app_inv_head in H. cbn [app] in H. discriminate H.
Qed.

End Paths.

(** ** Conversion keeps the order of copy and PDF *)

Lemma loop_leaves_order X copied pdf_path : forall remaining attempt v last p v' last',
  clock_ahead v -> (exists t, mtime v copied = Some t) -> copied <> pdf_path ->
  conversion_loop X remaining attempt v copied pdf_path last = (Ok p, v', last') ->
  clock_ahead v'
  /\ exists tc tp, mtime v' copied = Some tc /\ mtime v' pdf_path = Some tp /\ (tc <= tp)%Z.
Proof.
  induction remaining as [|remaining IH]; intros attempt v last p v' last' Hclock (t & Ht) Hne H;
    cbn [conversion_loop] in H; [discriminate|].
  destruct (converter X copied attempt) as [produced|msg partial].
  - assert (Hv : v' = after_success (record v (Converted copied attempt)) pdf_path produced)
      by (inversion H; reflexivity).
    rewrite Hv. clear H Hv. unfold after_success.
    set (v1 := record v (Converted copied attempt)).
    assert (Hc1 : clock_ahead v1) by now apply clock_ahead_record.
    assert (Ht1 : (t <= now v1)%Z) by exact (Hclock copied t Ht).
    destruct (str_eqb produced pdf_path) eqn:Ep.
    + apply str_eqb_eq in Ep. rewrite Ep.
      split; [now apply clock_ahead_touch|].
      exists t, (now v1). rewrite !mtime_touch, str_eqb_refl.
      apply str_eqb_neq in Hne. rewrite Hne. repeat split; [exact Ht|exact Ht1].
    + split; [apply clock_ahead_copy2; now apply clock_ahead_touch|].
      rewrite !mtime_copy2, !mtime_touch, !str_eqb_refl.
      apply str_eqb_neq in Hne. rewrite Hne.
      destruct (str_eqb copied produced).
      * exists (now v1), (now v1). repeat split. lia.
      * exists t, (now v1). repeat split; [exact Ht|exact Ht1].
  - apply (IH _ _ _ _ _ _) in H; [exact H| | |exact Hne].
    + apply clock_ahead_after_failure. now apply clock_ahead_record.
    + exists t. now rewrite mtime_after_failure.
Qed.

Lemma convert_leaves_order X w copied converted options hash tc p wA :
  clock_ahead w -> mtime w copied = Some tc ->
  copied <> pjoin converted (hash ++ lit ".pdf") ->
  (str_eqb (suffix_lower X copied) PDF_EXTENSION = true
   \/ forall tp, mtime w (pjoin converted (hash ++ lit ".pdf")) = Some tp -> (tc <= tp)%Z) ->
  _convert_to_pdf X w copied converted true options hash = (Ok p, wA) ->
  p = pjoin converted (hash ++ lit ".pdf")
  /\ clock_ahead wA
  /\ exists tc' tp, mtime wA copied = Some tc'
                    /\ mtime wA (pjoin converted (hash ++ lit ".pdf")) = Some tp
                    /\ (tc' <= tp)%Z.
Proof.
  intros Hclock Hc Hne Hpdf. unfold _convert_to_pdf.
  set (pdf_path := pjoin converted (hash ++ lit ".pdf")) in *.
  destruct (str_eqb (suffix_lower X copied) PDF_EXTENSION) eqn:Hext.
  - rewrite Hc. destruct (mtime w pdf_path) as [tp|] eqn:Hp.
    + unfold older. destruct (tp <? tc)%Z eqn:Hlt; intros H; inversion H; subst.
      * split; [reflexivity|]. split; [now apply clock_ahead_copy2|].
        exists tc, tc. rewrite !mtime_copy2, str_eqb_refl, Hc.
        destruct (str_eqb copied pdf_path); repeat split; lia.
      * split; [reflexivity|]. split; [exact Hclock|].
        exists tc, tp. apply Z.ltb_ge in Hlt. repeat split; assumption.
    + intros H. inversion H; subst. split; [reflexivity|].
      split; [now apply clock_ahead_copy2|].
      exists tc, tc. rewrite !mtime_copy2, str_eqb_refl, Hc.
      destruct (str_eqb copied pdf_path); repeat split; lia.
  - destruct Hpdf as [Hpdf|Hpdf]; [discriminate|].
    destruct (exists_ w pdf_path) eqn:Hex.
    { unfold exists_ in Hex. destruct (mtime w pdf_path) as [tp|] eqn:Hp; [|discriminate].
      specialize (Hpdf tp eq_refl).
      intros H. inversion H; subst. split; [reflexivity|]. split; [exact Hclock|].
      exists tc, tp. repeat split; assumption. }
    cbn [negb].
    destruct (attempt_ceiling X options (suffix_lower X copied)) as [[attempts warned]|m0];
      [|discriminate].
    destruct (conversion_loop X (Z.to_nat attempts) 1 (fold_left record warned w) copied
                pdf_path None) as [[[p'|m] w'] last] eqn:Hloop; [|discriminate].
    intros H. inversion H; subst.
    destruct (loop_success X copied pdf_path _ _ _ _ _ _ _ Hloop) as [-> _].
    split; [reflexivity|].
    apply (loop_leaves_order X copied pdf_path _ _ _ _ _ _ _) in Hloop;
      [exact Hloop|now apply clock_ahead_warned| |exact Hne].
    exists tc. now rewrite mtime_warned.
Qed.

(** ** Writing the chunks *)

Lemma write_chunks_frame c p : forall produced w q,
  (forall suffix, q <> pjoin (chunks_dir c) suffix) ->
  mtime (snd (write_chunks w c p produced)) q = mtime w q.
Proof.
  induction produced as [|[[suffix text] meta] rest IH]; intros w q Hq; [reflexivity|].
  cbn [write_chunks].
  match goal with |- context [write_chunks ?w1 c p rest] =>
    specialize (IH w1 q Hq); destruct (write_chunks w1 c p rest) as [records w2] end.
  cbn [snd] in *. rewrite IH. cbn [record mtime]. rewrite mtime_touch.
  specialize (Hq ((lit "chnk_" ++ suffix) ++ lit ".md")). apply str_eqb_neq in Hq.
  now rewrite Hq.
Qed.

Lemma write_chunks_later c p : forall produced w q t (T : Z),
  (T <= now w)%Z -> mtime w q = Some t -> (T <= t)%Z ->
  exists t', mtime (snd (write_chunks w c p produced)) q = Some t' /\ (T <= t')%Z.
Proof.
  induction produced as [|[[suffix text] meta] rest IH]; intros w q t T HT Hq Ht;
    [now exists t|].
  cbn [write_chunks].
  set (path := pjoin (chunks_dir c) ((lit "chnk_" ++ suffix) ++ lit ".md")).
  set (w1 := record (touch w path) (Wrote path)).
  assert (H1 : exists t1, mtime w1 q = Some t1 /\ (T <= t1)%Z).
  { unfold w1. cbn [record mtime]. rewrite mtime_touch.
    destruct (str_eqb q path); [exists (now w); now split|now exists t]. }
  destruct H1 as (t1 & Hq1 & Ht1).
  assert (HT1 : (T <= now w1)%Z) by (unfold w1; cbn [record now touch]; lia).
  specialize (IH w1 q t1 T HT1 Hq1 Ht1).
  destruct (write_chunks w1 c p rest) as [records w2]. exact IH.
Qed.

Lemma write_chunks_fresh c p : forall produced w (T : Z),
  (T <= now w)%Z ->
  Forall (fun record => exists t, mtime (snd (write_chunks w c p produced))
                                    (markdown_path record) = Some t /\ (T <= t)%Z)
         (fst (write_chunks w c p produced)).
Proof.
  induction produced as [|[[suffix text] meta] rest IH]; intros w T HT; [constructor|].
  cbn [write_chunks].
  set (path := pjoin (chunks_dir c) ((lit "chnk_" ++ suffix) ++ lit ".md")).
  set (w1 := record (touch w path) (Wrote path)).
  assert (HT1 : (T <= now w1)%Z) by (unfold w1; cbn [record now touch]; lia).
  pose proof (IH w1 T HT1) as Hrest.
  assert (Hhead : mtime w1 path = Some (now w)).
  { unfold w1. cbn [record mtime]. now rewrite mtime_touch, str_eqb_refl. }
  pose proof (write_chunks_later c p rest w1 path (now w) T HT1 Hhead HT) as Hh.
  destruct (write_chunks w1 c p rest) as [records w2]. cbn [fst snd] in *.
  constructor; [exact Hh|exact Hrest].
Qed.

Section Processed.

Variable X : Ext.
Variable c : ConversionConfig.
Variables name rel hash : str.

Let copied := pjoin (originals_dir c) name.

(** A markdown that was rendered came from an extraction that produced a
    file, read by a rewriter that did not raise. *)
Lemma render_ok_inv wA pdf_path md assets w1 :
  _render_markdown_and_assets X wA pdf_path c hash = (Ok (md, assets), w1) ->
  exists run first rest,
    extractor X = Some run
    /\ run pdf_path = Ok (first :: rest)
    /\ rewrite_error (rewriter_env X (pjoin (scratch_dir c hash) first))
         (read_text X (pjoin (scratch_dir c hash) first)) = None.
Proof.
  intros Hr.
  destruct (extractor X) as [run|] eqn:Hx;
    [|unfold _render_markdown_and_assets in Hr; rewrite Hx in Hr; discriminate].
  destruct (run pdf_path) as [names|m] eqn:Hrun;
    [|unfold _render_markdown_and_assets in Hr; rewrite Hx, Hrun in Hr; discriminate].
  rewrite (render_eq X wA pdf_path c hash run names Hx Hrun) in Hr. cbv zeta in Hr.
  destruct names as [|first rest]; [discriminate|].
  destruct (rewrite_error _ _) eqn:He; [discriminate|].
  exists run, first, rest. repeat split; assumption.
Qed.

(** What preparing and chunking leave of the times of copy, PDF and
    markdown, given the world the conversion left. *)
Lemma render_then_chunk wA pdf_path prepared w1 records w2 :
  pdf_path = pdf_of c hash ->
  _render_markdown_and_assets X wA pdf_path c hash
  = (Ok (ps_markdown_path prepared, ps_media_assets prepared), w1) ->
  _chunk_prepared_source X w1 c prepared = (Ok records, w2) ->
  mtime w2 copied = mtime wA copied
  /\ mtime w2 (pdf_of c hash) = mtime wA (pdf_of c hash)
  /\ (exists tm, mtime w2 (markdown_of c hash) = Some tm
                 /\ (now wA <= tm)%Z
                 /\ Forall (fun record => exists t, mtime w2 (markdown_path record) = Some t
                                                    /\ (tm <= t)%Z) records)
  /\ records <> []
  /\ attempts_of w2 = attempts_of wA.
Proof.
  intros -> Hr Hch.
  destruct (render_ok_inv _ _ _ _ _ Hr) as (run & first & rest & Hx & Hrun & He).
  pose proof (render_writes_markdown X wA (pdf_of c hash) c hash run first rest Hx Hrun He)
    as Hw.
  cbv zeta in Hw. rewrite Hr in Hw. cbn [fst snd] in Hw.
  destruct Hw as (_ & Hd1 & Hmd & Hn1 & Hm1).
  set (tm := (now wA + 1 + Z.of_nat (length (first :: rest)))%Z) in *.
  unfold _chunk_prepared_source in Hch.
  destruct (chunk_markdown X prepared) as [produced|msg]; [|discriminate].
  pose proof (write_chunks_frame c prepared produced
                (record w1 (Chunked (ps_markdown_path prepared)))) as Hframe.
  pose proof (write_chunks_fresh c prepared produced
                (record w1 (Chunked (ps_markdown_path prepared))) tm) as Hfresh.
  pose proof (write_chunks_done c prepared produced
                (record w1 (Chunked (ps_markdown_path prepared)))) as Hd.
  destruct (write_chunks _ c prepared produced) as [rs w2'].
  cbn [fst snd] in Hframe, Hfresh, Hd.
  destruct rs as [|r rs]; [discriminate|]. inversion Hch; subst records w2'. clear Hch.
  split; [|split; [|split; [|split]]].
  - rewrite Hframe by (intros s; apply copy_not_chunk). cbn [record mtime].
    apply Hm1; [apply copy_not_markdown|apply copy_not_scratch].
  - rewrite Hframe by (intros s; apply pdf_not_chunk). cbn [record mtime].
    apply Hm1; [apply pdf_not_markdown|apply pdf_not_scratch].
  - exists tm. split; [|split].
    + rewrite Hframe by (intros s; apply markdown_not_chunk). cbn [record mtime].
      exact Hmd.
    + unfold tm. lia.
    + apply Hfresh. cbn [record now]. rewrite Hn1. unfold tm. lia.
  - discriminate.
  - unfold attempts_of. rewrite Hd. cbn [record done]. rewrite Hd1.
    rewrite <- map_rev, <- (map_map markdown_path Wrote), attempts_in_wrote.
    cbn [attempts_in].
    destruct (exists_ wA (scratch_dir c hash)); reflexivity.
Qed.

Lemma prepare_splits w prepared w1 :
  _prepare_source_file X w c copied rel hash = (Ok prepared, w1) ->
  exists pdf_path wA,
    _convert_to_pdf X w copied (converted_dir c) true (extra_options c) hash
    = (Ok pdf_path, wA)
    /\ _render_markdown_and_assets X wA pdf_path c hash
       = (Ok (ps_markdown_path prepared, ps_media_assets prepared), w1).
Proof.
  unfold _prepare_source_file.
  destruct (_convert_to_pdf X w copied (converted_dir c) true (extra_options c) hash)
    as [[pdf_path|msg] wA]; [|discriminate].
  destruct (_render_markdown_and_assets X wA pdf_path c hash) as [[[md assets]|msg] w1']
    eqn:Hr; [|discriminate].
  intros H. inversion H; subst. cbn [ps_markdown_path ps_media_assets].
  exists pdf_path, wA. split; [reflexivity|]. exact Hr.
Qed.

End Processed.

(** X23.  Let no file carry a time ahead of the clock, and let a copy in
    the originals directory be prepared and then chunked, both with
    success, where the copy is a PDF or its converted PDF is missing or not
    older than the copy.  Then the chain is fresh afterwards:
    [_should_skip_reprocessing] holds for the copy, its PDF, its markdown
    and the chunk records just written. *)
Theorem processed_source_is_fresh (X : Ext) (c : ConversionConfig) (w : World)
    (name rel hash : str) (tc : Z) (prepared : PreparedSource) (w1 : World)
    (records : list ChunkRecord) (w2 : World) :
  clock_ahead w ->
  mtime w (pjoin (originals_dir c) name) = Some tc ->
  (str_eqb (suffix_lower X (pjoin (originals_dir c) name)) PDF_EXTENSION = true
   \/ forall tp, mtime w (pdf_of c hash) = Some tp -> (tc <= tp)%Z) ->
  _prepare_source_file X w c (pjoin (originals_dir c) name) rel hash = (Ok prepared, w1) ->
  _chunk_prepared_source X w1 c prepared = (Ok records, w2) ->
  _should_skip_reprocessing w2 (pjoin (originals_dir c) name) (pdf_of c hash)
    (markdown_of c hash) records = true.
Proof.
  intros Hclock Hc Hpdf Hprep Hchunk.
  destruct (prepare_splits X c name rel hash w prepared w1 Hprep) as (pdf_path & wA & Hconv & Hr).
  destruct (convert_leaves_order X w _ (converted_dir c) (extra_options c) hash tc pdf_path wA
              Hclock Hc (copy_not_pdf c name hash) Hpdf Hconv)
    as (Hp & HclockA & tc' & tp & Hc' & Hp' & Hle).
  destruct (render_then_chunk X c name hash wA pdf_path prepared w1 records w2 Hp Hr Hchunk)
    as (H1 & H2 & (tm & H3 & Htm & Hall) & Hne & _).
  apply should_skip_iff. split; [exact Hne|].
  exists tc', tp, tm. fold (pdf_of c hash) in Hp'.
  split; [now rewrite H1|]. split; [now rewrite H2|]. split; [exact Hle|].
  split; [exact H3|]. split; [|exact Hall].
  pose proof (HclockA _ _ Hp'). lia.
Qed.

Lemma processed_source_is_fresh_witness :
  _should_skip_reprocessing
    (snd (_chunk_prepared_source CHUNKED_BEFORE
            (snd (_prepare_source_file CHUNKED_BEFORE (chunked_world 9 8) (demo_config [] true)
                    (pjoin (originals_dir (demo_config [] true)) (lit "c_pdf.pdf"))
                    (lit "c.pdf") (lit "c_pdf")))
            (demo_config [] true) PREPARED_C))
    (pjoin (originals_dir (demo_config [] true)) (lit "c_pdf.pdf"))
    (pdf_of (demo_config [] true) (lit "c_pdf"))
    (markdown_of (demo_config [] true) (lit "c_pdf"))
    [{| chunk_id := lit "chnk_c_pdf_0000";
        source_path := lit "/out/originals/c_pdf.pdf";
        markdown_path := lit "/out/chunk_markdown/chnk_c_pdf_0000.md";
        metadata := [(lit "source_rel", MetaStr (lit "c.pdf"));
                     (lit "source_hash", MetaStr (lit "c_pdf"))] |}]
  = true.
Proof.
  apply (processed_source_is_fresh CHUNKED_BEFORE (demo_config [] true) (chunked_world 9 8)
           (lit "c_pdf.pdf") (lit "c.pdf") (lit "c_pdf") 5%Z PREPARED_C
           (snd (_prepare_source_file CHUNKED_BEFORE (chunked_world 9 8) (demo_config [] true)
                   (pjoin (originals_dir (demo_config [] true)) (lit "c_pdf.pdf"))
                   (lit "c.pdf") (lit "c_pdf")))).
  - apply world_of_clock. repeat constructor; cbn [snd]; lia.
  - reflexivity.
  - left. reflexivity.
  - reflexivity.
  - reflexivity.
Defined.

(** X24.  A copy that is no PDF and whose converted PDF exists but is older
    than the copy is prepared with that PDF as it is; so after it has been
    prepared and chunked the chain is still not fresh, and the source will
    be processed again. *)
Theorem stale_pdf_stays_stale (X : Ext) (c : ConversionConfig) (w : World)
    (name rel hash : str) (tc tp : Z) (prepared : PreparedSource) (w1 : World)
    (records : list ChunkRecord) (w2 : World) :
  str_eqb (suffix_lower X (pjoin (originals_dir c) name)) PDF_EXTENSION = false ->
  mtime w (pjoin (originals_dir c) name) = Some tc ->
  mtime w (pdf_of c hash) = Some tp ->
  (tp < tc)%Z ->
  _prepare_source_file X w c (pjoin (originals_dir c) name) rel hash = (Ok prepared, w1) ->
  _chunk_prepared_source X w1 c prepared = (Ok records, w2) ->
  attempts_of w2 = attempts_of w
  /\ mtime w2 (pdf_of c hash) = Some tp
  /\ _should_skip_reprocessing w2 (pjoin (originals_dir c) name) (pdf_of c hash)
       (markdown_of c hash) records = false.
Proof.
  intros Hext Hc Hp Hlt Hprep Hchunk.
  destruct (prepare_splits X c name rel hash w prepared w1 Hprep) as (pdf_path & wA & Hconv & Hr).
  assert (Hex : exists_ w (pjoin (converted_dir c) (hash ++ lit ".pdf")) = true).
  { unfold exists_. fold (pdf_of c hash). now rewrite Hp. }
  rewrite (convert_reuses_existing X w _ (converted_dir c) true (extra_options c) hash Hext Hex)
    in Hconv.
  inversion Hconv; subst pdf_path wA. clear Hconv.
  destruct (render_then_chunk X c name hash w _ prepared w1 records w2 eq_refl Hr Hchunk)
    as (H1 & H2 & _ & Hne & Hatt).
  split; [|split].
  - exact Hatt.
  - now rewrite H2.
  - unfold _should_skip_reprocessing. destruct records as [|r rs]; [reflexivity|].
    rewrite H1, Hc, H2, Hp. unfold older.
    apply Z.ltb_lt in Hlt. now rewrite Hlt.
Qed.

Lemma stale_pdf_stays_stale_witness :
  _should_skip_reprocessing
    (snd (_chunk_prepared_source
            (demo_ext always_fails (Some extracts_one) (demo_chunker [] []) [] JsonlAbsent)
            (snd (_prepare_source_file
                    (demo_ext always_fails (Some extracts_one) (demo_chunker [] []) []
                       JsonlAbsent)
                    (world_of [(lit "/out/originals/a_docx.docx", 9%Z);
                               (lit "/out/converted/a_docx.pdf", 7%Z)] 20)
                    (demo_config [] true)
                    (pjoin (originals_dir (demo_config [] true)) (lit "a_docx.docx"))
                    (lit "a.docx") (lit "a_docx")))
            (demo_config [] true)
            {| ps_source_path := lit "/out/originals/a_docx.docx";
               ps_markdown_path := lit "/out/markdown/a_docx.md";
               ps_media_assets := [];
               ps_source_rel := lit "a.docx";
               ps_source_hash := lit "a_docx" |}))
    (pjoin (originals_dir (demo_config [] true)) (lit "a_docx.docx"))
    (pdf_of (demo_config [] true) (lit "a_docx"))
    (markdown_of (demo_config [] true) (lit "a_docx"))
    [{| chunk_id := lit "chnk_a_docx_0000";
        source_path := lit "/out/originals/a_docx.docx";
        markdown_path := lit "/out/chunk_markdown/chnk_a_docx_0000.md";
        metadata := [(lit "source_rel", MetaStr (lit "a.docx"));
                     (lit "source_hash", MetaStr (lit "a_docx"))] |}]
  = false.
Proof.
  apply (stale_pdf_stays_stale
           (demo_ext always_fails (Some extracts_one) (demo_chunker [] []) [] JsonlAbsent)
           (demo_config [] true)
           (world_of [(lit "/out/originals/a_docx.docx", 9%Z);
                      (lit "/out/converted/a_docx.pdf", 7%Z)] 20)
           (lit "a_docx.docx") (lit "a.docx") (lit "a_docx") 9%Z 7%Z
           {| ps_source_path := lit "/out/originals/a_docx.docx";
              ps_markdown_path := lit "/out/markdown/a_docx.md";
              ps_media_assets := [];
              ps_source_rel := lit "a.docx";
              ps_source_hash := lit "a_docx" |}
           (snd (_prepare_source_file
                   (demo_ext always_fails (Some extracts_one) (demo_chunker [] []) []
                      JsonlAbsent)
                   (world_of [(lit "/out/originals/a_docx.docx", 9%Z);
                              (lit "/out/converted/a_docx.pdf", 7%Z)] 20)
                   (demo_config [] true)
                   (pjoin (originals_dir (demo_config [] true)) (lit "a_docx.docx"))
                   (lit "a.docx") (lit "a_docx")))); reflexivity.
Defined.

End RerunExtras.
